(** * DDKCORE: the block service and the transaction pool

    A shallow embedding of [core/service/block.ts] (class [BlockService])
    and of the transaction pool service that is shipped in the same source
    file (class [TransactionPoolService]), together with the properties of
    the block pipeline and of the mempool that the specification states.

    JavaScript numbers that hold slot numbers, heights, amounts and fees are
    whole numbers and are modelled as [Z]; the totals that [verifyPayload]
    adds up are doubles ([JsNumber]); strings are [string];
    a [Buffer] is a [list Byte.byte].  Code that threads the node's mutable
    singletons (account repository, pool, block storage, round repository)
    is written in a small state-and-exception monad over a [World]. *)

From Stdlib Require Import ZArith List String Ascii Lia Bool Sorted Permutation.
From stdpp Require Import base list gmap strings pretty.
Import ListNotations.
Open Scope Z_scope.

(** ** JavaScript values used by the services *)

(** [ResponseEntity<T>]: the envelope every handler returns.  [success] is
    derived from [errors], as [verifyBlock] relies on when it builds the
    response from its error list and then tests [response.success]. *)
Module ResponseEntity.
Record t (T : Type) := mk { data : option T; errors : list string }.
Arguments mk {T} _ _.
Arguments data {T} _.
Arguments errors {T} _.
End ResponseEntity.
Abbreviation ResponseEntity := ResponseEntity.t.
Abbreviation mkResponse := ResponseEntity.mk.

Definition success {T} (r : ResponseEntity T) : bool :=
  match ResponseEntity.errors r with [] => true | _ :: _ => false end.

(** [new ResponseEntity()] and [new ResponseEntity({ errors })]. *)
Definition ok {T} : ResponseEntity T := mkResponse None [].
Definition failure {T} (errs : list string) : ResponseEntity T := mkResponse None errs.

(** Truthiness of a JS string. *)
Definition truthy (s : string) : bool :=
  match s with EmptyString => false | String _ _ => true end.

(** Outcome of running a piece of JS: it returns, it throws, or the bound
    on loop iterations given to the model was too small. *)
Inductive Completion (A : Type) :=
| Normal (a : A)
| Throw (e : string)
| OutOfFuel.
Arguments Normal {A} _.
Arguments Throw {A} _.
Arguments OutOfFuel {A}.

(** Outcome of a call placed in a [try] block. *)
Inductive Try (A : Type) :=
| Returned (a : A)
| Thrown (e : string).
Arguments Returned {A} _.
Arguments Thrown {A} _.

(** ** Buffers *)

Abbreviation Buffer := (list Byte.byte).

Definition byte_of_Z (z : Z) : Byte.byte :=
  match Byte.of_N (Z.to_N (Z.land z 255)) with
  | Some b => b
  | None => Byte.x00
  end.

(** The [n] low-order bytes of [v], least significant first (two's
    complement for a negative [v]). *)
Fixpoint le_bytes (n : nat) (v : Z) : Buffer :=
  match n with
  | O => []
  | S n' => byte_of_Z v :: le_bytes n' (Z.shiftr v 8)
  end.

(** [Buffer.alloc(size)]: zero-filled. *)
Definition Buffer_alloc (size : Z) : Buffer := replicate (Z.to_nat size) Byte.x00.

(** A write of [bs] into [buf] at [offset], in place. *)
Definition Buffer_write (buf : Buffer) (offset : Z) (bs : Buffer) : Buffer :=
  take (Z.to_nat offset) buf ++ bs ++ drop (Z.to_nat offset + length bs) buf.

Definition hexval (c : ascii) : option Z :=
  let n := Z.of_nat (nat_of_ascii c) in
  if (48 <=? n) && (n <=? 57) then Some (n - 48)
  else if (97 <=? n) && (n <=? 102) then Some (n - 87)
  else if (65 <=? n) && (n <=? 70) then Some (n - 55)
  else None.

(** [Buffer.from(s, 'hex')]: decodes pairs of hex digits and stops at the
    first pair that is not hexadecimal; a trailing single digit is dropped. *)
Fixpoint Buffer_from_hex (s : string) : Buffer :=
  match s with
  | String a (String b rest) =>
      match hexval a, hexval b with
      | Some x, Some y => byte_of_Z (16 * x + y) :: Buffer_from_hex rest
      | _, _ => []
      end
  | _ => []
  end.

Definition hexdigit (n : Z) : ascii :=
  ascii_of_nat (Z.to_nat (if n <? 10 then 48 + n else 87 + n)).

(** [buf.toString('hex')]. *)
Fixpoint Buffer_to_hex (buf : Buffer) : string :=
  match buf with
  | [] => EmptyString
  | b :: rest =>
      let n := Z.of_N (Byte.to_N b) in
      String (hexdigit (n / 16)) (String (hexdigit (n mod 16)) (Buffer_to_hex rest))
  end.

(** [Buffer.concat(list)]. *)
Definition Buffer_concat (parts : list Buffer) : Buffer := concat parts.

(** Modelled from the spec: [core/util/buffer] ([BUFFER]) is not among the
    sources.  Its field lengths carry their sizes in their names, and the
    writers are the little-endian writers of section 6 ("Block canonical
    byte layout (little-endian ...)"): each writes the low-order bytes of
    its value at [offset] and returns the offset that follows them. *)
Module BUFFER.
Module LENGTH.
Definition UINT32 : Z := 4.
Definition INT64 : Z := 8.
End LENGTH.

Definition writeInt32LE (buf : Buffer) (value offset : Z) : Buffer * Z :=
  (Buffer_write buf offset (le_bytes 4 value), offset + 4).

Definition writeUInt64LE (buf : Buffer) (value offset : Z) : Buffer * Z :=
  (Buffer_write buf offset (le_bytes 8 value), offset + 8).
End BUFFER.

(** ** Numbers that are added up *)

(** The amounts and fees of the data model are whole numbers and are
    modelled as [Z].  A sum that JS computes is a double: the exact sum
    rounded to the nearest double, to the one with the even significand
    when two are as near, and infinite beyond the largest double.  Every
    whole number up to 2^53 in magnitude is a double. *)
Inductive JsNumber :=
| Finite (n : Z)
| PlusInfinity
| MinusInfinity.

(** The double nearest to the whole number [n]: its 53 leading bits,
    rounded. *)
Definition Number_of_Z (n : Z) : JsNumber :=
  let m := Z.abs n in
  let e := Z.log2 m - 52 in
  if e <=? 0 then Finite n
  else
    let q := Z.shiftr m e in
    let r := m - Z.shiftl q e in
    let half := Z.shiftl 1 (e - 1) in
    let q := if (r >? half) || ((r =? half) && Z.odd q) then q + 1 else q in
    let v := Z.shiftl q e in
    if v >=? 2 ^ 1024 then (if n <? 0 then MinusInfinity else PlusInfinity)
    else Finite (Z.sgn n * v).

(** [x + y] for a double [x] and a whole double [y]. *)
Definition Number_add (x : JsNumber) (y : Z) : JsNumber :=
  match x with
  | Finite n => Number_of_Z (n + y)
  | _ => x
  end.

(** [x !== y] is false. *)
Definition Number_eqb (x : JsNumber) (y : Z) : bool :=
  match x with
  | Finite n => n =? y
  | _ => false
  end.

(** [Number::toString] on a whole double: the value [v] with the fewest
    significant digits that is read back as the double, the nearest one
    when several are; its digits when there are at most 21 of them, and
    the exponent notation beyond. *)
Definition readsBack (m v : Z) : bool :=
  match Number_of_Z v with
  | Finite m' => m' =? m
  | _ => false
  end.

Definition shortestWith (m : Z) (k : Z) : option Z :=
  let p := 10 ^ (Z.of_nat (String.length (pretty m)) - k) in
  let below := m / p * p in
  let above := below + p in
  match readsBack m below, readsBack m above with
  | true, true => Some (if m - below <=? above - m then below else above)
  | true, false => Some below
  | false, true => Some above
  | false, false => None
  end.

Fixpoint shortestFrom (m : Z) (k : Z) (fuel : nat) : Z :=
  match fuel with
  | O => m
  | S fuel' =>
      match shortestWith m k with
      | Some v => v
      | None => shortestFrom m (k + 1) fuel'
      end
  end.

Definition shortest (m : Z) : Z := shortestFrom m 1 (String.length (pretty m)).

Fixpoint stripZeros (fuel : nat) (v : Z) : Z :=
  match fuel with
  | O => v
  | S fuel' => if (v mod 10 =? 0) && negb (v =? 0) then stripZeros fuel' (v / 10) else v
  end.

Definition positiveToString (m : Z) : string :=
  let v := shortest m in
  let n := Z.of_nat (String.length (pretty v)) in
  if n <=? 21 then pretty v
  else
    match pretty (stripZeros (String.length (pretty v)) v) with
    | String d EmptyString => String d ("e+" +:+ pretty (n - 1))
    | String d rest => String d ("." +:+ rest +:+ "e+" +:+ pretty (n - 1))
    | EmptyString => EmptyString
    end.

Definition Number_toString (x : JsNumber) : string :=
  match x with
  | Finite n =>
      if n =? 0 then "0"
      else if n <? 0 then "-" +:+ positiveToString (- n)
      else positiveToString n
  | PlusInfinity => "Infinity"
  | MinusInfinity => "-Infinity"
  end.

(** ** Data model ([shared/model]) *)

Abbreviation Address := Z.
Abbreviation PublicKey := string.
Abbreviation TransactionId := string.

(** Modelled from the spec: [shared/model/transaction] is not among the
    sources.  The tags are those of section 3; [typeCode] is the number a
    tag stands for, which [transactionSortFunc] compares. *)
Inductive TransactionType :=
| REGISTER | SEND | SIGNATURE | DELEGATE | STAKE | SENDSTAKE | VOTE.

Definition typeCode (t : TransactionType) : Z :=
  match t with
  | REGISTER => 0
  | SEND => 10
  | SIGNATURE => 20
  | DELEGATE => 30
  | STAKE => 40
  | SENDSTAKE => 50
  | VOTE => 60
  end.

Global Instance TransactionType_eq_dec : EqDecision TransactionType.
Proof. solve_decision. Defined.

Inductive TransactionStatus :=
| CREATED | QUEUED | PUT_IN_POOL | UNCONFIRM_APPLIED | CONFIRMED.

(** The asset is the type-discriminated payload of a transaction: the
    fields the two services read are [recipientAddress] and [amount] of a
    transfer, [reward], [unstake] and the keys of [airdropReward.sponsors]
    of a vote, and the sponsors of a stake.  [sponsors] is a JS [Map], so
    its keys are distinct. *)
Inductive Asset :=
| AssetRegister
| AssetTransfer (recipientAddress : Address) (amount : Z)
| AssetSignature
| AssetDelegate (username : string)
| AssetStake (sponsors : gmap Address Z)
| AssetSendStake
| AssetVote (reward unstake : Z) (sponsors : gmap Address Z).

Definition assetType (a : Asset) : TransactionType :=
  match a with
  | AssetRegister => REGISTER
  | AssetTransfer _ _ => SEND
  | AssetSignature => SIGNATURE
  | AssetDelegate _ => DELEGATE
  | AssetStake _ => STAKE
  | AssetSendStake => SENDSTAKE
  | AssetVote _ _ _ => VOTE
  end.

(** [[...sponsors.keys()]]. *)
Definition sponsorKeys (sponsors : gmap Address Z) : list Address :=
  (map_to_list sponsors).*1.

(** A transaction object.  [ref] is the identity of the JS object: two
    objects may carry the same [id], and [Array.prototype.indexOf] tells
    them apart. *)
Module Transaction.
Record t := mk {
  ref : positive;
  id : TransactionId;
  asset : Asset;
  senderPublicKey : PublicKey;
  senderAddress : Address;
  fee : Z;
  createdAt : Z;
  blockId : option string;
}.
Definition type (trs : t) : TransactionType := assetType (asset trs).
Definition with_fee (trs : t) (f : Z) : t :=
  mk (ref trs) (id trs) (asset trs) (senderPublicKey trs) (senderAddress trs)
     f (createdAt trs) (blockId trs).
Definition with_blockId (trs : t) (b : string) : t :=
  mk (ref trs) (id trs) (asset trs) (senderPublicKey trs) (senderAddress trs)
     (fee trs) (createdAt trs) (Some b).
End Transaction.
Abbreviation Transaction := Transaction.t.

(** ** A plain object used as a map from ids to transactions *)

(** The properties that every object inherits from [Object.prototype];
    all of them hold functions but [__proto__], which reads the prototype. *)
Definition Object_prototype_keys : list string :=
  ["constructor"; "__defineGetter__"; "__defineSetter__"; "hasOwnProperty";
   "__lookupGetter__"; "__lookupSetter__"; "isPrototypeOf"; "propertyIsEnumerable";
   "toString"; "valueOf"; "__proto__"; "toLocaleString"]%string.

(** An object that starts as [{}] and only receives transactions: the keys
    of its own properties, and its prototype, which is [Object.prototype]
    ([None]) until an assignment to [__proto__] puts a transaction there. *)
Record PlainObject := {
  ownKeys : list string;
  prototype : option Transaction;
}.

Definition emptyObject : PlainObject := {| ownKeys := []; prototype := None |}.

(** [object[key] = trs]. *)
Definition Object_set (object : PlainObject) (key : string) (trs : Transaction) : PlainObject :=
  if String.eqb key "__proto__"
  then {| ownKeys := ownKeys object; prototype := Some trs |}
  else {| ownKeys := key :: ownKeys object; prototype := prototype object |}.

(** Whether [object[key]] is truthy.  [inherited trs key] tells it of a
    property that is read through a transaction. *)
Definition Object_has (inherited : Transaction -> string -> bool)
           (object : PlainObject) (key : string) : bool :=
  String.eqb key "__proto__"
  || bool_decide (key ∈ ownKeys object)
  || match prototype object with
     | None => bool_decide (key ∈ Object_prototype_keys)
     | Some trs => inherited trs key
     end.

Module Block.
Record t := mk {
  id : string;
  version : Z;
  height : Z;
  previousBlockId : option string;
  createdAt : Z;
  generatorPublicKey : string;
  signature : string;
  payloadHash : string;
  transactionCount : Z;
  amount : Z;
  fee : Z;
  transactions : list Transaction;
}.
Definition with_transactions (b : t) (trss : list Transaction) : t :=
  mk (id b) (version b) (height b) (previousBlockId b) (createdAt b)
     (generatorPublicKey b) (signature b) (payloadHash b) (transactionCount b)
     (amount b) (fee b) trss.
Definition with_totals (b : t) (amount' fee' : Z) : t :=
  mk (id b) (version b) (height b) (previousBlockId b) (createdAt b)
     (generatorPublicKey b) (signature b) (payloadHash b) (transactionCount b)
     amount' fee' (transactions b).
Definition with_payloadHash (b : t) (h : string) : t :=
  mk (id b) (version b) (height b) (previousBlockId b) (createdAt b)
     (generatorPublicKey b) (signature b) h (transactionCount b)
     (amount b) (fee b) (transactions b).
Definition with_signature (b : t) (s : string) : t :=
  mk (id b) (version b) (height b) (previousBlockId b) (createdAt b)
     (generatorPublicKey b) s (payloadHash b) (transactionCount b)
     (amount b) (fee b) (transactions b).
Definition with_id (b : t) (i : string) : t :=
  mk i (version b) (height b) (previousBlockId b) (createdAt b)
     (generatorPublicKey b) (signature b) (payloadHash b) (transactionCount b)
     (amount b) (fee b) (transactions b).
End Block.
Abbreviation Block := Block.t.

(** ** Canonical bytes of a block ([BlockService.getBytes]) *)

Definition BLOCK_BUFFER_SIZE : Z :=
  BUFFER.LENGTH.UINT32 (* version *)
  + BUFFER.LENGTH.INT64 (* timestamp *)
  + BUFFER.LENGTH.UINT32 (* transactionCount *)
  + BUFFER.LENGTH.INT64 (* amount *)
  + BUFFER.LENGTH.INT64 (* fee *).

Definition getBytes (block : Block) (skipSignature : bool) : Buffer :=
  let buf := Buffer_alloc BLOCK_BUFFER_SIZE in
  let offset := 0 in
  let '(buf, offset) := BUFFER.writeInt32LE buf (Block.version block) offset in
  let '(buf, offset) := BUFFER.writeInt32LE buf (Block.createdAt block) offset in
  let '(buf, offset) := BUFFER.writeInt32LE buf (Block.transactionCount block) offset in
  let '(buf, offset) := BUFFER.writeUInt64LE buf (Block.amount block) offset in
  let '(buf, _) := BUFFER.writeUInt64LE buf (Block.fee block) offset in
  Buffer_concat [
    buf;
    Buffer_from_hex (match Block.previousBlockId block with
                     | Some p => if truthy p then p else ""
                     | None => ""
                     end);
    Buffer_from_hex (Block.payloadHash block);
    Buffer_from_hex (Block.generatorPublicKey block);
    Buffer_from_hex (if negb skipSignature && truthy (Block.signature block)
                     then Block.signature block else "")
  ].

(** ** Comparison of a received block with the last block *)

(** Modelled from the spec: [core/util/block] is not among the sources.
    The predicates that section 4.7.5 spells out are defined by its
    decision table, where L is the last block and R the received one, and
    [isNewer] by the sentence that follows the table: "Newer here means
    strictly earlier [createdAt]; on ties, the lexicographically lower id
    wins".  [isNext] ("R is the immediate next block of L") and
    [isBlockCanBeProcessed] ("block is eligible for processing") are not
    defined there and are parameters of [validateReceivedBlock]. *)
Module BlockUtil.
End BlockUtil.


Section ValidateReceivedBlock.
Import BlockUtil.
Variables isNext isBlockCanBeProcessed : Block -> Block -> bool.
(** [SyncService.getMyConsensus()] and [System.synchronization]. *)
Variables myConsensus synchronization : bool.

End ValidateReceivedBlock.

(** ** Rounds, accounts and the collaborators of the services *)

Record Slot := { slot : Z; isForged : bool }.

(** A round: [slots] maps a delegate public key to its slot. *)
Record Round := { slots : gmap string Slot }.

Module Account.
Record t := mk { address : Address; publicKey : option PublicKey }.
End Account.
Abbreviation Account := Account.t.

Module KeyPair.
Record t := mk { publicKey : Buffer; privateKey : Buffer }.
End KeyPair.
Abbreviation IKeyPair := KeyPair.t.

(** SHA-256 and the Ed25519 primitives of [sodium-native] are external.
    [crypto_sign_verify_detached] may throw; the text is [e.toString()]. *)
Class Crypto := {
  sha256 : Buffer -> Buffer;
  crypto_sign_verify_detached : Buffer -> Buffer -> Buffer -> Try bool;
  crypto_sign_detached : Buffer -> Buffer -> Buffer;
}.

(** Configuration constants and the services that the two classes call and
    that are not among the sources: the slot service, the delegate count,
    the fault-injection service, address derivation, the round service and
    the durable block repository, whose answers are the error lists of the
    responses it resolves to.  [truthyIn trs key] is whether [trs[key]] is
    truthy, by a property of the transaction object or one that it
    inherits: [shared/model/transaction] is not among the sources. *)
Class Env := {
  CURRENT_BLOCK_VERSION : Z;
  MAX_TRANSACTIONS_PER_BLOCK : Z;
  MIN_ROUND_BLOCK_HEIGHT : Z;
  getSlotNumber : Z -> Z;
  getActiveDelegatesCount : Z;
  isValidateBlockSlot : Z -> bool;
  getAddressByPublicKey : PublicKey -> Address;
  restoreToSlot : Z -> option Round * option Round -> option Round * option Round;
  batchSave : Block -> list string;
  deleteById : string -> list string;
  truthyIn : Transaction -> string -> bool;
}.

(** Modelled from the spec: [core/service/transaction] (the dispatcher,
    component C3) is not among the sources.  Section 4.3: "[applyUnconfirmed]
    mutates [u_balance] and unconfirmed secondary state; [undoUnconfirmed] is
    its exact inverse.  [apply] mutates confirmed [balance] and persistent
    state; [undo] is its inverse."  [Ledger] is that state: everything the
    handlers mutate.  A handler receives the transaction and the sender
    account it was handed, which is an entry of the account repository
    (named by its address) or [undefined]. *)
Class Dispatcher := {
  Ledger : Type;
  u_balance : Ledger -> Address -> Z;
  trsGetBytes : Transaction -> Try Buffer;
  verifyUnconfirmed : Transaction -> option Address -> Ledger -> list string;
  calculateFee : Transaction -> option Address -> Ledger -> Z;
  applyUnconfirmed : Transaction -> option Address -> Ledger -> Ledger;
  undoUnconfirmed : Transaction -> option Address -> Ledger -> Ledger;
  apply : Transaction -> option Address -> Ledger -> Ledger;
  undo : Transaction -> option Address -> Ledger -> Ledger;
}.

(** The contract of section 4.3 on the unconfirmed pair. *)
Class DispatcherLaws `{Dispatcher} := {
  undoUnconfirmed_applyUnconfirmed :
    forall trs sender l, undoUnconfirmed trs sender (applyUnconfirmed trs sender l) = l;
}.

(** ** Block verification ([BlockService.verifyBlock]) *)

Abbreviation timestampError := "Invalid block timestamp"%string.

Section Verify.
Context `{C : Crypto} `{E : Env} `{D : Dispatcher}.

Definition getHash (block : Block) (skipSignature : bool) : Buffer :=
  sha256 (getBytes block skipSignature).

Definition getId (block : Block) : string := Buffer_to_hex (getHash block false).

(** Each check appends to the shared [errors] array. *)
Definition verifySignature (block : Block) (errors : list string) : list string :=
  let hash := getHash block true in
  let blockSignatureBuffer := Buffer_from_hex (Block.signature block) in
  let generatorPublicKeyBuffer := Buffer_from_hex (Block.generatorPublicKey block) in
  let '(valid, errors) :=
    match crypto_sign_verify_detached blockSignatureBuffer hash generatorPublicKeyBuffer with
    | Returned v => (v, errors)
    | Thrown e => (false, errors ++ [e])
    end in
  if negb valid then errors ++ ["Failed to validate block signature"] else errors.

Definition verifyPreviousBlock (block : Block) (errors : list string) : list string :=
  let hasPrevious := match Block.previousBlockId block with
                     | Some p => truthy p
                     | None => false
                     end in
  if negb hasPrevious && negb (Block.height block =? 1)
  then errors ++ ["Invalid previous block"] else errors.

Definition verifyVersion (block : Block) (errors : list string) : list string :=
  let version := Block.version block in
  if negb (version =? CURRENT_BLOCK_VERSION)
  then errors ++ ["Invalid block version";
                  "No exceptions found. Block version doesn't match the current one."]
  else errors.

Definition verifyId (block : Block) (errors : list string) : list string :=
  let id := getId block in
  if negb (String.eqb (Block.id block) id)
  then errors ++ ["Block id is corrupted expected: " +:+ id +:+ " actual: " +:+ Block.id block]
  else errors.

(** The loop of [verifyPayload] over [block.transactions]: the bytes fed
    to the payload hash so far, the running totals, the object
    [appliedTransactions] and the errors. *)
Fixpoint verifyPayloadLoop (trss : list Transaction) (payload : Buffer)
         (totalAmount totalFee : JsNumber) (appliedTransactions : PlainObject)
         (errors : list string)
  : Buffer * JsNumber * JsNumber * list string :=
  match trss with
  | [] => (payload, totalAmount, totalFee, errors)
  | trs :: rest =>
      let '(bytes, errors) :=
        match trsGetBytes trs with
        | Returned b => (Some b, errors)
        | Thrown e => (None, errors ++ [e])
        end in
      let errors :=
        if Object_has truthyIn appliedTransactions (Transaction.id trs)
        then errors ++ ["Encountered duplicate transaction: " +:+ Transaction.id trs]
        else errors in
      let appliedTransactions :=
        Object_set appliedTransactions (Transaction.id trs) trs in
      let payload := match bytes with Some b => payload ++ b | None => payload end in
      let totalAmount :=
        match Transaction.asset trs with
        | AssetTransfer _ amount => Number_add totalAmount amount
        | _ => totalAmount
        end in
      let totalFee := Number_add totalFee (Transaction.fee trs) in
      verifyPayloadLoop rest payload totalAmount totalFee appliedTransactions errors
  end.

Definition verifyPayload (block : Block) (errors : list string) : list string :=
  let errors :=
    if negb (Z.of_nat (length (Block.transactions block)) =? Block.transactionCount block)
    then errors ++ ["Included transactions do not match block transactions count"]
    else errors in
  let errors :=
    if Z.of_nat (length (Block.transactions block)) >? MAX_TRANSACTIONS_PER_BLOCK
    then errors ++ ["Number of transactions exceeds maximum per block"]
    else errors in
  let '(payload, totalAmount, totalFee, errors) :=
    verifyPayloadLoop (Block.transactions block) [] (Finite 0) (Finite 0) emptyObject
      errors in
  let hex := Buffer_to_hex (sha256 payload) in
  let errors :=
    if negb (String.eqb hex (Block.payloadHash block))
    then errors ++ ["Invalid payload hash"] else errors in
  let errors :=
    if negb (Number_eqb totalAmount (Block.amount block))
    then errors ++ ["Invalid total amount"] else errors in
  if negb (Number_eqb totalFee (Block.fee block))
  then errors ++ ["Invalid total fee. Expected: " +:+ Number_toString totalFee
                  +:+ ", actual: " +:+ Number_toString (Finite (Block.fee block))]
  else errors.

(** [now] is the wall clock that [SlotService.getSlotNumber()] reads when
    it is called without a time. *)
Definition verifyBlockSlotNumber (now : Z) (receivedBlock lastBlock : Block)
           (errors : list string) : list string :=
  let receivedBlockSlotNumber := getSlotNumber (Block.createdAt receivedBlock) in
  let lastBlockSlotNumber := getSlotNumber (Block.createdAt lastBlock) in
  let currentSlotNumber := getSlotNumber now in
  let activeDelegatesCount := getActiveDelegatesCount in
  if (receivedBlockSlotNumber >? currentSlotNumber + activeDelegatesCount - 1)
     || (receivedBlockSlotNumber <=? lastBlockSlotNumber)
  then errors ++ ["Invalid block timestamp"] else errors.

(** [verifyBlock], given the last block of the storage. *)
Definition verifyBlock (now : Z) (lastBlock block : Block) (verify : bool)
  : ResponseEntity unit :=
  let errors := [] in
  let errors := if verify then verifySignature block errors else errors in
  let errors := verifyPreviousBlock block errors in
  let errors := verifyVersion block errors in
  let errors := if verify then verifyPayload block (verifyId block errors) else errors in
  let errors := verifyBlockSlotNumber now block lastBlock errors in
  failure (rev errors).

(** The slot of [block] lies in
    (lastBlockSlotNumber, currentSlotNumber + activeDelegatesCount - 1]. *)
Definition slotInRange (now : Z) (lastBlock block : Block) : Prop :=
  getSlotNumber (Block.createdAt lastBlock) < getSlotNumber (Block.createdAt block)
  /\ getSlotNumber (Block.createdAt block)
     <= getSlotNumber now + getActiveDelegatesCount - 1.

(** The texts of the exceptions caught while [block] is verified. *)
Definition caughtTexts (block : Block) (verify : bool) : list string :=
  if verify then
    match crypto_sign_verify_detached (Buffer_from_hex (Block.signature block))
            (getHash block true) (Buffer_from_hex (Block.generatorPublicKey block)) with
    | Thrown e => [e]
    | Returned _ => []
    end
    ++ flat_map (fun trs => match trsGetBytes trs with Thrown e => [e] | Returned _ => [] end)
         (Block.transactions block)
  else [].
End Verify.

(** The fixed portion of [getBytes]: the buffer after the five writes. *)
Definition fixedPortion (block : Block) : Buffer :=
  let buf := Buffer_alloc BLOCK_BUFFER_SIZE in
  let '(buf, offset) := BUFFER.writeInt32LE buf (Block.version block) 0 in
  let '(buf, offset) := BUFFER.writeInt32LE buf (Block.createdAt block) offset in
  let '(buf, offset) := BUFFER.writeInt32LE buf (Block.transactionCount block) offset in
  let '(buf, offset) := BUFFER.writeUInt64LE buf (Block.amount block) offset in
  let '(buf, _) := BUFFER.writeUInt64LE buf (Block.fee block) offset in
  buf.

(** The layout as section 6 of the specification words it: "u32 version;
    i32 createdAt; u32 transactionCount; u64 amount; u64 fee", then the
    hex-decoded fields, the signature "omitted when computing the signing
    hash".  It is compared with [getBytes] below. *)
Definition canonicalBytes_spec (block : Block) (skipSignature : bool) : Buffer :=
  le_bytes 4 (Block.version block)
  ++ le_bytes 4 (Block.createdAt block)
  ++ le_bytes 4 (Block.transactionCount block)
  ++ le_bytes 8 (Block.amount block)
  ++ le_bytes 8 (Block.fee block)
  ++ Buffer_from_hex (default "" (Block.previousBlockId block))
  ++ Buffer_from_hex (Block.payloadHash block)
  ++ Buffer_from_hex (Block.generatorPublicKey block)
  ++ (if skipSignature then [] else Buffer_from_hex (Block.signature block)).

(** ** Arrays and Maps of JavaScript *)

Section Arrays.
Context {A : Type} `{EqDecision A}.

(** [l.indexOf(x)]: the first index that holds [x], or -1. *)
Fixpoint Array_indexOf (x : A) (l : list A) : Z :=
  match l with
  | [] => -1
  | y :: ys =>
      if decide (y = x) then 0
      else let r := Array_indexOf x ys in if r <? 0 then -1 else r + 1
  end.

(** [l.splice(i, 1)] for an index [i] that [indexOf] returned. *)
Definition Array_splice1 (i : Z) (l : list A) : list A :=
  take (Z.to_nat i) l ++ drop (S (Z.to_nat i)) l.

(** [l.slice(0, end)]; a negative [end] counts from the end of [l]. *)
Definition Array_slice0 (end_ : Z) (l : list A) : list A :=
  let len := Z.of_nat (length l) in
  let k := if end_ <? 0 then Z.max (len + end_) 0 else Z.min end_ len in
  take (Z.to_nat k) l.

(** [l.sort(compare)]: the sort of the engine is stable; [x] is put
    before [y] when [compare(x, y) <= 0]. *)
Fixpoint Array_insert (compare : A -> A -> Z) (x : A) (l : list A) : list A :=
  match l with
  | [] => [x]
  | y :: ys => if compare x y <=? 0 then x :: y :: ys else y :: Array_insert compare x ys
  end.

Fixpoint Array_sort (compare : A -> A -> Z) (l : list A) : list A :=
  match l with
  | [] => []
  | x :: xs => Array_insert compare x (Array_sort compare xs)
  end.
End Arrays.

(** A JS [Map] with its insertion order: the list of its entries. *)
Section JsMap.
Context {K V : Type} `{EqDecision K}.

Definition Map_has (k : K) (m : list (K * V)) : bool := bool_decide (k ∈ m.*1).

Fixpoint Map_set (k : K) (v : V) (m : list (K * V)) : list (K * V) :=
  match m with
  | [] => [(k, v)]
  | (k', v') :: rest => if decide (k' = k) then (k, v) :: rest else (k', v') :: Map_set k v rest
  end.

Definition Map_delete (k : K) (m : list (K * V)) : list (K * V) :=
  filter (fun kv => kv.1 ≠ k) m.

Definition Map_values (m : list (K * V)) : list V := m.*2.
End JsMap.

Global Instance Asset_eq_dec : EqDecision Asset.
Proof. solve_decision. Defined.

Global Instance Transaction_eq_dec : EqDecision Transaction.
Proof. solve_decision. Defined.

(** Modelled from the spec: [core/util/transaction] is not among the
    sources.  Section 4.3: "[transactionSortFunc] (primary: type numeric
    ascending; tiebreakers: createdAt ascending, id lexicographic
    ascending)". *)
Definition transactionSortFunc (a b : Transaction) : Z :=
  if typeCode (Transaction.type a) <? typeCode (Transaction.type b) then -1
  else if typeCode (Transaction.type a) >? typeCode (Transaction.type b) then 1
  else if Transaction.createdAt a <? Transaction.createdAt b then -1
  else if Transaction.createdAt a >? Transaction.createdAt b then 1
  else match String.compare (Transaction.id a) (Transaction.id b) with
       | Lt => -1
       | Gt => 1
       | Eq => 0
       end.

(** ** The node: its mutable singletons and the calls it places *)

Inductive TransactionLifecycle :=
| PUSH_IN_POOL | POP_FOR_BLOCK | REMOVED_BY_SENDER_ADDRESS | REMOVED_BY_RECIPIENT_ADDRESS
| UNDO_BY_FAILED_APPLY.

Inductive BlockLifecycle :=
| PROCESS | VERIFY | APPLY | CREATE | UNDO | RECEIVE | VALIDATE.

(** The calls the services place on their collaborators, in order. *)
Inductive Event :=
| ApplyUnconfirmedCall (trs : Transaction) (sender : option Address)
| UndoUnconfirmedCall (trs : Transaction) (sender : option Address)
| ApplyCall (trs : Transaction) (sender : option Address)
| UndoCall (trs : Transaction) (sender : option Address)
| BatchSaveCall (block : Block)
| DeleteByIdCall (id : string)
| SendUnconfirmedTransaction (trs : Transaction)
| SendNewBlock (block : Block)
| SocketEmit (event : string) (block : Block)
| TransactionHistory (trs : Transaction) (action : TransactionLifecycle)
| BlockHistory (block : Block) (action : BlockLifecycle).

(** [MAX_BLOCK_IN_MEMORY] of [core/repository/system.ts]. *)
Definition MAX_BLOCK_IN_MEMORY : Z := 100.

Section Services.
Context `{C : Crypto} `{E : Env} `{D : Dispatcher}.

(** The state of the node.  [accounts] is the account repository, keyed
    by address; [ledger] is what the transaction handlers mutate; [pool],
    [poolByRecipient] and [poolBySender] are the three maps of the
    transaction pool; [status] holds the [status] field of the
    transaction objects, which the pool writes while the objects are
    shared; [queue] is the transaction queue; [lastNBlocks] is the window
    of the block storage, oldest first; [trace] records the calls. *)
Record World := mkWorld {
  accounts : gmap Address Account;
  ledger : Ledger;
  pool : list (TransactionId * Transaction);
  poolByRecipient : gmap Address (list Transaction);
  poolBySender : gmap Address (list Transaction);
  status : gmap positive TransactionStatus;
  queue : list Transaction;
  lastNBlocks : list Block;
  currentRound : option Round;
  prevRound : option Round;
  synchronization : bool;
  trace : list Event;
}.

Definition set_accounts (f : gmap Address Account -> gmap Address Account) (w : World) :=
  mkWorld (f (accounts w)) (ledger w) (pool w) (poolByRecipient w) (poolBySender w)
    (status w) (queue w) (lastNBlocks w) (currentRound w) (prevRound w)
    (synchronization w) (trace w).
Definition set_ledger (f : Ledger -> Ledger) (w : World) :=
  mkWorld (accounts w) (f (ledger w)) (pool w) (poolByRecipient w) (poolBySender w)
    (status w) (queue w) (lastNBlocks w) (currentRound w) (prevRound w)
    (synchronization w) (trace w).
Definition set_pool (f : list (TransactionId * Transaction) -> list (TransactionId * Transaction))
           (w : World) :=
  mkWorld (accounts w) (ledger w) (f (pool w)) (poolByRecipient w) (poolBySender w)
    (status w) (queue w) (lastNBlocks w) (currentRound w) (prevRound w)
    (synchronization w) (trace w).
Definition set_poolByRecipient
           (f : gmap Address (list Transaction) -> gmap Address (list Transaction)) (w : World) :=
  mkWorld (accounts w) (ledger w) (pool w) (f (poolByRecipient w)) (poolBySender w)
    (status w) (queue w) (lastNBlocks w) (currentRound w) (prevRound w)
    (synchronization w) (trace w).
Definition set_poolBySender
           (f : gmap Address (list Transaction) -> gmap Address (list Transaction)) (w : World) :=
  mkWorld (accounts w) (ledger w) (pool w) (poolByRecipient w) (f (poolBySender w))
    (status w) (queue w) (lastNBlocks w) (currentRound w) (prevRound w)
    (synchronization w) (trace w).
Definition set_status (f : gmap positive TransactionStatus -> gmap positive TransactionStatus)
           (w : World) :=
  mkWorld (accounts w) (ledger w) (pool w) (poolByRecipient w) (poolBySender w)
    (f (status w)) (queue w) (lastNBlocks w) (currentRound w) (prevRound w)
    (synchronization w) (trace w).
Definition set_queue (f : list Transaction -> list Transaction) (w : World) :=
  mkWorld (accounts w) (ledger w) (pool w) (poolByRecipient w) (poolBySender w)
    (status w) (f (queue w)) (lastNBlocks w) (currentRound w) (prevRound w)
    (synchronization w) (trace w).
Definition set_lastNBlocks (f : list Block -> list Block) (w : World) :=
  mkWorld (accounts w) (ledger w) (pool w) (poolByRecipient w) (poolBySender w)
    (status w) (queue w) (f (lastNBlocks w)) (currentRound w) (prevRound w)
    (synchronization w) (trace w).
Definition set_rounds (f : option Round * option Round -> option Round * option Round)
           (w : World) :=
  let r := f (currentRound w, prevRound w) in
  mkWorld (accounts w) (ledger w) (pool w) (poolByRecipient w) (poolBySender w)
    (status w) (queue w) (lastNBlocks w) r.1 r.2
    (synchronization w) (trace w).
Definition set_trace (f : list Event -> list Event) (w : World) :=
  mkWorld (accounts w) (ledger w) (pool w) (poolByRecipient w) (poolBySender w)
    (status w) (queue w) (lastNBlocks w) (currentRound w) (prevRound w)
    (synchronization w) (f (trace w)).

(** Computations over the node: state passing, with exceptions. *)
Definition M (A : Type) : Type := World -> Completion (A * World).

Definition ret {A} (a : A) : M A := fun w => Normal (a, w).

Definition bind {A B} (m : M A) (k : A -> M B) : M B :=
  fun w =>
    match m w with
    | Normal (a, w') => k a w'
    | Throw e => Throw e
    | OutOfFuel => OutOfFuel
    end.

Definition throw {A} (e : string) : M A := fun _ => Throw e.
Definition outOfFuel {A} : M A := fun _ => OutOfFuel.
Definition gets {A} (f : World -> A) : M A := fun w => Normal (f w, w).
Definition modify (f : World -> World) : M unit := fun w => Normal (tt, f w).
Definition emit (e : Event) : M unit := modify (set_trace (fun t => t ++ [e])).
End Services.

Declare Scope node_scope.
Delimit Scope node_scope with node.
Notation "x <- m ;; k" := (bind m (fun x => k))
  (at level 100, m at next level, right associativity) : node_scope.
Notation "m ;; k" := (bind m (fun _ => k))
  (at level 100, right associativity) : node_scope.

(** ** The block service *)

Section BlockService.
Context `{C : Crypto} `{E : Env} `{D : Dispatcher}.
Open Scope node_scope.

(** Modelled from the spec: [core/repository/account] is not among the
    sources.  Section 4.2: "In-memory dictionary keyed by address with a
    secondary index by public key.  Operations: [getByAddress],
    [getByPublicKey], [add({publicKey, address})] (idempotent; if an entry
    exists, merges a newly-learned public key)".  An address derives from
    its public key (section 3), and the lookup by public key goes through
    [getAddressByPublicKey], which [applyGenesisBlock] uses to register
    accounts.  A lookup yields the entry, named by its address, or
    nothing. *)
Definition getByAddress (address : Address) : M (option Address) :=
  gets (fun w => match accounts w !! address with
                 | Some _ => Some address
                 | None => None
                 end).

Definition getByPublicKey (pk : PublicKey) : M (option Address) :=
  getByAddress (getAddressByPublicKey pk).

Definition hasPublicKey (a : Account) : bool :=
  match Account.publicKey a with Some pk => truthy pk | None => false end.

Definition AccountRepo_add (pk : PublicKey) (address : Address) : M (option Address) :=
  modify (set_accounts (fun accs =>
    match accs !! address with
    | Some a => if hasPublicKey a then accs else <[address := Account.mk address (Some pk)]> accs
    | None => <[address := Account.mk address (Some pk)]> accs
    end)) ;;
  ret (Some address).

(** [sender.publicKey = pk] on the entry at [address]. *)
Definition setPublicKey (address : Address) (pk : PublicKey) : M unit :=
  modify (set_accounts (fun accs => <[address := Account.mk address (Some pk)]> accs)).

(** The calls on the dispatcher. *)
Definition TransactionDispatcher_verifyUnconfirmed (trs : Transaction) (sender : option Address)
  : M (ResponseEntity unit) :=
  gets (fun w => failure (verifyUnconfirmed trs sender (ledger w))).
Definition TransactionDispatcher_calculateFee (trs : Transaction) (sender : option Address)
  : M Z :=
  gets (fun w => calculateFee trs sender (ledger w)).
Definition TransactionDispatcher_applyUnconfirmed (trs : Transaction) (sender : option Address)
  : M unit :=
  modify (set_ledger (applyUnconfirmed trs sender)) ;; emit (ApplyUnconfirmedCall trs sender).
Definition TransactionDispatcher_undoUnconfirmed (trs : Transaction) (sender : option Address)
  : M unit :=
  modify (set_ledger (undoUnconfirmed trs sender)) ;; emit (UndoUnconfirmedCall trs sender).
Definition TransactionDispatcher_apply (trs : Transaction) (sender : option Address) : M unit :=
  modify (set_ledger (apply trs sender)) ;; emit (ApplyCall trs sender).
Definition TransactionDispatcher_undo (trs : Transaction) (sender : option Address) : M unit :=
  modify (set_ledger (undo trs sender)) ;; emit (UndoCall trs sender).

(** Modelled from the spec: [core/service/transactionQueue] is not among
    the sources.  Section 4.4: "FIFO of candidate transactions". *)
Definition TransactionQueue_push (trs : Transaction) : M unit :=
  modify (set_queue (fun q => q ++ [trs])).

(** Modelled from the spec: [core/service/blockStorage] is not among the
    sources.  Section 4.6: "Maintains a sliding window of the last N
    blocks (N = 100) in memory ... Operations: [getLast], [push(block)]
    (appends, evicts oldest beyond N), [popLast] (removes and returns
    prior block), [has(id)] (membership over the window)". *)
Definition BlockStorageService_getLast : M (option Block) :=
  gets (fun w => last (lastNBlocks w)).
Definition BlockStorageService_has (id : string) : M bool :=
  gets (fun w => existsb (fun b => String.eqb (Block.id b) id) (lastNBlocks w)).
Definition BlockStorageService_push (block : Block) : M unit :=
  modify (set_lastNBlocks (fun l =>
    let l := l ++ [block] in
    if Z.of_nat (length l) >? MAX_BLOCK_IN_MEMORY then drop 1 l else l)).
Definition BlockStorageService_popLast : M (option Block) :=
  modify (set_lastNBlocks (fun l => take (length l - 1) l)) ;;
  gets (fun w => last (lastNBlocks w)).

(** [RoundRepository.getCurrentRound().slots[key].isForged = forged]; it
    throws when there is no current round or no slot for [key]. *)
Definition setForged (key : string) (forged : bool) : M unit :=
  fun w =>
    match currentRound w with
    | None => Throw "TypeError: Cannot read property 'slots' of undefined"
    | Some round =>
        match slots round !! key with
        | None => Throw "TypeError: Cannot set property 'isForged' of undefined"
        | Some s =>
            Normal (tt, set_rounds (fun r =>
              (Some {| slots := <[key := {| slot := slot s; isForged := forged |}]> (slots round) |},
               r.2)) w)
        end
    end.

(** *** [checkTransactionsAndApplyUnconfirmed] *)

(** The first loop, from index [i] on.  It yields the transactions (the
    fee of a vote is rewritten when [verify] is off), the index at which
    the loop was left and the errors. *)
Fixpoint checkLoop (fuel : nat) (transactions : list Transaction) (verify : bool)
         (i : Z) (errors : list string) : M (list Transaction * Z * list string) :=
  if i <? Z.of_nat (length transactions) then
    match fuel with
    | O => outOfFuel
    | S fuel =>
        match transactions !! Z.to_nat i with
        | None => throw "TypeError: Cannot read property 'senderAddress' of undefined"
        | Some trs =>
            found <- getByAddress (Transaction.senderAddress trs) ;;
            sender <- match found with
                      | None =>
                          AccountRepo_add (Transaction.senderPublicKey trs)
                            (Transaction.senderAddress trs)
                      | Some a =>
                          known <- gets (fun w => match accounts w !! a with
                                                  | Some acc => hasPublicKey acc
                                                  | None => false
                                                  end) ;;
                          (if negb known
                           then setPublicKey a (Transaction.senderPublicKey trs)
                           else ret tt) ;;
                          ret (Some a)
                      end ;;
            if verify then
              verifyResult <- TransactionDispatcher_verifyUnconfirmed trs sender ;;
              if negb (success verifyResult) then
                (* errors.push(...verifyResult.errors); i--; break *)
                ret (transactions, i - 1, errors ++ ResponseEntity.errors verifyResult)
              else
                TransactionDispatcher_applyUnconfirmed trs sender ;;
                checkLoop fuel transactions verify (i + 1) errors
            else
              trs <- (if bool_decide (Transaction.type trs = VOTE)
                      then fee <- TransactionDispatcher_calculateFee trs sender ;;
                           ret (Transaction.with_fee trs fee)
                      else ret trs) ;;
              TransactionDispatcher_applyUnconfirmed trs sender ;;
              checkLoop fuel (<[Z.to_nat i := trs]> transactions) verify (i + 1) errors
        end
    end
  else ret (transactions, i, errors).

(** The second loop: [while (i >= 0)]. *)
Fixpoint rollbackLoop (fuel : nat) (transactions : list Transaction) (i : Z) : M unit :=
  if i >=? 0 then
    match fuel with
    | O => outOfFuel
    | S fuel =>
        match transactions !! Z.to_nat i with
        | None => throw "TypeError: Cannot read property 'senderPublicKey' of undefined"
        | Some trs =>
            sender <- getByPublicKey (Transaction.senderPublicKey trs) ;;
            TransactionDispatcher_undoUnconfirmed trs sender ;;
            rollbackLoop fuel transactions (i - 1)
        end
    end
  else ret tt.

Definition checkTransactionsAndApplyUnconfirmed (block : Block) (verify : bool)
  : M (Block * ResponseEntity unit) :=
  let errors := [] in
  let i := 0 in
  left <- checkLoop (length (Block.transactions block)) (Block.transactions block)
            verify i errors ;;
  let '(transactions, i, errors) := left in
  (if negb (Z.of_nat (length errors) =? 0)
   then rollbackLoop (Z.to_nat (i + 1)) transactions i
   else ret tt) ;;
  ret (Block.with_transactions block transactions, failure errors).

(** *** [verifyBlock] and [verifyBlockSlot] on the node *)

Definition BlockService_verifyBlock (now : Z) (block : Block) (verify : bool)
  : M (ResponseEntity unit) :=
  lastBlock <- BlockStorageService_getLast ;;
  match lastBlock with
  | None => throw "TypeError: Cannot read property 'createdAt' of undefined"
  | Some lastBlock => ret (verifyBlock now lastBlock block verify)
  end.

Definition verifyBlockSlot (block : Block) : M (ResponseEntity unit) :=
  let blockSlot := getSlotNumber (Block.createdAt block) in
  if (Block.height block =? 1) || negb (isValidateBlockSlot blockSlot) then ret ok
  else
    currentRound <- gets currentRound ;;
    match currentRound with
    | None => throw "TypeError: Cannot read property 'slots' of undefined"
    | Some currentRound =>
        match slots currentRound !! Block.generatorPublicKey block with
        | None => ret (failure ["GeneratorPublicKey does not exist in current round"])
        | Some generatorSlot =>
            if negb (blockSlot =? slot generatorSlot) then
              ret (failure ["blockSlot: " +:+ pretty blockSlot
                            +:+ " not equal with generatorSlot: "
                            +:+ pretty (slot generatorSlot)])
            else ret ok
        end
    end.

(** *** [addPayloadHash] and [applyBlock] *)

Fixpoint addPayloadHashLoop (transactions : list Transaction) (payload : Buffer)
         (amount fee : Z) : Try (Buffer * Z * Z) :=
  match transactions with
  | [] => Returned (payload, amount, fee)
  | transaction :: rest =>
      match trsGetBytes transaction with
      | Thrown e => Thrown e
      | Returned bytes =>
          let fee := fee + Transaction.fee transaction in
          let amount := match Transaction.asset transaction with
                        | AssetTransfer _ a => amount + a
                        | _ => amount
                        end in
          addPayloadHashLoop rest (payload ++ bytes) amount fee
      end
  end.

Definition calculateSignature (block : Block) (keyPair : IKeyPair) : string :=
  let blockHash := getHash block true in
  Buffer_to_hex (crypto_sign_detached blockHash (KeyPair.privateKey keyPair)).

Definition addPayloadHash (block : Block) (keyPair : IKeyPair)
  : M (Block * ResponseEntity Block) :=
  match addPayloadHashLoop (Block.transactions block) []
          (Block.amount block) (Block.fee block) with
  | Thrown e => throw e
  | Returned (payload, amount, fee) =>
      let block := Block.with_totals block amount fee in
      let block := Block.with_payloadHash block (Buffer_to_hex (sha256 payload)) in
      let block := Block.with_signature block (calculateSignature block keyPair) in
      let block := Block.with_id block (getId block) in
      let block := Block.with_transactions block
                     (map (fun transaction => Transaction.with_blockId transaction (Block.id block))
                          (Block.transactions block)) in
      emit (BlockHistory block CREATE) ;;
      ret (block, mkResponse (Some block) [])
  end.

Fixpoint applyLoop (transactions : list Transaction) : M unit :=
  match transactions with
  | [] => ret tt
  | trs :: rest =>
      sender <- getByPublicKey (Transaction.senderPublicKey trs) ;;
      TransactionDispatcher_apply trs sender ;;
      applyLoop rest
  end.

Definition applyBlock (block : Block) (broadcast : bool) (keyPair : option IKeyPair)
  : M (Block * ResponseEntity unit) :=
  prepared <- match keyPair with
              | Some keyPair => addPayloadHash block keyPair
              | None => ret (block, ok)
              end ;;
  let '(block, addPayloadHashResponse) := prepared in
  if negb (success addPayloadHashResponse) then
    ret (block, failure (ResponseEntity.errors addPayloadHashResponse ++ ["applyBlock"]))
  else
    emit (BatchSaveCall block) ;;
    let saveResult : ResponseEntity unit := failure (batchSave block) in
    if negb (success saveResult) then
      ret (block, failure (ResponseEntity.errors saveResult ++ ["applyBlock"]))
    else
      BlockStorageService_push block ;;
      emit (BlockHistory block APPLY) ;;
      applyLoop (Block.transactions block) ;;
      syncing <- gets synchronization ;;
      (if broadcast && negb syncing
       then emit (SocketEmit "APPLY_BLOCK" block) ;; emit (SendNewBlock block)
       else ret tt) ;;
      (if Block.height block >=? MIN_ROUND_BLOCK_HEIGHT
       then setForged (Block.generatorPublicKey block) true
       else ret tt) ;;
      ret (block, ok).

(** *** [process] *)

(** The recovery of [process] when [applyBlock] failed: over the
    reversed transactions. *)
Fixpoint undoByFailedApply (reversed : list Transaction) : M unit :=
  match reversed with
  | [] => ret tt
  | trs :: rest =>
      sender <- getByAddress (Transaction.senderAddress trs) ;;
      TransactionDispatcher_undoUnconfirmed trs sender ;;
      TransactionQueue_push trs ;;
      emit (TransactionHistory trs UNDO_BY_FAILED_APPLY) ;;
      undoByFailedApply rest
  end.

Definition process (now : Z) (block : Block) (broadcast : bool) (keyPair : option IKeyPair)
           (verify : bool) : M (Block * ResponseEntity unit) :=
  emit (BlockHistory block PROCESS) ;;
  rejected <-
    (if verify then
       emit (BlockHistory block VERIFY) ;;
       resultVerifyBlock <-
         BlockService_verifyBlock now block (match keyPair with None => true | Some _ => false end) ;;
       if negb (success resultVerifyBlock) then
         ret (Some (failure (ResponseEntity.errors resultVerifyBlock ++ ["process"])))
       else
         validationResponse <- verifyBlockSlot block ;;
         if negb (success validationResponse) then
           ret (Some (failure (ResponseEntity.errors validationResponse ++ ["process"])))
         else ret None
     else ret None) ;;
  match rejected with
  | Some response => ret (block, response)
  | None =>
      isExists <- BlockStorageService_has (Block.id block) ;;
      if isExists then
        ret (block, failure ["Block " +:+ Block.id block +:+ " already exists"])
      else
        checked <- checkTransactionsAndApplyUnconfirmed block verify ;;
        let '(block, resultCheckTransactions) := checked in
        if negb (success resultCheckTransactions) then
          ret (block, failure (ResponseEntity.errors resultCheckTransactions ++ ["process"]))
        else
          applied <- applyBlock block broadcast keyPair ;;
          let '(block, applyBlockResponse) := applied in
          if negb (success applyBlockResponse) then
            undoByFailedApply (rev (Block.transactions block)) ;;
            ret (block, failure (ResponseEntity.errors applyBlockResponse ++ ["process"]))
          else ret (block, ok)
  end.

(** *** [deleteLastBlock] *)

Fixpoint undoLoop (reversedTransactions : list Transaction) : M unit :=
  match reversedTransactions with
  | [] => ret tt
  | transaction :: rest =>
      sender <- getByAddress (Transaction.senderAddress transaction) ;;
      TransactionDispatcher_undo transaction sender ;;
      TransactionDispatcher_undoUnconfirmed transaction sender ;;
      undoLoop rest
  end.

Definition deleteLastBlock : M (ResponseEntity Block) :=
  lastBlock <- BlockStorageService_getLast ;;
  match lastBlock with
  | None => throw "TypeError: Cannot read property 'id' of undefined"
  | Some lastBlock =>
      if Block.height lastBlock =? 1 then
        ret (failure ["Cannot delete genesis block"])
      else
        emit (DeleteByIdCall (Block.id lastBlock)) ;;
        let deleteResult : ResponseEntity unit := failure (deleteById (Block.id lastBlock)) in
        if negb (success deleteResult) then
          ret (failure (ResponseEntity.errors deleteResult ++ ["deleteLastBlock"]))
        else
          modify (set_rounds (restoreToSlot (getSlotNumber (Block.createdAt lastBlock)))) ;;
          setForged (Block.generatorPublicKey lastBlock) false ;;
          newLastBlock <- BlockStorageService_popLast ;;
          emit (BlockHistory lastBlock UNDO) ;;
          undoLoop (rev (Block.transactions lastBlock)) ;;
          emit (SocketEmit "UNDO_BLOCK" lastBlock) ;;
          ret (mkResponse newLastBlock [])
  end.
End BlockService.

(** ** The transaction pool *)

Section TransactionPool.
Context `{C : Crypto} `{E : Env} `{D : Dispatcher}.
Open Scope node_scope.

(** [for (const x of list) body(x)] and [list.forEach(body)]. *)
Fixpoint forEach {A} (body : A -> M unit) (l : list A) : M unit :=
  match l with
  | [] => ret tt
  | x :: rest => body x ;; forEach body rest
  end.

Definition setStatus (trs : Transaction) (s : TransactionStatus) : M unit :=
  modify (set_status (fun m => <[Transaction.ref trs := s]> m)).

Definition getByRecipientAddress (recipientAddress : Address) : M (list Transaction) :=
  gets (fun w => default [] (poolByRecipient w !! recipientAddress)).

Definition getBySenderAddress (senderAddress : Address) : M (list Transaction) :=
  gets (fun w => default [] (poolBySender w !! senderAddress)).

Definition has (trs : Transaction) : M bool :=
  gets (fun w => Map_has (Transaction.id trs) (pool w)).

(** [if (!map.has(address)) map.set(address, []); map.get(address).push(trs)] *)
Definition pushToIndex (address : Address) (trs : Transaction)
           (m : gmap Address (list Transaction)) : gmap Address (list Transaction) :=
  let m := match m !! address with
           | Some _ => m
           | None => <[address := []]> m
           end in
  alter (fun l => l ++ [trs]) address m.

(** [if (map.has(address) && map.get(address).indexOf(trs) !== -1)
      map.get(address).splice(map.get(address).indexOf(trs), 1)] *)
Definition spliceFromIndex (address : Address) (trs : Transaction)
           (m : gmap Address (list Transaction)) : gmap Address (list Transaction) :=
  match m !! address with
  | Some l =>
      if negb (Array_indexOf trs l =? -1)
      then <[address := Array_splice1 (Array_indexOf trs l) l]> m
      else m
  | None => m
  end.

Definition addOneToPoolByRecipient (address : Address) (trs : Transaction) : M unit :=
  modify (set_poolByRecipient (pushToIndex address trs)).

Definition removeOneFromPoolByRecipient (address : Address) (trs : Transaction) : M unit :=
  modify (set_poolByRecipient (spliceFromIndex address trs)).

Definition push (trs : Transaction) (sender : option Address) (broadcast : bool) : M unit :=
  present <- has trs ;;
  if present then ret tt
  else
    modify (set_pool (Map_set (Transaction.id trs) trs)) ;;
    setStatus trs PUT_IN_POOL ;;
    modify (set_poolBySender (pushToIndex (Transaction.senderAddress trs) trs)) ;;
    match Transaction.asset trs with
    | AssetTransfer recipientAddress _ => addOneToPoolByRecipient recipientAddress trs
    | AssetVote reward unstake sponsors =>
        if negb (reward =? 0) || negb (unstake =? 0)
        then forEach (fun address => addOneToPoolByRecipient address trs) (sponsorKeys sponsors)
        else ret tt
    | AssetStake sponsors =>
        forEach (fun address => addOneToPoolByRecipient address trs) (sponsorKeys sponsors)
    | _ => ret tt
    end ;;
    sender <- match sender with
              | Some a => ret (Some a)
              | None => getByAddress (Transaction.senderAddress trs)
              end ;;
    TransactionDispatcher_applyUnconfirmed trs sender ;;
    emit (TransactionHistory trs PUSH_IN_POOL) ;;
    setStatus trs UNCONFIRM_APPLIED ;;
    if broadcast then emit (SendUnconfirmedTransaction trs) else ret tt.

(** The handlers are total functions on the ledger, so the [catch] of
    [remove], which only logs, never runs. *)
Definition remove (trs : Transaction) : M bool :=
  present <- gets (fun w => Map_has (Transaction.id trs) (pool w)) ;;
  if negb present then ret false
  else
    sender <- getByPublicKey (Transaction.senderPublicKey trs) ;;
    TransactionDispatcher_undoUnconfirmed trs sender ;;
    modify (set_pool (Map_delete (Transaction.id trs))) ;;
    modify (set_poolBySender (spliceFromIndex (Transaction.senderAddress trs) trs)) ;;
    match Transaction.asset trs with
    | AssetTransfer recipientAddress _ => removeOneFromPoolByRecipient recipientAddress trs
    | AssetVote _ _ sponsors | AssetStake sponsors =>
        forEach (fun address => removeOneFromPoolByRecipient address trs) (sponsorKeys sponsors)
    | _ => ret tt
    end ;;
    ret true.

Definition removeBySenderAddress (senderAddress : Address) : M (list Transaction) :=
  transactions <- getBySenderAddress senderAddress ;;
  forEach (fun trs => remove trs ;; emit (TransactionHistory trs REMOVED_BY_SENDER_ADDRESS))
          (rev transactions) ;;
  ret (rev transactions).

Definition removeByRecipientAddress (address : Address) : M (list Transaction) :=
  transactions <- getByRecipientAddress address ;;
  forEach (fun trs => remove trs ;; emit (TransactionHistory trs REMOVED_BY_RECIPIENT_ADDRESS))
          (rev transactions) ;;
  ret (rev transactions).

Definition popSortedUnconfirmedTransactions (limit : Z) : M (list Transaction) :=
  transactions <- gets (fun w =>
    Array_slice0 limit (Array_sort transactionSortFunc (Map_values (pool w)))) ;;
  let reversedTransactions := rev transactions in
  forEach (fun trs => remove trs ;; emit (TransactionHistory trs POP_FOR_BLOCK))
          reversedTransactions ;;
  ret transactions.

Definition isPotentialConflict (trs : Transaction) : M bool :=
  let senderAddress := Transaction.senderAddress trs in
  recipientTrs <- gets (fun w => default [] (poolByRecipient w !! senderAddress)) ;;
  senderTrs <- gets (fun w => default [] (poolBySender w !! senderAddress)) ;;
  let dependTransactions := recipientTrs ++ senderTrs in
  if Z.of_nat (length dependTransactions) =? 0 then ret false
  else if bool_decide (Transaction.type trs = SIGNATURE) then ret true
  else if bool_decide (Transaction.type trs = REGISTER)
          && existsb (fun t => bool_decide (Transaction.type t = REGISTER)) dependTransactions
  then ret true
  else
    let dependTransactions := dependTransactions ++ [trs] in
    let dependTransactions := Array_sort transactionSortFunc dependTransactions in
    ret (negb (Array_indexOf trs dependTransactions
               =? Z.of_nat (length dependTransactions) - 1)).

Definition getSize : M Z := gets (fun w => Z.of_nat (length (pool w))).

Definition getTransactions : M (list Transaction) := gets (fun w => Map_values (pool w)).
End TransactionPool.

(** ** Notions used to state the properties *)

(** The transactions handed to [undoUnconfirmed] and to [applyUnconfirmed]
    in a trace, in call order. *)
Definition undoUnconfirmedCalls (t : list Event) : list Transaction :=
  flat_map (fun e => match e with UndoUnconfirmedCall trs _ => [trs] | _ => [] end) t.

Definition applyUnconfirmedCalls (t : list Event) : list Transaction :=
  flat_map (fun e => match e with ApplyUnconfirmedCall trs _ => [trs] | _ => [] end) t.

Section Runs.
Context `{C : Crypto} `{E : Env} `{D : Dispatcher}.

(** The account found by public key in [w]. *)
Definition lookupByPublicKey (w : World) (pk : PublicKey) : option Address :=
  match accounts w !! getAddressByPublicKey pk with
  | Some _ => Some (getAddressByPublicKey pk)
  | None => None
  end.

(** The node after [checkTransactionsAndApplyUnconfirmed] resolved the
    sender of [trs]: the account exists and has a public key. *)
Definition resolveStep (trs : Transaction) (w : World) : World :=
  let fresh := Account.mk (Transaction.senderAddress trs) (Some (Transaction.senderPublicKey trs)) in
  match accounts w !! Transaction.senderAddress trs with
  | None => set_accounts (fun accs => <[Transaction.senderAddress trs := fresh]> accs) w
  | Some acc =>
      if hasPublicKey acc then w
      else set_accounts (fun accs => <[Transaction.senderAddress trs := fresh]> accs) w
  end.

Definition applyUnconfirmedStep (trs : Transaction) (sender : option Address) (w : World)
  : World :=
  set_trace (fun t => t ++ [ApplyUnconfirmedCall trs sender])
    (set_ledger (applyUnconfirmed trs sender) w).

Definition undoUnconfirmedStep (trs : Transaction) (sender : option Address) (w : World)
  : World :=
  set_trace (fun t => t ++ [UndoUnconfirmedCall trs sender])
    (set_ledger (undoUnconfirmed trs sender) w).

(** The position of the first transaction of [trss] that
    [verifyUnconfirmed] refuses while the block is being processed from
    [w] with [verify] on: each transaction is verified against the state
    left by the unconfirmed application of those before it. *)
Fixpoint firstFailure (trss : list Transaction) (w : World) : option nat :=
  match trss with
  | [] => None
  | trs :: rest =>
      let sender := Some (Transaction.senderAddress trs) in
      let w := resolveStep trs w in
      match verifyUnconfirmed trs sender (ledger w) with
      | [] => S <$> firstFailure rest (applyUnconfirmedStep trs sender w)
      | _ :: _ => Some O
      end
  end.

(** The node when the first loop of
    [checkTransactionsAndApplyUnconfirmed] is left, and the node after
    [undoUnconfirmed] was called on each of [trss] in turn, the sender
    being looked up by public key. *)
Fixpoint checkedWorld (trss : list Transaction) (w : World) : World :=
  match trss with
  | [] => w
  | trs :: rest =>
      let sender := Some (Transaction.senderAddress trs) in
      let w := resolveStep trs w in
      match verifyUnconfirmed trs sender (ledger w) with
      | [] => checkedWorld rest (applyUnconfirmedStep trs sender w)
      | _ :: _ => w
      end
  end.

Fixpoint undoneWorld (trss : list Transaction) (w : World) : World :=
  match trss with
  | [] => w
  | trs :: rest =>
      undoneWorld rest
        (undoUnconfirmedStep trs (lookupByPublicKey w (Transaction.senderPublicKey trs)) w)
  end.

(** The node after the recovery of [process] from a failed [applyBlock],
    run over [trss]: each transaction is undone unconfirmed, with the
    sender looked up by address, and returned to the queue. *)
Fixpoint recoveredWorld (trss : list Transaction) (w : World) : World :=
  match trss with
  | [] => w
  | trs :: rest =>
      let sender := match accounts w !! Transaction.senderAddress trs with
                    | Some _ => Some (Transaction.senderAddress trs)
                    | None => None
                    end in
      recoveredWorld rest
        (set_trace (fun t => t ++ [TransactionHistory trs UNDO_BY_FAILED_APPLY])
           (set_queue (fun q => q ++ [trs]) (undoUnconfirmedStep trs sender w)))
  end.

(** The node when [process] reaches the check of the transactions: the
    history of the block has received its events. *)
Definition processEntered (block : Block) (verify : bool) (w : World) : World :=
  if verify
  then set_trace (fun t => t ++ [BlockHistory block VERIFY])
         (set_trace (fun t => t ++ [BlockHistory block PROCESS]) w)
  else set_trace (fun t => t ++ [BlockHistory block PROCESS]) w.

(** The errors of that refusal. *)
Fixpoint firstFailureErrors (trss : list Transaction) (w : World) : list string :=
  match trss with
  | [] => []
  | trs :: rest =>
      let sender := Some (Transaction.senderAddress trs) in
      let w := resolveStep trs w in
      match verifyUnconfirmed trs sender (ledger w) with
      | [] => firstFailureErrors rest (applyUnconfirmedStep trs sender w)
      | errs => errs
      end
  end.
End Runs.

Section PoolRuns.
Context `{C : Crypto} `{E : Env} `{D : Dispatcher}.

(** [l] without the first occurrence of [trs]. *)
Definition removeFirst (trs : Transaction) (l : list Transaction) : list Transaction :=
  if Array_indexOf trs l =? -1 then l else Array_splice1 (Array_indexOf trs l) l.

(** [trs] occurs in some list of the index [m]. *)
Definition indexed (trs : Transaction) (m : gmap Address (list Transaction)) : Prop :=
  exists a l, m !! a = Some l /\ In trs l.

(** [trs] has an entry in the pool: its id is a key of [pool], or the
    object sits in a list of [poolBySender] or of [poolByRecipient]. *)
Definition staged (trs : Transaction) (w : World) : Prop :=
  Map_has (Transaction.id trs) (pool w) = true
  \/ indexed trs (poolBySender w)
  \/ indexed trs (poolByRecipient w).

(** The recipient addresses under which [push] indexes [trs], and those
    that [remove] visits. *)
Definition pushedRecipients (trs : Transaction) : list Address :=
  match Transaction.asset trs with
  | AssetTransfer recipientAddress _ => [recipientAddress]
  | AssetVote reward unstake sponsors =>
      if negb (reward =? 0) || negb (unstake =? 0) then sponsorKeys sponsors else []
  | AssetStake sponsors => sponsorKeys sponsors
  | _ => []
  end.

Definition removedRecipients (trs : Transaction) : list Address :=
  match Transaction.asset trs with
  | AssetTransfer recipientAddress _ => [recipientAddress]
  | AssetVote _ _ sponsors | AssetStake sponsors => sponsorKeys sponsors
  | _ => []
  end.

(** The node after [push] took a transaction that was not in the pool,
    [sender] being the account handed to [applyUnconfirmed]. *)
Definition pushedWorld (trs : Transaction) (sender : option Address) (broadcast : bool)
           (w : World) : World :=
  let w := set_pool (Map_set (Transaction.id trs) trs) w in
  let w := set_status (fun m => <[Transaction.ref trs := PUT_IN_POOL]> m) w in
  let w := set_poolBySender (pushToIndex (Transaction.senderAddress trs) trs) w in
  let w := set_poolByRecipient
             (fun m => foldl (fun m a => pushToIndex a trs m) m (pushedRecipients trs)) w in
  let w := applyUnconfirmedStep trs sender w in
  let w := set_trace (fun t => t ++ [TransactionHistory trs PUSH_IN_POOL]) w in
  let w := set_status (fun m => <[Transaction.ref trs := UNCONFIRM_APPLIED]> m) w in
  if broadcast then set_trace (fun t => t ++ [SendUnconfirmedTransaction trs]) w else w.

(** The node after [remove] took a transaction whose id is in the pool. *)
Definition removedWorld (trs : Transaction) (w : World) : World :=
  let w := undoUnconfirmedStep trs
             (lookupByPublicKey w (Transaction.senderPublicKey trs)) w in
  let w := set_pool (Map_delete (Transaction.id trs)) w in
  let w := set_poolBySender (spliceFromIndex (Transaction.senderAddress trs) trs) w in
  set_poolByRecipient
    (fun m => foldl (fun m a => spliceFromIndex a trs m) m (removedRecipients trs)) w.

(** The node after each of [trss] in turn was removed from the pool for
    a block. *)
Fixpoint poppedWorld (trss : list Transaction) (w : World) : World :=
  match trss with
  | [] => w
  | trs :: rest =>
      poppedWorld rest
        (set_trace (fun t => t ++ [TransactionHistory trs POP_FOR_BLOCK]) (removedWorld trs w))
  end.

(** The keys of the pool are the ids of its transactions, each once. *)
Definition poolKeyed (w : World) : Prop :=
  NoDup (pool w).*1 /\ Forall (fun kv => kv.1 = Transaction.id kv.2) (pool w).

(** The state of the pool is consistent: the keys of [pool] are the ids
    of its transactions; every list of an index is free of repetitions
    and holds pooled transaction objects, filed under their sender
    address in [poolBySender] and under an address that [push] indexes
    in [poolByRecipient]. *)
Definition poolConsistent (w : World) : Prop :=
  poolKeyed w
  /\ (forall a l, poolBySender w !! a = Some l ->
                  NoDup l
                  /\ forall t, In t l ->
                               Transaction.senderAddress t = a
                               /\ In (Transaction.id t, t) (pool w))
  /\ (forall a l, poolByRecipient w !! a = Some l ->
                  NoDup l
                  /\ forall t, In t l ->
                               In a (pushedRecipients t)
                               /\ In (Transaction.id t, t) (pool w)).

(** [a] is put before [b], or level with it, by [transactionSortFunc]. *)
Definition sortsBefore (a b : Transaction) : Prop := transactionSortFunc a b <= 0.
End PoolRuns.

(** ** A small node on which the definitions can be run *)

Module Sample.
(** Test doubles: the hash is the identity, every signature verifies. *)
Definition crypto : Crypto := {|
  sha256 := fun b => b;
  crypto_sign_verify_detached := fun _ _ _ => Returned true;
  crypto_sign_detached := fun m _ => m;
|}.

(** The durable repository answers [batchSave] with [saveErrors]. *)
Definition env (saveErrors : list string) : Env := {|
  CURRENT_BLOCK_VERSION := 1;
  MAX_TRANSACTIONS_PER_BLOCK := 250;
  MIN_ROUND_BLOCK_HEIGHT := 2;
  getSlotNumber := fun t => t / 10;
  getActiveDelegatesCount := 3;
  isValidateBlockSlot := fun _ => false;
  getAddressByPublicKey := fun pk => Z.of_nat (String.length pk);
  restoreToSlot := fun _ r => r;
  batchSave := fun _ => saveErrors;
  deleteById := fun _ => [];
  truthyIn := fun _ key => bool_decide (key ∈ "id"%string :: Object_prototype_keys);
|}.

Definition cost (trs : Transaction) : Z :=
  Transaction.fee trs
  + match Transaction.asset trs with AssetTransfer _ amount => amount | _ => 0 end.

(** A ledger of unconfirmed balances, one cell per address 0, 1, 2, ...;
    a transaction costs its sender the fee and the amount sent. *)
Definition dispatcher : Dispatcher := {|
  Ledger := list Z;
  u_balance := fun l a => default 0 (l !! Z.to_nat a);
  trsGetBytes := fun trs => Returned (Buffer_from_hex (Transaction.id trs));
  verifyUnconfirmed := fun trs sender l =>
    match sender with
    | Some a => if default 0 (l !! Z.to_nat a) <? cost trs then ["Not enough balance"] else []
    | None => ["Missing sender"]
    end;
  calculateFee := fun trs _ _ => Transaction.fee trs;
  applyUnconfirmed := fun trs sender l =>
    match sender with
    | Some a => alter (fun b => b - cost trs) (Z.to_nat a) l
    | None => l
    end;
  undoUnconfirmed := fun trs sender l =>
    match sender with
    | Some a => alter (fun b => b + cost trs) (Z.to_nat a) l
    | None => l
    end;
  apply := fun _ _ l => l;
  undo := fun _ _ l => l;
|}.

(** Accounts 1 and 2, with keys "a" and "bb". *)
Definition world : @World dispatcher :=
  @mkWorld dispatcher
    (<[1 := Account.mk 1 (Some "a")]> (<[2 := Account.mk 2 (Some "bb")]> ∅))
    ([0; 100; 40] : list Z) [] ∅ ∅ ∅ [] [] None None false [].

Definition send (ref : positive) (id : string) (pk : string) (from to amount : Z) (at_ : Z)
  : Transaction :=
  Transaction.mk ref id (AssetTransfer to amount) pk from 1 at_ None.

Definition tx1 : Transaction := send 1 "a1" "a" 1 2 30 5.
Definition tx2 : Transaction := send 2 "b2" "bb" 2 1 10 6.
Definition tx3 : Transaction := send 3 "c3" "a" 1 2 90 7.

(** A second signature for account 1, and a later transfer from it. *)
Definition tx4 : Transaction := Transaction.mk 4 "d4" AssetSignature "a" 1 1 8 None.
Definition tx5 : Transaction := send 5 "e5" "a" 1 2 5 9.

Definition block (height : Z) (trss : list Transaction) : Block :=
  Block.mk "f00d" 1 height (Some "beef") 20 "aa" "" "" (Z.of_nat (length trss)) 0 0 trss.

(** A block as it is stored: no previous block, the digest of an empty
    payload, a generator key of 32 bytes and a signature of 64 bytes. *)
Definition sealed : Block :=
  Block.mk "00" 1 1 None 20
    "5e5f5b5c5d5a5b58595657545552535051504e4f4c4d4a4b48494647444542ff"
    ("0102030405060708090a0b0c0d0e0f101112131415161718191a1b1c1d1e1f20"
     +:+ "2122232425262728292a2b2c2d2e2f303132333435363738393a3b3c3d3e3f40")
    "e3b0c44298fc1c149afbf4c8996fb92427ae41e4649b934ca495991b7852b855"
    0 7 3 [].

(** The node once [tx2] and then [tx1] were pushed into its pool. *)
Definition pooled : @World dispatcher :=
  match bind (push (D := dispatcher) tx2 None false)
             (fun _ => push (D := dispatcher) tx1 None false) world with
  | Normal (_, w) => w
  | _ => world
  end.

(** A node whose last block is a genesis block. *)
Definition atGenesis : @World dispatcher :=
  set_lastNBlocks (fun _ => [block 1 []]) world.
End Sample.

(** ** Further parts of the two services *)

(** [map.get(k)]: the value at [k], or [undefined]. *)
Section JsMapGet.
Context {K V : Type} `{EqDecision K}.

Fixpoint Map_get (k : K) (m : list (K * V)) : option V :=
  match m with
  | [] => None
  | (k', v) :: rest => if decide (k' = k) then Some v else Map_get k rest
  end.
End JsMapGet.

(** [TransactionService.verifyUnconfirmed(trs, sender, true)]: the call
    that [pushInPool] places, with the third argument of the dispatcher's
    [verifyUnconfirmed] given.  [core/service/transaction] is not among the
    sources, so what the argument changes is left open. *)
Class TransactionChecks `{Dispatcher} := {
  verifyUnconfirmedWith : Transaction -> option Address -> bool -> Ledger -> list string;
}.

Section MoreOfThePool.
Context `{C : Crypto} `{E : Env} `{D : Dispatcher} `{!TransactionChecks}.
Open Scope node_scope.

Definition get (id : TransactionId) : M (option Transaction) :=
  gets (fun w => Map_get id (pool w)).

(** The loop of [batchRemove] over the reversed transactions. *)
Fixpoint batchRemoveLoop (reversed : list Transaction) (removedTransactions : list Transaction)
  : M (list Transaction) :=
  match reversed with
  | [] => ret removedTransactions
  | trs :: rest =>
      bySender <- removeBySenderAddress (Transaction.senderAddress trs) ;;
      let removedTransactions := removedTransactions ++ bySender in
      byRecipient <- removeByRecipientAddress (Transaction.senderAddress trs) ;;
      let removedTransactions := removedTransactions ++ byRecipient in
      batchRemoveLoop rest removedTransactions
  end.

Definition batchRemove (transactions : list Transaction) : M (list Transaction) :=
  let removedTransactions := [] in
  batchRemoveLoop (rev transactions) removedTransactions.

(** [BlockService.pushInPool]. *)
Definition pushInPool (transactions : list Transaction) : M unit :=
  forEach (fun trs =>
    sender <- getByAddress (Transaction.senderAddress trs) ;;
    verifyResult <- gets (fun w =>
      (failure (verifyUnconfirmedWith trs sender true (ledger w)) : ResponseEntity unit)) ;;
    if success verifyResult then push trs sender false
    else TransactionQueue_push trs) transactions.
End MoreOfThePool.

(** ** Notions used to state the further properties *)

Section BlockNotions.
Context `{C : Crypto} `{E : Env} `{D : Dispatcher}.

(** What a transaction adds to the amount of its block. *)
Definition sentAmount (trs : Transaction) : Z :=
  match Transaction.asset trs with
  | AssetTransfer _ amount => amount
  | _ => 0
  end.

Definition sumOf (f : Transaction -> Z) (trss : list Transaction) : Z :=
  foldr (fun trs s => f trs + s) 0 trss.

(** The totals as [verifyPayload] adds them up, from [total] on. *)
Definition addAmounts (total : JsNumber) (trss : list Transaction) : JsNumber :=
  foldl (fun total trs =>
           match Transaction.asset trs with
           | AssetTransfer _ amount => Number_add total amount
           | _ => total
           end) total trss.

Definition addFees (total : JsNumber) (trss : list Transaction) : JsNumber :=
  foldl (fun total trs => Number_add total (Transaction.fee trs)) total trss.

(** Amounts and fees that JS adds up without rounding: none is negative
    and their sums are at most 2^53. *)
Definition addedExactly (trss : list Transaction) : Prop :=
  Forall (fun trs => 0 <= sentAmount trs /\ 0 <= Transaction.fee trs) trss
  /\ sumOf sentAmount trss <= 2 ^ 53
  /\ sumOf Transaction.fee trss <= 2 ^ 53.

(** A key that names no property of [Object.prototype]. *)
Definition notInherited (key : string) : Prop := key ∉ Object_prototype_keys.

(** [trs] has canonical bytes: [TransactionDispatcher.getBytes] returns. *)
Definition serializable (trs : Transaction) : Prop :=
  exists bytes, trsGetBytes trs = Returned bytes.

(** The bytes fed to the payload hash for [trss]. *)
Definition payloadOf (trss : list Transaction) : Buffer :=
  flat_map (fun trs => match trsGetBytes trs with
                       | Returned bytes => bytes
                       | Thrown _ => []
                       end) trss.

(** [block.previousBlockId] is truthy. *)
Definition hasPreviousBlock (block : Block) : Prop :=
  exists p, Block.previousBlockId block = Some p /\ p <> ""%string.

(** The requirements of [verifyBlock] that do not depend on [verify]. *)
Definition linked (now : Z) (lastBlock block : Block) : Prop :=
  (hasPreviousBlock block \/ Block.height block = 1)
  /\ Block.version block = CURRENT_BLOCK_VERSION
  /\ slotInRange now lastBlock block.

(** The requirements of [verifySignature], [verifyId] and
    [verifyPayload]: the ids are distinct and none is read from the
    empty object [appliedTransactions], and the totals are the doubles
    that the loop adds up. *)
Definition sealedCorrectly (block : Block) : Prop :=
  crypto_sign_verify_detached (Buffer_from_hex (Block.signature block))
    (getHash block true) (Buffer_from_hex (Block.generatorPublicKey block)) = Returned true
  /\ Block.id block = getId block
  /\ Z.of_nat (length (Block.transactions block)) = Block.transactionCount block
  /\ Z.of_nat (length (Block.transactions block)) <= MAX_TRANSACTIONS_PER_BLOCK
  /\ Forall serializable (Block.transactions block)
  /\ NoDup (Transaction.id <$> Block.transactions block)
  /\ Forall notInherited (Transaction.id <$> Block.transactions block)
  /\ Buffer_to_hex (sha256 (payloadOf (Block.transactions block))) = Block.payloadHash block
  /\ addAmounts (Finite 0) (Block.transactions block) = Finite (Block.amount block)
  /\ addFees (Finite 0) (Block.transactions block) = Finite (Block.fee block).
End BlockNotions.

Section CheckRuns.
Context `{C : Crypto} `{E : Env} `{D : Dispatcher}.

(** The transaction as [checkTransactionsAndApplyUnconfirmed] leaves it
    when [verify] is off: the fee of a vote is calculated anew, against
    the ledger of [w]. *)
Definition recalculated (trs : Transaction) (w : World) : Transaction :=
  if bool_decide (Transaction.type trs = VOTE)
  then Transaction.with_fee trs
         (calculateFee trs (Some (Transaction.senderAddress trs)) (ledger w))
  else trs.

(** The transactions and the node after the first loop of
    [checkTransactionsAndApplyUnconfirmed] ran over [trss] with [verify]
    off. *)
Fixpoint generated (trss : list Transaction) (w : World) : list Transaction * World :=
  match trss with
  | [] => ([], w)
  | trs :: rest =>
      let w := resolveStep trs w in
      let trs := recalculated trs w in
      let '(rest, w) :=
        generated rest (applyUnconfirmedStep trs (Some (Transaction.senderAddress trs)) w) in
      (trs :: rest, w)
  end.

(** How the account repository may differ after the senders of some
    transactions were resolved: entries that have a public key are kept
    as they are, no entry is dropped, and an entry is new only at the
    sender address of one of the transactions. *)
Definition resolved (trss : list Transaction) (w w' : World) : Prop :=
  (forall a acc, accounts w !! a = Some acc -> hasPublicKey acc = true ->
                 accounts w' !! a = Some acc)
  /\ (forall a, is_Some (accounts w !! a) -> is_Some (accounts w' !! a))
  /\ (forall a, is_Some (accounts w' !! a) ->
                is_Some (accounts w !! a)
                \/ exists trs, In trs trss /\ Transaction.senderAddress trs = a).

End CheckRuns.

Section BlockRuns.
Context `{C : Crypto} `{E : Env} `{D : Dispatcher}.

(** The account found by address in [w]. *)
Definition lookupByAddress (w : World) (address : Address) : option Address :=
  match accounts w !! address with
  | Some _ => Some address
  | None => None
  end.

(** The window of the block storage after [block] was pushed. *)
Definition pushed (block : Block) (window : list Block) : list Block :=
  let window := window ++ [block] in
  if Z.of_nat (length window) >? MAX_BLOCK_IN_MEMORY then drop 1 window else window.

(** [round] with the slot [s] of [key] marked. *)
Definition marked (key : string) (s : Slot) (forged : bool) (round : Round) : Round :=
  {| slots := <[key := {| slot := slot s; isForged := forged |}]> (slots round) |}.

(** The node after [apply] was called on each of [trss] in turn, the
    sender being looked up by public key. *)
Fixpoint appliedWorld (trss : list Transaction) (w : World) : World :=
  match trss with
  | [] => w
  | trs :: rest =>
      let sender := lookupByPublicKey w (Transaction.senderPublicKey trs) in
      appliedWorld rest
        (set_trace (fun t => t ++ [ApplyCall trs sender]) (set_ledger (apply trs sender) w))
  end.

(** The node after [undo] and then [undoUnconfirmed] were called on each
    of [trss] in turn, the sender being looked up by address. *)
Fixpoint revertedWorld (trss : list Transaction) (w : World) : World :=
  match trss with
  | [] => w
  | trs :: rest =>
      let sender := lookupByAddress w (Transaction.senderAddress trs) in
      revertedWorld rest
        (set_trace (fun t => t ++ [UndoUnconfirmedCall trs sender])
           (set_ledger (undoUnconfirmed trs sender)
              (set_trace (fun t => t ++ [UndoCall trs sender])
                 (set_ledger (undo trs sender) w))))
  end.

(** The pool of [w'] is the pool of [w], and the queue of [w'] is the
    queue of [w] with transactions added at its end. *)
Definition poolUntouched (w w' : World) : Prop :=
  pool w' = pool w
  /\ poolBySender w' = poolBySender w
  /\ poolByRecipient w' = poolByRecipient w
  /\ status w' = status w
  /\ exists returned, queue w' = queue w ++ returned.

(** Every run of [m] that returns leaves the pool untouched. *)
Definition keepsPool {A} (m : M A) : Prop :=
  forall w a w', m w = Normal (a, w') -> poolUntouched w w'.
End BlockRuns.

Section PoolRemovals.
Context `{C : Crypto} `{E : Env} `{D : Dispatcher}.

(** The node after each of [trss] in turn was removed from the pool and
    the removal was recorded in its history as [action]. *)
Fixpoint removedEach (action : TransactionLifecycle) (trss : list Transaction) (w : World)
  : World :=
  match trss with
  | [] => w
  | trs :: rest =>
      removedEach action rest
        (set_trace (fun t => t ++ [TransactionHistory trs action]) (removedWorld trs w))
  end.

(** The transactions filed in the pool under [address] as sender, and as
    recipient. *)
Definition bySender (w : World) (address : Address) : list Transaction :=
  default [] (poolBySender w !! address).

Definition byRecipient (w : World) (address : Address) : list Transaction :=
  default [] (poolByRecipient w !! address).

(** Every pooled transaction is filed in both indexes: under its sender
    address, and under each recipient address that [push] indexes. *)
Definition poolIndexed (w : World) : Prop :=
  forall id t, In (id, t) (pool w) ->
               In t (bySender w (Transaction.senderAddress t))
               /\ forall a, In a (pushedRecipients t) -> In t (byRecipient w a).

(** [w'] is [w] with the transaction objects [gone] taken out of the
    pool map and of the two indexes. *)
Definition without (gone : list Transaction) (w w' : World) : Prop :=
  pool w' = filter (fun kv => kv.2 ∉ gone) (pool w)
  /\ (forall a, bySender w' a = filter (fun t => t ∉ gone) (bySender w a))
  /\ (forall a, byRecipient w' a = filter (fun t => t ∉ gone) (byRecipient w a)).
End PoolRemovals.

(** ** Receiving a block *)

(** The collaborators of [receiveBlock] that are not among the sources:
    the fault-injection switch [FailService.isVerifyBlock],
    [getFirstSlotNumberInRound] of [core/util/slot], [RoundService.generate]
    and [RoundRepository.add], which act on the current and the previous
    round, and [TransactionDispatcher.returnToQueueConflictedTransactionFromPool],
    which acts on the node. *)
Class ReceiveEnv `{D : Dispatcher} := {
  isVerifyBlock : string -> bool;
  getFirstSlotNumberInRound : Z -> Z -> Z;
  RoundService_generate : Z -> Round;
  RoundRepository_add : Round -> option Round * option Round -> option Round * option Round;
  returnToQueueConflictedTransactionFromPool : list Transaction -> M unit;
}.

Section ReceiveBlock.
Context `{C : Crypto} `{E : Env} `{D : Dispatcher} `{!TransactionChecks} `{!ReceiveEnv}.
Open Scope node_scope.

Definition receiveBlock (now : Z) (block : Block) : M (ResponseEntity unit) :=
  emit (BlockHistory block RECEIVE) ;;
  removedTransactions <- batchRemove (Block.transactions block) ;;
  round <- gets currentRound ;;
  (match round with
   | Some _ => ret tt
   | None =>
       let activeDelegatesCount := getActiveDelegatesCount in
       let firstSlotNumber :=
         getFirstSlotNumberInRound (Block.createdAt block) activeDelegatesCount in
       let newRound := RoundService_generate firstSlotNumber in
       modify (set_rounds (RoundRepository_add newRound))
   end) ;;
  let isVerify := if negb (isVerifyBlock (Block.id block)) then false else true in
  let errors := [] in
  processed <- process now block true None isVerify ;;
  let '(block, processBlockResponse) := processed in
  let errors := if negb (success processBlockResponse)
                then errors ++ ResponseEntity.errors processBlockResponse
                else errors in
  (if negb (Z.of_nat (length errors) =? 0) then
     pushInPool removedTransactions
   else
     let transactionForReturn :=
       List.filter (fun removedTrs =>
                      negb (existsb (fun trs => String.eqb (Transaction.id trs)
                                                  (Transaction.id removedTrs))
                              (Block.transactions block)))
                   removedTransactions in
     pushInPool transactionForReturn ;;
     returnToQueueConflictedTransactionFromPool (Block.transactions block)) ;;
  ret (failure errors).
End ReceiveBlock.

(** ** The system repository ([core/repository/system.ts]) *)

Module SystemRepository.
(** [headers.blocksIds]: a JS [Map] from heights to block ids. *)
Abbreviation BlocksIds := (list (Z * string)).

(** [[...blocksIds.keys()].filter(key => key >= height)
      .forEach(key => blocksIds.delete(key))] *)
Definition clearPoolByHeight (height : Z) (blocksIds : BlocksIds) : BlocksIds :=
  foldl (fun blocksIds key => Map_delete key blocksIds) blocksIds
        (List.filter (fun key => key >=? height) blocksIds.*1).

(** [Math.min(...keys)]; it is [Infinity] when there is no key, and no
    entry is deleted then. *)
Definition deleteMin (blocksIds : BlocksIds) : BlocksIds :=
  match blocksIds.*1 with
  | [] => blocksIds
  | key :: keys => Map_delete (foldl Z.min key keys) blocksIds
  end.

Definition addBlockIdInPool (lastBlock : Block) (blocksIds : BlocksIds) : BlocksIds :=
  let blocksIds :=
    if Map_has (Block.height lastBlock) blocksIds
    then clearPoolByHeight (Block.height lastBlock) blocksIds
    else blocksIds in
  let blocksIds := Map_set (Block.height lastBlock) (Block.id lastBlock) blocksIds in
  if Z.of_nat (length blocksIds) >? MAX_BLOCK_IN_MEMORY
  then deleteMin blocksIds
  else blocksIds.
End SystemRepository.

(** ** A sample node in a round *)

Module Scenario.
(** The third argument of [verifyUnconfirmed] changes nothing. *)
Definition checks : @TransactionChecks Sample.dispatcher := {|
  verifyUnconfirmedWith := fun trs sender _ l =>
    verifyUnconfirmed (Dispatcher := Sample.dispatcher) trs sender l;
|}.

(** Every block is received without verification; a round that is
    generated gives the delegate "aa" its first slot. *)
Definition receiveEnv : @ReceiveEnv Sample.dispatcher := {|
  isVerifyBlock := fun _ => false;
  getFirstSlotNumberInRound := fun createdAt count => createdAt / 10 / count * count;
  RoundService_generate := fun firstSlot =>
    {| slots := {["aa"%string := {| slot := firstSlot; isForged := false |}]} |};
  RoundRepository_add := fun round rounds => (Some round, rounds.1);
  returnToQueueConflictedTransactionFromPool := fun _ => ret tt;
|}.

(** The delegate "aa" forges in slot 3. *)
Definition round : Round :=
  {| slots := {["aa"%string := {| slot := 3; isForged := false |}]} |}.

Definition next (trss : list Transaction) : Block :=
  Block.mk "f00d" 1 2 (Some "f00d") 30 "aa" "" "" (Z.of_nat (length trss)) 0 0 trss.

(** The sample node in [round], above a genesis block. *)
Definition inRound : @World Sample.dispatcher :=
  set_rounds (fun _ => (Some round, None)) Sample.atGenesis.

(** The same node once the block [next [tx1]] is its last block. *)
Definition chained : @World Sample.dispatcher :=
  set_lastNBlocks (fun l => l ++ [next [Sample.tx1]]) inRound.

Definition keyPair : IKeyPair :=
  KeyPair.mk (Buffer_from_hex "aa") (Buffer_from_hex "0b").

(** The block [next [tx1; tx2]] as [addPayloadHash] seals it. *)
Definition sealed : Block :=
  match addPayloadHash (C := Sample.crypto) (D := Sample.dispatcher)
          (next [Sample.tx1; Sample.tx2]) keyPair Sample.world with
  | Normal ((block, _), _) => block
  | _ => next []
  end.

(** A copy of [Sample.tx1]: another object with the same id. *)
Definition copy : Transaction := Sample.send 9 "a1" "a" 1 2 30 5.

(** Maps of block ids: a short one, and a full one with the heights 1
    to [MAX_BLOCK_IN_MEMORY]. *)
Definition short : SystemRepository.BlocksIds := [(1, "b1"); (2, "b2"); (3, "b3")]%string.
Definition full : SystemRepository.BlocksIds :=
  map (fun height => (Z.of_nat height, "b"%string)) (seq 1 100).
End Scenario.

(** * Properties *)

(** ** Canonical bytes *)

Lemma le_bytes_length n v : length (le_bytes n v) = n.
Proof. revert v. induction n as [|n IH]; intros v; simpl; [reflexivity | now rewrite IH]. Qed.

Lemma fixedPortion_layout (block : Block) :
  fixedPortion block =
    le_bytes 4 (Block.version block)
    ++ le_bytes 4 (Block.createdAt block)
    ++ le_bytes 4 (Block.transactionCount block)
    ++ le_bytes 8 (Block.amount block)
    ++ le_bytes 8 (Block.fee block)
    ++ [Byte.x00; Byte.x00; Byte.x00; Byte.x00].
Proof. reflexivity. Qed.

Lemma Buffer_from_hex_falsy (s : string) :
  Buffer_from_hex (if truthy s then s else "") = Buffer_from_hex s.
Proof. destruct s; reflexivity. Qed.

(** The bytes [getBytes] produces, spelled out: the five fields, four
    bytes that no writer touches, and the hex-decoded fields. *)
Lemma getBytes_layout (block : Block) (skipSignature : bool) :
  getBytes block skipSignature =
    le_bytes 4 (Block.version block)
    ++ le_bytes 4 (Block.createdAt block)
    ++ le_bytes 4 (Block.transactionCount block)
    ++ le_bytes 8 (Block.amount block)
    ++ le_bytes 8 (Block.fee block)
    ++ [Byte.x00; Byte.x00; Byte.x00; Byte.x00]
    ++ Buffer_from_hex (default "" (Block.previousBlockId block))
    ++ Buffer_from_hex (Block.payloadHash block)
    ++ Buffer_from_hex (Block.generatorPublicKey block)
    ++ (if skipSignature then [] else Buffer_from_hex (Block.signature block)).
Proof.
  transitivity (fixedPortion block
    ++ Buffer_from_hex (default "" (Block.previousBlockId block))
    ++ Buffer_from_hex (Block.payloadHash block)
    ++ Buffer_from_hex (Block.generatorPublicKey block)
    ++ (if skipSignature then [] else Buffer_from_hex (Block.signature block))).
  - unfold getBytes, fixedPortion, Buffer_concat.
    cbn [BUFFER.writeInt32LE BUFFER.writeUInt64LE concat].
    rewrite app_nil_r.
    assert (Hprev : Buffer_from_hex
                      match Block.previousBlockId block with
                      | Some p => if truthy p then p else ""
                      | None => ""
                      end = Buffer_from_hex (default "" (Block.previousBlockId block))).
    { destruct (Block.previousBlockId block) as [p|]; cbn [default]; [|reflexivity].
      apply Buffer_from_hex_falsy. }
    assert (Hsig : Buffer_from_hex
                     (if negb skipSignature && truthy (Block.signature block)
                      then Block.signature block else "")
                   = if skipSignature then [] else Buffer_from_hex (Block.signature block)).
    { destruct skipSignature; cbn [negb andb]; [reflexivity|].
      apply Buffer_from_hex_falsy. }
    now rewrite Hprev, Hsig.
  - rewrite fixedPortion_layout. now rewrite <- !app_assoc.
Qed.

Lemma le_bytes_app_length28 (block : Block) :
  length (le_bytes 4 (Block.version block)
          ++ le_bytes 4 (Block.createdAt block)
          ++ le_bytes 4 (Block.transactionCount block)
          ++ le_bytes 8 (Block.amount block)
          ++ le_bytes 8 (Block.fee block)) = 28%nat.
Proof. reflexivity. Qed.

(** C4.  The buffer [getBytes] allocates has [BLOCK_BUFFER_SIZE] = 32
    bytes, because the timestamp is counted as [INT64] and written as an
    [Int32]: for every block the bytes are the layout of section 6 with
    four zero bytes after the 28 bytes of the five fields, so they are
    four bytes longer than that layout and differ from it. *)
Theorem getBytes_pads_fixed_portion (block : Block) (skipSignature : bool) :
  BLOCK_BUFFER_SIZE = 32
  /\ getBytes block skipSignature =
       take 28 (canonicalBytes_spec block skipSignature)
       ++ [Byte.x00; Byte.x00; Byte.x00; Byte.x00]
       ++ drop 28 (canonicalBytes_spec block skipSignature)
  /\ length (getBytes block skipSignature)
     = (length (canonicalBytes_spec block skipSignature) + 4)%nat
  /\ getBytes block skipSignature <> canonicalBytes_spec block skipSignature.
Proof.
  assert (Hlayout :
    getBytes block skipSignature =
       take 28 (canonicalBytes_spec block skipSignature)
       ++ [Byte.x00; Byte.x00; Byte.x00; Byte.x00]
       ++ drop 28 (canonicalBytes_spec block skipSignature)).
  { rewrite getBytes_layout. unfold canonicalBytes_spec. reflexivity. }
  assert (Hlen : length (getBytes block skipSignature)
                 = (length (canonicalBytes_spec block skipSignature) + 4)%nat).
  { rewrite getBytes_layout. unfold canonicalBytes_spec.
    rewrite !length_app, !le_bytes_length. cbn [length]. lia. }
  repeat split; [exact Hlayout | exact Hlen |].
  intros Heq. rewrite Heq in Hlen. lia.
Qed.

(** On a stored block the first 32 bytes are the 28 bytes of the fields and
    four zero bytes, and the whole is 96 bytes where the layout of section 6
    has 92. *)
Example getBytes_sealed :
  take 32 (getBytes Sample.sealed true)
  = [Byte.x01; Byte.x00; Byte.x00; Byte.x00;
     Byte.x14; Byte.x00; Byte.x00; Byte.x00;
     Byte.x00; Byte.x00; Byte.x00; Byte.x00;
     Byte.x07; Byte.x00; Byte.x00; Byte.x00; Byte.x00; Byte.x00; Byte.x00; Byte.x00;
     Byte.x03; Byte.x00; Byte.x00; Byte.x00; Byte.x00; Byte.x00; Byte.x00; Byte.x00;
     Byte.x00; Byte.x00; Byte.x00; Byte.x00]
  /\ length (getBytes Sample.sealed true) = 96%nat
  /\ length (canonicalBytes_spec Sample.sealed true) = 92%nat
  /\ length (getBytes Sample.sealed false) = 160%nat.
Proof. repeat split; vm_compute; reflexivity. Qed.

(** ** The decision table of [validateReceivedBlock] *)


(** ** The slot check of [verifyBlock] *)

Section VerifyFacts.
Context `{C : Crypto} `{E : Env} `{D : Dispatcher}.

Ltac pushed :=
  repeat match goal with
    | |- context [if ?b then _ else _] => destruct b
    | H : In _ (_ ++ _) |- _ => apply in_app_or in H; destruct H
    | H : In _ [] |- _ => destruct H
    | H : In _ (_ :: _) |- _ => destruct H
    | H : (_ +:+ _)%string = timestampError |- _ => discriminate H
    | H : _ = timestampError |- _ => try discriminate H
    end.

Lemma verifySignature_timestamp block errs :
  In timestampError (verifySignature block errs) ->
  In timestampError errs \/ In timestampError (caughtTexts block true).
Proof.
  unfold verifySignature, caughtTexts.
  destruct (crypto_sign_verify_detached _ _ _) as [v|e]; [destruct v|]; cbn;
    intros Hin; pushed; auto; subst; right; left; reflexivity.
Qed.

Lemma verifyPreviousBlock_timestamp block errs :
  In timestampError (verifyPreviousBlock block errs) -> In timestampError errs.
Proof. unfold verifyPreviousBlock. intros Hin. revert Hin. pushed; intros; pushed; auto. Qed.

Lemma verifyVersion_timestamp block errs :
  In timestampError (verifyVersion block errs) -> In timestampError errs.
Proof. unfold verifyVersion. intros Hin. revert Hin. cbv zeta. pushed; intros; pushed; auto. Qed.

Lemma verifyId_timestamp block errs :
  In timestampError (verifyId block errs) -> In timestampError errs.
Proof. unfold verifyId. intros Hin. revert Hin. cbv zeta. pushed; intros; pushed; auto. Qed.

Lemma verifyPayloadLoop_timestamp trss payload totalAmount totalFee applied errs :
  In timestampError (verifyPayloadLoop trss payload totalAmount totalFee applied errs).2 ->
  In timestampError errs
  \/ In timestampError
       (flat_map (fun trs => match trsGetBytes trs with Thrown e => [e] | Returned _ => [] end)
                 trss).
Proof.
  revert payload totalAmount totalFee applied errs.
  induction trss as [|trs rest IH]; intros payload totalAmount totalFee applied errs;
    cbn [verifyPayloadLoop flat_map].
  - auto.
  - destruct (trsGetBytes trs) as [b|e]; cbn; intros Hin; apply IH in Hin;
      destruct Hin as [Hin|Hin]; auto using in_or_app;
      revert Hin; pushed; intros; pushed; auto using in_or_app;
      subst; right; apply in_or_app; left; left; reflexivity.
Qed.

Lemma verifyPayload_timestamp block errs :
  In timestampError (verifyPayload block errs) ->
  In timestampError errs
  \/ In timestampError
       (flat_map (fun trs => match trsGetBytes trs with Thrown e => [e] | Returned _ => [] end)
                 (Block.transactions block)).
Proof.
  unfold verifyPayload.
  match goal with
  | |- context [verifyPayloadLoop ?t ?p ?a ?f ?ap ?e] =>
      pose proof (verifyPayloadLoop_timestamp t p a f ap e) as Hloop;
      destruct (verifyPayloadLoop t p a f ap e) as [[[payload totalAmount] totalFee] errs']
  end.
  cbn [snd] in Hloop. intros Hin.
  assert (Hin' : In timestampError errs').
  { revert Hin. pushed; intros; pushed; auto. }
  apply Hloop in Hin'. destruct Hin' as [Hin'|Hin']; [|auto].
  left. revert Hin'. pushed; intros; pushed; auto.
Qed.

Lemma verifyBlockSlotNumber_spec now block lastBlock errs :
  verifyBlockSlotNumber now block lastBlock errs
  = if decide (slotInRange now lastBlock block) then errs else errs ++ [timestampError].
Proof.
  unfold verifyBlockSlotNumber, slotInRange. cbv zeta.
  destruct (Z.gtb_spec (getSlotNumber (Block.createdAt block))
              (getSlotNumber now + getActiveDelegatesCount - 1));
    destruct (Z.leb_spec (getSlotNumber (Block.createdAt block))
                (getSlotNumber (Block.createdAt lastBlock)));
    cbn; case_decide; try reflexivity; lia.
Qed.

(** C5.  [verifyBlock] reports ['Invalid block timestamp'] exactly when
    the slot of the block is outside the interval
    (lastBlockSlotNumber, currentSlotNumber + activeDelegatesCount - 1],
    provided no exception caught during the verification prints as that
    very text. *)
Theorem verifyBlock_reports_invalid_timestamp now lastBlock block verify :
  ~ In timestampError (caughtTexts block verify) ->
  (In timestampError (ResponseEntity.errors (verifyBlock now lastBlock block verify))
   <-> ~ (getSlotNumber (Block.createdAt lastBlock) < getSlotNumber (Block.createdAt block)
          /\ getSlotNumber (Block.createdAt block)
             <= getSlotNumber now + getActiveDelegatesCount - 1)).
Proof.
  intros Hcaught. unfold verifyBlock. cbv zeta. cbn [failure ResponseEntity.errors].
  rewrite <- in_rev, verifyBlockSlotNumber_spec. fold (slotInRange now lastBlock block).
  assert (Hbefore : forall errs,
    errs = (if verify
            then verifyPayload block
                   (verifyId block
                      (verifyVersion block
                         (verifyPreviousBlock block (verifySignature block []))))
            else verifyVersion block (verifyPreviousBlock block [])) ->
    ~ In timestampError errs).
  { intros errs -> Hin. destruct verify.
    - apply verifyPayload_timestamp in Hin. destruct Hin as [Hin|Hin].
      + apply verifyId_timestamp, verifyVersion_timestamp, verifyPreviousBlock_timestamp,
          verifySignature_timestamp in Hin.
        destruct Hin as [[]|Hin]. apply Hcaught. exact Hin.
      + apply Hcaught. unfold caughtTexts. apply in_or_app. right. exact Hin.
    - apply verifyVersion_timestamp, verifyPreviousBlock_timestamp in Hin. destruct Hin. }
  destruct verify; case_decide; split; intros Hin; try tauto;
    try (exfalso; eapply Hbefore; [reflexivity | exact Hin]);
    apply in_or_app; right; left; reflexivity.
Qed.
End VerifyFacts.

(** ** Rollback in [checkTransactionsAndApplyUnconfirmed] *)

Section CheckTransactionsFacts.
Context `{C : Crypto} `{E : Env} `{D : Dispatcher}.
Open Scope node_scope.

Ltac run :=
  unfold TransactionDispatcher_verifyUnconfirmed, TransactionDispatcher_calculateFee,
    TransactionDispatcher_applyUnconfirmed, TransactionDispatcher_undoUnconfirmed,
    TransactionDispatcher_apply, TransactionDispatcher_undo,
    AccountRepo_add, setPublicKey, TransactionQueue_push, getByPublicKey, getByAddress,
    emit, modify, gets, throw, outOfFuel, bind, ret;
  cbn [success failure ok ResponseEntity.errors negb andb orb
       accounts ledger pool poolByRecipient poolBySender status queue lastNBlocks
       currentRound prevRound synchronization trace
       set_accounts set_ledger set_pool set_poolByRecipient set_poolBySender set_status
       set_queue set_lastNBlocks set_rounds set_trace fst snd].

Lemma bind_Normal {A B} (m : M A) (k : A -> M B) w a w' :
  m w = Normal (a, w') -> bind m k w = k a w'.
Proof. intros Hm. unfold bind. now rewrite Hm. Qed.

Lemma accounts_resolveStep_Some trs w a :
  is_Some (accounts w !! a) -> is_Some (accounts (resolveStep trs w) !! a).
Proof.
  intros Ha. unfold resolveStep.
  destruct (accounts w !! Transaction.senderAddress trs) as [acc|] eqn:Hacc.
  - destruct (hasPublicKey acc); [exact Ha|]. cbn.
    destruct (decide (Transaction.senderAddress trs = a)) as [->|Hne].
    + rewrite lookup_insert_eq. eauto.
    + now rewrite lookup_insert_ne.
  - cbn. destruct (decide (Transaction.senderAddress trs = a)) as [->|Hne].
    + rewrite lookup_insert_eq. eauto.
    + now rewrite lookup_insert_ne.
Qed.

Lemma accounts_resolveStep_sender trs w :
  is_Some (accounts (resolveStep trs w) !! Transaction.senderAddress trs).
Proof.
  unfold resolveStep.
  destruct (accounts w !! Transaction.senderAddress trs) as [acc|] eqn:Hacc.
  - destruct (hasPublicKey acc); [rewrite Hacc; eauto|]. cbn. rewrite lookup_insert_eq. eauto.
  - cbn. rewrite lookup_insert_eq. eauto.
Qed.

Lemma ledger_resolveStep trs w : ledger (resolveStep trs w) = ledger w.
Proof.
  unfold resolveStep. destruct (accounts w !! _) as [acc|]; [destruct (hasPublicKey acc)|];
    reflexivity.
Qed.

Lemma trace_resolveStep trs w : trace (resolveStep trs w) = trace w.
Proof.
  unfold resolveStep. destruct (accounts w !! _) as [acc|]; [destruct (hasPublicKey acc)|];
    reflexivity.
Qed.

(** One round of the first loop with [verify] on. *)
Lemma checkLoop_verify_step fuel trss i errs w trs :
  trss !! i = Some trs ->
  checkLoop (S fuel) trss true (Z.of_nat i) errs w =
    let sender := Some (Transaction.senderAddress trs) in
    let w1 := resolveStep trs w in
    match verifyUnconfirmed trs sender (ledger w1) with
    | [] => checkLoop fuel trss true (Z.of_nat i + 1) errs (applyUnconfirmedStep trs sender w1)
    | e :: es => Normal ((trss, Z.of_nat i - 1, errs ++ e :: es), w1)
    end.
Proof.
  intros Hlook. cbn [checkLoop].
  assert (Hlt : (Z.of_nat i <? Z.of_nat (length trss)) = true).
  { apply Z.ltb_lt. apply lookup_lt_Some in Hlook. lia. }
  rewrite Hlt, Nat2Z.id, Hlook. cbv zeta. unfold resolveStep.
  run. destruct (accounts w !! Transaction.senderAddress trs) as [acc|] eqn:Hacc.
  - run. rewrite ?Hacc. destruct (hasPublicKey acc); run;
      destruct (verifyUnconfirmed trs (Some (Transaction.senderAddress trs)) (ledger w))
        as [|e es]; run; reflexivity.
  - run. rewrite ?Hacc.
    destruct (verifyUnconfirmed trs (Some (Transaction.senderAddress trs)) (ledger w))
      as [|e es]; run;
      unfold applyUnconfirmedStep, set_trace, set_ledger, set_accounts;
      cbn [accounts ledger trace]; rewrite Hacc; reflexivity.
Qed.

Lemma firstFailureErrors_None trss : forall w,
  firstFailure trss w = None -> firstFailureErrors trss w = [].
Proof.
  induction trss as [|trs rest IH]; intros w; cbn; [reflexivity|].
  destruct (verifyUnconfirmed _ _ _) as [|e es]; [|discriminate].
  intros Hnone. apply IH. now destruct (firstFailure rest _).
Qed.

Lemma firstFailureErrors_Some trss : forall w k,
  firstFailure trss w = Some k -> firstFailureErrors trss w <> [].
Proof.
  induction trss as [|trs rest IH]; intros w k; cbn; [discriminate|].
  destruct (verifyUnconfirmed _ _ _) as [|e es]; [|discriminate].
  intros Hsome. destruct (firstFailure rest _) as [k'|] eqn:Hrest; [|discriminate].
  eapply IH. exact Hrest.
Qed.

Lemma firstFailure_lt trss : forall w k,
  firstFailure trss w = Some k -> (k < length trss)%nat.
Proof.
  induction trss as [|trs rest IH]; intros w k; cbn; [discriminate|].
  destruct (verifyUnconfirmed _ _ _) as [|e es].
  - destruct (firstFailure rest _) as [k'|] eqn:Hrest; [|discriminate].
    intros [= <-]. apply IH in Hrest. lia.
  - intros [= <-]. lia.
Qed.

(** The first loop with [verify] on, from the position that follows [pre]. *)
Lemma checkLoop_verify_run rest : forall pre w fuel errs,
  (length rest <= fuel)%nat ->
  checkLoop fuel (pre ++ rest) true (Z.of_nat (length pre)) errs w =
    Normal ((pre ++ rest,
             match firstFailure rest w with
             | Some k => Z.of_nat (length pre + k) - 1
             | None => Z.of_nat (length (pre ++ rest))
             end,
             errs ++ firstFailureErrors rest w),
            checkedWorld rest w).
Proof.
  induction rest as [|trs rest IH]; intros pre w fuel errs Hfuel.
  - rewrite !app_nil_r. cbn [firstFailure firstFailureErrors checkedWorld].
    assert (Hge : (Z.of_nat (length pre) <? Z.of_nat (length pre)) = false)
      by (apply Z.ltb_ge; lia).
    destruct fuel; cbn [checkLoop]; rewrite Hge; reflexivity.
  - destruct fuel as [|fuel]; [cbn in Hfuel; lia|].
    assert (Hlook : (pre ++ trs :: rest) !! length pre = Some trs).
    { rewrite lookup_app_r by lia. now rewrite Nat.sub_diag. }
    rewrite (checkLoop_verify_step _ _ _ _ _ _ Hlook). cbv zeta.
    cbn [firstFailure firstFailureErrors checkedWorld].
    destruct (verifyUnconfirmed trs _ _) as [|e es].
    + specialize (IH (pre ++ [trs])
                    (applyUnconfirmedStep trs (Some (Transaction.senderAddress trs))
                       (resolveStep trs w)) fuel errs).
      rewrite <- app_assoc in IH. cbn [app] in IH.
      replace (Z.of_nat (length (pre ++ [trs]))) with (Z.of_nat (length pre) + 1) in IH
        by (rewrite length_app; cbn; lia).
      rewrite IH by (cbn in Hfuel; lia).
      destruct (firstFailure rest _) as [k|]; cbn [fmap option_fmap option_map];
        match goal with
        | |- Normal (_, ?a, _, _) = Normal (_, ?b, _, _) =>
            replace a with b by (rewrite ?length_app; cbn [length]; lia)
        end; reflexivity.
    + match goal with
      | |- Normal (_, ?a, _, _) = Normal (_, ?b, _, _) =>
          replace a with b by lia
      end; reflexivity.
Qed.

Lemma rollbackLoop_run n : forall trss w fuel,
  (n <= length trss)%nat -> (n <= fuel)%nat ->
  rollbackLoop fuel trss (Z.of_nat n - 1) w
  = Normal (tt, undoneWorld (rev (take n trss)) w).
Proof.
  induction n as [|n IH]; intros trss w fuel Hlen Hfuel.
  - destruct fuel; reflexivity.
  - destruct fuel as [|fuel]; [lia|].
    destruct (lookup_lt_is_Some_2 trss n) as [trs Hlook]; [lia|].
    cbn [rollbackLoop].
    assert (Hge : (Z.of_nat (S n) - 1 >=? 0) = true) by (apply Z.geb_le; lia).
    rewrite Hge.
    replace (Z.to_nat (Z.of_nat (S n) - 1)) with n by lia. rewrite Hlook.
    run.
    replace (Z.of_nat (S n) - 1 - 1) with (Z.of_nat n - 1) by lia.
    rewrite IH by lia.
    rewrite (take_S_r _ _ _ Hlook), rev_app_distr. cbn [rev app undoneWorld].
    reflexivity.
Qed.

Lemma accounts_undoneWorld l : forall w, accounts (undoneWorld l w) = accounts w.
Proof. induction l as [|t l IH]; intros w; cbn; [reflexivity|]. now rewrite IH. Qed.

Lemma lookupByPublicKey_accounts (w1 w2 : World) pk :
  accounts w1 = accounts w2 -> lookupByPublicKey w1 pk = lookupByPublicKey w2 pk.
Proof. intros Heq. unfold lookupByPublicKey. now rewrite Heq. Qed.

Lemma undoneWorld_app l1 l2 w : undoneWorld (l1 ++ l2) w = undoneWorld l2 (undoneWorld l1 w).
Proof. revert w. induction l1 as [|t l IH]; intros w; cbn; [reflexivity|]. apply IH. Qed.

Lemma trace_undoneWorld l : forall w,
  trace (undoneWorld l w)
  = trace w ++ map (fun trs => UndoUnconfirmedCall trs
                                 (lookupByPublicKey w (Transaction.senderPublicKey trs))) l.
Proof.
  induction l as [|t l IH]; intros w; cbn [undoneWorld map].
  - now rewrite app_nil_r.
  - rewrite IH. cbn [undoUnconfirmedStep trace set_trace]. rewrite <- app_assoc. cbn [app].
    reflexivity.
Qed.

Lemma trace_checkedWorld trss : forall w k,
  firstFailure trss w = Some k ->
  trace (checkedWorld trss w)
  = trace w ++ map (fun trs => ApplyUnconfirmedCall trs (Some (Transaction.senderAddress trs)))
                   (take k trss).
Proof.
  induction trss as [|trs rest IH]; intros w k; cbn [firstFailure checkedWorld];
    [discriminate|].
  destruct (verifyUnconfirmed _ _ _) as [|e es].
  - destruct (firstFailure rest _) as [k'|] eqn:Hrest; [|discriminate].
    intros [= <-]. rewrite (IH _ _ Hrest).
    cbn [applyUnconfirmedStep trace set_trace set_ledger take map]. rewrite trace_resolveStep.
    now rewrite <- app_assoc.
  - intros [= <-]. cbn [take map]. now rewrite app_nil_r, trace_resolveStep.
Qed.

Lemma accounts_checkedWorld_Some trss : forall w a,
  is_Some (accounts w !! a) -> is_Some (accounts (checkedWorld trss w) !! a).
Proof.
  induction trss as [|trs rest IH]; intros w a Ha; cbn [checkedWorld]; [exact Ha|].
  destruct (verifyUnconfirmed _ _ _) as [|e es].
  - apply IH. cbn. now apply accounts_resolveStep_Some.
  - now apply accounts_resolveStep_Some.
Qed.

(** Undoing the applied prefix in reverse restores the ledger. *)
Lemma ledger_restored `{!DispatcherLaws} trss : forall w k,
  firstFailure trss w = Some k ->
  Forall (fun trs => getAddressByPublicKey (Transaction.senderPublicKey trs)
                     = Transaction.senderAddress trs) (take k trss) ->
  ledger (undoneWorld (rev (take k trss)) (checkedWorld trss w)) = ledger w.
Proof.
  induction trss as [|trs rest IH]; intros w k; cbn [firstFailure checkedWorld];
    [discriminate|].
  destruct (verifyUnconfirmed _ _ _) as [|e es].
  - destruct (firstFailure rest _) as [k'|] eqn:Hrest; [|discriminate].
    intros [= <-] Hderived. cbn [take rev] in *.
    apply Forall_cons in Hderived as [Hsender Hderived].
    rewrite undoneWorld_app. cbn [undoneWorld undoUnconfirmedStep ledger set_ledger set_trace].
    rewrite (IH _ _ Hrest Hderived).
    cbn [applyUnconfirmedStep ledger set_ledger set_trace]. rewrite ledger_resolveStep.
    assert (Hlookup : lookupByPublicKey
              (undoneWorld (rev (take k' rest))
                 (checkedWorld rest
                    (applyUnconfirmedStep trs (Some (Transaction.senderAddress trs))
                       (resolveStep trs w))))
              (Transaction.senderPublicKey trs) = Some (Transaction.senderAddress trs)).
    { unfold lookupByPublicKey. rewrite Hsender, accounts_undoneWorld.
      destruct (accounts_checkedWorld_Some rest
                  (applyUnconfirmedStep trs (Some (Transaction.senderAddress trs))
                     (resolveStep trs w)) (Transaction.senderAddress trs)) as [acc ->];
        [|reflexivity].
      cbn. apply accounts_resolveStep_sender. }
    rewrite Hlookup. apply undoUnconfirmed_applyUnconfirmed.
  - intros [= <-] _. cbn. apply ledger_resolveStep.
Qed.

(** C1.  When [verifyUnconfirmed] first fails at position [i] of a block
    processed with [verify] on, [checkTransactionsAndApplyUnconfirmed]
    returns the failure with the errors of that verification; the calls it
    placed are [applyUnconfirmed] on positions 0 to [i-1] followed by
    [undoUnconfirmed] on positions [i-1] down to 0, so the transaction at
    [i] is never applied; and when [undoUnconfirmed] is the inverse of
    [applyUnconfirmed] and the sender addresses derive from the sender
    public keys, the ledger, hence every [u_balance], is what it was. *)
Theorem checkTransactions_rollback_is_lifo (block : Block) (w : World) (i : nat) :
  firstFailure (Block.transactions block) w = Some i ->
  exists w',
    checkTransactionsAndApplyUnconfirmed block true w
    = Normal ((block, failure (firstFailureErrors (Block.transactions block) w)), w')
    /\ firstFailureErrors (Block.transactions block) w <> []
    /\ trace w'
       = trace w
         ++ map (fun trs => ApplyUnconfirmedCall trs (Some (Transaction.senderAddress trs)))
                (take i (Block.transactions block))
         ++ map (fun trs => UndoUnconfirmedCall trs
                              (lookupByPublicKey w' (Transaction.senderPublicKey trs)))
                (rev (take i (Block.transactions block)))
    /\ (DispatcherLaws ->
        Forall (fun trs => getAddressByPublicKey (Transaction.senderPublicKey trs)
                           = Transaction.senderAddress trs)
               (take i (Block.transactions block)) ->
        ledger w' = ledger w
        /\ forall a, u_balance (ledger w') a = u_balance (ledger w) a).
Proof.
  intros Hfail.
  pose proof (firstFailureErrors_Some _ _ _ Hfail) as Herrs.
  pose proof (firstFailure_lt _ _ _ Hfail) as Hlt.
  exists (undoneWorld (rev (take i (Block.transactions block)))
            (checkedWorld (Block.transactions block) w)).
  split; [|split; [exact Herrs|split]].
  - unfold checkTransactionsAndApplyUnconfirmed.
    pose proof (checkLoop_verify_run (Block.transactions block) [] w
                  (length (Block.transactions block)) [] (Nat.le_refl _)) as Hrun.
    cbn [app length] in Hrun. rewrite Hfail in Hrun.
    unfold bind at 1. change (Z.of_nat 0) with 0 in Hrun. rewrite Hrun.
    destruct (firstFailureErrors (Block.transactions block) w) as [|e es] eqn:Hes;
      [congruence|].
    cbn [length]. 
    replace (negb (Z.of_nat (S (length es)) =? 0)) with true
      by (symmetry; apply negb_true_iff, Z.eqb_neq; lia).
    replace (Z.of_nat (0 + i) - 1 + 1) with (Z.of_nat i) by lia.
    rewrite Nat2Z.id. cbn [Nat.add].
    unfold bind at 1. rewrite rollbackLoop_run by lia.
    unfold ret. destruct block; reflexivity.
  - rewrite trace_undoneWorld, (trace_checkedWorld _ _ _ Hfail), <- app_assoc.
    do 2 f_equal. apply map_ext. intros trs. f_equal. apply lookupByPublicKey_accounts.
    now rewrite accounts_undoneWorld.
  - intros Hlaws Hderived.
    assert (Hledger : ledger (undoneWorld (rev (take i (Block.transactions block)))
                                (checkedWorld (Block.transactions block) w)) = ledger w)
      by now apply ledger_restored.
    split; [exact Hledger|]. intros a. now rewrite Hledger.
Qed.
End CheckTransactionsFacts.

(** ** Failure of the durable save in [process] *)

Section ProcessFacts.
Context `{C : Crypto} `{E : Env} `{D : Dispatcher}.
Open Scope node_scope.

Ltac run :=
  unfold TransactionDispatcher_verifyUnconfirmed, TransactionDispatcher_calculateFee,
    TransactionDispatcher_applyUnconfirmed, TransactionDispatcher_undoUnconfirmed,
    TransactionDispatcher_apply, TransactionDispatcher_undo,
    AccountRepo_add, setPublicKey, TransactionQueue_push, getByPublicKey, getByAddress,
    BlockStorageService_getLast, BlockStorageService_has, BlockStorageService_push,
    BlockStorageService_popLast,
    emit, modify, gets, throw, outOfFuel, bind, ret;
  cbn [success failure ok ResponseEntity.errors negb andb orb
       accounts ledger pool poolByRecipient poolBySender status queue lastNBlocks
       currentRound prevRound synchronization trace
       set_accounts set_ledger set_pool set_poolByRecipient set_poolBySender set_status
       set_queue set_lastNBlocks set_rounds set_trace fst snd].

Lemma undoByFailedApply_run reversed : forall w,
  undoByFailedApply reversed w = Normal (tt, recoveredWorld reversed w).
Proof.
  induction reversed as [|trs rest IH]; intros w; cbn [undoByFailedApply recoveredWorld].
  - reflexivity.
  - run. rewrite IH. reflexivity.
Qed.

Lemma undoUnconfirmedCalls_app t1 t2 :
  undoUnconfirmedCalls (t1 ++ t2) = undoUnconfirmedCalls t1 ++ undoUnconfirmedCalls t2.
Proof. unfold undoUnconfirmedCalls. apply flat_map_app. Qed.

Lemma recoveredWorld_facts trss : forall w,
  undoUnconfirmedCalls (trace (recoveredWorld trss w))
  = undoUnconfirmedCalls (trace w) ++ trss
  /\ queue (recoveredWorld trss w) = queue w ++ trss
  /\ accounts (recoveredWorld trss w) = accounts w.
Proof.
  induction trss as [|trs rest IH]; intros w; cbn [recoveredWorld].
  - now rewrite !app_nil_r.
  - destruct (IH (set_trace (fun t => t ++ [TransactionHistory trs UNDO_BY_FAILED_APPLY])
                    (set_queue (fun q => q ++ [trs])
                       (undoUnconfirmedStep trs
                          match accounts w !! Transaction.senderAddress trs with
                          | Some _ => Some (Transaction.senderAddress trs)
                          | None => None
                          end w)))) as (Hcalls & Hqueue & Haccounts).
    rewrite Hcalls, Hqueue, Haccounts.
    cbn [undoUnconfirmedStep trace queue accounts set_trace set_queue set_ledger].
    rewrite !undoUnconfirmedCalls_app. cbn. rewrite !app_nil_r, <- !app_assoc.
    repeat split; reflexivity.
Qed.

(** [applyBlock] when the durable save fails. *)
Lemma applyBlock_save_failure block broadcast keyPair w block' response w' :
  match keyPair with
  | Some keyPair => addPayloadHash block keyPair
  | None => ret (block, ok)
  end w = Normal ((block', response), w') ->
  success response = true ->
  batchSave block' <> [] ->
  applyBlock block broadcast keyPair w
  = Normal ((block', failure (batchSave block' ++ ["applyBlock"])),
            set_trace (fun t => t ++ [BatchSaveCall block']) w').
Proof.
  intros Hprepared Hok Hsave. unfold applyBlock.
  unfold bind at 1. rewrite Hprepared. rewrite Hok. cbn [negb].
  run. destruct (batchSave block') as [|e es]; [congruence|]. reflexivity.
Qed.

Lemma prepared_success block keyPair w block' (response : ResponseEntity Block) w' :
  addPayloadHash block keyPair w = Normal ((block', response), w') ->
  success response = true.
Proof.
  unfold addPayloadHash.
  destruct (addPayloadHashLoop _ _ _ _) as [[[payload amount] fee]|e]; [|discriminate].
  run. intros [= _ <- _]. reflexivity.
Qed.

(** C2, as the code has it.  When the block passed the checks of
    [process], [checkTransactionsAndApplyUnconfirmed] succeeded and the
    durable save of [applyBlock] fails, [process] returns the errors of
    the save followed by ['applyBlock'] and ['process'], and it does roll
    the unconfirmed applications back: [undoUnconfirmed] is called on
    every transaction of the block, last to first, and each one is
    pushed to the queue. *)
Theorem process_undoes_unconfirmed_on_save_failure
        now block broadcast keyPair verify w block1 (r1 : ResponseEntity unit) w2
        block2 (r2 : ResponseEntity Block) w3 :
  (verify = true ->
   exists lastBlock rSlot,
     last (lastNBlocks w) = Some lastBlock
     /\ success (verifyBlock now lastBlock block
                   (match keyPair with None => true | Some _ => false end)) = true
     /\ verifyBlockSlot block (processEntered block true w)
        = Normal (rSlot, processEntered block true w)
     /\ success rSlot = true) ->
  existsb (fun b => String.eqb (Block.id b) (Block.id block)) (lastNBlocks w) = false ->
  checkTransactionsAndApplyUnconfirmed block verify (processEntered block verify w)
  = Normal ((block1, r1), w2) ->
  success r1 = true ->
  match keyPair with
  | Some keyPair => addPayloadHash block1 keyPair
  | None => ret (block1, ok)
  end w2 = Normal ((block2, r2), w3) ->
  batchSave block2 <> [] ->
  exists w',
    process now block broadcast keyPair verify w
    = Normal ((block2, failure (batchSave block2 ++ ["applyBlock"; "process"])), w')
    /\ undoUnconfirmedCalls (trace w')
       = undoUnconfirmedCalls (trace w3) ++ rev (Block.transactions block2)
    /\ queue w' = queue w3 ++ rev (Block.transactions block2).
Proof.
  intros Hgates Hfresh Hcheck Hchecked Hprepared Hsave.
  assert (Hr2 : success r2 = true).
  { destruct keyPair as [kp|].
    - eapply prepared_success. exact Hprepared.
    - unfold ret in Hprepared. now injection Hprepared as _ <- _. }
  pose proof (applyBlock_save_failure block1 broadcast keyPair w2 block2 r2 w3
                Hprepared Hr2 Hsave) as Happly.
  exists (recoveredWorld (rev (Block.transactions block2))
            (set_trace (fun t => t ++ [BatchSaveCall block2]) w3)).
  split.
  - unfold processEntered in *.
    destruct (batchSave block2) as [|e es] eqn:Hes; [congruence|].
    destruct verify.
    + destruct (Hgates eq_refl) as (lastBlock & rSlot & Hlast & Hverify & Hslot & HrSlot).
      unfold process, BlockService_verifyBlock. run.
      rewrite Hlast, Hverify. cbn [negb]. rewrite Hslot, HrSlot.
      cbn [negb lastNBlocks set_trace].
      rewrite Hfresh, Hcheck, Hchecked. cbn [negb]. rewrite Happly.
      cbn [success failure ResponseEntity.errors app negb].
      rewrite undoByFailedApply_run, <- app_assoc. reflexivity.
    + unfold process. run. cbn [negb lastNBlocks set_trace].
      rewrite Hfresh, Hcheck, Hchecked. cbn [negb]. rewrite Happly.
      cbn [success failure ResponseEntity.errors app negb].
      rewrite undoByFailedApply_run, <- app_assoc. reflexivity.
  - destruct (recoveredWorld_facts (rev (Block.transactions block2))
                (set_trace (fun t => t ++ [BatchSaveCall block2]) w3))
      as (Hcalls & Hqueue & _).
    rewrite Hcalls, Hqueue. cbn [trace queue set_trace].
    rewrite undoUnconfirmedCalls_app. cbn. now rewrite app_nil_r.
Qed.
End ProcessFacts.

(** ** Arrays *)

Section ArrayFacts.
Context {A : Type} `{EqDecision A}.

Lemma Array_indexOf_bounds (x : A) l :
  -1 <= Array_indexOf x l < Z.of_nat (length l).
Proof.
  induction l as [|y l IH]; cbn [Array_indexOf length]; [lia|].
  destruct (decide (y = x)); [lia|].
  destruct (Z.ltb_spec (Array_indexOf x l) 0); lia.
Qed.

Lemma Array_indexOf_absent (x : A) l : ~ In x l -> Array_indexOf x l = -1.
Proof.
  induction l as [|y l IH]; cbn [Array_indexOf]; [reflexivity|].
  intros Hnot. destruct (decide (y = x)) as [->|Hne]; [exfalso; apply Hnot; now left|].
  rewrite IH by (intros Hin; apply Hnot; now right). reflexivity.
Qed.

Lemma Array_indexOf_present (x : A) l : In x l -> 0 <= Array_indexOf x l.
Proof.
  induction l as [|y l IH]; cbn [Array_indexOf]; [intros []|].
  intros [->|Hin]; [now rewrite decide_True|].
  destruct (decide (y = x)); [lia|].
  specialize (IH Hin). destruct (Z.ltb_spec (Array_indexOf x l) 0); lia.
Qed.

(** The index found holds [x], and no earlier index does. *)
Lemma Array_indexOf_lookup (x : A) l :
  0 <= Array_indexOf x l ->
  l !! Z.to_nat (Array_indexOf x l) = Some x
  /\ ~ In x (take (Z.to_nat (Array_indexOf x l)) l).
Proof.
  induction l as [|y l IH]; cbn [Array_indexOf]; [lia|].
  destruct (decide (y = x)) as [->|Hne].
  - intros _. split; [reflexivity|]. cbn. tauto.
  - destruct (Z.ltb_spec (Array_indexOf x l) 0) as [Hneg|Hpos]; [lia|]. intros _.
    destruct (IH Hpos) as [Hlook Hnot].
    replace (Z.to_nat (Array_indexOf x l + 1)) with (S (Z.to_nat (Array_indexOf x l))) by lia.
    split; [exact Hlook|]. cbn [take]. intros [Heq|Hin]; [congruence|tauto].
Qed.

Lemma Array_indexOf_app_last (x : A) l :
  ~ In x l -> Array_indexOf x (l ++ [x]) = Z.of_nat (length l).
Proof.
  induction l as [|y l IH]; cbn [Array_indexOf app length].
  - intros _. now rewrite decide_True.
  - intros Hnot. destruct (decide (y = x)) as [->|Hne]; [exfalso; apply Hnot; now left|].
    rewrite IH by (intros Hin; apply Hnot; now right).
    destruct (Z.ltb_spec (Z.of_nat (length l)) 0); lia.
Qed.

Lemma Array_indexOf_middle (x : A) l1 l2 :
  ~ In x l1 -> Array_indexOf x (l1 ++ x :: l2) = Z.of_nat (length l1).
Proof.
  induction l1 as [|y l IH]; cbn [Array_indexOf app length].
  - intros _. now rewrite decide_True.
  - intros Hnot. destruct (decide (y = x)) as [->|Hne]; [exfalso; apply Hnot; now left|].
    rewrite IH by (intros Hin; apply Hnot; now right).
    destruct (Z.ltb_spec (Z.of_nat (length l)) 0); lia.
Qed.

(** When [x] occurs once in [l], [indexOf] finds it at the last index
    exactly when it is the last element. *)
Lemma Array_indexOf_last_once (x : A) l1 l2 :
  ~ In x l1 -> ~ In x l2 ->
  Array_indexOf x (l1 ++ x :: l2) = Z.of_nat (length (l1 ++ x :: l2)) - 1
  <-> last (l1 ++ x :: l2) = Some x.
Proof.
  intros H1 H2. rewrite Array_indexOf_middle by exact H1.
  rewrite length_app. cbn [length]. split.
  - intros Hlen. assert (l2 = []) as -> by (destruct l2; [reflexivity|cbn in Hlen; lia]).
    apply last_snoc.
  - intros Hlast. destruct l2 as [|y l2 _] using rev_ind; [cbn; lia|].
    exfalso. apply H2.
    rewrite app_comm_cons, app_assoc, last_snoc in Hlast. injection Hlast as ->.
    apply in_or_app. right. now left.
Qed.

Lemma Array_splice1_app_last (x : A) l :
  Array_splice1 (Z.of_nat (length l)) (l ++ [x]) = l.
Proof.
  unfold Array_splice1. rewrite Nat2Z.id, take_app_length.
  rewrite drop_app_ge by lia.
  replace (S (length l) - length l)%nat with 1%nat by lia. cbn. apply app_nil_r.
Qed.

(** [slice(0, end)] with a count that is not negative is a prefix. *)
Lemma Array_slice0_take (n : Z) (l : list A) :
  0 <= n -> Array_slice0 n l = take (Z.to_nat n) l.
Proof.
  intros Hn. unfold Array_slice0.
  destruct (Z.ltb_spec n 0); [lia|].
  destruct (Z.min_spec n (Z.of_nat (length l))) as [[Hlt ->]|[Hge ->]]; [reflexivity|].
  rewrite Nat2Z.id. rewrite !take_ge by lia. reflexivity.
Qed.

Section Sorting.
Variable compare : A -> A -> Z.
Hypothesis compare_total : forall a b, compare a b <= 0 \/ compare b a <= 0.
Hypothesis compare_trans :
  forall a b c, compare a b <= 0 -> compare b c <= 0 -> compare a c <= 0.

Lemma Array_insert_Permutation x l : Permutation (Array_insert compare x l) (x :: l).
Proof.
  induction l as [|y l IH]; cbn [Array_insert]; [reflexivity|].
  destruct (compare x y <=? 0); [reflexivity|].
  rewrite IH. apply perm_swap.
Qed.

Lemma Array_sort_Permutation l : Permutation (Array_sort compare l) l.
Proof.
  induction l as [|x l IH]; cbn [Array_sort]; [reflexivity|].
  rewrite Array_insert_Permutation. now constructor.
Qed.

Lemma Array_insert_sorted x l :
  StronglySorted (fun a b => compare a b <= 0) l ->
  StronglySorted (fun a b => compare a b <= 0) (Array_insert compare x l).
Proof.
  induction l as [|y l IH]; cbn [Array_insert]; intros Hsorted.
  - repeat constructor.
  - apply StronglySorted_inv in Hsorted as [Htail Hhead].
    destruct (Z.leb_spec (compare x y) 0) as [Hle|Hgt].
    + constructor; [now constructor|].
      constructor; [exact Hle|].
      eapply Forall_impl; [exact Hhead|]. intros c Hc. cbn in Hc. eauto.
    + constructor; [now apply IH|].
      assert (Hyx : compare y x <= 0) by (destruct (compare_total x y); lia).
      rewrite Forall_forall. intros c Hc.
      apply list_elem_of_In in Hc.
      apply (Permutation_in _ (Array_insert_Permutation x l)) in Hc.
      destruct Hc as [<-|Hc]; [exact Hyx|].
      rewrite Forall_forall in Hhead. apply Hhead. now apply list_elem_of_In.
Qed.

Lemma Array_sort_sorted l :
  StronglySorted (fun a b => compare a b <= 0) (Array_sort compare l).
Proof.
  induction l as [|x l IH]; cbn [Array_sort]; [constructor|].
  now apply Array_insert_sorted.
Qed.

Lemma last_Array_insert x l :
  last (Array_insert compare x l) = Some x
  \/ last (Array_insert compare x l) = last l.
Proof.
  induction l as [|y l IH]; cbn [Array_insert]; [now left|].
  destruct (compare x y <=? 0); [right; now rewrite last_cons_cons|].
  rewrite (last_cons y (Array_insert compare x l)), (last_cons y l).
  destruct IH as [IH|IH]; rewrite IH; [now left|].
  destruct l as [|z l]; [|now right].
  cbn in IH. discriminate IH.
Qed.

(** Inserting [d] into a sorted list that ends with [x] leaves [x] at
    the end exactly when [d] does not sort after [x]. *)
Lemma last_Array_insert_sorted d x l :
  d <> x ->
  StronglySorted (fun a b => compare a b <= 0) l ->
  last l = Some x ->
  (last (Array_insert compare d l) = Some x <-> compare d x <= 0).
Proof.
  intros Hne. induction l as [|y l IH]; intros Hsorted Hlast; [discriminate Hlast|].
  apply StronglySorted_inv in Hsorted as [Htail Hhead]. cbn [Array_insert].
  destruct l as [|z l].
  - injection Hlast as ->. cbn [Array_insert].
    destruct (Z.leb_spec (compare d x) 0) as [Hle|Hgt]; cbn.
    + tauto.
    + split; [intros [= ?]; congruence|lia].
  - rewrite last_cons_cons in Hlast.
    specialize (IH Htail Hlast).
    assert (Hyx : compare y x <= 0).
    { rewrite Forall_forall in Hhead. apply Hhead.
      rewrite last_Some in Hlast. destruct Hlast as [l' ->].
      apply list_elem_of_In, in_or_app. right. now left. }
    destruct (Z.leb_spec (compare d y) 0) as [Hle|Hgt].
    + rewrite !last_cons_cons, Hlast.
      split; [intros _; eauto|reflexivity].
    + rewrite last_cons.
      destruct (last (Array_insert compare d (z :: l))) as [u|] eqn:Hins; [exact IH|].
      exfalso. apply last_None in Hins. cbn [Array_insert] in Hins.
      destruct (compare d z <=? 0); discriminate Hins.
Qed.

(** In [deps] sorted together with [x], which [deps] does not hold,
    [x] is last exactly when no element of [deps] sorts after it. *)
Lemma last_Array_sort_snoc x deps :
  ~ In x deps ->
  (last (Array_sort compare (deps ++ [x])) = Some x
   <-> forall d, In d deps -> compare d x <= 0).
Proof.
  induction deps as [|d deps IH]; intros Hnot; cbn [app Array_sort].
  - cbn. split; [intros _ d []|reflexivity].
  - assert (Hd : d <> x) by (intros ->; apply Hnot; now left).
    assert (Hrest : ~ In x deps) by (intros Hin; apply Hnot; now right).
    specialize (IH Hrest). split.
    + intros Hlast.
      assert (Hl : last (Array_sort compare (deps ++ [x])) = Some x).
      { destruct (last_Array_insert d (Array_sort compare (deps ++ [x]))) as [H1|H1];
          congruence. }
      intros d' [<-|Hin].
      * apply (last_Array_insert_sorted d x _ Hd (Array_sort_sorted _) Hl). exact Hlast.
      * now apply IH.
    + intros Hall.
      assert (Hl : last (Array_sort compare (deps ++ [x])) = Some x).
      { apply IH. intros d' Hin. apply Hall. now right. }
      apply (last_Array_insert_sorted d x _ Hd (Array_sort_sorted _) Hl).
      apply Hall. now left.
Qed.
End Sorting.

Lemma StronglySorted_take (R : A -> A -> Prop) n l :
  StronglySorted R l -> StronglySorted R (take n l).
Proof.
  revert n. induction l as [|x l IH]; intros n Hsorted; [now rewrite take_nil|].
  destruct n as [|n]; cbn [take]; [constructor|].
  apply StronglySorted_inv in Hsorted as [Htail Hhead].
  constructor; [now apply IH|].
  rewrite Forall_forall in *. intros y Hy. apply Hhead.
  apply list_elem_of_In in Hy. apply list_elem_of_In.
  revert Hy. clear. revert n. induction l as [|z l IH]; intros n; [now rewrite take_nil|].
  destruct n; cbn; [tauto|]. intros [->|Hy]; [now left|right; eauto].
Qed.
End ArrayFacts.

(** ** The order of [transactionSortFunc] *)

Lemma Ascii_compare_lt_trans a b c :
  Ascii.compare a b = Lt -> Ascii.compare b c = Lt -> Ascii.compare a c = Lt.
Proof.
  unfold Ascii.compare. rewrite !N.compare_lt_iff. lia.
Qed.

Lemma String_compare_lt_trans s1 : forall s2 s3,
  String.compare s1 s2 = Lt -> String.compare s2 s3 = Lt -> String.compare s1 s3 = Lt.
Proof.
  induction s1 as [|a s1 IH]; intros [|b s2] [|c s3]; cbn; try congruence.
  destruct (Ascii.compare a b) eqn:Hab; try congruence;
    destruct (Ascii.compare b c) eqn:Hbc; try congruence; intros H12 H23.
  - apply Ascii.compare_eq_iff in Hab, Hbc. subst.
    replace (Ascii.compare c c) with Eq by (unfold Ascii.compare; now rewrite N.compare_refl).
    eauto.
  - apply Ascii.compare_eq_iff in Hab. subst. now rewrite Hbc.
  - apply Ascii.compare_eq_iff in Hbc. subst. now rewrite Hab.
  - now rewrite (Ascii_compare_lt_trans _ _ _ Hab Hbc).
Qed.

Lemma String_compare_Gt_Lt s1 s2 : String.compare s1 s2 = Gt <-> String.compare s2 s1 = Lt.
Proof.
  rewrite (String.compare_antisym s2 s1). destruct (String.compare s1 s2); cbn; split; congruence.
Qed.

(** [transactionSortFunc] is the lexicographic order on type code,
    creation time and id. *)
Lemma sortsBefore_spec (a b : Transaction) :
  sortsBefore a b <->
  typeCode (Transaction.type a) < typeCode (Transaction.type b)
  \/ (typeCode (Transaction.type a) = typeCode (Transaction.type b)
      /\ (Transaction.createdAt a < Transaction.createdAt b
          \/ (Transaction.createdAt a = Transaction.createdAt b
              /\ String.compare (Transaction.id a) (Transaction.id b) <> Gt))).
Proof.
  unfold sortsBefore, transactionSortFunc.
  destruct (Z.ltb_spec (typeCode (Transaction.type a)) (typeCode (Transaction.type b)));
    [split; [auto|lia]|].
  destruct (Z.gtb_spec (typeCode (Transaction.type a)) (typeCode (Transaction.type b)));
    [split; [lia|intros [?|[? ?]]; lia]|].
  destruct (Z.ltb_spec (Transaction.createdAt a) (Transaction.createdAt b));
    [split; [intros _; right; split; [lia|auto]|lia]|].
  destruct (Z.gtb_spec (Transaction.createdAt a) (Transaction.createdAt b));
    [split; [lia|intros [?|[? [?|[? ?]]]]; lia]|].
  destruct (String.compare (Transaction.id a) (Transaction.id b)) eqn:Hid.
  - split; [intros _; right; split; [lia|right; split; [lia|congruence]]|lia].
  - split; [intros _; right; split; [lia|right; split; [lia|congruence]]|lia].
  - split; [lia|]. intros [?|[? [?|[? Hne]]]]; try lia. congruence.
Qed.

Lemma sortsBefore_total (a b : Transaction) : sortsBefore a b \/ sortsBefore b a.
Proof.
  rewrite !sortsBefore_spec.
  destruct (Z.lt_trichotomy (typeCode (Transaction.type a)) (typeCode (Transaction.type b)))
    as [?|[Ht|?]]; [auto| |auto].
  destruct (Z.lt_trichotomy (Transaction.createdAt a) (Transaction.createdAt b))
    as [?|[Hc|?]]; [auto| |right; right; split; [lia|auto]].
  destruct (String.compare (Transaction.id a) (Transaction.id b)) eqn:Hid.
  - left. right. split; [lia|]. right. split; [lia|congruence].
  - left. right. split; [lia|]. right. split; [lia|congruence].
  - right. right. split; [lia|]. right. split; [lia|].
    apply String_compare_Gt_Lt in Hid. congruence.
Qed.

Lemma sortsBefore_trans (a b c : Transaction) :
  sortsBefore a b -> sortsBefore b c -> sortsBefore a c.
Proof.
  rewrite !sortsBefore_spec.
  intros [?|[Ht1 [?|[Hc1 Hid1]]]] [?|[Ht2 [?|[Hc2 Hid2]]]]; try (left; lia);
    try (right; split; [lia|left; lia]).
  right. split; [lia|]. right. split; [lia|].
  destruct (String.compare (Transaction.id a) (Transaction.id b)) eqn:H1; [| |congruence].
  - apply String.compare_eq_iff in H1. now rewrite H1.
  - destruct (String.compare (Transaction.id b) (Transaction.id c)) eqn:H2; [| |congruence].
    + apply String.compare_eq_iff in H2. rewrite <- H2, H1. congruence.
    + rewrite (String_compare_lt_trans _ _ _ H1 H2). congruence.
Qed.

(** ** The transaction pool *)

Section PoolFacts.
Context `{C : Crypto} `{E : Env} `{D : Dispatcher}.
Open Scope node_scope.

Ltac run :=
  unfold TransactionDispatcher_verifyUnconfirmed, TransactionDispatcher_calculateFee,
    TransactionDispatcher_applyUnconfirmed, TransactionDispatcher_undoUnconfirmed,
    TransactionDispatcher_apply, TransactionDispatcher_undo,
    AccountRepo_add, setPublicKey, TransactionQueue_push, getByPublicKey, getByAddress,
    addOneToPoolByRecipient, removeOneFromPoolByRecipient, setStatus, has,
    emit, modify, gets, throw, outOfFuel, bind, ret;
  cbn [success failure ok ResponseEntity.errors negb andb orb
       accounts ledger pool poolByRecipient poolBySender status queue lastNBlocks
       currentRound prevRound synchronization trace
       set_accounts set_ledger set_pool set_poolByRecipient set_poolBySender set_status
       set_queue set_lastNBlocks set_rounds set_trace fst snd].

Lemma forEach_poolByRecipient (f : Address -> gmap Address (list Transaction)
                                   -> gmap Address (list Transaction)) l : forall w,
  forEach (fun a => modify (set_poolByRecipient (f a))) l w
  = Normal (tt, set_poolByRecipient (fun m => foldl (fun m a => f a m) m l) w).
Proof.
  induction l as [|a l IH]; intros w; cbn [forEach foldl].
  - destruct w; reflexivity.
  - unfold bind, modify at 1. rewrite IH. reflexivity.
Qed.

(** C10.  [push] of a transaction whose id is already a key of the pool
    returns at once: the node is left as it was, so nothing is inserted
    or indexed, [applyUnconfirmed] is not called, nothing is broadcast,
    and every [u_balance] is unchanged. *)
Theorem push_duplicate_is_noop (trs : Transaction) (sender : option Address)
        (broadcast : bool) (w : World) :
  Map_has (Transaction.id trs) (pool w) = true ->
  push trs sender broadcast w = Normal (tt, w).
Proof.
  intros Hhas. unfold push. run. now rewrite Hhas.
Qed.

(** [push] of a transaction whose id is not in the pool. *)
Lemma push_run (trs : Transaction) (sender : option Address) (broadcast : bool) (w : World) :
  Map_has (Transaction.id trs) (pool w) = false ->
  push trs sender broadcast w
  = Normal (tt, pushedWorld trs
                  (match sender with
                   | Some a => Some a
                   | None => match accounts w !! Transaction.senderAddress trs with
                             | Some _ => Some (Transaction.senderAddress trs)
                             | None => None
                             end
                   end) broadcast w).
Proof.
  intros Hhas. unfold push, pushedWorld, pushedRecipients. unfold bind at 1.
  unfold has, gets. rewrite Hhas.
  unfold bind at 1. unfold modify at 1. unfold bind at 1. unfold setStatus at 1, modify at 1.
  unfold bind at 1. unfold modify at 1. unfold bind at 1.
  assert (Hsender : forall w', accounts w' = accounts w ->
    match sender with
    | Some a => ret (Some a)
    | None => getByAddress (Transaction.senderAddress trs)
    end w'
    = Normal (match sender with
              | Some a => Some a
              | None => match accounts w !! Transaction.senderAddress trs with
                        | Some _ => Some (Transaction.senderAddress trs)
                        | None => None
                        end
              end, w')).
  { intros w' Hw'. destruct sender; [reflexivity|]. unfold getByAddress, gets.
    now rewrite Hw'. }
  destruct (Transaction.asset trs) as [|recipient amount| | |sponsors| |reward unstake sponsors].
  all: try (unfold ret at 1; unfold bind at 1; rewrite Hsender by reflexivity;
            destruct broadcast; reflexivity).
  - unfold addOneToPoolByRecipient, modify at 1.
    unfold bind at 1; rewrite Hsender by reflexivity; destruct broadcast; reflexivity.
  - unfold addOneToPoolByRecipient. rewrite forEach_poolByRecipient.
    unfold bind at 1; rewrite Hsender by reflexivity; destruct broadcast; reflexivity.
  - destruct (negb (reward =? 0) || negb (unstake =? 0)).
    + unfold addOneToPoolByRecipient. rewrite forEach_poolByRecipient.
      unfold bind at 1; rewrite Hsender by reflexivity; destruct broadcast; reflexivity.
    + unfold ret at 1; unfold bind at 1; rewrite Hsender by reflexivity;
        destruct broadcast; reflexivity.
Qed.

(** [remove] of a transaction whose id is in the pool. *)
Lemma remove_run (trs : Transaction) (w : World) :
  Map_has (Transaction.id trs) (pool w) = true ->
  remove trs w = Normal (true, removedWorld trs w).
Proof.
  intros Hhas. unfold remove, removedWorld, removedRecipients, lookupByPublicKey.
  unfold bind at 1. unfold gets at 1. rewrite Hhas. cbn [negb].
  unfold bind at 1. unfold getByPublicKey, getByAddress, gets.
  unfold bind at 1. unfold TransactionDispatcher_undoUnconfirmed. unfold bind at 1.
  unfold modify at 1. unfold emit, modify at 1.
  unfold bind at 1. unfold modify at 1. unfold bind at 1. unfold modify at 1.
  unfold bind at 1.
  destruct (Transaction.asset trs) as [|recipient amount| | |sponsors| |reward unstake sponsors].
  all: try reflexivity.
  - unfold removeOneFromPoolByRecipient. rewrite forEach_poolByRecipient. reflexivity.
  - unfold removeOneFromPoolByRecipient. rewrite forEach_poolByRecipient. reflexivity.
Qed.

Lemma removeFirst_absent trs l : ~ In trs l -> removeFirst trs l = l.
Proof. intros Hnot. unfold removeFirst. now rewrite Array_indexOf_absent. Qed.

Lemma removeFirst_app_last trs l : ~ In trs l -> removeFirst trs (l ++ [trs]) = l.
Proof.
  intros Hnot. unfold removeFirst. rewrite Array_indexOf_app_last by exact Hnot.
  destruct (Z.eqb_spec (Z.of_nat (length l)) (-1)); [lia|].
  apply Array_splice1_app_last.
Qed.

Lemma lookup_pushToIndex a trs (m : gmap Address (list Transaction)) b :
  pushToIndex a trs m !! b
  = if decide (a = b) then Some (default [] (m !! a) ++ [trs]) else m !! b.
Proof.
  unfold pushToIndex. rewrite lookup_alter.
  destruct (m !! a) as [l|] eqn:Hl; case_decide; subst; cbn [default].
  - now rewrite Hl.
  - reflexivity.
  - now rewrite lookup_insert_eq.
  - now rewrite lookup_insert_ne.
Qed.

Lemma lookup_spliceFromIndex a trs (m : gmap Address (list Transaction)) b :
  spliceFromIndex a trs m !! b
  = if decide (a = b) then removeFirst trs <$> m !! a else m !! b.
Proof.
  unfold spliceFromIndex, removeFirst.
  destruct (m !! a) as [l|] eqn:Hl; cbn [fmap option_fmap option_map].
  - destruct (Array_indexOf trs l =? -1); cbn [negb].
    + case_decide; subst; [exact Hl|reflexivity].
    + rewrite lookup_insert. case_decide; reflexivity.
  - case_decide; subst; [exact Hl|reflexivity].
Qed.

Lemma lookup_foldl_pushToIndex trs ks : forall (m : gmap Address (list Transaction)) b,
  NoDup ks ->
  foldl (fun m a => pushToIndex a trs m) m ks !! b
  = if decide (b ∈ ks) then Some (default [] (m !! b) ++ [trs]) else m !! b.
Proof.
  induction ks as [|k ks IH]; intros m b Hnodup; cbn [foldl].
  - now rewrite decide_False by (apply not_elem_of_nil).
  - apply NoDup_cons in Hnodup as [Hk Hnodup]. rewrite IH by exact Hnodup.
    rewrite !lookup_pushToIndex.
    destruct (decide (k = b)) as [->|Hne].
    + rewrite decide_False by exact Hk.
      rewrite decide_True by (now left). reflexivity.
    + destruct (decide (b ∈ ks)) as [Hin|Hnin].
      * rewrite decide_True by (now right). reflexivity.
      * rewrite decide_False; [reflexivity|].
        rewrite elem_of_cons. intros [?|?]; congruence.
Qed.

Lemma lookup_foldl_spliceFromIndex trs ks : forall (m : gmap Address (list Transaction)) b,
  NoDup ks ->
  foldl (fun m a => spliceFromIndex a trs m) m ks !! b
  = if decide (b ∈ ks) then removeFirst trs <$> m !! b else m !! b.
Proof.
  induction ks as [|k ks IH]; intros m b Hnodup; cbn [foldl].
  - now rewrite decide_False by (apply not_elem_of_nil).
  - apply NoDup_cons in Hnodup as [Hk Hnodup]. rewrite IH by exact Hnodup.
    rewrite !lookup_spliceFromIndex.
    destruct (decide (k = b)) as [->|Hne].
    + rewrite decide_False by exact Hk.
      rewrite decide_True by (now left). reflexivity.
    + destruct (decide (b ∈ ks)) as [Hin|Hnin].
      * rewrite decide_True by (now right). reflexivity.
      * rewrite decide_False; [reflexivity|].
        rewrite elem_of_cons. intros [?|?]; congruence.
Qed.

Lemma sponsorKeys_NoDup sponsors : NoDup (sponsorKeys sponsors).
Proof. apply NoDup_fst_map_to_list. Qed.

Lemma pushedRecipients_NoDup trs : NoDup (pushedRecipients trs).
Proof.
  unfold pushedRecipients.
  destruct (Transaction.asset trs) as [|r a| | |sp| |reward unstake sp];
    try apply NoDup_nil_2; try apply sponsorKeys_NoDup.
  - apply NoDup_singleton.
  - destruct (_ || _); [apply sponsorKeys_NoDup|apply NoDup_nil_2].
Qed.

Lemma removedRecipients_NoDup trs : NoDup (removedRecipients trs).
Proof.
  unfold removedRecipients.
  destruct (Transaction.asset trs) as [|r a| | |sp| |reward unstake sp];
    try apply NoDup_nil_2; try apply sponsorKeys_NoDup.
  apply NoDup_singleton.
Qed.

(** The addresses [push] indexes are among those [remove] visits. *)
Lemma pushedRecipients_removed trs a :
  In a (pushedRecipients trs) -> In a (removedRecipients trs).
Proof.
  unfold pushedRecipients, removedRecipients.
  destruct (Transaction.asset trs) as [|r am| | |sp| |reward unstake sp]; try tauto.
  destruct (_ || _); [tauto|intros []].
Qed.

(** An index that does not hold [trs] does not hold it either after
    [trs] was put under some addresses and spliced from addresses that
    cover them. *)
Lemma not_indexed_push_splice trs pushed removed (m : gmap Address (list Transaction)) :
  NoDup pushed -> NoDup removed ->
  (forall a, In a pushed -> In a removed) ->
  ~ indexed trs m ->
  ~ indexed trs (foldl (fun m a => spliceFromIndex a trs m)
                   (foldl (fun m a => pushToIndex a trs m) m pushed) removed).
Proof.
  intros Hpushed Hremoved Hcover Hclean (b & l & Hl & Hin).
  rewrite lookup_foldl_spliceFromIndex in Hl by exact Hremoved.
  rewrite lookup_foldl_pushToIndex in Hl by exact Hpushed.
  assert (Hm : forall l', m !! b = Some l' -> ~ In trs l').
  { intros l' Hl' Hin'. apply Hclean. now exists b, l'. }
  assert (Hdefault : ~ In trs (default [] (m !! b))).
  { destruct (m !! b) as [l'|] eqn:Hb; cbn [default]; [now apply Hm|intros []]. }
  destruct (decide (b ∈ removed)) as [Hr|Hnr].
  - destruct (decide (b ∈ pushed)) as [Hp|Hnp].
    + cbn in Hl. injection Hl as <-.
      rewrite removeFirst_app_last in Hin by exact Hdefault. contradiction.
    + destruct (m !! b) as [l'|] eqn:Hb; cbn in Hl; [|discriminate].
      injection Hl as <-. rewrite removeFirst_absent in Hin by (now apply Hm).
      now apply (Hm l').
  - rewrite decide_False in Hl
      by (intros Hp; apply Hnr, list_elem_of_In, Hcover, list_elem_of_In, Hp).
    now apply (Hm l).
Qed.

Lemma Map_set_absent (k : TransactionId) (v : Transaction) m :
  Map_has k m = false -> Map_set k v m = m ++ [(k, v)].
Proof.
  unfold Map_has. rewrite bool_decide_eq_false.
  induction m as [|[k' v'] m IH]; cbn [Map_set app]; [reflexivity|].
  intros Hnot. rewrite decide_False.
  - rewrite IH; [reflexivity|]. intros Hin. apply Hnot. cbn. now right.
  - intros ->. apply Hnot. cbn. now left.
Qed.

Lemma Map_delete_absent (k : TransactionId) (m : list (TransactionId * Transaction)) :
  Map_has k m = false -> Map_delete k m = m.
Proof.
  unfold Map_has, Map_delete. rewrite bool_decide_eq_false.
  induction m as [|[k' v'] m IH]; [reflexivity|].
  intros Hnot. rewrite filter_cons_True.
  - rewrite IH; [reflexivity|]. intros Hin. apply Hnot. cbn. now right.
  - cbn. intros ->. apply Hnot. cbn. now left.
Qed.

Lemma Map_delete_set (k : TransactionId) (v : Transaction) m :
  Map_has k m = false -> Map_delete k (Map_set k v m) = m.
Proof.
  intros Hhas. rewrite Map_set_absent by exact Hhas. unfold Map_delete.
  rewrite filter_app. fold (Map_delete k m). rewrite Map_delete_absent by exact Hhas.
  rewrite filter_cons_False by (cbn; tauto). rewrite filter_nil. apply app_nil_r.
Qed.

Lemma Map_has_set (k : TransactionId) (v : Transaction) m : Map_has k (Map_set k v m) = true.
Proof.
  unfold Map_has. rewrite bool_decide_eq_true.
  induction m as [|[k' v'] m IH]; cbn [Map_set]; [cbn; now left|].
  destruct (decide (k' = k)); cbn; [now left|now right].
Qed.

Lemma Map_has_delete (k : TransactionId) (m : list (TransactionId * Transaction)) :
  Map_has k (Map_delete k m) = false.
Proof.
  unfold Map_has, Map_delete. rewrite bool_decide_eq_false.
  rewrite list_elem_of_fmap. intros ([k' v] & -> & Hin).
  apply list_elem_of_filter in Hin as [Hne _]. now apply Hne.
Qed.

Lemma pushedWorld_fields trs sender broadcast w :
  accounts (pushedWorld trs sender broadcast w) = accounts w
  /\ ledger (pushedWorld trs sender broadcast w) = applyUnconfirmed trs sender (ledger w)
  /\ pool (pushedWorld trs sender broadcast w) = Map_set (Transaction.id trs) trs (pool w)
  /\ poolBySender (pushedWorld trs sender broadcast w)
     = pushToIndex (Transaction.senderAddress trs) trs (poolBySender w)
  /\ poolByRecipient (pushedWorld trs sender broadcast w)
     = foldl (fun m a => pushToIndex a trs m) (poolByRecipient w) (pushedRecipients trs).
Proof. unfold pushedWorld. destruct broadcast; repeat split; reflexivity. Qed.

Lemma removedWorld_fields trs w :
  accounts (removedWorld trs w) = accounts w
  /\ ledger (removedWorld trs w)
     = undoUnconfirmed trs (lookupByPublicKey w (Transaction.senderPublicKey trs)) (ledger w)
  /\ pool (removedWorld trs w) = Map_delete (Transaction.id trs) (pool w)
  /\ poolBySender (removedWorld trs w)
     = spliceFromIndex (Transaction.senderAddress trs) trs (poolBySender w)
  /\ poolByRecipient (removedWorld trs w)
     = foldl (fun m a => spliceFromIndex a trs m) (poolByRecipient w) (removedRecipients trs)
  /\ trace (removedWorld trs w)
     = trace w ++ [UndoUnconfirmedCall trs
                     (lookupByPublicKey w (Transaction.senderPublicKey trs))].
Proof. unfold removedWorld. repeat split; reflexivity. Qed.

(** [push] followed by [remove] of a transaction that has no entry in
    the pool. *)
Lemma push_then_remove_unstaged `{!DispatcherLaws}
        (trs : Transaction) (sender : option Address) (broadcast : bool) (w : World) :
  ~ staged trs w ->
  is_Some (accounts w !! Transaction.senderAddress trs) ->
  getAddressByPublicKey (Transaction.senderPublicKey trs) = Transaction.senderAddress trs ->
  (sender = None \/ sender = Some (Transaction.senderAddress trs)) ->
  exists w1 w2,
    push trs sender broadcast w = Normal (tt, w1)
    /\ remove trs w1 = Normal (true, w2)
    /\ ledger w2 = ledger w
    /\ (forall a, u_balance (ledger w2) a = u_balance (ledger w) a)
    /\ pool w2 = pool w
    /\ ~ staged trs w2.
Proof.
  intros Hfresh [acc Hacc] Hderived Hsender.
  assert (Hhas : Map_has (Transaction.id trs) (pool w) = false).
  { destruct (Map_has _ _) eqn:Hh; [|reflexivity]. exfalso. apply Hfresh. now left. }
  assert (HbySender : ~ indexed trs (poolBySender w)).
  { intros Hi. apply Hfresh. right. now left. }
  assert (HbyRecipient : ~ indexed trs (poolByRecipient w)).
  { intros Hi. apply Hfresh. right. now right. }
  pose proof (push_run trs sender broadcast w Hhas) as Hpush.
  rewrite Hacc in Hpush.
  assert (Hs : match sender with
               | Some a => Some a
               | None => Some (Transaction.senderAddress trs)
               end = Some (Transaction.senderAddress trs)).
  { destruct Hsender as [->| ->]; reflexivity. }
  rewrite Hs in Hpush.
  set (w1 := pushedWorld trs (Some (Transaction.senderAddress trs)) broadcast w) in *.
  destruct (pushedWorld_fields trs (Some (Transaction.senderAddress trs)) broadcast w)
    as (Haccounts1 & Hledger1 & Hpool1 & HbySender1 & HbyRecipient1).
  fold w1 in Haccounts1, Hledger1, Hpool1, HbySender1, HbyRecipient1.
  assert (Hhas1 : Map_has (Transaction.id trs) (pool w1) = true)
    by (rewrite Hpool1; apply Map_has_set).
  destruct (removedWorld_fields trs w1)
    as (Haccounts2 & Hledger2 & Hpool2 & HbySender2 & HbyRecipient2 & _).
  assert (Hledger : ledger (removedWorld trs w1) = ledger w).
  { rewrite Hledger2, Hledger1. unfold lookupByPublicKey.
    rewrite Hderived, Haccounts1, Hacc. apply undoUnconfirmed_applyUnconfirmed. }
  assert (Hpool : pool (removedWorld trs w1) = pool w).
  { rewrite Hpool2, Hpool1. now apply Map_delete_set. }
  exists w1, (removedWorld trs w1).
  split; [exact Hpush|]. split; [now apply remove_run|].
  split; [exact Hledger|]. split; [intros a; now rewrite Hledger|].
  split; [exact Hpool|].
  intros [Hstaged|[Hstaged|Hstaged]].
  - rewrite Hpool in Hstaged. congruence.
  - rewrite HbySender2, HbySender1 in Hstaged. revert Hstaged.
    apply (not_indexed_push_splice trs [Transaction.senderAddress trs]
             [Transaction.senderAddress trs]);
      [apply NoDup_singleton|apply NoDup_singleton|tauto|exact HbySender].
  - rewrite HbyRecipient2, HbyRecipient1 in Hstaged. revert Hstaged.
    apply not_indexed_push_splice;
      [apply pushedRecipients_NoDup|apply removedRecipients_NoDup
      |apply pushedRecipients_removed|exact HbyRecipient].
Qed.

Lemma Map_has_delete_ne (k k' : TransactionId) (m : list (TransactionId * Transaction)) :
  k <> k' -> Map_has k (Map_delete k' m) = Map_has k m.
Proof.
  intros Hne. unfold Map_has, Map_delete. apply bool_decide_ext.
  rewrite !list_elem_of_fmap. split.
  - intros (kv & -> & Hin). apply list_elem_of_filter in Hin as [_ Hin]. eauto.
  - intros (kv & -> & Hin). exists kv. split; [reflexivity|].
    apply list_elem_of_filter. split; [exact Hne|exact Hin].
Qed.

Lemma forEach_remove_run l : forall w,
  NoDup (Transaction.id <$> l) ->
  (forall trs, trs ∈ l -> Map_has (Transaction.id trs) (pool w) = true) ->
  forEach (fun trs => remove trs ;; emit (TransactionHistory trs POP_FOR_BLOCK)) l w
  = Normal (tt, poppedWorld l w).
Proof.
  induction l as [|trs l IH]; intros w Hnodup Hhas; cbn [forEach poppedWorld].
  - reflexivity.
  - cbn [fmap list_fmap] in Hnodup. apply NoDup_cons in Hnodup as [Hfresh Hnodup].
    unfold bind at 1. unfold bind at 1.
    rewrite remove_run by (apply Hhas; now left).
    unfold emit, modify. apply IH; [exact Hnodup|].
    intros trs' Hin. destruct (removedWorld_fields trs w) as (_ & _ & Hpool & _).
    cbn [pool set_trace]. rewrite Hpool, Map_has_delete_ne.
    + apply Hhas. now right.
    + intros Heq. apply Hfresh. rewrite <- Heq. apply list_elem_of_fmap. eauto.
Qed.

Lemma poppedWorld_fields l : forall w,
  accounts (poppedWorld l w) = accounts w
  /\ pool (poppedWorld l w)
     = filter (fun kv => kv.1 ∉ Transaction.id <$> l) (pool w)
  /\ trace (poppedWorld l w)
     = trace w ++ flat_map (fun trs =>
                    [UndoUnconfirmedCall trs
                       (lookupByPublicKey w (Transaction.senderPublicKey trs));
                     TransactionHistory trs POP_FOR_BLOCK]) l.
Proof.
  induction l as [|trs l IH]; intros w; cbn [poppedWorld flat_map].
  - rewrite app_nil_r. split; [reflexivity|split; [|reflexivity]].
    symmetry. induction (pool w) as [|kv p IHp]; [reflexivity|].
    rewrite filter_cons_True by (cbn; apply not_elem_of_nil). now rewrite IHp.
  - destruct (IH (set_trace (fun t => t ++ [TransactionHistory trs POP_FOR_BLOCK])
                    (removedWorld trs w))) as (Haccounts & Hpool & Htrace).
    destruct (removedWorld_fields trs w) as (Ha & _ & Hp & _ & _ & Ht).
    rewrite Haccounts, Hpool, Htrace. cbn [accounts pool trace set_trace].
    rewrite Ha, Hp, Ht. split; [reflexivity|]. split.
    + unfold Map_delete. rewrite list_filter_filter. apply list_filter_iff.
      intros kv. cbn [fmap list_fmap]. rewrite not_elem_of_cons. tauto.
    + rewrite <- !app_assoc. reflexivity.
Qed.

Lemma poolKeyed_ids w :
  poolKeyed w -> Transaction.id <$> Map_values (pool w) = (pool w).*1.
Proof.
  intros [_ Hkeys]. unfold Map_values.
  induction Hkeys as [|kv p Hkv _ IH]; [reflexivity|].
  cbn [fmap list_fmap]. cbn [fmap list_fmap] in IH. now rewrite IH, Hkv.
Qed.

Lemma NoDup_fst_eq {K V} (l : list (K * V)) kv kv' :
  NoDup l.*1 -> kv ∈ l -> kv' ∈ l -> kv.1 = kv'.1 -> kv = kv'.
Proof.
  induction l as [|x l IH]; cbn [fmap list_fmap]; intros Hnodup Hin Hin' Heq.
  - now apply elem_of_nil in Hin.
  - apply NoDup_cons in Hnodup as [Hx Hnodup].
    apply elem_of_cons in Hin as [->|Hin]; apply elem_of_cons in Hin' as [->|Hin'].
    + reflexivity.
    + exfalso. apply Hx. rewrite Heq. apply list_elem_of_fmap. eauto.
    + exfalso. apply Hx. rewrite <- Heq. apply list_elem_of_fmap. eauto.
    + now apply IH.
Qed.

Lemma elem_of_take_elem_of {T} (x : T) n l : x ∈ take n l -> x ∈ l.
Proof. rewrite elem_of_take. intros (i & Hi & _). eapply list_elem_of_lookup_2, Hi. Qed.

(** [popSortedUnconfirmedTransactions] on a pool whose keys are the ids
    of its transactions. *)
Lemma popSortedUnconfirmedTransactions_run (limit : Z) (w : World) :
  poolKeyed w ->
  0 <= limit ->
  exists w',
    let sorted := Array_sort transactionSortFunc (Map_values (pool w)) in
    let transactions := take (Z.to_nat limit) sorted in
    w' = poppedWorld (rev transactions) w
    /\ popSortedUnconfirmedTransactions limit w = Normal (transactions, w')
    /\ Permutation sorted (Map_values (pool w))
    /\ StronglySorted sortsBefore sorted
    /\ StronglySorted sortsBefore transactions
    /\ (forall trs, trs ∈ Map_values (pool w')
                    <-> trs ∈ Map_values (pool w) /\ trs ∉ transactions)
    /\ trace w'
       = trace w ++ flat_map (fun trs =>
                      [UndoUnconfirmedCall trs
                         (lookupByPublicKey w (Transaction.senderPublicKey trs));
                       TransactionHistory trs POP_FOR_BLOCK]) (rev transactions)
    /\ undoUnconfirmedCalls (trace w')
       = undoUnconfirmedCalls (trace w) ++ rev transactions.
Proof.
  intros Hkeyed Hlimit.
  set (sorted := Array_sort transactionSortFunc (Map_values (pool w))).
  set (transactions := take (Z.to_nat limit) sorted).
  assert (Hperm : Permutation sorted (Map_values (pool w)))
    by apply Array_sort_Permutation.
  assert (Hsorted : StronglySorted sortsBefore sorted)
    by (apply Array_sort_sorted; [apply sortsBefore_total|apply sortsBefore_trans]).
  assert (Hvalues : forall trs, trs ∈ transactions -> trs ∈ Map_values (pool w)).
  { intros trs Hin. apply elem_of_take_elem_of in Hin. now rewrite <- Hperm. }
  assert (Hnodup : NoDup (Transaction.id <$> rev transactions)).
  { rewrite <- (Permutation_rev transactions). unfold transactions. rewrite fmap_take.
    apply (sublist_NoDup _ (Transaction.id <$> sorted)); [|apply sublist_take].
    rewrite Hperm, poolKeyed_ids by exact Hkeyed. apply Hkeyed. }
  assert (Hhas : forall trs, trs ∈ rev transactions ->
                             Map_has (Transaction.id trs) (pool w) = true).
  { intros trs Hin. rewrite <- (Permutation_rev transactions) in Hin.
    apply Hvalues in Hin. unfold Map_has. apply bool_decide_eq_true.
    rewrite <- poolKeyed_ids by exact Hkeyed. apply list_elem_of_fmap. eauto. }
  exists (poppedWorld (rev transactions) w). split; [reflexivity|].
  cbv zeta. fold sorted. fold transactions.
  destruct (poppedWorld_fields (rev transactions) w) as (_ & Hpool & Htrace).
  split; [|split; [exact Hperm|split; [exact Hsorted|split; [|split; [|split]]]]].
  - unfold popSortedUnconfirmedTransactions. unfold bind at 1. unfold gets.
    rewrite Array_slice0_take by exact Hlimit. fold sorted. fold transactions.
    unfold bind at 1. rewrite forEach_remove_run by assumption. reflexivity.
  - now apply StronglySorted_take.
  - intros trs. rewrite Hpool. unfold Map_values. rewrite !list_elem_of_fmap. split.
    + intros (kv & -> & Hin). apply list_elem_of_filter in Hin as [Hnot Hin].
      split; [eauto|]. intros Hret. apply Hnot.
      destruct Hkeyed as [_ Hkeys]. rewrite Forall_forall in Hkeys.
      rewrite (Hkeys kv Hin). apply list_elem_of_fmap. exists kv.2.
      split; [reflexivity|]. now rewrite <- (Permutation_rev transactions).
    + intros [(kv & -> & Hin) Hnot]. exists kv. split; [reflexivity|].
      apply list_elem_of_filter. split; [|exact Hin].
      intros Hid. apply list_elem_of_fmap in Hid as (t & Hkt & Ht).
      rewrite <- (Permutation_rev transactions) in Ht.
      pose proof (Hvalues t Ht) as Htv. unfold Map_values in Htv.
      apply list_elem_of_fmap in Htv as (kv' & -> & Hin').
      destruct Hkeyed as [Hnd Hkeys]. rewrite Forall_forall in Hkeys.
      assert (kv = kv') as ->; [|contradiction].
      apply (NoDup_fst_eq (pool w)); [exact Hnd|exact Hin|exact Hin'|].
      rewrite Hkt. symmetry. now apply Hkeys.
  - exact Htrace.
  - rewrite Htrace, undoUnconfirmedCalls_app. f_equal.
    generalize (rev transactions). intros l.
    unfold undoUnconfirmedCalls.
    induction l as [|t l IH]; cbn [flat_map app]; [reflexivity|]. now rewrite IH.
Qed.

(** [poolKeyed] is an invariant of the pool: it holds of the empty pool
    and [push] and [remove] keep it. *)
Lemma poolKeyed_pushedWorld trs sender broadcast w :
  Map_has (Transaction.id trs) (pool w) = false ->
  poolKeyed w -> poolKeyed (pushedWorld trs sender broadcast w).
Proof.
  intros Hhas [Hnodup Hkeys]. unfold poolKeyed.
  destruct (pushedWorld_fields trs sender broadcast w) as (_ & _ & -> & _).
  rewrite Map_set_absent by exact Hhas. split.
  - rewrite fmap_app. apply NoDup_app. split; [exact Hnodup|]. split.
    + intros k Hk Hin. cbn in Hin. apply list_elem_of_singleton in Hin as ->.
      unfold Map_has in Hhas. now apply bool_decide_eq_false in Hhas.
    + cbn. apply NoDup_singleton.
  - apply Forall_app. split; [exact Hkeys|]. now repeat constructor.
Qed.

Lemma poolKeyed_removedWorld trs w : poolKeyed w -> poolKeyed (removedWorld trs w).
Proof.
  intros [Hnodup Hkeys]. unfold poolKeyed.
  destruct (removedWorld_fields trs w) as (_ & _ & -> & _). unfold Map_delete. split.
  - apply (sublist_NoDup _ (pool w).*1); [exact Hnodup|].
    apply fmap_sublist, sublist_filter.
  - rewrite Forall_forall in *. intros kv Hin.
    apply list_elem_of_filter in Hin as [_ Hin]. now apply Hkeys.
Qed.

Lemma removeFirst_split trs l :
  In trs l ->
  exists l1 l2, l = l1 ++ trs :: l2 /\ ~ In trs l1 /\ removeFirst trs l = l1 ++ l2.
Proof.
  intros Hin. pose proof (Array_indexOf_present trs l Hin) as Hpos.
  destruct (Array_indexOf_lookup trs l Hpos) as [Hlook Hnot].
  exists (take (Z.to_nat (Array_indexOf trs l)) l),
         (drop (S (Z.to_nat (Array_indexOf trs l))) l).
  split; [symmetry; now apply take_drop_middle|]. split; [exact Hnot|].
  unfold removeFirst, Array_splice1.
  destruct (Z.eqb_spec (Array_indexOf trs l) (-1)); [lia|reflexivity].
Qed.

Lemma removeFirst_In trs l t : In t (removeFirst trs l) -> In t l.
Proof.
  destruct (in_dec Transaction_eq_dec trs l) as [Hin|Hnot].
  - destruct (removeFirst_split trs l Hin) as (l1 & l2 & -> & _ & ->).
    rewrite !in_app_iff. cbn. tauto.
  - now rewrite removeFirst_absent.
Qed.

Lemma removeFirst_NoDup trs l : NoDup l -> NoDup (removeFirst trs l) /\ ~ In trs (removeFirst trs l).
Proof.
  intros Hnodup. destruct (in_dec Transaction_eq_dec trs l) as [Hin|Hnot].
  - destruct (removeFirst_split trs l Hin) as (l1 & l2 & -> & H1 & ->).
    apply NoDup_app in Hnodup as (Hl1 & Hdisj & Hl2).
    apply NoDup_cons in Hl2 as [H2 Hl2]. split.
    + apply NoDup_app. split; [exact Hl1|]. split; [|exact Hl2].
      intros x Hx Hx2. apply (Hdisj x Hx). now right.
    + rewrite in_app_iff. intros [?|Hin2]; [tauto|].
      apply H2. now apply list_elem_of_In.
  - rewrite removeFirst_absent by exact Hnot. tauto.
Qed.

Lemma Map_has_In (k : TransactionId) (v : Transaction) m : In (k, v) m -> Map_has k m = true.
Proof.
  intros Hin. unfold Map_has. apply bool_decide_eq_true, list_elem_of_fmap.
  exists (k, v). split; [reflexivity|]. now apply list_elem_of_In.
Qed.

(** In a consistent pool a transaction whose id is not a key of the pool
    map has no entry at all. *)
Lemma poolConsistent_unstaged trs w :
  poolConsistent w -> Map_has (Transaction.id trs) (pool w) = false -> ~ staged trs w.
Proof.
  intros (_ & HbySender & HbyRecipient) Hhas [Hs|[(a & l & Hl & Hin)|(a & l & Hl & Hin)]].
  - congruence.
  - destruct (HbySender a l Hl) as [_ Hpooled]. destruct (Hpooled trs Hin) as [_ Hpool].
    apply Map_has_In in Hpool. congruence.
  - destruct (HbyRecipient a l Hl) as [_ Hpooled]. destruct (Hpooled trs Hin) as [_ Hpool].
    apply Map_has_In in Hpool. congruence.
Qed.

(** [poolConsistent] holds of the empty pool, and [push] and [remove] of
    a pooled transaction object keep it. *)
Lemma poolConsistent_empty w :
  pool w = [] -> poolBySender w = ∅ -> poolByRecipient w = ∅ -> poolConsistent w.
Proof.
  intros Hpool HbySender HbyRecipient. unfold poolConsistent, poolKeyed.
  rewrite Hpool, HbySender, HbyRecipient. split; [split; constructor|].
  split; intros a l Hl; rewrite lookup_empty in Hl; discriminate Hl.
Qed.

Lemma poolConsistent_pushedWorld trs sender broadcast w :
  Map_has (Transaction.id trs) (pool w) = false ->
  poolConsistent w -> poolConsistent (pushedWorld trs sender broadcast w).
Proof.
  intros Hhas Hcons.
  pose proof (poolConsistent_unstaged trs w Hcons Hhas) as Hfresh.
  destruct Hcons as (Hkeyed & HbySender & HbyRecipient).
  destruct (pushedWorld_fields trs sender broadcast w) as (_ & _ & Hpool & Hs & Hr).
  assert (Hold : forall t, In (Transaction.id t, t) (pool w) ->
                           In (Transaction.id t, t) (pool (pushedWorld trs sender broadcast w))).
  { intros t Hin. rewrite Hpool, Map_set_absent by exact Hhas. apply in_or_app. now left. }
  assert (Hnew : In (Transaction.id trs, trs) (pool (pushedWorld trs sender broadcast w))).
  { rewrite Hpool, Map_set_absent by exact Hhas. apply in_or_app. right. now left. }
  split; [now apply poolKeyed_pushedWorld|]. split.
  - intros a l Hl. rewrite Hs, lookup_pushToIndex in Hl.
    destruct (decide (Transaction.senderAddress trs = a)) as [<-|Hne].
    + injection Hl as <-.
      assert (Hprev : NoDup (default [] (poolBySender w !! Transaction.senderAddress trs))
                      /\ forall t, In t (default [] (poolBySender w
                                                      !! Transaction.senderAddress trs)) ->
                                   Transaction.senderAddress t = Transaction.senderAddress trs
                                   /\ In (Transaction.id t, t) (pool w)).
      { destruct (poolBySender w !! Transaction.senderAddress trs) as [l|] eqn:Hl;
          cbn [default]; [now apply HbySender|]. split; [constructor|intros t []]. }
      destruct Hprev as [Hnodup Hpooled]. split.
      * apply NoDup_app. split; [exact Hnodup|]. split; [|apply NoDup_singleton].
        intros x Hx Hx'. apply list_elem_of_singleton in Hx' as ->.
        apply list_elem_of_In in Hx. destruct (Hpooled trs Hx) as [_ Hin].
        apply Map_has_In in Hin. congruence.
      * intros t Hin. apply in_app_or in Hin as [Hin|[<-|[]]].
        -- destruct (Hpooled t Hin). auto.
        -- auto.
    + destruct (HbySender a l Hl) as [Hnodup Hpooled]. split; [exact Hnodup|].
      intros t Hin. destruct (Hpooled t Hin). auto.
  - intros a l Hl.
    rewrite Hr, lookup_foldl_pushToIndex in Hl by apply pushedRecipients_NoDup.
    destruct (decide (a ∈ pushedRecipients trs)) as [Ha|Ha].
    + injection Hl as <-.
      assert (Hprev : NoDup (default [] (poolByRecipient w !! a))
                      /\ forall t, In t (default [] (poolByRecipient w !! a)) ->
                                   In a (pushedRecipients t)
                                   /\ In (Transaction.id t, t) (pool w)).
      { destruct (poolByRecipient w !! a) as [l|] eqn:Hl;
          cbn [default]; [now apply HbyRecipient|]. split; [constructor|intros t []]. }
      destruct Hprev as [Hnodup Hpooled]. split.
      * apply NoDup_app. split; [exact Hnodup|]. split; [|apply NoDup_singleton].
        intros x Hx Hx'. apply list_elem_of_singleton in Hx' as ->.
        apply list_elem_of_In in Hx. destruct (Hpooled trs Hx) as [_ Hin].
        apply Map_has_In in Hin. congruence.
      * intros t Hin. apply in_app_or in Hin as [Hin|[<-|[]]].
        -- destruct (Hpooled t Hin). auto.
        -- split; [now apply list_elem_of_In|exact Hnew].
    + destruct (HbyRecipient a l Hl) as [Hnodup Hpooled]. split; [exact Hnodup|].
      intros t Hin. destruct (Hpooled t Hin). auto.
Qed.

Lemma poolConsistent_removedWorld trs w :
  In (Transaction.id trs, trs) (pool w) ->
  poolConsistent w -> poolConsistent (removedWorld trs w).
Proof.
  intros Hpooled ((Hnodup & Hkeys) & HbySender & HbyRecipient).
  destruct (removedWorld_fields trs w) as (_ & _ & Hpool & Hs & Hr & _).
  assert (Hkeep : forall t, t <> trs -> In (Transaction.id t, t) (pool w) ->
                            In (Transaction.id t, t) (pool (removedWorld trs w))).
  { intros t Hne Hin. rewrite Hpool. unfold Map_delete.
    apply list_elem_of_In, list_elem_of_filter. split; [|now apply list_elem_of_In].
    cbn. intros Hid. apply Hne.
    assert (Heq : (Transaction.id t, t) = (Transaction.id trs, trs)).
    { apply (NoDup_fst_eq (pool w)); [exact Hnodup| | |exact Hid];
        now apply list_elem_of_In. }
    now injection Heq. }
  split; [apply poolKeyed_removedWorld; now split|]. split.
  - intros a l Hl. rewrite Hs, lookup_spliceFromIndex in Hl.
    destruct (decide (Transaction.senderAddress trs = a)) as [<-|Hne].
    + destruct (poolBySender w !! Transaction.senderAddress trs) as [l0|] eqn:Hl0;
        [|discriminate Hl].
      injection Hl as <-. destruct (HbySender _ _ Hl0) as [Hnd Hin0].
      destruct (removeFirst_NoDup trs l0 Hnd) as [Hnd' Hgone]. split; [exact Hnd'|].
      intros t Hin. pose proof (removeFirst_In _ _ _ Hin) as Hin'.
      destruct (Hin0 t Hin') as [Ha Hp]. split; [exact Ha|].
      apply Hkeep; [|exact Hp]. intros ->. contradiction.
    + destruct (HbySender a l Hl) as [Hnd Hin0]. split; [exact Hnd|].
      intros t Hin. destruct (Hin0 t Hin) as [Ha Hp]. split; [exact Ha|].
      apply Hkeep; [|exact Hp]. intros ->. congruence.
  - intros a l Hl.
    rewrite Hr, lookup_foldl_spliceFromIndex in Hl by apply removedRecipients_NoDup.
    destruct (decide (a ∈ removedRecipients trs)) as [Ha|Ha].
    + destruct (poolByRecipient w !! a) as [l0|] eqn:Hl0; [|discriminate Hl].
      injection Hl as <-. destruct (HbyRecipient _ _ Hl0) as [Hnd Hin0].
      destruct (removeFirst_NoDup trs l0 Hnd) as [Hnd' Hgone]. split; [exact Hnd'|].
      intros t Hin. pose proof (removeFirst_In _ _ _ Hin) as Hin'.
      destruct (Hin0 t Hin') as [Hat Hp]. split; [exact Hat|].
      apply Hkeep; [|exact Hp]. intros ->. contradiction.
    + destruct (HbyRecipient a l Hl) as [Hnd Hin0]. split; [exact Hnd|].
      intros t Hin. destruct (Hin0 t Hin) as [Hat Hp]. split; [exact Hat|].
      apply Hkeep; [|exact Hp]. intros ->.
      apply Ha, list_elem_of_In, pushedRecipients_removed, Hat.
Qed.

Lemma poolConsistent_set_trace f w : poolConsistent w -> poolConsistent (set_trace f w).
Proof. intros H. exact H. Qed.

Lemma pooled_removedWorld trs t w :
  Transaction.id t <> Transaction.id trs ->
  In (Transaction.id t, t) (pool w) ->
  In (Transaction.id t, t) (pool (removedWorld trs w)).
Proof.
  intros Hne Hin. destruct (removedWorld_fields trs w) as (_ & _ & -> & _).
  unfold Map_delete. apply list_elem_of_In, list_elem_of_filter.
  split; [exact Hne|now apply list_elem_of_In].
Qed.

Lemma poolConsistent_poppedWorld l : forall w,
  NoDup (Transaction.id <$> l) ->
  (forall t, In t l -> In (Transaction.id t, t) (pool w)) ->
  poolConsistent w -> poolConsistent (poppedWorld l w).
Proof.
  induction l as [|trs l IH]; intros w Hnodup Hpooled Hcons; cbn [poppedWorld];
    [exact Hcons|].
  cbn [fmap list_fmap] in Hnodup. apply NoDup_cons in Hnodup as [Hfresh Hnodup].
  apply IH; [exact Hnodup| |].
  - intros t Hin. cbn [pool set_trace]. apply pooled_removedWorld.
    + intros Heq. apply Hfresh. rewrite <- Heq. apply list_elem_of_fmap.
      exists t. split; [reflexivity|now apply list_elem_of_In].
    + apply Hpooled. now right.
  - apply poolConsistent_set_trace, poolConsistent_removedWorld; [|exact Hcons].
    apply Hpooled. now left.
Qed.

(** C6.  In a consistent pool, and for a limit that is not negative,
    [popSortedUnconfirmedTransactions] returns the first [limit]
    transactions of the pool sorted by [transactionSortFunc] (the sorted
    list is a permutation of the pool in ascending order); afterwards the
    pool holds exactly the transactions that were not returned, and is
    consistent; and the removals, each calling [undoUnconfirmed], run
    over the returned list from its last transaction to its first. *)
Theorem popSortedUnconfirmedTransactions_spec (limit : Z) (w : World) :
  poolConsistent w ->
  0 <= limit ->
  exists w',
    let sorted := Array_sort transactionSortFunc (Map_values (pool w)) in
    let transactions := take (Z.to_nat limit) sorted in
    popSortedUnconfirmedTransactions limit w = Normal (transactions, w')
    /\ Permutation sorted (Map_values (pool w))
    /\ StronglySorted sortsBefore sorted
    /\ StronglySorted sortsBefore transactions
    /\ (forall trs, In trs (Map_values (pool w'))
                    <-> In trs (Map_values (pool w)) /\ ~ In trs transactions)
    /\ poolConsistent w'
    /\ trace w'
       = trace w ++ flat_map (fun trs =>
                      [UndoUnconfirmedCall trs
                         (lookupByPublicKey w (Transaction.senderPublicKey trs));
                       TransactionHistory trs POP_FOR_BLOCK]) (rev transactions)
    /\ undoUnconfirmedCalls (trace w')
       = undoUnconfirmedCalls (trace w) ++ rev transactions.
Proof.
  intros Hcons Hlimit. pose proof Hcons as (Hkeyed & _).
  destruct (popSortedUnconfirmedTransactions_run limit w Hkeyed Hlimit)
    as (w' & Hw' & Hrun & Hperm & Hsorted & Hprefix & Hleft & Htrace & Hcalls).
  exists w'. cbv zeta in *.
  split; [exact Hrun|]. split; [exact Hperm|]. split; [exact Hsorted|].
  split; [exact Hprefix|]. split; [|split; [|split; [exact Htrace|exact Hcalls]]].
  - intros trs. rewrite <- !list_elem_of_In. apply Hleft.
  - assert (Hvalues : forall t,
      In t (take (Z.to_nat limit) (Array_sort transactionSortFunc (Map_values (pool w)))) ->
      In (Transaction.id t, t) (pool w)).
    { intros t Hin. apply list_elem_of_In, elem_of_take_elem_of in Hin.
      rewrite Hperm in Hin. unfold Map_values in Hin.
      apply list_elem_of_fmap in Hin as ([k v] & -> & Hin).
      destruct Hkeyed as [_ Hkeys]. rewrite Forall_forall in Hkeys.
      pose proof (Hkeys _ Hin) as Hk. cbn in Hk. subst k. now apply list_elem_of_In. }
    rewrite Hw'. apply poolConsistent_poppedWorld; [| |exact Hcons].
    + rewrite <- (Permutation_rev (take _ _)), fmap_take.
      apply (sublist_NoDup _ (Transaction.id <$>
               Array_sort transactionSortFunc (Map_values (pool w))));
        [|apply sublist_take].
      rewrite Hperm, poolKeyed_ids by exact Hkeyed. apply Hkeyed.
    + intros t Hin. apply Hvalues. now apply in_rev.
Qed.

(** C7.  Let the pool be consistent and hold no transaction with the id
    of [trs], let the account of the sender of [trs] exist and be the one
    found by its public key, and let [push] be handed that account or
    none.  Then [push] followed by [remove] leaves the ledger, hence the
    [u_balance] of every account, as it was before the push, provided
    [undoUnconfirmed] is the inverse of [applyUnconfirmed]; the pool map
    is what it was; and [trs] has no entry in the pool map, in
    [poolBySender] or in [poolByRecipient]. *)
Theorem push_then_remove_restores `{!DispatcherLaws}
        (trs : Transaction) (sender : option Address) (broadcast : bool) (w : World) :
  poolConsistent w ->
  Map_has (Transaction.id trs) (pool w) = false ->
  is_Some (accounts w !! Transaction.senderAddress trs) ->
  getAddressByPublicKey (Transaction.senderPublicKey trs) = Transaction.senderAddress trs ->
  (sender = None \/ sender = Some (Transaction.senderAddress trs)) ->
  exists w1 w2,
    push trs sender broadcast w = Normal (tt, w1)
    /\ remove trs w1 = Normal (true, w2)
    /\ ledger w2 = ledger w
    /\ (forall a, u_balance (ledger w2) a = u_balance (ledger w) a)
    /\ pool w2 = pool w
    /\ ~ staged trs w2.
Proof.
  intros Hcons Hhas Haccount Hderived Hsender.
  apply push_then_remove_unstaged; try assumption.
  now apply poolConsistent_unstaged.
Qed.

Ltac conjuncts := repeat match goal with |- _ /\ _ => split end.

Lemma occurs_once (trs : Transaction) (deps sorted : list Transaction) :
  Permutation sorted (deps ++ [trs]) -> ~ In trs deps ->
  exists l1 l2, sorted = l1 ++ trs :: l2 /\ ~ In trs l1 /\ ~ In trs l2.
Proof.
  intros Hperm Hnot.
  assert (Hin : In trs sorted).
  { apply (Permutation_in _ (Permutation_sym Hperm)), in_or_app. right. now left. }
  destruct (in_split _ _ Hin) as (l1 & l2 & ->). exists l1, l2. split; [reflexivity|].
  pose proof (Permutation_count_occ Transaction_eq_dec (l1 ++ trs :: l2) (deps ++ [trs]))
    as [Hcount _].
  specialize (Hcount Hperm trs).
  rewrite !count_occ_app in Hcount. cbn [count_occ] in Hcount.
  destruct (Transaction_eq_dec trs trs) as [_|Hne]; [|congruence].
  rewrite (proj1 (count_occ_not_In Transaction_eq_dec deps trs) Hnot) in Hcount.
  split; apply (count_occ_not_In Transaction_eq_dec); lia.
Qed.

(** C8.  [isPotentialConflict] reads the pool and changes nothing.  With
    the dependent transactions being those indexed under the sender
    address of [trs] as recipient or as sender: it answers [false] when
    there is none; otherwise [true] for a SIGNATURE; [true] for a REGISTER
    when a dependent is a REGISTER; and otherwise [true] exactly when, in
    the dependents sorted together with [trs] by [transactionSortFunc],
    the position of [trs] is not the last one.  When [trs] is not itself
    a dependent, its position is the last one exactly when it is the
    last element of the sorted list, which is exactly when no dependent
    sorts after it. *)
Theorem isPotentialConflict_spec (trs : Transaction) (w : World) :
  let dependTransactions :=
    default [] (poolByRecipient w !! Transaction.senderAddress trs)
    ++ default [] (poolBySender w !! Transaction.senderAddress trs) in
  let sorted := Array_sort transactionSortFunc (dependTransactions ++ [trs]) in
  exists conflict,
    isPotentialConflict trs w = Normal (conflict, w)
    /\ (dependTransactions = [] -> conflict = false)
    /\ (dependTransactions <> [] -> Transaction.type trs = SIGNATURE -> conflict = true)
    /\ (dependTransactions <> [] -> Transaction.type trs = REGISTER ->
        (exists t, In t dependTransactions /\ Transaction.type t = REGISTER) ->
        conflict = true)
    /\ (dependTransactions <> [] -> Transaction.type trs <> SIGNATURE ->
        ~ (Transaction.type trs = REGISTER
           /\ exists t, In t dependTransactions /\ Transaction.type t = REGISTER) ->
        (conflict = true
         <-> Array_indexOf trs sorted <> Z.of_nat (length sorted) - 1))
    /\ (~ In trs dependTransactions ->
        (Array_indexOf trs sorted = Z.of_nat (length sorted) - 1
         <-> last sorted = Some trs)
        /\ (last sorted = Some trs
            <-> forall d, In d dependTransactions -> sortsBefore d trs)).
Proof.
  cbv zeta.
  set (deps := default [] (poolByRecipient w !! Transaction.senderAddress trs)
               ++ default [] (poolBySender w !! Transaction.senderAddress trs)).
  set (sorted := Array_sort transactionSortFunc (deps ++ [trs])).
  assert (Hregister :
    existsb (fun t => bool_decide (Transaction.type t = REGISTER)) deps = true
    <-> exists t, In t deps /\ Transaction.type t = REGISTER).
  { rewrite existsb_exists. split; intros (t & Hin & Ht); exists t; split; try exact Hin.
    - now apply bool_decide_eq_true in Ht.
    - now apply bool_decide_eq_true. }
  assert (Hlast : ~ In trs deps ->
    (Array_indexOf trs sorted = Z.of_nat (length sorted) - 1 <-> last sorted = Some trs)
    /\ (last sorted = Some trs <-> forall d, In d deps -> sortsBefore d trs)).
  { intros Hnot. split.
    - destruct (occurs_once trs deps sorted) as (l1 & l2 & Heq & H1 & H2);
        [apply Array_sort_Permutation|exact Hnot|].
      rewrite Heq. now apply Array_indexOf_last_once.
    - apply (last_Array_sort_snoc transactionSortFunc sortsBefore_total sortsBefore_trans).
      exact Hnot. }
  unfold isPotentialConflict. run. fold deps. fold sorted.
  destruct deps as [|d deps'] eqn:Hdeps.
  - exists false. conjuncts; try congruence; try exact Hlast. reflexivity.
  - cbn [length]. rewrite (proj2 (Z.eqb_neq _ 0)) by lia.
    destruct (bool_decide_reflect (Transaction.type trs = SIGNATURE)) as [Hsig|Hsig].
    { exists true. conjuncts; try congruence; try tauto; try exact Hlast. }
    destruct (bool_decide_reflect (Transaction.type trs = REGISTER)) as [Hreg|Hreg];
      cbn [andb].
    + destruct (existsb _ (d :: deps')) eqn:Hex.
      * exists true. conjuncts; try congruence; try tauto; try exact Hlast.
      * eexists. split; [reflexivity|].
        conjuncts; try congruence; try exact Hlast.
        -- intros _ _ Hsome. apply Hregister in Hsome. congruence.
        -- intros _ _ _. rewrite negb_true_iff, Z.eqb_neq. reflexivity.
    + eexists. split; [reflexivity|].
      conjuncts; try congruence; try exact Hlast.
      intros _ _ _. rewrite negb_true_iff, Z.eqb_neq. reflexivity.
Qed.
End PoolFacts.

(** ** Deleting the genesis block *)

Section DeleteLastBlockFacts.
Context `{C : Crypto} `{E : Env} `{D : Dispatcher}.

(** C9.  When the last stored block has height 1, [deleteLastBlock]
    returns the failure ['Cannot delete genesis block'] and leaves the
    node as it was: [deleteById] is not called, and the block storage,
    the rounds with their [isForged] flags and the ledger are unchanged. *)
Theorem deleteLastBlock_rejects_genesis (w : World) (lastBlock : Block) :
  last (lastNBlocks w) = Some lastBlock ->
  Block.height lastBlock = 1 ->
  deleteLastBlock w = Normal (failure ["Cannot delete genesis block"], w).
Proof.
  intros Hlast Hheight. unfold deleteLastBlock, bind at 1.
  unfold BlockStorageService_getLast, gets. rewrite Hlast, Hheight. reflexivity.
Qed.
End DeleteLastBlockFacts.

(** * Further properties *)

(** ** What [verifyBlock] accepts *)

Section VerifyBlockFacts.
Context `{C : Crypto} `{E : Env} `{D : Dispatcher}.

Lemma success_failure_nil {T} (errs : list string) :
  success (failure errs : ResponseEntity T) = true <-> errs = [].
Proof. destruct errs; cbn; split; congruence. Qed.

Lemma app_eq_nil_iff {T} (l1 l2 : list T) : l1 ++ l2 = [] <-> l1 = [] /\ l2 = [].
Proof.
  split; [apply app_eq_nil|]. intros [-> ->]. reflexivity.
Qed.

Lemma verifySignature_appends block errs :
  verifySignature block errs = errs ++ verifySignature block [].
Proof.
  unfold verifySignature.
  destruct (crypto_sign_verify_detached _ _ _) as [[|]|e]; cbn;
    rewrite ?app_nil_r, <- ?app_assoc; reflexivity.
Qed.

Lemma verifySignature_passes block :
  verifySignature block [] = []
  <-> crypto_sign_verify_detached (Buffer_from_hex (Block.signature block))
        (getHash block true) (Buffer_from_hex (Block.generatorPublicKey block))
      = Returned true.
Proof.
  unfold verifySignature.
  destruct (crypto_sign_verify_detached _ _ _) as [[|]|e]; cbn; split; congruence.
Qed.

Lemma verifyPreviousBlock_appends block errs :
  verifyPreviousBlock block errs = errs ++ verifyPreviousBlock block [].
Proof.
  unfold verifyPreviousBlock. destruct (_ && _); cbn; rewrite ?app_nil_r; reflexivity.
Qed.

Lemma verifyPreviousBlock_passes block :
  verifyPreviousBlock block [] = [] <-> hasPreviousBlock block \/ Block.height block = 1.
Proof.
  unfold verifyPreviousBlock, hasPreviousBlock.
  destruct (Z.eqb_spec (Block.height block) 1) as [Hh|Hh];
    destruct (Block.previousBlockId block) as [[|c p]|]; cbn; split;
    try congruence; try tauto; try (intros _; left; eexists; split; [reflexivity|congruence]).
  - intros [(p & [= <-] & Hp)|Hone]; congruence.
  - intros [(p & Hp & _)|Hone]; congruence.
Qed.

Lemma verifyVersion_appends block errs :
  verifyVersion block errs = errs ++ verifyVersion block [].
Proof.
  unfold verifyVersion. cbv zeta. destruct (negb _); cbn; rewrite ?app_nil_r; reflexivity.
Qed.

Lemma verifyVersion_passes block :
  verifyVersion block [] = [] <-> Block.version block = CURRENT_BLOCK_VERSION.
Proof.
  unfold verifyVersion. cbv zeta.
  destruct (Z.eqb_spec (Block.version block) CURRENT_BLOCK_VERSION); cbn; split;
    congruence.
Qed.

Lemma verifyId_appends block errs : verifyId block errs = errs ++ verifyId block [].
Proof.
  unfold verifyId. cbv zeta. destruct (negb _); cbn; rewrite ?app_nil_r; reflexivity.
Qed.

Lemma verifyId_passes block : verifyId block [] = [] <-> Block.id block = getId block.
Proof.
  unfold verifyId. cbv zeta.
  destruct (String.eqb_spec (Block.id block) (getId block)); cbn; split; congruence.
Qed.

(** The whole numbers up to 2^53 are doubles, and JS adds them exactly. *)
Lemma Number_of_Z_exact (n : Z) : - 2 ^ 53 <= n <= 2 ^ 53 -> Number_of_Z n = Finite n.
Proof.
  intros Hn. unfold Number_of_Z. cbv zeta.
  destruct (Z.leb_spec (Z.log2 (Z.abs n) - 52) 0) as [Hsmall|Hbig]; [reflexivity|].
  assert (Habs : Z.abs n = 2 ^ 53).
  { destruct (Z.eq_dec (Z.abs n) (2 ^ 53)) as [Heq|Hne]; [exact Heq|]. exfalso.
    destruct (Z.eq_dec (Z.abs n) 0) as [Hzero|Hpos].
    - rewrite Hzero in Hbig. cbn in Hbig. lia.
    - assert (Hlog : Z.log2 (Z.abs n) < 53) by (apply Z.log2_lt_pow2; lia). lia. }
  destruct (Z.abs_eq_or_opp n) as [Heq|Heq]; rewrite Heq in Habs.
  - rewrite Habs. reflexivity.
  - assert (n = - 2 ^ 53) as -> by lia. reflexivity.
Qed.

Lemma sumOf_nonneg (f : Transaction -> Z) trss :
  Forall (fun trs => 0 <= f trs) trss -> 0 <= sumOf f trss.
Proof.
  induction 1 as [|trs rest Hhead _ IH]; cbn [sumOf foldr]; [lia|].
  fold (sumOf f rest). lia.
Qed.

Lemma addFees_exact trss : forall total,
  0 <= total ->
  Forall (fun trs => 0 <= Transaction.fee trs) trss ->
  total + sumOf Transaction.fee trss <= 2 ^ 53 ->
  addFees (Finite total) trss = Finite (total + sumOf Transaction.fee trss).
Proof.
  induction trss as [|trs rest IH]; intros total Htotal Hall Hsum.
  - cbn. now rewrite Z.add_0_r.
  - apply Forall_cons in Hall as [Hhead Hall].
    pose proof (sumOf_nonneg Transaction.fee rest Hall) as Hrest.
    change (sumOf Transaction.fee (trs :: rest))
      with (Transaction.fee trs + sumOf Transaction.fee rest) in *.
    change (addFees (Finite total) (trs :: rest))
      with (addFees (Number_of_Z (total + Transaction.fee trs)) rest).
    rewrite Number_of_Z_exact by lia. rewrite IH by (assumption || lia).
    f_equal. lia.
Qed.

Lemma addAmounts_exact trss : forall total,
  0 <= total ->
  Forall (fun trs => 0 <= sentAmount trs) trss ->
  total + sumOf sentAmount trss <= 2 ^ 53 ->
  addAmounts (Finite total) trss = Finite (total + sumOf sentAmount trss).
Proof.
  induction trss as [|trs rest IH]; intros total Htotal Hall Hsum.
  - cbn. now rewrite Z.add_0_r.
  - apply Forall_cons in Hall as [Hhead Hall].
    pose proof (sumOf_nonneg sentAmount rest Hall) as Hrest.
    change (sumOf sentAmount (trs :: rest))
      with (sentAmount trs + sumOf sentAmount rest) in *.
    change (addAmounts (Finite total) (trs :: rest))
      with (addAmounts (match Transaction.asset trs with
                        | AssetTransfer _ amount => Number_of_Z (total + amount)
                        | _ => Finite total
                        end) rest).
    pose proof (eq_refl (sentAmount trs)) as Hsent. unfold sentAmount at 2 in Hsent.
    destruct (Transaction.asset trs); cbv beta iota in Hsent; rewrite Hsent in *;
      rewrite ?Number_of_Z_exact by lia; rewrite IH by (assumption || lia);
      f_equal; lia.
Qed.

Lemma addedExactly_totals trss :
  addedExactly trss ->
  addAmounts (Finite 0) trss = Finite (sumOf sentAmount trss)
  /\ addFees (Finite 0) trss = Finite (sumOf Transaction.fee trss).
Proof.
  intros (Hall & Hamounts & Hfees). split.
  - rewrite addAmounts_exact; [reflexivity|lia| |lia].
    eapply Forall_impl; [exact Hall|]. now intros trs [Ha _].
  - rewrite addFees_exact; [reflexivity|lia| |lia].
    eapply Forall_impl; [exact Hall|]. now intros trs [_ Hf].
Qed.

Lemma Number_eqb_eq (x : JsNumber) (y : Z) : Number_eqb x y = true <-> x = Finite y.
Proof.
  destruct x as [n| |]; cbn; [|split; discriminate..].
  rewrite Z.eqb_eq. split; congruence.
Qed.

Lemma proto_inherited : "__proto__"%string ∈ Object_prototype_keys.
Proof. apply list_elem_of_In. cbn. tauto. Qed.

Lemma Object_has_fresh (object : PlainObject) (key : string) :
  prototype object = None ->
  Object_has truthyIn object key = false
  <-> notInherited key /\ key ∉ ownKeys object.
Proof.
  intros Hproto. unfold Object_has, notInherited. rewrite Hproto.
  destruct (String.eqb_spec key "__proto__") as [->|Hkey]; cbn [orb].
  - split; [discriminate|]. intros [Hnot _]. exfalso. apply Hnot.
    exact proto_inherited.
  - rewrite orb_false_iff, !bool_decide_eq_false. tauto.
Qed.

(** The loop of [verifyPayload]: what it feeds to the hash, its totals,
    and when it reports nothing. *)
Lemma verifyPayloadLoop_run trss : forall payload totalAmount totalFee applied errs,
  exists reported,
    verifyPayloadLoop trss payload totalAmount totalFee applied errs
    = (payload ++ payloadOf trss, addAmounts totalAmount trss,
       addFees totalFee trss, errs ++ reported)
    /\ (prototype applied = None ->
        (reported = []
         <-> Forall serializable trss
             /\ NoDup (Transaction.id <$> trss)
             /\ Forall notInherited (Transaction.id <$> trss)
             /\ forall trs, In trs trss -> Transaction.id trs ∉ ownKeys applied)).
Proof.
  induction trss as [|trs rest IH]; intros payload totalAmount totalFee applied errs.
  - exists []. cbn. rewrite !app_nil_r. split; [reflexivity|]. intros _.
    split; [intros _|reflexivity]. split; [constructor|]. split; [constructor|].
    split; [constructor|intros ? []].
  - cbn [verifyPayloadLoop payloadOf flat_map]. fold (payloadOf rest).
    set (thrown := match trsGetBytes trs with Returned _ => [] | Thrown e => [e] end).
    set (duplicate := if Object_has truthyIn applied (Transaction.id trs)
                      then ["Encountered duplicate transaction: " +:+ Transaction.id trs]
                      else []).
    set (totalAmount' := match Transaction.asset trs with
                         | AssetTransfer _ amount => Number_add totalAmount amount
                         | _ => totalAmount
                         end).
    change (addAmounts totalAmount (trs :: rest)) with (addAmounts totalAmount' rest).
    change (addFees totalFee (trs :: rest))
      with (addFees (Number_add totalFee (Transaction.fee trs)) rest).
    destruct (IH (match trsGetBytes trs with
                  | Returned b => payload ++ b
                  | Thrown _ => payload
                  end)
                 totalAmount' (Number_add totalFee (Transaction.fee trs))
                 (Object_set applied (Transaction.id trs) trs) (errs ++ thrown ++ duplicate))
      as (reported & Hrun & Hnone).
    exists (thrown ++ duplicate ++ reported). split.
    + assert (Hsame :
        verifyPayloadLoop rest
          (match trsGetBytes trs with Returned b => payload ++ b | Thrown _ => payload end)
          totalAmount' (Number_add totalFee (Transaction.fee trs))
          (Object_set applied (Transaction.id trs) trs) (errs ++ thrown ++ duplicate)
        = (payload ++ match trsGetBytes trs with Returned b => b | Thrown _ => [] end
                   ++ payloadOf rest,
           addAmounts totalAmount' rest,
           addFees (Number_add totalFee (Transaction.fee trs)) rest,
           errs ++ thrown ++ duplicate ++ reported)).
      { rewrite Hrun. rewrite <- !app_assoc.
        destruct (trsGetBytes trs); rewrite <- ?app_assoc; cbn [app]; reflexivity. }
      rewrite <- Hsame. unfold thrown, duplicate, totalAmount'.
      destruct (trsGetBytes trs) as [b|e]; cbn [fst snd app];
        destruct (Object_has truthyIn applied (Transaction.id trs));
        rewrite ?app_nil_r, <- ?app_assoc; cbn [app]; reflexivity.
    + intros Hproto. rewrite !app_eq_nil_iff. cbn [fmap list_fmap].
      rewrite NoDup_cons, !Forall_cons.
      pose proof (Object_has_fresh applied (Transaction.id trs) Hproto) as Hfresh.
      unfold thrown, duplicate, serializable. split.
      * intros (Hthrown & Hdup & Hrest).
        destruct (trsGetBytes trs) as [b|e] eqn:Hbytes; [|discriminate].
        destruct (Object_has truthyIn applied (Transaction.id trs)); [discriminate|].
        destruct (proj1 Hfresh eq_refl) as [Hplain Hnew].
        assert (Hkey : (Transaction.id trs =? "__proto__")%string = false).
        { apply String.eqb_neq. intros Hkey. apply Hplain. rewrite Hkey.
          exact proto_inherited. }
        assert (Hproto' : prototype (Object_set applied (Transaction.id trs) trs) = None)
          by (unfold Object_set; rewrite Hkey; exact Hproto).
        destruct (proj1 (Hnone Hproto') Hrest) as (Hall & Hnodup & Hplains & Hothers).
        unfold Object_set in Hothers. rewrite Hkey in Hothers. cbn [ownKeys] in Hothers.
        split; [split; [eauto|exact Hall]|]. split.
        -- split; [|exact Hnodup]. intros Hin.
           apply list_elem_of_fmap in Hin as (t & Ht & Hin).
           apply (Hothers t); [now apply list_elem_of_In|]. rewrite <- Ht. now left.
        -- split; [split; [exact Hplain|exact Hplains]|].
           intros t [<-|Hin]; [exact Hnew|]. intros Hold. apply (Hothers t Hin). now right.
      * intros ([[b Hb] Hall] & [Hhead Hnodup] & [Hplain Hplains] & Hothers).
        rewrite Hb. split; [reflexivity|].
        assert (Hkey : (Transaction.id trs =? "__proto__")%string = false).
        { apply String.eqb_neq. intros Hkey. apply Hplain. rewrite Hkey.
          exact proto_inherited. }
        assert (Hproto' : prototype (Object_set applied (Transaction.id trs) trs) = None)
          by (unfold Object_set; rewrite Hkey; exact Hproto).
        split.
        -- rewrite (proj2 Hfresh); [reflexivity|]. split; [exact Hplain|].
           apply Hothers. now left.
        -- apply (Hnone Hproto'). split; [exact Hall|]. split; [exact Hnodup|].
           split; [exact Hplains|].
           unfold Object_set. rewrite Hkey. cbn [ownKeys].
           intros t Hin Hold. apply elem_of_cons in Hold as [Heq|Hold].
           ++ apply Hhead. rewrite <- Heq. apply list_elem_of_fmap. exists t.
              split; [reflexivity|now apply list_elem_of_In].
           ++ apply (Hothers t); [now right|exact Hold].
Qed.

Lemma verifyPayload_run block errs :
  exists reported,
    verifyPayload block errs = errs ++ reported
    /\ (reported = []
        <-> Z.of_nat (length (Block.transactions block)) = Block.transactionCount block
            /\ Z.of_nat (length (Block.transactions block)) <= MAX_TRANSACTIONS_PER_BLOCK
            /\ Forall serializable (Block.transactions block)
            /\ NoDup (Transaction.id <$> Block.transactions block)
            /\ Forall notInherited (Transaction.id <$> Block.transactions block)
            /\ Buffer_to_hex (sha256 (payloadOf (Block.transactions block)))
               = Block.payloadHash block
            /\ addAmounts (Finite 0) (Block.transactions block)
               = Finite (Block.amount block)
            /\ addFees (Finite 0) (Block.transactions block) = Finite (Block.fee block)).
Proof.
  unfold verifyPayload.
  set (count := if negb (Z.of_nat (length (Block.transactions block))
                         =? Block.transactionCount block)
                then ["Included transactions do not match block transactions count"]
                else []).
  set (many := if Z.of_nat (length (Block.transactions block)) >? MAX_TRANSACTIONS_PER_BLOCK
               then ["Number of transactions exceeds maximum per block"] else []).
  assert (Hfirst : forall l : list string,
    (if negb (Z.of_nat (length (Block.transactions block)) =? Block.transactionCount block)
     then l ++ ["Included transactions do not match block transactions count"]
     else l) = l ++ count).
  { intros l. unfold count. destruct (negb _); now rewrite ?app_nil_r. }
  assert (Hsecond : forall l : list string,
    (if Z.of_nat (length (Block.transactions block)) >? MAX_TRANSACTIONS_PER_BLOCK
     then l ++ ["Number of transactions exceeds maximum per block"]
     else l) = l ++ many).
  { intros l. unfold many. destruct (_ >? _); now rewrite ?app_nil_r. }
  rewrite Hfirst, Hsecond.
  destruct (verifyPayloadLoop_run (Block.transactions block) [] (Finite 0) (Finite 0)
              emptyObject ((errs ++ count) ++ many))
    as (reported & -> & Hnone).
  specialize (Hnone eq_refl). cbn [app].
  set (totalAmount := addAmounts (Finite 0) (Block.transactions block)) in *.
  set (totalFee := addFees (Finite 0) (Block.transactions block)) in *.
  set (hash := if negb (String.eqb (Buffer_to_hex (sha256 (payloadOf (Block.transactions block))))
                          (Block.payloadHash block))
               then ["Invalid payload hash"] else []).
  set (amount := if negb (Number_eqb totalAmount (Block.amount block))
                 then ["Invalid total amount"] else []).
  set (fee := if negb (Number_eqb totalFee (Block.fee block))
              then ["Invalid total fee. Expected: " +:+ Number_toString totalFee
                    +:+ ", actual: " +:+ Number_toString (Finite (Block.fee block))]
              else []).
  exists (count ++ many ++ reported ++ hash ++ amount ++ fee). split.
  - unfold hash, amount, fee.
    destruct (negb (String.eqb _ _)); destruct (negb (Number_eqb totalAmount _));
      destruct (negb (Number_eqb totalFee _));
      rewrite ?app_nil_r, <- ?app_assoc; cbn [app]; reflexivity.
  - rewrite !app_eq_nil_iff, Hnone. unfold count, many, hash, amount, fee.
    rewrite <- (Number_eqb_eq totalAmount), <- (Number_eqb_eq totalFee).
    destruct (Z.eqb_spec (Z.of_nat (length (Block.transactions block)))
                (Block.transactionCount block));
      destruct (Z.gtb_spec (Z.of_nat (length (Block.transactions block)))
                  MAX_TRANSACTIONS_PER_BLOCK);
      destruct (String.eqb_spec (Buffer_to_hex (sha256 (payloadOf (Block.transactions block))))
                  (Block.payloadHash block));
      destruct (Number_eqb totalAmount (Block.amount block));
      destruct (Number_eqb totalFee (Block.fee block));
      cbn [negb]; split; intros Hall; decompose [and] Hall; clear Hall;
      try discriminate; try lia; try congruence;
      repeat split; try assumption; try reflexivity; try lia;
      intros ? _; apply not_elem_of_nil.
Qed.

(** The errors of [verifyBlock], newest first. *)
Lemma verifyBlock_errors now lastBlock block verify :
  exists earlier,
    ResponseEntity.errors (verifyBlock now lastBlock block verify)
    = (if decide (slotInRange now lastBlock block) then [] else [timestampError])
      ++ earlier
    /\ (earlier = []
        <-> (hasPreviousBlock block \/ Block.height block = 1)
            /\ Block.version block = CURRENT_BLOCK_VERSION
            /\ (verify = true -> sealedCorrectly block)).
Proof.
  unfold verifyBlock. cbv zeta. cbn [failure ResponseEntity.errors].
  rewrite verifyBlockSlotNumber_spec.
  destruct (verifyPayload_run block
              (verifyId block
                 (verifyVersion block (verifyPreviousBlock block (verifySignature block [])))))
    as (reported & Hpayload & Hnone).
  set (before := if verify
                 then verifyPayload block
                        (verifyId block
                           (verifyVersion block
                              (verifyPreviousBlock block (verifySignature block []))))
                 else verifyVersion block (verifyPreviousBlock block [])).
  exists (rev before). split.
  - replace (if verify then _ else _) with before.
    + case_decide; [now cbn|]. rewrite rev_app_distr. reflexivity.
    + unfold before. destruct verify; reflexivity.
  - assert (Hrev : rev before = [] <-> before = []).
    { split; intros Hnil; [|now rewrite Hnil].
      apply (f_equal (@rev string)) in Hnil. now rewrite rev_involutive in Hnil. }
    rewrite Hrev. unfold before, sealedCorrectly. destruct verify.
    + rewrite Hpayload, verifyId_appends, verifyVersion_appends, verifyPreviousBlock_appends.
      rewrite !app_eq_nil_iff, Hnone, verifySignature_passes, verifyPreviousBlock_passes,
        verifyVersion_passes, verifyId_passes.
      split.
      * intros Hall. decompose [and] Hall. clear Hall.
        split; [assumption|]. split; [assumption|]. intros _. repeat split; assumption.
      * intros (Hprev & Hversion & Hsealed). specialize (Hsealed eq_refl).
        decompose [and] Hsealed. clear Hsealed. repeat split; assumption.
    + rewrite verifyVersion_appends, !app_eq_nil_iff, verifyPreviousBlock_passes,
        verifyVersion_passes.
      split.
      * intros [Hprev Hversion]. split; [assumption|]. split; [assumption|discriminate].
      * intros (Hprev & Hversion & _). split; assumption.
Qed.

(** X1.  With [verify] off, [verifyBlock] accepts a block exactly when it
    names a previous block or has height 1, carries the current block
    version, and its slot lies after the slot of the last block and not
    beyond the current slot plus the number of active delegates minus
    one.  Signature, id and payload are not looked at. *)
Theorem verifyBlock_unverified_accepts_iff now lastBlock block :
  success (verifyBlock now lastBlock block false) = true <-> linked now lastBlock block.
Proof.
  destruct (verifyBlock_errors now lastBlock block false) as (earlier & Herrors & Hnone).
  unfold success. rewrite Herrors. unfold linked.
  case_decide as Hslot; cbn [app].
  - destruct earlier as [|e es].
    + split; [intros _|reflexivity].
      destruct (proj1 Hnone eq_refl) as (Hprev & Hversion & _). tauto.
    + split; [discriminate|]. intros (Hprev & Hversion & _).
      assert (Hnil : e :: es = []) by (apply Hnone; split; [assumption|]; split; [assumption|discriminate]).
      discriminate.
  - split; [discriminate|]. tauto.
Qed.

(** X2.  With [verify] on, [verifyBlock] accepts a block exactly when, in
    addition, the signature verifies against the hash of the bytes without
    the signature, the id is the hash of the bytes, the number of
    transactions is [transactionCount] and within the maximum, every
    transaction serialises, no transaction id occurs twice or names a
    property that every object inherits (such as ['constructor']), the
    payload hash is the digest of the transaction bytes, and the amount
    and the fee are the totals over the transactions as JS adds them up,
    in doubles.  These totals are the exact sums when no amount and no
    fee is negative and the sums are at most 2^53. *)
Theorem verifyBlock_verified_accepts_iff now lastBlock block :
  (success (verifyBlock now lastBlock block true) = true
   <-> linked now lastBlock block /\ sealedCorrectly block)
  /\ (addedExactly (Block.transactions block) ->
      addAmounts (Finite 0) (Block.transactions block)
      = Finite (sumOf sentAmount (Block.transactions block))
      /\ addFees (Finite 0) (Block.transactions block)
         = Finite (sumOf Transaction.fee (Block.transactions block))).
Proof.
  split; [|apply addedExactly_totals].
  destruct (verifyBlock_errors now lastBlock block true) as (earlier & Herrors & Hnone).
  unfold success. rewrite Herrors. unfold linked.
  case_decide as Hslot; cbn [app].
  - destruct earlier as [|e es].
    + split; [intros _|reflexivity].
      destruct (proj1 Hnone eq_refl) as (Hprev & Hversion & Hsealed). auto.
    + split; [discriminate|]. intros [(Hprev & Hversion & _) Hsealed].
      assert (Hnil : e :: es = []) by (apply Hnone; auto).
      discriminate.
  - split; [discriminate|]. tauto.
Qed.

(** X3.  The errors of [verifyBlock] are returned newest first: when the
    slot of the block is out of range, ['Invalid block timestamp'], the
    error of the last check, is the first error of the response. *)
Theorem verifyBlock_reports_timestamp_first now lastBlock block verify :
  ~ slotInRange now lastBlock block ->
  exists earlier,
    ResponseEntity.errors (verifyBlock now lastBlock block verify)
    = timestampError :: earlier.
Proof.
  intros Hslot.
  destruct (verifyBlock_errors now lastBlock block verify) as (earlier & Herrors & _).
  exists earlier. rewrite Herrors. now rewrite decide_False by exact Hslot.
Qed.
End VerifyBlockFacts.

(** ** [verifyBlockSlot] *)

Ltac run_node :=
  unfold TransactionDispatcher_verifyUnconfirmed, TransactionDispatcher_calculateFee,
    TransactionDispatcher_applyUnconfirmed, TransactionDispatcher_undoUnconfirmed,
    TransactionDispatcher_apply, TransactionDispatcher_undo,
    AccountRepo_add, setPublicKey, TransactionQueue_push, getByPublicKey, getByAddress,
    BlockStorageService_getLast, BlockStorageService_has, BlockStorageService_push,
    BlockStorageService_popLast,
    emit, modify, gets, throw, outOfFuel, bind, ret;
  cbn [success failure ok ResponseEntity.errors negb andb orb
       accounts ledger pool poolByRecipient poolBySender status queue lastNBlocks
       currentRound prevRound synchronization trace
       set_accounts set_ledger set_pool set_poolByRecipient set_poolBySender set_status
       set_queue set_lastNBlocks set_rounds set_trace fst snd].

Ltac run_node_in H :=
  unfold TransactionDispatcher_verifyUnconfirmed, TransactionDispatcher_calculateFee,
    TransactionDispatcher_applyUnconfirmed, TransactionDispatcher_undoUnconfirmed,
    TransactionDispatcher_apply, TransactionDispatcher_undo,
    AccountRepo_add, setPublicKey, TransactionQueue_push, getByPublicKey, getByAddress,
    BlockStorageService_getLast, BlockStorageService_has, BlockStorageService_push,
    BlockStorageService_popLast,
    emit, modify, gets, throw, outOfFuel, bind, ret in H;
  cbn [success failure ok ResponseEntity.errors negb andb orb
       accounts ledger pool poolByRecipient poolBySender status queue lastNBlocks
       currentRound prevRound synchronization trace
       set_accounts set_ledger set_pool set_poolByRecipient set_poolBySender set_status
       set_queue set_lastNBlocks set_rounds set_trace fst snd] in H.

Section VerifyBlockSlotFacts.
Context `{C : Crypto} `{E : Env} `{D : Dispatcher}.

(** X4.  When there is a current round, [verifyBlockSlot] reads the node
    without changing it, and it accepts the block exactly when the block
    has height 1, or the slot validation is switched off for its slot, or
    the current round gives the generator of the block a slot that is the
    slot of the block. *)
Theorem verifyBlockSlot_accepts_iff (block : Block) (w : World) (round : Round) :
  currentRound w = Some round ->
  exists response,
    verifyBlockSlot block w = Normal (response, w)
    /\ (success response = true
        <-> Block.height block = 1
            \/ isValidateBlockSlot (getSlotNumber (Block.createdAt block)) = false
            \/ exists generatorSlot,
                 slots round !! Block.generatorPublicKey block = Some generatorSlot
                 /\ slot generatorSlot = getSlotNumber (Block.createdAt block)).
Proof.
  intros Hround. unfold verifyBlockSlot. cbv zeta.
  destruct (Z.eqb_spec (Block.height block) 1) as [Hone|Hone]; cbn [orb].
  { exists ok. split; [reflexivity|]. split; [auto|reflexivity]. }
  destruct (isValidateBlockSlot (getSlotNumber (Block.createdAt block))) eqn:Hon;
    cbn [negb].
  2: { exists ok. split; [reflexivity|]. split; [auto|reflexivity]. }
  run_node. rewrite Hround.
  destruct (slots round !! Block.generatorPublicKey block) as [generatorSlot|] eqn:Hslot.
  - destruct (Z.eqb_spec (getSlotNumber (Block.createdAt block)) (slot generatorSlot))
      as [Heq|Hne]; cbn [negb]; eexists; (split; [reflexivity|]); split; cbn;
      try discriminate; try reflexivity.
    + intros _. right. right. eauto.
    + intros [?|[?|(s & [= <-] & Hs)]]; congruence.
  - eexists. split; [reflexivity|]. split; cbn; [discriminate|].
    intros [?|[?|(s & Hs & _)]]; congruence.
Qed.
End VerifyBlockSlotFacts.

(** ** [checkTransactionsAndApplyUnconfirmed] when nothing is refused *)

Section CheckTransactionsMore.
Context `{C : Crypto} `{E : Env} `{D : Dispatcher}.
Open Scope node_scope.

(** The whole function with [verify] on. *)
Lemma checkTransactions_verify_run (block : Block) (w : World) :
  checkTransactionsAndApplyUnconfirmed block true w
  = Normal ((block, failure (firstFailureErrors (Block.transactions block) w)),
            match firstFailure (Block.transactions block) w with
            | Some i => undoneWorld (rev (take i (Block.transactions block)))
                          (checkedWorld (Block.transactions block) w)
            | None => checkedWorld (Block.transactions block) w
            end).
Proof.
  unfold checkTransactionsAndApplyUnconfirmed.
  pose proof (checkLoop_verify_run (Block.transactions block) [] w
                (length (Block.transactions block)) [] (Nat.le_refl _)) as Hrun.
  cbn [app length] in Hrun. change (Z.of_nat 0) with 0 in Hrun.
  unfold bind at 1. rewrite Hrun.
  destruct (firstFailure (Block.transactions block) w) as [i|] eqn:Hfail.
  - pose proof (firstFailureErrors_Some _ _ _ Hfail) as Herrs.
    pose proof (firstFailure_lt _ _ _ Hfail) as Hlt.
    destruct (firstFailureErrors (Block.transactions block) w) as [|e es] eqn:Hes;
      [congruence|].
    cbn [length].
    replace (negb (Z.of_nat (S (length es)) =? 0)) with true
      by (symmetry; apply negb_true_iff, Z.eqb_neq; lia).
    replace (Z.of_nat (0 + i) - 1 + 1) with (Z.of_nat i) by lia.
    rewrite Nat2Z.id. cbn [Nat.add].
    unfold bind at 1. rewrite rollbackLoop_run by lia.
    unfold ret. destruct block; reflexivity.
  - rewrite (firstFailureErrors_None _ _ Hfail). cbn [length Z.of_nat Z.eqb negb].
    unfold bind, ret. destruct block; reflexivity.
Qed.

Lemma checkedWorld_accepted trss : forall w,
  firstFailure trss w = None ->
  trace (checkedWorld trss w)
  = trace w ++ map (fun trs => ApplyUnconfirmedCall trs (Some (Transaction.senderAddress trs)))
                   trss
  /\ ledger (checkedWorld trss w)
     = foldl (fun l trs => applyUnconfirmed trs (Some (Transaction.senderAddress trs)) l)
             (ledger w) trss.
Proof.
  induction trss as [|trs rest IH]; intros w; cbn [firstFailure checkedWorld map foldl].
  - intros _. now rewrite app_nil_r.
  - destruct (verifyUnconfirmed _ _ _) as [|e es]; [|discriminate].
    intros Hnone.
    destruct (IH (applyUnconfirmedStep trs (Some (Transaction.senderAddress trs))
                    (resolveStep trs w))) as [Htrace Hledger].
    { now destruct (firstFailure rest _). }
    rewrite Htrace, Hledger.
    cbn [applyUnconfirmedStep trace ledger set_trace set_ledger].
    rewrite trace_resolveStep, ledger_resolveStep, <- app_assoc. split; reflexivity.
Qed.

(** X5.  With [verify] on, a block none of whose transactions is refused
    by [verifyUnconfirmed], each being verified against the ledger left
    by the unconfirmed application of those before it, is accepted:
    [checkTransactionsAndApplyUnconfirmed] returns success and the block
    as it was, it has called [applyUnconfirmed] once on every transaction
    in block order, each with the account at its sender address, and the
    ledger is the result of these applications. *)
Theorem checkTransactions_applies_all (block : Block) (w : World) :
  firstFailure (Block.transactions block) w = None ->
  exists w',
    checkTransactionsAndApplyUnconfirmed block true w = Normal ((block, ok), w')
    /\ trace w'
       = trace w
         ++ map (fun trs => ApplyUnconfirmedCall trs (Some (Transaction.senderAddress trs)))
                (Block.transactions block)
    /\ ledger w'
       = foldl (fun l trs => applyUnconfirmed trs (Some (Transaction.senderAddress trs)) l)
               (ledger w) (Block.transactions block).
Proof.
  intros Hnone. exists (checkedWorld (Block.transactions block) w).
  rewrite checkTransactions_verify_run, Hnone, (firstFailureErrors_None _ _ Hnone).
  split; [reflexivity|]. now apply checkedWorld_accepted.
Qed.

Lemma senderAddress_recalculated trs w :
  Transaction.senderAddress (recalculated trs w) = Transaction.senderAddress trs.
Proof. unfold recalculated. now destruct (bool_decide _). Qed.

Lemma senderPublicKey_recalculated trs w :
  Transaction.senderPublicKey (recalculated trs w) = Transaction.senderPublicKey trs.
Proof. unfold recalculated. now destruct (bool_decide _). Qed.

(** One round of the first loop with [verify] off. *)
Lemma checkLoop_generate_step fuel trss i errs w trs :
  trss !! i = Some trs ->
  checkLoop (S fuel) trss false (Z.of_nat i) errs w =
    let w1 := resolveStep trs w in
    let trs' := recalculated trs w1 in
    checkLoop fuel (<[i := trs']> trss) false (Z.of_nat i + 1) errs
      (applyUnconfirmedStep trs' (Some (Transaction.senderAddress trs)) w1).
Proof.
  intros Hlook. cbn [checkLoop].
  assert (Hlt : (Z.of_nat i <? Z.of_nat (length trss)) = true).
  { apply Z.ltb_lt. apply lookup_lt_Some in Hlook. lia. }
  rewrite Hlt, Nat2Z.id, Hlook. cbv zeta. unfold resolveStep, recalculated.
  run_node. destruct (accounts w !! Transaction.senderAddress trs) as [acc|] eqn:Hacc.
  - run_node. rewrite ?Hacc. destruct (hasPublicKey acc); run_node;
      destruct (bool_decide (Transaction.type trs = VOTE)); run_node; reflexivity.
  - run_node. rewrite ?Hacc.
    destruct (bool_decide (Transaction.type trs = VOTE)); run_node;
      unfold applyUnconfirmedStep, set_trace, set_ledger, set_accounts;
      cbn [accounts ledger trace]; rewrite ?Hacc; reflexivity.
Qed.

(** The first loop with [verify] off, from the position that follows [pre]. *)
Lemma checkLoop_generate_run rest : forall pre w fuel errs,
  (length rest <= fuel)%nat ->
  checkLoop fuel (pre ++ rest) false (Z.of_nat (length pre)) errs w
  = Normal ((pre ++ (generated rest w).1, Z.of_nat (length (pre ++ rest)), errs),
            (generated rest w).2).
Proof.
  induction rest as [|trs rest IH]; intros pre w fuel errs Hfuel.
  - change (generated [] w) with (([] : list Transaction), w). cbn [fst snd].
    rewrite !app_nil_r.
    assert (Hge : (Z.of_nat (length pre) <? Z.of_nat (length pre)) = false)
      by (apply Z.ltb_ge; lia).
    destruct fuel; cbn [checkLoop]; rewrite Hge; reflexivity.
  - destruct fuel as [|fuel]; [cbn in Hfuel; lia|].
    assert (Hlook : (pre ++ trs :: rest) !! length pre = Some trs).
    { rewrite lookup_app_r by lia. now rewrite Nat.sub_diag. }
    rewrite (checkLoop_generate_step _ _ _ _ _ _ Hlook). cbv zeta.
    cbn [generated].
    set (w1 := resolveStep trs w). set (trs' := recalculated trs w1).
    assert (Haddr : Transaction.senderAddress trs' = Transaction.senderAddress trs)
      by apply senderAddress_recalculated.
    rewrite Haddr.
    replace (<[length pre := trs']> (pre ++ trs :: rest)) with ((pre ++ [trs']) ++ rest).
    2: { rewrite insert_app_r_alt by lia. rewrite Nat.sub_diag. cbn.
         now rewrite <- app_assoc. }
    specialize (IH (pre ++ [trs'])
                   (applyUnconfirmedStep trs' (Some (Transaction.senderAddress trs)) w1)
                   fuel errs).
    replace (Z.of_nat (length (pre ++ [trs']))) with (Z.of_nat (length pre) + 1) in IH
      by (rewrite length_app; cbn; lia).
    rewrite IH by (cbn in Hfuel; lia).
    destruct (generated rest _) as [rest' w2]. cbn [fst snd].
    rewrite <- app_assoc. cbn [app].
    replace (Z.of_nat (length ((pre ++ [trs']) ++ rest)))
      with (Z.of_nat (length (pre ++ trs :: rest)))
      by (rewrite !length_app; cbn; lia).
    reflexivity.
Qed.

Lemma applyUnconfirmedCalls_app t1 t2 :
  applyUnconfirmedCalls (t1 ++ t2) = applyUnconfirmedCalls t1 ++ applyUnconfirmedCalls t2.
Proof. unfold applyUnconfirmedCalls. apply flat_map_app. Qed.

Lemma generated_facts trss : forall w,
  Forall2 (fun trs trs' =>
             (Transaction.type trs <> VOTE -> trs' = trs)
             /\ exists fee, trs' = Transaction.with_fee trs fee)
          trss (generated trss w).1
  /\ applyUnconfirmedCalls (trace (generated trss w).2)
     = applyUnconfirmedCalls (trace w) ++ (generated trss w).1
  /\ undoUnconfirmedCalls (trace (generated trss w).2) = undoUnconfirmedCalls (trace w).
Proof.
  induction trss as [|trs rest IH]; intros w; cbn [generated].
  - cbn. rewrite app_nil_r. repeat split. constructor.
  - set (w1 := resolveStep trs w). set (trs' := recalculated trs w1).
    specialize (IH (applyUnconfirmedStep trs' (Some (Transaction.senderAddress trs')) w1)).
    destruct (generated rest _) as [rest' w2]. cbn [fst snd] in *.
    destruct IH as (Hall & Happly & Hundo). split; [|split].
    + constructor; [|exact Hall]. unfold trs', recalculated.
      destruct (bool_decide_reflect (Transaction.type trs = VOTE)) as [Hvote|Hother].
      * split; [congruence|eauto].
      * split; [reflexivity|]. exists (Transaction.fee trs). now destruct trs.
    + rewrite Happly. cbn [applyUnconfirmedStep trace set_trace set_ledger].
      unfold w1. rewrite trace_resolveStep, applyUnconfirmedCalls_app. cbn.
      now rewrite <- app_assoc.
    + rewrite Hundo. cbn [applyUnconfirmedStep trace set_trace set_ledger].
      unfold w1. rewrite trace_resolveStep, undoUnconfirmedCalls_app. cbn.
      now rewrite app_nil_r.
Qed.

(** The whole function with [verify] off. *)
Lemma checkTransactions_generate_run (block : Block) (w : World) :
  checkTransactionsAndApplyUnconfirmed block false w
  = Normal ((Block.with_transactions block (generated (Block.transactions block) w).1, ok),
            (generated (Block.transactions block) w).2).
Proof.
  unfold checkTransactionsAndApplyUnconfirmed.
  pose proof (checkLoop_generate_run (Block.transactions block) [] w
                (length (Block.transactions block)) [] (Nat.le_refl _)) as Hrun.
  cbn [app length] in Hrun. change (Z.of_nat 0) with 0 in Hrun.
  unfold bind at 1. rewrite Hrun. cbn [length Z.of_nat Z.eqb negb].
  unfold bind, ret. reflexivity.
Qed.

(** X6.  With [verify] off, [checkTransactionsAndApplyUnconfirmed] does
    not verify and cannot fail: it returns success, it has called
    [applyUnconfirmed] once on every transaction in block order and
    [undoUnconfirmed] on none, and the transactions of the block it
    leaves are those it was given except for their fees, a transaction
    that is not a vote being left as it was. *)
Theorem checkTransactions_unverified_applies_all (block : Block) (w : World) :
  exists transactions w',
    checkTransactionsAndApplyUnconfirmed block false w
    = Normal ((Block.with_transactions block transactions, ok), w')
    /\ Forall2 (fun trs trs' =>
                  (Transaction.type trs <> VOTE -> trs' = trs)
                  /\ exists fee, trs' = Transaction.with_fee trs fee)
               (Block.transactions block) transactions
    /\ applyUnconfirmedCalls (trace w') = applyUnconfirmedCalls (trace w) ++ transactions
    /\ undoUnconfirmedCalls (trace w') = undoUnconfirmedCalls (trace w).
Proof.
  exists (generated (Block.transactions block) w).1, (generated (Block.transactions block) w).2.
  split; [apply checkTransactions_generate_run|apply generated_facts].
Qed.

Lemma resolved_refl trss w w' : accounts w' = accounts w -> resolved trss w w'.
Proof. intros Heq. unfold resolved. rewrite Heq. auto. Qed.

Lemma resolved_trans trs rest w w1 w2 :
  resolved [trs] w w1 -> resolved rest w1 w2 -> resolved (trs :: rest) w w2.
Proof.
  intros (Hkeep1 & Hsome1 & Hnew1) (Hkeep2 & Hsome2 & Hnew2). split; [|split].
  - intros a acc Ha Hkey. eauto.
  - intros a Ha. eauto.
  - intros a Ha. destruct (Hnew2 a Ha) as [Hold|(t & Hin & Ht)].
    + destruct (Hnew1 a Hold) as [Hold'|(t & [Heq|[]] & Ht)]; [now left|].
      right. exists t. split; [now left|exact Ht].
    + right. exists t. split; [now right|exact Ht].
Qed.

Lemma resolved_resolveStep trs w : resolved [trs] w (resolveStep trs w).
Proof.
  split; [|split].
  - intros a acc Ha Hkey. unfold resolveStep.
    destruct (accounts w !! Transaction.senderAddress trs) as [acc'|] eqn:Hacc.
    + destruct (hasPublicKey acc') eqn:Hkey'; [exact Ha|]. cbn.
      rewrite lookup_insert_ne; [exact Ha|]. intros Heq. rewrite Heq in Hacc. congruence.
    + cbn. rewrite lookup_insert_ne; [exact Ha|]. intros Heq. rewrite Heq in Hacc. congruence.
  - intros a. apply accounts_resolveStep_Some.
  - intros a Ha. destruct (decide (Transaction.senderAddress trs = a)) as [Heq|Hne].
    + right. exists trs. split; [now left|exact Heq].
    + left. revert Ha. unfold resolveStep.
      destruct (accounts w !! Transaction.senderAddress trs) as [acc'|];
        [destruct (hasPublicKey acc')|]; cbn; rewrite ?lookup_insert_ne by exact Hne; auto.
Qed.

Lemma resolved_checkedWorld trss : forall w, resolved trss w (checkedWorld trss w).
Proof.
  induction trss as [|trs rest IH]; intros w; cbn [checkedWorld].
  - now apply resolved_refl.
  - destruct (verifyUnconfirmed _ _ _) as [|e es].
    + apply (resolved_trans trs rest w (resolveStep trs w)); [apply resolved_resolveStep|].
      specialize (IH (applyUnconfirmedStep trs (Some (Transaction.senderAddress trs))
                        (resolveStep trs w))).
      exact IH.
    + apply (resolved_trans trs rest w (resolveStep trs w)); [apply resolved_resolveStep|].
      now apply resolved_refl.
Qed.

Lemma resolved_generated trss : forall w, resolved trss w (generated trss w).2.
Proof.
  induction trss as [|trs rest IH]; intros w; cbn [generated].
  - now apply resolved_refl.
  - specialize (IH (applyUnconfirmedStep (recalculated trs (resolveStep trs w))
                      (Some (Transaction.senderAddress (recalculated trs (resolveStep trs w))))
                      (resolveStep trs w))).
    destruct (generated rest _) as [rest' w2]. cbn [snd] in *.
    apply (resolved_trans trs rest w (resolveStep trs w)); [apply resolved_resolveStep|].
    exact IH.
Qed.

Lemma senders_checkedWorld trss : forall w,
  firstFailure trss w = None ->
  forall trs, In trs trss -> is_Some (accounts (checkedWorld trss w) !! Transaction.senderAddress trs).
Proof.
  induction trss as [|t rest IH]; intros w; cbn [firstFailure checkedWorld]; [intros _ ? []|].
  destruct (verifyUnconfirmed _ _ _) as [|e es]; [|discriminate].
  intros Hnone trs [<-|Hin].
  - apply accounts_checkedWorld_Some. cbn. apply accounts_resolveStep_sender.
  - apply IH; [|exact Hin]. now destruct (firstFailure rest _).
Qed.

Lemma senders_generated trss : forall w trs,
  In trs trss -> is_Some (accounts (generated trss w).2 !! Transaction.senderAddress trs).
Proof.
  induction trss as [|t rest IH]; intros w trs; cbn [generated]; [intros []|].
  set (w1 := applyUnconfirmedStep (recalculated t (resolveStep t w))
               (Some (Transaction.senderAddress (recalculated t (resolveStep t w))))
               (resolveStep t w)).
  pose proof (resolved_generated rest w1) as (_ & Hsome & _).
  specialize (IH w1 trs).
  destruct (generated rest w1) as [rest' w2]. cbn [snd] in *.
  intros [<-|Hin]; [|now apply IH].
  apply Hsome. unfold w1. cbn. apply accounts_resolveStep_sender.
Qed.

(** X7.  [checkTransactionsAndApplyUnconfirmed] always returns, whether
    [verify] is on or off, and this is what it does to the account
    repository: an account that has a public key is left as it is, no
    account is dropped, an account is created only at the sender address
    of a transaction of the block, and when the response is a success
    every sender of the block has an account. *)
Theorem checkTransactions_resolves_senders (block : Block) (verify : bool) (w : World) :
  exists block' response w',
    checkTransactionsAndApplyUnconfirmed block verify w = Normal ((block', response), w')
    /\ (forall a acc, accounts w !! a = Some acc -> hasPublicKey acc = true ->
                      accounts w' !! a = Some acc)
    /\ (forall a, is_Some (accounts w !! a) -> is_Some (accounts w' !! a))
    /\ (forall a, is_Some (accounts w' !! a) ->
                  is_Some (accounts w !! a)
                  \/ exists trs, In trs (Block.transactions block)
                                 /\ Transaction.senderAddress trs = a)
    /\ (success response = true ->
        forall trs, In trs (Block.transactions block) ->
                    is_Some (accounts w' !! Transaction.senderAddress trs)).
Proof.
  destruct verify.
  - eexists _, _, _. split; [apply checkTransactions_verify_run|].
    assert (Haccounts :
      accounts (match firstFailure (Block.transactions block) w with
                | Some i => undoneWorld (rev (take i (Block.transactions block)))
                              (checkedWorld (Block.transactions block) w)
                | None => checkedWorld (Block.transactions block) w
                end) = accounts (checkedWorld (Block.transactions block) w)).
    { destruct (firstFailure _ _); [apply accounts_undoneWorld|reflexivity]. }
    rewrite Haccounts.
    destruct (resolved_checkedWorld (Block.transactions block) w) as (Hkeep & Hsome & Hnew).
    split; [exact Hkeep|]. split; [exact Hsome|]. split; [exact Hnew|].
    intros Hok. apply success_failure_nil in Hok.
    destruct (firstFailure (Block.transactions block) w) as [i|] eqn:Hfail.
    + now apply firstFailureErrors_Some in Hfail.
    + now apply senders_checkedWorld.
  - eexists _, _, _. split; [apply checkTransactions_generate_run|].
    destruct (resolved_generated (Block.transactions block) w) as (Hkeep & Hsome & Hnew).
    split; [exact Hkeep|]. split; [exact Hsome|]. split; [exact Hnew|].
    intros _ trs Hin. now apply senders_generated.
Qed.
End CheckTransactionsMore.

(** ** Sealing a block: [addPayloadHash] *)

Lemma hex_byte_round_trip (b : Byte.byte) (rest : string) :
  Buffer_from_hex
    (String (hexdigit (Z.of_N (Byte.to_N b) / 16))
       (String (hexdigit (Z.of_N (Byte.to_N b) mod 16)) rest))
  = b :: Buffer_from_hex rest.
Proof. destruct b; reflexivity. Qed.

(** Decoding the hexadecimal text of a buffer gives the buffer back. *)
Lemma Buffer_hex_round_trip (buf : Buffer) : Buffer_from_hex (Buffer_to_hex buf) = buf.
Proof.
  induction buf as [|b buf IH]; [reflexivity|].
  cbn [Buffer_to_hex]. cbv zeta. rewrite hex_byte_round_trip. now rewrite IH.
Qed.

Section AddPayloadHashFacts.
Context `{C : Crypto} `{E : Env} `{D : Dispatcher}.
Open Scope node_scope.

Lemma addPayloadHashLoop_run transactions : forall payload amount fee,
  Forall serializable transactions ->
  addPayloadHashLoop transactions payload amount fee
  = Returned (payload ++ payloadOf transactions, amount + sumOf sentAmount transactions,
              fee + sumOf Transaction.fee transactions).
Proof.
  induction transactions as [|trs rest IH]; intros payload amount fee Hall.
  - cbn. now rewrite app_nil_r, !Z.add_0_r.
  - apply Forall_cons in Hall as [[bytes Hbytes] Hall].
    cbn [addPayloadHashLoop payloadOf flat_map sumOf foldr].
    fold (payloadOf rest). fold (sumOf sentAmount rest). fold (sumOf Transaction.fee rest).
    rewrite Hbytes. cbv zeta. rewrite IH by exact Hall.
    rewrite <- app_assoc. unfold sentAmount.
    destruct (Transaction.asset trs); rewrite <- ?Z.add_assoc, ?Z.add_0_l; reflexivity.
Qed.

Lemma addPayloadHash_run (block : Block) (keyPair : IKeyPair) (w : World) :
  Forall serializable (Block.transactions block) ->
  exists sealed,
    addPayloadHash block keyPair w
    = Normal ((sealed, mkResponse (Some sealed) []),
              set_trace (fun t => t ++ [BlockHistory sealed CREATE]) w)
    /\ Block.fee sealed = Block.fee block + sumOf Transaction.fee (Block.transactions block)
    /\ Block.amount sealed
       = Block.amount block + sumOf sentAmount (Block.transactions block)
    /\ Block.payloadHash sealed
       = Buffer_to_hex (sha256 (payloadOf (Block.transactions block)))
    /\ Block.signature sealed
       = Buffer_to_hex (crypto_sign_detached (getHash sealed true)
                          (KeyPair.privateKey keyPair))
    /\ Block.id sealed = getId sealed
    /\ Block.transactions sealed
       = map (fun trs => Transaction.with_blockId trs (Block.id sealed))
             (Block.transactions block)
    /\ Block.generatorPublicKey sealed = Block.generatorPublicKey block
    /\ Block.transactionCount sealed = Block.transactionCount block
    /\ Block.height sealed = Block.height block.
Proof.
  intros Hall. unfold addPayloadHash.
  rewrite addPayloadHashLoop_run by exact Hall. cbn [app]. cbv zeta.
  eexists. split; [reflexivity|]. destruct block; cbn. repeat split; reflexivity.
Qed.


Lemma payloadOf_with_blockId id transactions :
  (forall trs b, trsGetBytes (Transaction.with_blockId trs b) = trsGetBytes trs) ->
  payloadOf (map (fun trs => Transaction.with_blockId trs id) transactions)
  = payloadOf transactions.
Proof.
  intros Hbytes. unfold payloadOf.
  induction transactions as [|trs rest IH]; [reflexivity|].
  cbn [map flat_map]. now rewrite Hbytes, IH.
Qed.

Lemma sumOf_with_blockId f id transactions :
  (forall trs, f (Transaction.with_blockId trs id) = f trs) ->
  sumOf f (map (fun trs => Transaction.with_blockId trs id) transactions)
  = sumOf f transactions.
Proof.
  intros Hf. unfold sumOf.
  induction transactions as [|trs rest IH]; [reflexivity|].
  cbn [map foldr]. now rewrite Hf, IH.
Qed.

Lemma addAmounts_with_blockId id transactions : forall total,
  addAmounts total (map (fun trs => Transaction.with_blockId trs id) transactions)
  = addAmounts total transactions.
Proof.
  induction transactions as [|trs rest IH]; intros total; [reflexivity|].
  cbn [map]. unfold addAmounts in *. cbn [foldl]. rewrite IH. reflexivity.
Qed.

Lemma addFees_with_blockId id transactions : forall total,
  addFees total (map (fun trs => Transaction.with_blockId trs id) transactions)
  = addFees total transactions.
Proof.
  induction transactions as [|trs rest IH]; intros total; [reflexivity|].
  cbn [map]. unfold addFees in *. cbn [foldl]. rewrite IH. reflexivity.
Qed.

(** X9.  A block that [addPayloadHash] sealed passes the checks that
    [verifyBlock] makes only with [verify] on, so that the verification
    with [verify] on answers what the one with [verify] off answers.  The
    block starts with amount and fee 0, its [transactionCount] is the
    number of its transactions, which is within the maximum; no
    transaction id occurs twice or names a property that every object
    inherits; the amounts and fees are not negative and add up to at
    most 2^53; the bytes of a transaction do not depend on its
    [blockId]; the generator key of the block is the public key of the
    pair, and a signature made with the private key verifies against the
    public key. *)
Theorem sealed_block_passes_verification
        (now : Z) (lastBlock block : Block) (keyPair : IKeyPair) (w : World)
        (sealed : Block) (response : ResponseEntity Block) (w' : World) :
  addPayloadHash block keyPair w = Normal ((sealed, response), w') ->
  (forall trs b, trsGetBytes (Transaction.with_blockId trs b) = trsGetBytes trs) ->
  (forall message,
     crypto_sign_verify_detached
       (crypto_sign_detached message (KeyPair.privateKey keyPair))
       message (KeyPair.publicKey keyPair) = Returned true) ->
  Block.generatorPublicKey block = Buffer_to_hex (KeyPair.publicKey keyPair) ->
  Block.amount block = 0 ->
  Block.fee block = 0 ->
  Block.transactionCount block = Z.of_nat (length (Block.transactions block)) ->
  Z.of_nat (length (Block.transactions block)) <= MAX_TRANSACTIONS_PER_BLOCK ->
  NoDup (Transaction.id <$> Block.transactions block) ->
  Forall notInherited (Transaction.id <$> Block.transactions block) ->
  addedExactly (Block.transactions block) ->
  sealedCorrectly sealed
  /\ verifyBlock now lastBlock sealed true = verifyBlock now lastBlock sealed false.
Proof.
  intros Hrun Hbytes Hsign Hkey Hamount Hfee Hcount Hmax Hnodup Hplain Hexact.
  assert (Hall : Forall serializable (Block.transactions block)).
  { unfold addPayloadHash in Hrun.
    assert (Hloop : forall transactions payload amount fee r,
      addPayloadHashLoop transactions payload amount fee = Returned r ->
      Forall serializable transactions).
    { induction transactions as [|trs rest IH]; intros payload amount fee r;
        cbn [addPayloadHashLoop]; [constructor|].
      destruct (trsGetBytes trs) as [bytes|e] eqn:Hb; [|discriminate].
      intros Hrest. constructor; [now exists bytes|]. eapply IH. exact Hrest. }
    destruct (addPayloadHashLoop _ _ _ _) as [r|e] eqn:Hl; [|discriminate].
    eapply Hloop. exact Hl. }
  destruct (addPayloadHash_run block keyPair w Hall)
    as (sealed' & Hrun' & Hfee' & Hamount' & Hhash & Hsig & Hid & Htrs
        & Hgenerator & Hcount' & _).
  rewrite Hrun in Hrun'. injection Hrun' as -> _ _.
  destruct (addedExactly_totals _ Hexact) as [Hamounts Hfees].
  assert (Hsame : (Transaction.id <$> map (fun trs => Transaction.with_blockId trs
                                                       (Block.id sealed'))
                                       (Block.transactions block))
                  = (Transaction.id <$> Block.transactions block)).
  { rewrite <- list_fmap_compose. apply list_fmap_ext. intros i trs _. now destruct trs. }
  assert (Hsealed : sealedCorrectly sealed').
  { unfold sealedCorrectly. rewrite Htrs, Hhash, Hfee', Hamount', Hcount', Hgenerator, Hkey.
    rewrite Hsig at 1. rewrite !Buffer_hex_round_trip, length_map.
    rewrite payloadOf_with_blockId by exact Hbytes.
    rewrite addAmounts_with_blockId, addFees_with_blockId, Hamounts, Hfees, Hsame.
    split; [apply Hsign|]. split; [exact Hid|]. split; [now rewrite Hcount|].
    split; [exact Hmax|]. split.
    { apply Forall_map. eapply Forall_impl; [exact Hall|].
      intros trs [bytes Hb]. exists bytes. now rewrite Hbytes. }
    split; [exact Hnodup|]. split; [exact Hplain|].
    split; [reflexivity|]. split; f_equal; lia. }
  split; [exact Hsealed|].
  destruct Hsealed as (Hs & Hi & Hc & Hm & Ha & Hn & Hk & Hp & Hta & Htf).
  unfold verifyBlock. cbv zeta. do 2 f_equal.
  destruct (verifyPayload_run sealed'
              (verifyId sealed'
                 (verifyVersion sealed'
                    (verifyPreviousBlock sealed' (verifySignature sealed' [])))))
    as (reported & -> & Hnone).
  rewrite (proj2 Hnone) by (repeat split; assumption).
  rewrite app_nil_r, verifyId_appends, (proj2 (verifyId_passes sealed') Hi), app_nil_r.
  now rewrite (proj2 (verifySignature_passes sealed') Hs).
Qed.
End AddPayloadHashFacts.

(** ** [applyBlock] *)

Section ApplyBlockFacts.
Context `{C : Crypto} `{E : Env} `{D : Dispatcher}.
Open Scope node_scope.

Lemma applyLoop_run transactions : forall w,
  applyLoop transactions w = Normal (tt, appliedWorld transactions w).
Proof.
  induction transactions as [|trs rest IH]; intros w; cbn [applyLoop appliedWorld].
  - reflexivity.
  - run_node. rewrite IH. reflexivity.
Qed.

Lemma appliedWorld_fields transactions : forall w,
  accounts (appliedWorld transactions w) = accounts w
  /\ lastNBlocks (appliedWorld transactions w) = lastNBlocks w
  /\ currentRound (appliedWorld transactions w) = currentRound w
  /\ synchronization (appliedWorld transactions w) = synchronization w
  /\ ledger (appliedWorld transactions w)
     = foldl (fun l trs => apply trs (lookupByPublicKey w (Transaction.senderPublicKey trs)) l)
             (ledger w) transactions
  /\ trace (appliedWorld transactions w)
     = trace w ++ map (fun trs => ApplyCall trs
                                    (lookupByPublicKey w (Transaction.senderPublicKey trs)))
                      transactions.
Proof.
  induction transactions as [|trs rest IH]; intros w; cbn [appliedWorld foldl map].
  - rewrite app_nil_r. repeat split; reflexivity.
  - destruct (IH (set_trace (fun t => t ++ [ApplyCall trs
                               (lookupByPublicKey w (Transaction.senderPublicKey trs))])
                    (set_ledger (apply trs (lookupByPublicKey w
                                              (Transaction.senderPublicKey trs))) w)))
      as (Ha & Hb & Hr & Hs & Hl & Ht).
    rewrite Ha, Hb, Hr, Hs, Hl, Ht. cbn [accounts lastNBlocks currentRound synchronization
                                         ledger trace set_trace set_ledger].
    rewrite <- app_assoc. repeat split; reflexivity.
Qed.

Lemma last_pushed block window : last (pushed block window) = Some block.
Proof.
  unfold pushed. cbv zeta. destruct (_ >? _) eqn:Hfull.
  - destruct window as [|b0 window]; [cbn in Hfull; discriminate|].
    cbn [app drop]. apply last_snoc.
  - apply last_snoc.
Qed.

(** X10.  When the durable save succeeds and, for a block at or above
    the first height of a round, the current round has a slot for the
    generator of the block, [applyBlock] of a block that is not to be
    sealed returns success: the block has become the last block of the
    storage, [apply] was called once on every transaction in block order
    with the account found by its sender public key, after the save and
    the push; the block is sent to the peers and to the socket exactly
    when [broadcast] is set and the node is not synchronising; and the
    slot of the generator is marked as forged. *)
Theorem applyBlock_stores_and_applies (block : Block) (broadcast : bool) (w : World) :
  batchSave block = [] ->
  (MIN_ROUND_BLOCK_HEIGHT <= Block.height block ->
   exists round s, currentRound w = Some round
                   /\ slots round !! Block.generatorPublicKey block = Some s) ->
  exists w',
    applyBlock block broadcast None w = Normal ((block, ok), w')
    /\ lastNBlocks w' = pushed block (lastNBlocks w)
    /\ last (lastNBlocks w') = Some block
    /\ ledger w'
       = foldl (fun l trs => apply trs (lookupByPublicKey w (Transaction.senderPublicKey trs)) l)
               (ledger w) (Block.transactions block)
    /\ trace w'
       = trace w ++ [BatchSaveCall block; BlockHistory block APPLY]
         ++ map (fun trs => ApplyCall trs
                              (lookupByPublicKey w (Transaction.senderPublicKey trs)))
                (Block.transactions block)
         ++ (if broadcast && negb (synchronization w)
             then [SocketEmit "APPLY_BLOCK" block; SendNewBlock block] else [])
    /\ (forall round s,
          MIN_ROUND_BLOCK_HEIGHT <= Block.height block ->
          currentRound w = Some round ->
          slots round !! Block.generatorPublicKey block = Some s ->
          currentRound w' = Some (marked (Block.generatorPublicKey block) s true round))
    /\ (Block.height block < MIN_ROUND_BLOCK_HEIGHT -> currentRound w' = currentRound w).
Proof.
  intros Hsave Hslot. unfold applyBlock. run_node. rewrite Hsave.
  cbn [success failure ResponseEntity.errors negb]. cbv beta.
  rewrite applyLoop_run.
  set (w1 := set_trace (fun t => t ++ [BlockHistory block APPLY])
               (set_lastNBlocks (fun l => pushed block l)
                  (set_trace (fun t => t ++ [BatchSaveCall block]) w))).
  change (appliedWorld (Block.transactions block) _)
    with (appliedWorld (Block.transactions block) w1).
  destruct (appliedWorld_fields (Block.transactions block) w1)
    as (Ha & Hb & Hr & Hs & Hl & Ht).
  set (w2 := appliedWorld (Block.transactions block) w1) in *.
  rewrite Hs. change (synchronization w1) with (synchronization w).
  change (lastNBlocks w1) with (pushed block (lastNBlocks w)) in Hb.
  change (currentRound w1) with (currentRound w) in Hr.
  change (ledger w1) with (ledger w) in Hl.
  change (trace w1)
    with ((trace w ++ [BatchSaveCall block]) ++ [BlockHistory block APPLY]) in Ht.
  assert (Hlookup : (fun trs => ApplyCall trs
                       (lookupByPublicKey w1 (Transaction.senderPublicKey trs)))
                    = (fun trs => ApplyCall trs
                         (lookupByPublicKey w (Transaction.senderPublicKey trs))))
    by reflexivity.
  rewrite Hlookup in Ht. clear Hlookup.
  assert (Hledger : ledger w2
                    = foldl (fun l trs => apply trs
                               (lookupByPublicKey w (Transaction.senderPublicKey trs)) l)
                            (ledger w) (Block.transactions block))
    by exact Hl.
  clear Hl.
  destruct (Z.geb_spec (Block.height block) MIN_ROUND_BLOCK_HEIGHT) as [Hhigh|Hlow].
  - destruct (Hslot ltac:(lia)) as (round & s & Hround & Hs').
    unfold setForged.
    destruct (broadcast && negb (synchronization w));
      cbn [currentRound set_trace]; rewrite Hr, Hround, Hs';
      (eexists; split; [reflexivity|]);
      cbn [lastNBlocks ledger trace currentRound set_rounds set_trace fst snd];
      rewrite Hb, Ht, Hledger, <- ?app_assoc, ?app_nil_r;
      (split; [reflexivity|]); (split; [apply last_pushed|]);
      (split; [reflexivity|]); (split; [reflexivity|]); (split; [|lia]);
      intros round' s' _ Hround' Hs'';
      assert (round' = round) as -> by congruence;
      assert (s' = s) as -> by congruence; reflexivity.
  - destruct (broadcast && negb (synchronization w));
      (eexists; split; [reflexivity|]);
      cbn [lastNBlocks ledger trace currentRound set_rounds set_trace fst snd];
      rewrite Hb, Ht, Hledger, <- ?app_assoc, ?app_nil_r;
      (split; [reflexivity|]); (split; [apply last_pushed|]);
      (split; [reflexivity|]); (split; [reflexivity|]); (split; [lia|]);
      intros _; exact Hr.
Qed.



End ApplyBlockFacts.

(** ** [process]: its early exits, and what it leaves alone *)

Section ProcessMore.
Context `{C : Crypto} `{E : Env} `{D : Dispatcher}.
Open Scope node_scope.

(** X12.  A block whose id is the id of a block of the storage window is
    refused by [process] with the single error ['Block <id> already
    exists'], after the verification when [verify] is on and before any
    transaction is touched: the node is as it was but for the history of
    the block. *)
Theorem process_rejects_stored_block
        now block broadcast keyPair verify (w : World) :
  (verify = true ->
   exists lastBlock rSlot,
     last (lastNBlocks w) = Some lastBlock
     /\ success (verifyBlock now lastBlock block
                   (match keyPair with None => true | Some _ => false end)) = true
     /\ verifyBlockSlot block (processEntered block true w)
        = Normal (rSlot, processEntered block true w)
     /\ success rSlot = true) ->
  existsb (fun b => String.eqb (Block.id b) (Block.id block)) (lastNBlocks w) = true ->
  process now block broadcast keyPair verify w
  = Normal ((block, failure ["Block " +:+ Block.id block +:+ " already exists"]),
            processEntered block verify w).
Proof.
  intros Hgates Hstored. unfold processEntered in *. destruct verify.
  - destruct (Hgates eq_refl) as (lastBlock & rSlot & Hlast & Hverify & Hslot & HrSlot).
    unfold process, BlockService_verifyBlock. run_node.
    rewrite Hlast, Hverify. cbn [negb]. rewrite Hslot, HrSlot.
    cbn [negb lastNBlocks set_trace]. now rewrite Hstored.
  - unfold process. run_node. cbn [negb lastNBlocks set_trace]. now rewrite Hstored.
Qed.

(** With [verify] on, a block that [verifyBlock] refuses is refused
    by [process] with the errors of [verifyBlock] followed by
    ['process']; the signature is verified exactly when no key pair is
    given; and the node is as it was but for the history of the block. *)
Lemma process_rejects_invalid_block
        now block broadcast keyPair (w : World) lastBlock :
  last (lastNBlocks w) = Some lastBlock ->
  success (verifyBlock now lastBlock block
             (match keyPair with None => true | Some _ => false end)) = false ->
  process now block broadcast keyPair true w
  = Normal ((block,
             failure (ResponseEntity.errors
                        (verifyBlock now lastBlock block
                           (match keyPair with None => true | Some _ => false end))
                      ++ ["process"])),
            processEntered block true w).
Proof.
  intros Hlast Hverify. unfold process, BlockService_verifyBlock, processEntered. run_node.
  rewrite Hlast, Hverify. reflexivity.
Qed.

Lemma poolUntouched_refl (w w' : World) :
  pool w' = pool w -> poolBySender w' = poolBySender w ->
  poolByRecipient w' = poolByRecipient w -> status w' = status w ->
  queue w' = queue w -> poolUntouched w w'.
Proof.
  intros Hp Hs Hr Hst Hq. repeat split; try assumption. exists []. now rewrite app_nil_r.
Qed.

Lemma poolUntouched_trans (w1 w2 w3 : World) :
  poolUntouched w1 w2 -> poolUntouched w2 w3 -> poolUntouched w1 w3.
Proof.
  intros (Hp & Hs & Hr & Hst & q1 & Hq1) (Hp' & Hs' & Hr' & Hst' & q2 & Hq2).
  repeat split; try congruence. exists (q1 ++ q2). now rewrite Hq2, Hq1, app_assoc.
Qed.

Lemma keepsPool_ret {A} (a : A) : keepsPool (ret a).
Proof. intros w a' w' [= _ <-]. now apply poolUntouched_refl. Qed.

Lemma keepsPool_gets {A} (f : World -> A) : keepsPool (gets f).
Proof. intros w a' w' [= _ <-]. now apply poolUntouched_refl. Qed.

Lemma keepsPool_throw {A} e : keepsPool (throw e : M A).
Proof. intros w a w' Hrun. discriminate Hrun. Qed.

Lemma keepsPool_outOfFuel {A} : keepsPool (outOfFuel : M A).
Proof. intros w a w' Hrun. discriminate Hrun. Qed.

Lemma keepsPool_modify (f : World -> World) :
  (forall w, poolUntouched w (f w)) -> keepsPool (modify f).
Proof. intros Hf w [] w' [= <-]. apply Hf. Qed.

Lemma keepsPool_bind {A B} (m : M A) (k : A -> M B) :
  keepsPool m -> (forall a, keepsPool (k a)) -> keepsPool (bind m k).
Proof.
  intros Hm Hk w b w'. unfold bind.
  destruct (m w) as [[a w1]| |] eqn:Hrun; try discriminate.
  intros Hrest. eapply poolUntouched_trans; [eapply Hm, Hrun|eapply Hk, Hrest].
Qed.

Lemma keepsPool_emit e : keepsPool (emit e).
Proof. apply keepsPool_modify. intros w. now apply poolUntouched_refl. Qed.

Lemma keepsPool_setForged key forged : keepsPool (setForged key forged).
Proof.
  intros w a w'. unfold setForged.
  destruct (currentRound w) as [round|]; [|discriminate].
  destruct (slots round !! key); [|discriminate].
  destruct a. intros [= <-]. now apply poolUntouched_refl.
Qed.

Ltac frame :=
  repeat first
    [ apply keepsPool_ret
    | apply keepsPool_gets
    | apply keepsPool_throw
    | apply keepsPool_outOfFuel
    | apply keepsPool_emit
    | apply keepsPool_setForged
    | apply keepsPool_bind; [|intros ?]
    | apply keepsPool_modify; intros ?; first
        [ now apply poolUntouched_refl
        | repeat split; try reflexivity; eexists; reflexivity ]
    | progress cbv zeta
    | match goal with
      | |- keepsPool (match ?x with _ => _ end) => destruct x
      | |- keepsPool (if ?b then _ else _) => destruct b
      | |- keepsPool (addPayloadHash _ _) => unfold addPayloadHash
      | |- keepsPool (BlockStorageService_push _) => unfold BlockStorageService_push
      end ].

Lemma keepsPool_checkLoop fuel : forall transactions verify i errors,
  keepsPool (checkLoop fuel transactions verify i errors).
Proof.
  induction fuel as [|fuel IH]; intros transactions verify i errors; cbn [checkLoop].
  - destruct (_ <? _); frame.
  - destruct (_ <? _); [|frame].
    destruct (transactions !! Z.to_nat i) as [trs|]; [|frame].
    unfold getByAddress, AccountRepo_add, setPublicKey, TransactionDispatcher_verifyUnconfirmed,
      TransactionDispatcher_calculateFee, TransactionDispatcher_applyUnconfirmed.
    frame; apply IH.
Qed.

Lemma keepsPool_rollbackLoop fuel : forall transactions i,
  keepsPool (rollbackLoop fuel transactions i).
Proof.
  induction fuel as [|fuel IH]; intros transactions i; cbn [rollbackLoop].
  - destruct (_ >=? _); frame.
  - destruct (_ >=? _); [|frame].
    destruct (transactions !! Z.to_nat i) as [trs|]; [|frame].
    unfold getByPublicKey, getByAddress, TransactionDispatcher_undoUnconfirmed.
    frame; apply IH.
Qed.

Lemma keepsPool_applyLoop transactions : keepsPool (applyLoop transactions).
Proof.
  induction transactions as [|trs rest IH]; cbn [applyLoop]; [frame|].
  unfold getByPublicKey, getByAddress, TransactionDispatcher_apply. frame; apply IH.
Qed.

Lemma keepsPool_undoByFailedApply reversed : keepsPool (undoByFailedApply reversed).
Proof.
  induction reversed as [|trs rest IH]; cbn [undoByFailedApply]; [frame|].
  unfold getByAddress, TransactionDispatcher_undoUnconfirmed, TransactionQueue_push.
  frame; apply IH.
Qed.

Lemma keepsPool_process now block broadcast keyPair verify :
  keepsPool (process now block broadcast keyPair verify).
Proof.
  unfold process, BlockService_verifyBlock, BlockStorageService_getLast, verifyBlockSlot,
    BlockStorageService_has, checkTransactionsAndApplyUnconfirmed.
  frame;
    first [ apply keepsPool_checkLoop | apply keepsPool_rollbackLoop
          | apply keepsPool_applyLoop | apply keepsPool_undoByFailedApply ].
Qed.

(** X13.  [process] never touches the transaction pool: whenever it
    returns, with a success or with a failure, the pool map, the two
    indexes of the pool and the statuses of the pooled transactions are
    what they were, and the queue is the queue it found with transactions
    added at its end. *)
Theorem process_leaves_the_pool_alone
        now block broadcast keyPair verify (w : World) result (w' : World) :
  process now block broadcast keyPair verify w = Normal (result, w') ->
  pool w' = pool w
  /\ poolBySender w' = poolBySender w
  /\ poolByRecipient w' = poolByRecipient w
  /\ status w' = status w
  /\ exists returned, queue w' = queue w ++ returned.
Proof. apply keepsPool_process. Qed.
End ProcessMore.

(** ** A block that [process] refuses leaves the ledger and the storage as they were *)

Section ProcessAtomicity.
Context `{C : Crypto} `{E : Env} `{D : Dispatcher} `{!DispatcherLaws}.
Open Scope node_scope.

Lemma undo_all_restores (senderOf : Transaction -> option Address) transactions :
  forall l,
    foldl (fun l trs => undoUnconfirmed trs (senderOf trs) l)
          (foldl (fun l trs => applyUnconfirmed trs (senderOf trs) l) l transactions)
          (rev transactions) = l.
Proof.
  induction transactions as [|trs rest IH]; intros l; cbn [foldl rev]; [reflexivity|].
  rewrite foldl_app, IH. cbn [foldl]. apply undoUnconfirmed_applyUnconfirmed.
Qed.

Lemma foldl_ext_in {A B} (f g : A -> B -> A) l : forall a,
  (forall a b, In b l -> f a b = g a b) -> foldl f a l = foldl g a l.
Proof.
  induction l as [|b l IH]; intros a Hfg; cbn [foldl]; [reflexivity|].
  rewrite Hfg by (now left). apply IH. intros a' b' Hb'. apply Hfg. now right.
Qed.

Lemma checkedWorld_frame trss : forall (w : World),
  lastNBlocks (checkedWorld trss w) = lastNBlocks w
  /\ currentRound (checkedWorld trss w) = currentRound w.
Proof.
  induction trss as [|trs rest IH]; intros w; cbn [checkedWorld]; [auto|].
  assert (Hresolve : lastNBlocks (resolveStep trs w) = lastNBlocks w
                     /\ currentRound (resolveStep trs w) = currentRound w).
  { unfold resolveStep. destruct (accounts w !! _) as [acc|]; [destruct (hasPublicKey acc)|];
      auto. }
  destruct (verifyUnconfirmed _ _ _) as [|e es]; [|exact Hresolve].
  destruct (IH (applyUnconfirmedStep trs (Some (Transaction.senderAddress trs))
                  (resolveStep trs w))) as [Hb Hr].
  rewrite Hb, Hr. exact Hresolve.
Qed.

Lemma undoneWorld_frame trss : forall (w : World),
  lastNBlocks (undoneWorld trss w) = lastNBlocks w
  /\ currentRound (undoneWorld trss w) = currentRound w.
Proof.
  induction trss as [|trs rest IH]; intros w; cbn [undoneWorld]; [auto|].
  destruct (IH (undoUnconfirmedStep trs
                  (lookupByPublicKey w (Transaction.senderPublicKey trs)) w)) as [Hb Hr].
  rewrite Hb, Hr. auto.
Qed.

Lemma generated_frame trss : forall (w : World),
  lastNBlocks (generated trss w).2 = lastNBlocks w
  /\ currentRound (generated trss w).2 = currentRound w
  /\ ledger (generated trss w).2
     = foldl (fun l trs => applyUnconfirmed trs (Some (Transaction.senderAddress trs)) l)
             (ledger w) (generated trss w).1
  /\ forall trs, In trs (generated trss w).1 ->
                 is_Some (accounts (generated trss w).2 !! Transaction.senderAddress trs).
Proof.
  induction trss as [|trs rest IH]; intros w; cbn [generated].
  - cbn. repeat split. intros trs [].
  - set (w1 := resolveStep trs w). set (trs' := recalculated trs w1).
    set (w2 := applyUnconfirmedStep trs' (Some (Transaction.senderAddress trs')) w1).
    pose proof (resolved_generated rest w2) as (_ & Hsome & _).
    specialize (IH w2). destruct (generated rest w2) as [rest' w3]. cbn [fst snd] in *.
    destruct IH as (Hb & Hr & Hl & Ha).
    assert (Hresolve : lastNBlocks w1 = lastNBlocks w /\ currentRound w1 = currentRound w
                       /\ ledger w1 = ledger w).
    { unfold w1, resolveStep.
      destruct (accounts w !! _) as [acc|]; [destruct (hasPublicKey acc)|]; auto. }
    destruct Hresolve as (Hb1 & Hr1 & Hl1).
    rewrite Hb, Hr, Hl. cbn [foldl w2 applyUnconfirmedStep lastNBlocks currentRound ledger
                             set_trace set_ledger].
    rewrite Hb1, Hr1, Hl1. repeat split.
    intros t [<-|Hin]; [|now apply Ha].
    apply Hsome. unfold w2. cbn. unfold trs'. rewrite senderAddress_recalculated.
    apply accounts_resolveStep_sender.
Qed.

Lemma recoveredWorld_frame trss : forall (w : World),
  lastNBlocks (recoveredWorld trss w) = lastNBlocks w
  /\ currentRound (recoveredWorld trss w) = currentRound w
  /\ ledger (recoveredWorld trss w)
     = foldl (fun l trs => undoUnconfirmed trs
                             (lookupByAddress w (Transaction.senderAddress trs)) l)
             (ledger w) trss.
Proof.
  induction trss as [|trs rest IH]; intros w; cbn [recoveredWorld foldl]; [auto|].
  match goal with
  | |- context [recoveredWorld rest ?w0] => destruct (IH w0) as (Hb & Hr & Hl)
  end.
  rewrite Hb, Hr, Hl. repeat split.
Qed.

(** [applyBlock] of a block that is not to be sealed fails only by the
    durable save. *)
Lemma applyBlock_failure_inv block broadcast (w : World) block' response w' :
  applyBlock block broadcast None w = Normal ((block', response), w') ->
  success response = false ->
  block' = block /\ w' = set_trace (fun t => t ++ [BatchSaveCall block]) w.
Proof.
  unfold applyBlock. run_node. destruct (batchSave block) as [|e es] eqn:Hsave.
  - cbn [success failure ResponseEntity.errors negb]. cbv beta.
    intros Hrun Hfailed. exfalso.
    repeat match type of Hrun with
           | match ?x with _ => _ end = _ => destruct x as [[[] ?]| |]; try discriminate
           end.
    injection Hrun as _ <- _. discriminate Hfailed.
  - cbn [success failure ResponseEntity.errors negb]. intros [= <- _ <-] _. auto.
Qed.

Lemma recovery_restores transactions (w0 w2 : World) :
  ledger w2
  = foldl (fun l trs => applyUnconfirmed trs (Some (Transaction.senderAddress trs)) l)
          (ledger w0) transactions ->
  (forall trs, In trs transactions ->
               is_Some (accounts w2 !! Transaction.senderAddress trs)) ->
  ledger (recoveredWorld (rev transactions) w2) = ledger w0.
Proof.
  intros Hledger Hsenders.
  destruct (recoveredWorld_frame (rev transactions) w2) as (_ & _ & ->).
  rewrite (foldl_ext_in _ (fun l trs => undoUnconfirmed trs
                                          (Some (Transaction.senderAddress trs)) l)).
  - rewrite Hledger. apply (undo_all_restores (fun trs => Some (Transaction.senderAddress trs))).
  - intros l trs Hin. apply in_rev in Hin. unfold lookupByAddress.
    destruct (Hsenders trs Hin) as [acc ->]. reflexivity.
Qed.

(** X14.  A received block that [process] refuses, at whichever step,
    leaves the ledger and the block storage as they were, provided
    [undoUnconfirmed] is the inverse of [applyUnconfirmed] and the sender
    addresses of the transactions derive from their public keys: what
    was applied unconfirmed has been undone, and nothing was stored. *)
Theorem process_refusal_restores_ledger
        now block broadcast verify (w : World) block' response (w' : World) :
  Forall (fun trs => getAddressByPublicKey (Transaction.senderPublicKey trs)
                     = Transaction.senderAddress trs) (Block.transactions block) ->
  process now block broadcast None verify w = Normal ((block', response), w') ->
  success response = false ->
  ledger w' = ledger w
  /\ (forall a, u_balance (ledger w') a = u_balance (ledger w) a)
  /\ lastNBlocks w' = lastNBlocks w
  /\ currentRound w' = currentRound w.
Proof.
  intros Hderived Hrun Hfailed.
  assert (Hgoal : ledger w' = ledger w /\ lastNBlocks w' = lastNBlocks w
                  /\ currentRound w' = currentRound w).
  2: { destruct Hgoal as (Hl & Hb & Hr). rewrite Hl. auto. }
  unfold process in Hrun. unfold bind at 1 in Hrun. unfold emit at 1, modify at 1 in Hrun.
  set (w0 := set_trace (fun t => t ++ [BlockHistory block PROCESS]) w) in Hrun.
  unfold bind at 1 in Hrun.
  (* the checks made when [verify] is on *)
  match type of Hrun with
  | match ?x with _ => _ end = _ => destruct x as [[rejected w1]| |] eqn:Hgates
  end; try discriminate.
  assert (Hframe : ledger w1 = ledger w /\ lastNBlocks w1 = lastNBlocks w
                   /\ currentRound w1 = currentRound w).
  { destruct verify; [|unfold ret in Hgates; injection Hgates as _ <-; auto].
    unfold bind at 1 in Hgates. unfold emit at 1, modify at 1 in Hgates.
    unfold bind at 1 in Hgates.
    match type of Hgates with
    | match ?x with _ => _ end = _ => destruct x as [[r1 w1']| |] eqn:Hverify
    end; try discriminate.
    assert (Hw1' : w1' = set_trace (fun t => t ++ [BlockHistory block VERIFY]) w0).
    { unfold BlockService_verifyBlock in Hverify. run_node_in Hverify.
      match type of Hverify with
      | context [match ?x with _ => _ end] => destruct x; [|discriminate]
      end.
      now injection Hverify. }
    destruct (success r1); cbn [negb] in Hgates.
    - unfold bind at 1 in Hgates.
      destruct (verifyBlockSlot block w1') as [[r2 w1'']| |] eqn:Hslot; try discriminate.
      assert (w1'' = w1') as ->.
      { unfold verifyBlockSlot in Hslot. cbv zeta in Hslot.
        destruct (_ || _); [now injection Hslot|]. run_node_in Hslot.
        match type of Hslot with
        | context [match currentRound ?x with _ => _ end] =>
            destruct (currentRound x); [|discriminate]
        end.
        destruct (slots _ !! _); [destruct (negb _)|]; now injection Hslot. }
      destruct (success r2); cbn [negb] in Hgates; unfold ret in Hgates;
        injection Hgates as _ <-; rewrite Hw1'; auto.
    - unfold ret in Hgates. injection Hgates as _ <-. rewrite Hw1'. auto. }
  destruct Hframe as (Hl1 & Hb1 & Hr1).
  destruct rejected as [refusal|].
  { unfold ret in Hrun. injection Hrun as _ _ <-. auto. }
  rename Hrun into Hrest.
  rewrite <- Hl1, <- Hb1, <- Hr1. clear Hl1 Hb1 Hr1 Hgates w0.
  unfold bind at 1 in Hrest. unfold BlockStorageService_has, gets in Hrest.
  destruct (existsb _ (lastNBlocks w1)).
  { unfold ret in Hrest. injection Hrest as _ _ <-. auto. }
  unfold bind at 1 in Hrest.
  destruct verify.
  - (* verify on: the check may refuse a transaction *)
    rewrite checkTransactions_verify_run in Hrest.
    destruct (checkedWorld_frame (Block.transactions block) w1) as [Hbc Hrc].
    destruct (firstFailure (Block.transactions block) w1) as [i|] eqn:Hfail.
    + pose proof (firstFailureErrors_Some _ _ _ Hfail) as Herrs.
      destruct (firstFailureErrors (Block.transactions block) w1) as [|e es];
        [congruence|].
      cbn [success failure ResponseEntity.errors negb] in Hrest.
      unfold ret in Hrest. injection Hrest as _ _ <-.
      destruct (undoneWorld_frame (rev (take i (Block.transactions block)))
                  (checkedWorld (Block.transactions block) w1)) as [Hbu Hru].
      rewrite Hbu, Hru, Hbc, Hrc. split; [|auto].
      apply ledger_restored; [exact Hfail|]. now apply Forall_take.
    + rewrite (firstFailureErrors_None _ _ Hfail) in Hrest.
      cbn [success failure ResponseEntity.errors negb] in Hrest.
      set (w2 := checkedWorld (Block.transactions block) w1) in *.
      unfold bind at 1 in Hrest.
      destruct (applyBlock block broadcast None w2) as [[[b3 r3] w3]| |] eqn:Happly;
        try discriminate.
      destruct (success r3) eqn:Hok; cbn [negb] in Hrest.
      { unfold ret in Hrest. injection Hrest as _ <- _. discriminate Hfailed. }
      destruct (applyBlock_failure_inv _ _ _ _ _ _ Happly Hok) as [-> ->].
      unfold bind at 1 in Hrest. rewrite undoByFailedApply_run in Hrest.
      unfold ret in Hrest. injection Hrest as _ _ <-.
      match goal with
      | |- context [recoveredWorld ?t ?w0] =>
          destruct (recoveredWorld_frame t w0) as (Hbr & Hrr & _)
      end.
      rewrite Hbr, Hrr. cbn [lastNBlocks currentRound set_trace]. rewrite Hbc, Hrc.
      split; [|auto].
      apply (recovery_restores (Block.transactions block) w1
               (set_trace (fun t => t ++ [BatchSaveCall block]) w2)).
      * cbn [ledger set_trace]. now apply checkedWorld_accepted.
      * cbn [accounts set_trace]. now apply senders_checkedWorld.
  - (* verify off *)
    rewrite checkTransactions_generate_run in Hrest.
    cbn [success ok ResponseEntity.errors negb] in Hrest.
    destruct (generated_frame (Block.transactions block) w1) as (Hbg & Hrg & Hlg & Hag).
    set (transactions := (generated (Block.transactions block) w1).1) in *.
    set (w2 := (generated (Block.transactions block) w1).2) in *.
    unfold bind at 1 in Hrest.
    destruct (applyBlock (Block.with_transactions block transactions) broadcast None w2)
      as [[[b3 r3] w3]| |] eqn:Happly; try discriminate.
    destruct (success r3) eqn:Hok; cbn [negb] in Hrest.
    { unfold ret in Hrest. injection Hrest as _ <- _. discriminate Hfailed. }
    destruct (applyBlock_failure_inv _ _ _ _ _ _ Happly Hok) as [-> ->].
    unfold bind at 1 in Hrest. rewrite undoByFailedApply_run in Hrest.
    unfold ret in Hrest. injection Hrest as _ _ <-.
    match goal with
    | |- context [recoveredWorld ?t ?w0] =>
        destruct (recoveredWorld_frame t w0) as (Hbr & Hrr & _)
    end.
    rewrite Hbr, Hrr. cbn [lastNBlocks currentRound set_trace]. rewrite Hbg, Hrg.
    split; [|auto].
    replace (Block.transactions (Block.with_transactions block transactions))
      with transactions by (now destruct block).
    apply (recovery_restores transactions w1
             (set_trace (fun t => t ++ [BatchSaveCall
                                          (Block.with_transactions block transactions)]) w2)).
    * exact Hlg.
    * exact Hag.
Qed.
End ProcessAtomicity.

(** ** What an accepted block went through *)

Section ProcessAcceptance.
Context `{C : Crypto} `{E : Env} `{D : Dispatcher}.
Open Scope node_scope.

Lemma applyBlock_success_inv block broadcast (w : World) block' response w' :
  applyBlock block broadcast None w = Normal ((block', response), w') ->
  success response = true ->
  block' = block
  /\ batchSave block = []
  /\ lastNBlocks w' = pushed block (lastNBlocks w).
Proof.
  unfold applyBlock. run_node. destruct (batchSave block) as [|e es] eqn:Hsave.
  2: { cbn [success failure ResponseEntity.errors negb]. intros [= _ <- _] Hok.
       discriminate Hok. }
  cbn [success failure ResponseEntity.errors negb]. cbv beta. rewrite applyLoop_run.
  match goal with
  | |- context [appliedWorld ?t ?w0] =>
      destruct (appliedWorld_fields t w0) as (_ & Hb & _);
      set (w2 := appliedWorld t w0) in *
  end.
  cbn [lastNBlocks set_trace set_lastNBlocks] in Hb.
  intros Hrun _.
  change (lastNBlocks w2 = pushed block (lastNBlocks w)) in Hb. rewrite <- Hb.
  clearbody w2.
  destruct (broadcast && negb (synchronization w2)),
    (Block.height block >=? MIN_ROUND_BLOCK_HEIGHT);
    unfold setForged in Hrun; cbv beta in Hrun; run_node_in Hrun;
    repeat match type of Hrun with
           | context [match currentRound ?x with _ => _ end] =>
               destruct (currentRound x); try discriminate
           | context [match slots ?r !! ?k with _ => _ end] =>
               destruct (slots r !! k); try discriminate
           end;
    injection Hrun as <- _ <-; auto.
Qed.

Lemma refusal_is_no_success {T} (errors : list string) (e : string) :
  success (failure (errors ++ [e]) : ResponseEntity T) = false.
Proof. destruct errors; reflexivity. Qed.

(** X15.  A received block that [process] accepts with [verify] on was
    verified and is stored: it follows the last block of the storage in
    slot and version; its signature, id and payload passed the checks of
    [verifyBlock], the totals being those that JS adds up in doubles; its
    id was not the id of a stored block, none of its transactions was
    refused, the durable save succeeded, and the block, returned as it
    was given, is now the last block of the storage. *)
Theorem process_accepts_only_verified_blocks
        now block broadcast (w : World) block' response (w' : World) :
  process now block broadcast None true w = Normal ((block', response), w') ->
  success response = true ->
  block' = block
  /\ (exists lastBlock, last (lastNBlocks w) = Some lastBlock /\ linked now lastBlock block)
  /\ sealedCorrectly block
  /\ existsb (fun b => String.eqb (Block.id b) (Block.id block)) (lastNBlocks w) = false
  /\ firstFailure (Block.transactions block) (processEntered block true w) = None
  /\ batchSave block = []
  /\ lastNBlocks w' = pushed block (lastNBlocks w)
  /\ last (lastNBlocks w') = Some block.
Proof.
  intros Hrun Hok. unfold process in Hrun. unfold bind at 1 in Hrun.
  unfold emit at 1, modify at 1 in Hrun.
  set (w0 := set_trace (fun t => t ++ [BlockHistory block PROCESS]) w) in Hrun.
  unfold bind at 1 in Hrun.
  match type of Hrun with
  | match ?x with _ => _ end = _ => destruct x as [[rejected w1]| |] eqn:Hgates
  end; try discriminate.
  assert (Hpassed : (exists refusal : ResponseEntity unit,
                       rejected = Some refusal /\ success refusal = false)
                    \/ rejected = None /\ w1 = processEntered block true w
                       /\ exists lastBlock,
                            last (lastNBlocks w) = Some lastBlock
                            /\ success (verifyBlock now lastBlock block true) = true).
  { subst w0. unfold bind at 1 in Hgates. unfold emit at 1, modify at 1 in Hgates.
    unfold bind at 1 in Hgates.
    match type of Hgates with
    | match ?x with _ => _ end = _ => destruct x as [[r1 w1']| |] eqn:Hverify
    end; try discriminate.
    unfold BlockService_verifyBlock in Hverify. run_node_in Hverify.
    destruct (last (lastNBlocks w)) as [lastBlock|] eqn:Hlast; [|discriminate].
    injection Hverify as <- <-.
    destruct (success (verifyBlock now lastBlock block true)) eqn:Hr1; cbn [negb] in Hgates.
    - unfold bind at 1 in Hgates.
      match type of Hgates with
      | match ?x with _ => _ end = _ => destruct x as [[r2 w1'']| |] eqn:Hslot
      end; try discriminate.
      assert (Hsame : w1'' = processEntered block true w).
      { unfold verifyBlockSlot in Hslot. cbv zeta in Hslot.
        destruct (_ || _); [now injection Hslot|]. run_node_in Hslot.
        match type of Hslot with
        | context [match currentRound ?x with _ => _ end] =>
            destruct (currentRound x); [|discriminate]
        end.
        destruct (slots _ !! _); [destruct (negb _)|]; now injection Hslot. }
      destruct (success r2) eqn:Hr2; cbn [negb] in Hgates; unfold ret in Hgates;
        injection Hgates as <- <-.
      + right. split; [reflexivity|]. split; [exact Hsame|]. eauto.
      + left. eexists. split; [reflexivity|]. apply refusal_is_no_success.
    - unfold ret in Hgates. injection Hgates as <- <-.
      left. eexists. split; [reflexivity|]. apply refusal_is_no_success. }
  destruct Hpassed as [(refusal & -> & Hno)|(-> & -> & lastBlock & Hlast & Hverified)].
  { unfold ret in Hrun. injection Hrun as _ <- _. congruence. }
  clear Hgates w0.
  unfold bind at 1 in Hrun. unfold BlockStorageService_has, gets in Hrun.
  change (lastNBlocks (processEntered block true w)) with (lastNBlocks w) in Hrun.
  destruct (existsb _ (lastNBlocks w)) eqn:Hstored.
  { unfold ret in Hrun. injection Hrun as _ <- _. discriminate Hok. }
  unfold bind at 1 in Hrun. rewrite checkTransactions_verify_run in Hrun.
  destruct (firstFailure (Block.transactions block) (processEntered block true w))
    as [i|] eqn:Hfail.
  { pose proof (firstFailureErrors_Some _ _ _ Hfail) as Herrs.
    destruct (firstFailureErrors (Block.transactions block) (processEntered block true w))
      as [|e es]; [congruence|].
    cbn [success failure ResponseEntity.errors negb] in Hrun.
    unfold ret in Hrun. injection Hrun as _ <- _. discriminate Hok. }
  rewrite (firstFailureErrors_None _ _ Hfail) in Hrun.
  cbn [success failure ResponseEntity.errors negb] in Hrun.
  unfold bind at 1 in Hrun.
  destruct (applyBlock block broadcast None
              (checkedWorld (Block.transactions block) (processEntered block true w)))
    as [[[b3 r3] w3]| |] eqn:Happly; try discriminate.
  destruct (success r3) eqn:Hr3; cbn [negb] in Hrun.
  2: { unfold bind at 1 in Hrun. rewrite undoByFailedApply_run in Hrun.
       unfold ret in Hrun. injection Hrun as _ <- _.
       rewrite refusal_is_no_success in Hok. discriminate Hok. }
  unfold ret in Hrun. injection Hrun as <- _ <-.
  destruct (applyBlock_success_inv _ _ _ _ _ _ Happly Hr3) as (-> & Hsave & Hblocks).
  destruct (checkedWorld_frame (Block.transactions block) (processEntered block true w))
    as [Hbc _].
  rewrite Hbc in Hblocks.
  change (lastNBlocks (processEntered block true w)) with (lastNBlocks w) in Hblocks.
  destruct (verifyBlock_errors now lastBlock block true) as (earlier & Herrors & Hnone).
  unfold success in Hverified. rewrite Herrors in Hverified.
  case_decide as Hslot; [|discriminate Hverified].
  destruct earlier as [|e es]; [|discriminate Hverified].
  destruct (proj1 Hnone eq_refl) as (Hprev & Hversion & Hsealed).
  split; [reflexivity|].
  split; [exists lastBlock; split; [exact Hlast|]; split; [exact Hprev|]; split; assumption|].
  split; [now apply Hsealed|].
  split; [reflexivity|]. split; [reflexivity|]. split; [exact Hsave|].
  split; [exact Hblocks|]. rewrite Hblocks. apply last_pushed.
Qed.
End ProcessAcceptance.

(** ** [deleteLastBlock] above the genesis block *)

Section DeleteLastBlockMore.
Context `{C : Crypto} `{E : Env} `{D : Dispatcher}.
Open Scope node_scope.

Lemma undoLoop_run reversed : forall w,
  undoLoop reversed w = Normal (tt, revertedWorld reversed w).
Proof.
  induction reversed as [|trs rest IH]; intros w; cbn [undoLoop revertedWorld].
  - reflexivity.
  - run_node. rewrite IH. reflexivity.
Qed.

Lemma revertedWorld_fields trss : forall w,
  lastNBlocks (revertedWorld trss w) = lastNBlocks w
  /\ currentRound (revertedWorld trss w) = currentRound w
  /\ pool (revertedWorld trss w) = pool w
  /\ queue (revertedWorld trss w) = queue w
  /\ ledger (revertedWorld trss w)
     = foldl (fun l trs =>
                undoUnconfirmed trs (lookupByAddress w (Transaction.senderAddress trs))
                  (undo trs (lookupByAddress w (Transaction.senderAddress trs)) l))
             (ledger w) trss
  /\ trace (revertedWorld trss w)
     = trace w
       ++ flat_map (fun trs =>
            [UndoCall trs (lookupByAddress w (Transaction.senderAddress trs));
             UndoUnconfirmedCall trs (lookupByAddress w (Transaction.senderAddress trs))])
            trss.
Proof.
  induction trss as [|trs rest IH]; intros w; cbn [revertedWorld foldl flat_map].
  - rewrite app_nil_r. repeat split; reflexivity.
  - match goal with
    | |- context [revertedWorld rest ?w0] =>
        destruct (IH w0) as (Hb & Hr & Hp & Hq & Hl & Ht)
    end.
    rewrite Hb, Hr, Hp, Hq, Hl, Ht.
    cbn [lastNBlocks currentRound pool queue ledger trace set_trace set_ledger].
    rewrite <- !app_assoc. repeat split; reflexivity.
Qed.

(** When the durable repository fails to delete the last block,
    [deleteLastBlock] returns its errors followed by ['deleteLastBlock']
    and undoes nothing: the block stays the last one of the storage, and
    the rounds and the ledger are as they were. *)
Lemma deleteLastBlock_keeps_block_when_delete_fails (w : World) (lastBlock : Block) :
  last (lastNBlocks w) = Some lastBlock ->
  Block.height lastBlock <> 1 ->
  deleteById (Block.id lastBlock) <> [] ->
  deleteLastBlock w
  = Normal (failure (deleteById (Block.id lastBlock) ++ ["deleteLastBlock"]),
            set_trace (fun t => t ++ [DeleteByIdCall (Block.id lastBlock)]) w).
Proof.
  intros Hlast Hheight Hdelete. unfold deleteLastBlock. run_node. rewrite Hlast.
  rewrite (proj2 (Z.eqb_neq _ _) Hheight).
  destruct (deleteById (Block.id lastBlock)) as [|e es]; [congruence|]. reflexivity.
Qed.

(** X16.  When the last block is above the genesis block, the durable
    delete succeeds and the round restored to the slot of the block has a
    slot for its generator, [deleteLastBlock] returns a success whose
    data is the block that is now the last one: the block has left the
    storage, the slot of its generator is no longer marked as forged,
    and [undo] followed by [undoUnconfirmed] was called on every
    transaction of the block from the last one to the first one.  The
    transactions are returned neither to the pool nor to the queue. *)
Theorem deleteLastBlock_undoes_last_block
        (w : World) (lastBlock : Block) (round : Round) (s : Slot) :
  last (lastNBlocks w) = Some lastBlock ->
  Block.height lastBlock <> 1 ->
  deleteById (Block.id lastBlock) = [] ->
  (restoreToSlot (getSlotNumber (Block.createdAt lastBlock))
     (currentRound w, prevRound w)).1 = Some round ->
  slots round !! Block.generatorPublicKey lastBlock = Some s ->
  exists w',
    deleteLastBlock w
    = Normal (mkResponse (last (take (length (lastNBlocks w) - 1) (lastNBlocks w))) [], w')
    /\ lastNBlocks w' = take (length (lastNBlocks w) - 1) (lastNBlocks w)
    /\ currentRound w' = Some (marked (Block.generatorPublicKey lastBlock) s false round)
    /\ ledger w'
       = foldl (fun l trs =>
                  undoUnconfirmed trs (lookupByAddress w (Transaction.senderAddress trs))
                    (undo trs (lookupByAddress w (Transaction.senderAddress trs)) l))
               (ledger w) (rev (Block.transactions lastBlock))
    /\ trace w'
       = trace w
         ++ [DeleteByIdCall (Block.id lastBlock); BlockHistory lastBlock UNDO]
         ++ flat_map (fun trs =>
              [UndoCall trs (lookupByAddress w (Transaction.senderAddress trs));
               UndoUnconfirmedCall trs (lookupByAddress w (Transaction.senderAddress trs))])
              (rev (Block.transactions lastBlock))
         ++ [SocketEmit "UNDO_BLOCK" lastBlock]
    /\ pool w' = pool w
    /\ queue w' = queue w.
Proof.
  intros Hlast Hheight Hdelete Hround Hslot. unfold deleteLastBlock. run_node.
  rewrite Hlast, (proj2 (Z.eqb_neq _ _) Hheight), Hdelete.
  cbn [success failure ResponseEntity.errors negb]. cbv beta.
  unfold setForged. cbn [currentRound prevRound set_rounds set_trace]. rewrite Hround, Hslot.
  cbn [lastNBlocks set_rounds set_trace set_lastNBlocks fst snd]. rewrite undoLoop_run.
  match goal with
  | |- context [revertedWorld ?t ?w0] =>
      destruct (revertedWorld_fields t w0) as (Hb & Hr & Hp & Hq & Hl & Ht);
      set (w2 := revertedWorld t w0) in *
  end.
  eexists. split; [reflexivity|].
  cbn [lastNBlocks currentRound ledger trace pool queue set_trace].
  rewrite Hb, Hr, Hp, Hq, Hl, Ht.
  cbn [lastNBlocks currentRound ledger trace pool queue
       set_trace set_lastNBlocks set_rounds fst snd].
  rewrite <- !app_assoc. repeat split; reflexivity.
Qed.
End DeleteLastBlockMore.

(** ** The transaction pool: insertion, removal and the invariant *)

Section PoolMore.
Context `{C : Crypto} `{E : Env} `{D : Dispatcher}.
Open Scope node_scope.

(** [remove] of a transaction whose id is not a key of the pool
    returns [false] and leaves the node as it was: [undoUnconfirmed] is
    not called and no index is touched. *)
Lemma remove_unknown_is_noop (trs : Transaction) (w : World) :
  Map_has (Transaction.id trs) (pool w) = false ->
  remove trs w = Normal (false, w).
Proof.
  intros Hhas. unfold remove. unfold bind at 1. unfold gets at 1. now rewrite Hhas.
Qed.

Lemma Map_get_app_absent (k : TransactionId) (v : Transaction) m :
  Map_has k m = false -> Map_get k (m ++ [(k, v)]) = Some v.
Proof.
  unfold Map_has. rewrite bool_decide_eq_false.
  induction m as [|[k' v'] m IH]; cbn [Map_get app]; intros Hnot.
  - now rewrite decide_True.
  - rewrite decide_False by (intros ->; apply Hnot; cbn; now left).
    apply IH. intros Hin. apply Hnot. cbn. now right.
Qed.

(** X17.  [push] of a transaction whose id is not yet a key of the pool
    inserts it: afterwards [has] answers [true], [get] of the id returns
    the transaction, [getTransactions] lists it after the transactions
    that were pooled before, [getSize] has grown by one, the transaction
    is the last one filed under its sender address and under each of the
    recipient addresses it is indexed by, its status is
    UNCONFIRM_APPLIED, and [applyUnconfirmed] was called on it once. *)
Theorem push_inserts (trs : Transaction) (sender : option Address) (broadcast : bool)
        (w : World) :
  Map_has (Transaction.id trs) (pool w) = false ->
  exists w',
    push trs sender broadcast w = Normal (tt, w')
    /\ has trs w' = Normal (true, w')
    /\ get (Transaction.id trs) w' = Normal (Some trs, w')
    /\ getTransactions w' = Normal (Map_values (pool w) ++ [trs], w')
    /\ getSize w' = Normal (Z.of_nat (length (pool w)) + 1, w')
    /\ getBySenderAddress (Transaction.senderAddress trs) w'
       = Normal (default [] (poolBySender w !! Transaction.senderAddress trs) ++ [trs], w')
    /\ (forall a, In a (pushedRecipients trs) ->
                  getByRecipientAddress a w'
                  = Normal (default [] (poolByRecipient w !! a) ++ [trs], w'))
    /\ status w' !! Transaction.ref trs = Some UNCONFIRM_APPLIED
    /\ applyUnconfirmedCalls (trace w') = applyUnconfirmedCalls (trace w) ++ [trs].
Proof.
  intros Hhas. eexists. split; [apply push_run, Hhas|].
  set (w' := pushedWorld trs _ broadcast w).
  destruct (pushedWorld_fields trs
              (match sender with
               | Some a => Some a
               | None => match accounts w !! Transaction.senderAddress trs with
                         | Some _ => Some (Transaction.senderAddress trs)
                         | None => None
                         end
               end) broadcast w) as (_ & _ & Hpool & Hs & Hr).
  fold w' in Hpool, Hs, Hr. rewrite Map_set_absent in Hpool by exact Hhas.
  unfold has, get, getTransactions, getSize, getBySenderAddress, getByRecipientAddress, gets.
  rewrite Hpool, Hs, Hr.
  split; [f_equal; f_equal; rewrite <- Hpool, Hpool; apply Map_has_In with (v := trs),
                     in_or_app; right; now left|].
  split; [now rewrite Map_get_app_absent|].
  split; [unfold Map_values; now rewrite fmap_app|].
  split; [rewrite length_app; cbn; do 2 f_equal; lia|].
  split; [rewrite lookup_pushToIndex, decide_True by reflexivity; reflexivity|].
  split.
  { intros a Ha. rewrite lookup_foldl_pushToIndex by apply pushedRecipients_NoDup.
    rewrite decide_True by (now apply list_elem_of_In). reflexivity. }
  unfold w', pushedWorld. destruct broadcast;
    cbn [status trace set_trace set_status applyUnconfirmedStep set_ledger
         set_poolByRecipient set_poolBySender set_pool];
    rewrite lookup_insert_eq, !applyUnconfirmedCalls_app; cbn; rewrite ?app_nil_r;
    split; reflexivity.
Qed.

Lemma bySender_pushedWorld trs sender broadcast (w : World) a :
  bySender (pushedWorld trs sender broadcast w) a
  = if decide (Transaction.senderAddress trs = a) then bySender w a ++ [trs]
    else bySender w a.
Proof.
  destruct (pushedWorld_fields trs sender broadcast w) as (_ & _ & _ & Hs & _).
  unfold bySender. rewrite Hs, lookup_pushToIndex.
  case_decide as Ha; [subst a|]; reflexivity.
Qed.

Lemma byRecipient_pushedWorld trs sender broadcast (w : World) a :
  byRecipient (pushedWorld trs sender broadcast w) a
  = if decide (a ∈ pushedRecipients trs) then byRecipient w a ++ [trs]
    else byRecipient w a.
Proof.
  destruct (pushedWorld_fields trs sender broadcast w) as (_ & _ & _ & _ & Hr).
  unfold byRecipient. rewrite Hr, lookup_foldl_pushToIndex by apply pushedRecipients_NoDup.
  case_decide; reflexivity.
Qed.

Lemma poolIndexed_pushedWorld trs sender broadcast (w : World) :
  Map_has (Transaction.id trs) (pool w) = false ->
  poolIndexed w -> poolIndexed (pushedWorld trs sender broadcast w).
Proof.
  intros Hhas Hindexed id t Hin.
  destruct (pushedWorld_fields trs sender broadcast w) as (_ & _ & Hpool & _).
  rewrite Hpool, Map_set_absent in Hin by exact Hhas.
  rewrite bySender_pushedWorld.
  apply in_app_or in Hin as [Hold|[[= <- <-]|[]]].
  - destruct (Hindexed id t Hold) as [Hs Hr]. split.
    + case_decide; [apply in_or_app; now left|exact Hs].
    + intros a Ha. rewrite byRecipient_pushedWorld.
      case_decide; [apply in_or_app; left|]; now apply Hr.
  - split.
    + rewrite decide_True by reflexivity. apply in_or_app. right. now left.
    + intros a Ha. rewrite byRecipient_pushedWorld.
      rewrite decide_True by (now apply list_elem_of_In). apply in_or_app. right. now left.
Qed.

(** X18.  [push] keeps the pool and its two indexes in step, whether the
    transaction is new or its id is already pooled.  The pool is
    consistent: its map is keyed by the ids of its transactions, and the
    lists of the indexes are free of repetitions and hold pooled
    transaction objects only, each filed under its sender address or
    under a recipient address that [push] indexes.  And the pool is
    indexed: every pooled transaction is filed under its sender address
    and under each of these recipient addresses. *)
Theorem push_keeps_pool_consistent (trs : Transaction) (sender : option Address)
        (broadcast : bool) (w : World) :
  poolConsistent w ->
  poolIndexed w ->
  exists w',
    push trs sender broadcast w = Normal (tt, w')
    /\ poolConsistent w'
    /\ poolIndexed w'.
Proof.
  intros Hcons Hindexed. destruct (Map_has (Transaction.id trs) (pool w)) eqn:Hhas.
  - exists w. split; [|split; assumption]. unfold push. run_node. unfold has, gets.
    now rewrite Hhas.
  - eexists. split; [apply push_run, Hhas|]. split.
    + now apply poolConsistent_pushedWorld.
    + now apply poolIndexed_pushedWorld.
Qed.

(** X19.  [remove] keeps the pool consistent when it is given a pooled
    transaction object, or a transaction whose id is not pooled. *)
Theorem remove_keeps_pool_consistent (trs : Transaction) (w : World) :
  poolConsistent w ->
  (Map_has (Transaction.id trs) (pool w) = true -> In (Transaction.id trs, trs) (pool w)) ->
  exists removed w', remove trs w = Normal (removed, w') /\ poolConsistent w'.
Proof.
  intros Hcons Hobject. destruct (Map_has (Transaction.id trs) (pool w)) eqn:Hhas.
  - exists true, (removedWorld trs w). split; [now apply remove_run|].
    apply poolConsistent_removedWorld; auto.
  - exists false, w. split; [now apply remove_unknown_is_noop|exact Hcons].
Qed.

(** X20.  The pool map is keyed by id while the indexes hold objects:
    [remove] of a transaction object that is not the pooled one but
    carries its id deletes the entry of the pool map, calls
    [undoUnconfirmed] on the object it was given, and leaves the pooled
    object in the index of its sender, so that the pool is no longer
    consistent. *)
Theorem remove_of_a_copy_leaves_index_entry
        (copy pooled : Transaction) (w : World) (l : list Transaction) :
  poolConsistent w ->
  poolBySender w !! Transaction.senderAddress pooled = Some l ->
  In pooled l ->
  Transaction.id copy = Transaction.id pooled ->
  copy <> pooled ->
  exists w',
    remove copy w = Normal (true, w')
    /\ Map_has (Transaction.id pooled) (pool w') = false
    /\ poolBySender w' !! Transaction.senderAddress pooled = Some l
    /\ undoUnconfirmedCalls (trace w') = undoUnconfirmedCalls (trace w) ++ [copy]
    /\ ~ poolConsistent w'.
Proof.
  intros Hcons Hl Hin Hid Hne.
  pose proof Hcons as ((Hnodup & Hkeys) & HbySender & HbyRecipient).
  destruct (HbySender _ _ Hl) as [_ Hpooled]. destruct (Hpooled _ Hin) as [_ Hpool].
  assert (Hhas : Map_has (Transaction.id copy) (pool w) = true).
  { rewrite Hid. eapply Map_has_In, Hpool. }
  assert (Hcopy : forall a l', poolBySender w !! a = Some l' -> ~ In copy l').
  { intros a l' Hl' Hin'. destruct (HbySender _ _ Hl') as [_ Hp].
    destruct (Hp _ Hin') as [_ Hpc]. apply Hne.
    assert (Heq : (Transaction.id copy, copy) = (Transaction.id pooled, pooled)).
    { apply (NoDup_fst_eq (pool w)); [exact Hnodup| | |exact Hid];
        now apply list_elem_of_In. }
    now injection Heq. }
  exists (removedWorld copy w). split; [now apply remove_run|].
  destruct (removedWorld_fields copy w) as (_ & _ & Hp' & Hs' & _ & Ht').
  assert (Hgone : Map_has (Transaction.id pooled) (pool (removedWorld copy w)) = false).
  { rewrite Hp', <- Hid. apply Map_has_delete. }
  assert (Hkept : poolBySender (removedWorld copy w) !! Transaction.senderAddress pooled
                  = Some l).
  { rewrite Hs', lookup_spliceFromIndex. case_decide as Ha; [|exact Hl].
    rewrite Ha, Hl. cbn. f_equal. apply removeFirst_absent. eapply Hcopy. exact Hl. }
  split; [exact Hgone|]. split; [exact Hkept|]. split.
  - rewrite Ht', undoUnconfirmedCalls_app. reflexivity.
  - intros (_ & HbySender' & _). destruct (HbySender' _ _ Hkept) as [_ Hp].
    destruct (Hp _ Hin) as [_ Hstill]. apply Map_has_In in Hstill. congruence.
Qed.
End PoolMore.

(** ** Removing transactions from the pool by address *)

Lemma filter_iff_on {T} (P Q : T -> Prop) `{!forall x, Decision (P x)}
      `{!forall x, Decision (Q x)} (l : list T) :
  (forall x, In x l -> (P x <-> Q x)) -> filter P l = filter Q l.
Proof.
  induction l as [|x l IH]; intros Hiff; [reflexivity|].
  assert (Hrest : filter P l = filter Q l) by (apply IH; intros y Hy; apply Hiff; now right).
  destruct (decide (P x)) as [Hp|Hp].
  - rewrite !filter_cons_True; [now rewrite Hrest| |exact Hp]. apply Hiff; [now left|exact Hp].
  - rewrite !filter_cons_False; [exact Hrest| |exact Hp]. intros Hq. apply Hp, Hiff; [now left|].
    exact Hq.
Qed.

Lemma filter_all {T} (P : T -> Prop) `{!forall x, Decision (P x)} (l : list T) :
  (forall x, In x l -> P x) -> filter P l = l.
Proof.
  induction l as [|x l IH]; intros Hall; [reflexivity|].
  rewrite filter_cons_True by (apply Hall; now left). f_equal. apply IH.
  intros y Hy. apply Hall. now right.
Qed.

Lemma filter_none {T} (P : T -> Prop) `{!forall x, Decision (P x)} (l : list T) :
  (forall x, In x l -> ~ P x) -> filter P l = [].
Proof.
  induction l as [|x l IH]; intros Hnone; [reflexivity|].
  rewrite filter_cons_False by (apply Hnone; now left). apply IH.
  intros y Hy. apply Hnone. now right.
Qed.

Lemma elem_of_rev {T} (x : T) (l : list T) : x ∈ rev l <-> x ∈ l.
Proof. rewrite !list_elem_of_In. symmetry. apply in_rev. Qed.

Lemma NoDup_rev_2 {T} (l : list T) : NoDup l -> NoDup (rev l).
Proof. rewrite !NoDup_ListNoDup. apply List.NoDup_rev. Qed.

Section RemovalFacts.
Context `{C : Crypto} `{E : Env} `{D : Dispatcher}.
Open Scope node_scope.

Lemma removeFirst_filter trs l :
  NoDup l -> removeFirst trs l = filter (fun t => t ∉ [trs]) l.
Proof.
  intros Hnodup. destruct (in_dec Transaction_eq_dec trs l) as [Hin|Hnot].
  - destruct (removeFirst_split trs l Hin) as (l1 & l2 & -> & H1 & ->).
    apply NoDup_app in Hnodup as (_ & _ & Hl2). apply NoDup_cons in Hl2 as [H2 _].
    rewrite filter_app, filter_cons_False by (intros Hn; apply Hn; now left).
    rewrite !filter_all; [reflexivity| |].
    + intros x Hx Hx'. apply list_elem_of_singleton in Hx' as ->.
      apply H2. now apply list_elem_of_In.
    + intros x Hx Hx'. apply list_elem_of_singleton in Hx' as ->. contradiction.
  - rewrite removeFirst_absent by exact Hnot. symmetry. apply filter_all.
    intros x Hx Hx'. apply list_elem_of_singleton in Hx' as ->. contradiction.
Qed.

Lemma pooled_object_unique (w : World) (t : Transaction) k v :
  poolKeyed w -> In (Transaction.id t, t) (pool w) -> In (k, v) (pool w) ->
  k = Transaction.id t -> v = t.
Proof.
  intros [Hnodup _] Ht Hkv Hk.
  assert (Heq : (k, v) = (Transaction.id t, t)).
  { apply (NoDup_fst_eq (pool w)); [exact Hnodup| | |exact Hk]; now apply list_elem_of_In. }
  now injection Heq.
Qed.

Lemma without_refl (w w' : World) :
  pool w' = pool w -> poolBySender w' = poolBySender w ->
  poolByRecipient w' = poolByRecipient w -> without [] w w'.
Proof.
  intros Hp Hs Hr. unfold without, bySender, byRecipient. rewrite Hp, Hs, Hr.
  repeat split; intros; symmetry; apply filter_all; intros; apply not_elem_of_nil.
Qed.

Lemma without_trans l1 l2 (w w1 w2 : World) :
  without l1 w w1 -> without l2 w1 w2 -> without (l1 ++ l2) w w2.
Proof.
  intros (Hp1 & Hs1 & Hr1) (Hp2 & Hs2 & Hr2). split; [|split].
  - rewrite Hp2, Hp1, list_filter_filter. apply list_filter_iff.
    intros kv. rewrite elem_of_app. tauto.
  - intros a. rewrite Hs2, Hs1, list_filter_filter. apply list_filter_iff.
    intros t. rewrite elem_of_app. tauto.
  - intros a. rewrite Hr2, Hr1, list_filter_filter. apply list_filter_iff.
    intros t. rewrite elem_of_app. tauto.
Qed.

(** [remove] of a pooled transaction object takes it, and nothing else,
    out of the pool map and of the indexes. *)
Lemma without_removedWorld trs (w : World) :
  poolConsistent w -> In (Transaction.id trs, trs) (pool w) ->
  without [trs] w (removedWorld trs w).
Proof.
  intros (Hkeyed & HbySender & HbyRecipient) Hpooled.
  destruct (removedWorld_fields trs w) as (_ & _ & Hp & Hs & Hr & _).
  split; [|split].
  - rewrite Hp. unfold Map_delete. apply filter_iff_on. intros [k v] Hin. cbn.
    rewrite list_elem_of_singleton. destruct Hkeyed as [Hnodup Hkeys].
    rewrite Forall_forall in Hkeys. pose proof (Hkeys (k, v)) as Hk. cbn in Hk.
    rewrite Hk by (now apply list_elem_of_In). split.
    + intros Hne ->. now apply Hne.
    + intros Hne Hid. apply Hne.
      eapply (pooled_object_unique w trs); [split; [exact Hnodup|]| | |].
      * now rewrite Forall_forall.
      * exact Hpooled.
      * exact Hin.
      * rewrite Hk by (now apply list_elem_of_In). exact Hid.
  - intros a. unfold bySender. rewrite Hs, lookup_spliceFromIndex.
    destruct (decide (Transaction.senderAddress trs = a)) as [<-|Hne].
    + destruct (poolBySender w !! Transaction.senderAddress trs) as [l|] eqn:Hl;
        cbn [fmap option_fmap option_map default]; [|reflexivity].
      apply removeFirst_filter. now destruct (HbySender _ _ Hl).
    + destruct (poolBySender w !! a) as [l|] eqn:Hl; cbn [default]; [|reflexivity].
      symmetry. apply filter_all. intros t Hin Ht. apply list_elem_of_singleton in Ht as ->.
      destruct (HbySender _ _ Hl) as [_ Hfiled]. destruct (Hfiled _ Hin). congruence.
  - intros a. unfold byRecipient.
    rewrite Hr, lookup_foldl_spliceFromIndex by apply removedRecipients_NoDup.
    destruct (decide (a ∈ removedRecipients trs)) as [Ha|Ha].
    + destruct (poolByRecipient w !! a) as [l|] eqn:Hl;
        cbn [fmap option_fmap option_map default]; [|reflexivity].
      apply removeFirst_filter. now destruct (HbyRecipient _ _ Hl).
    + destruct (poolByRecipient w !! a) as [l|] eqn:Hl; cbn [default]; [|reflexivity].
      symmetry. apply filter_all. intros t Hin Ht. apply list_elem_of_singleton in Ht as ->.
      destruct (HbyRecipient _ _ Hl) as [_ Hfiled]. destruct (Hfiled _ Hin) as [Hat _].
      apply Ha, list_elem_of_In, pushedRecipients_removed, Hat.
Qed.

(** The removal of pooled transaction objects, one after the other. *)
Lemma removedEach_spec action l : forall (w : World),
  poolConsistent w ->
  NoDup l ->
  (forall t, In t l -> In (Transaction.id t, t) (pool w)) ->
  forEach (fun trs => remove trs ;; emit (TransactionHistory trs action)) l w
  = Normal (tt, removedEach action l w)
  /\ poolConsistent (removedEach action l w)
  /\ without l w (removedEach action l w)
  /\ accounts (removedEach action l w) = accounts w
  /\ queue (removedEach action l w) = queue w
  /\ undoUnconfirmedCalls (trace (removedEach action l w))
     = undoUnconfirmedCalls (trace w) ++ l.
Proof.
  induction l as [|trs rest IH]; intros w Hcons Hnodup Hpooled;
    cbn [forEach removedEach].
  - rewrite app_nil_r. split; [reflexivity|]. split; [exact Hcons|].
    split; [now apply without_refl|]. repeat split; reflexivity.
  - apply NoDup_cons in Hnodup as [Hfresh Hnodup].
    assert (Htrs : In (Transaction.id trs, trs) (pool w)) by (apply Hpooled; now left).
    set (w1 := set_trace (fun t => t ++ [TransactionHistory trs action])
                 (removedWorld trs w)).
    assert (Hcons1 : poolConsistent w1).
    { apply poolConsistent_set_trace, poolConsistent_removedWorld; assumption. }
    assert (Hstep : without [trs] w w1) by now apply without_removedWorld.
    assert (Hpooled1 : forall t, In t rest -> In (Transaction.id t, t) (pool w1)).
    { intros t Hin. destruct Hstep as (Hp & _). rewrite Hp.
      apply list_elem_of_In, list_elem_of_filter. split.
      - cbn. rewrite list_elem_of_singleton. intros ->. apply Hfresh.
        now apply list_elem_of_In.
      - apply list_elem_of_In, Hpooled. now right. }
    destruct (IH w1 Hcons1 Hnodup Hpooled1) as (Hrun & Hcons' & Hwithout & Ha & Hq & Hcalls).
    split.
    { unfold bind at 1. unfold bind at 1.
      rewrite remove_run by (eapply Map_has_In, Htrs).
      unfold emit, modify. exact Hrun. }
    split; [exact Hcons'|].
    split; [apply (without_trans [trs] rest w w1); assumption|].
    destruct (removedWorld_fields trs w) as (Ha1 & _ & _ & _ & _ & Ht1).
    split; [rewrite Ha; exact Ha1|]. split; [rewrite Hq; reflexivity|].
    rewrite Hcalls. unfold w1. cbn [trace set_trace]. rewrite Ht1.
    rewrite !undoUnconfirmedCalls_app. cbn. rewrite app_nil_r, <- app_assoc. reflexivity.
Qed.

Lemma bySender_objects (w : World) a :
  poolConsistent w ->
  NoDup (bySender w a)
  /\ forall t, In t (bySender w a) ->
               Transaction.senderAddress t = a /\ In (Transaction.id t, t) (pool w).
Proof.
  intros (_ & HbySender & _). unfold bySender.
  destruct (poolBySender w !! a) as [l|] eqn:Hl; cbn [default]; [now apply HbySender|].
  split; [constructor|intros t []].
Qed.

Lemma byRecipient_objects (w : World) a :
  poolConsistent w ->
  NoDup (byRecipient w a)
  /\ forall t, In t (byRecipient w a) ->
               In a (pushedRecipients t) /\ In (Transaction.id t, t) (pool w).
Proof.
  intros (_ & _ & HbyRecipient). unfold byRecipient.
  destruct (poolByRecipient w !! a) as [l|] eqn:Hl; cbn [default]; [now apply HbyRecipient|].
  split; [constructor|intros t []].
Qed.

Lemma without_not_pooled gone (w w' : World) t :
  poolKeyed w -> without gone w w' -> In t gone -> In (Transaction.id t, t) (pool w) ->
  Map_has (Transaction.id t) (pool w') = false.
Proof.
  intros Hkeyed (Hp & _) Hgone Hpooled. unfold Map_has. apply bool_decide_eq_false.
  rewrite Hp, list_elem_of_fmap. intros ([k v] & Hk & Hin). cbn in Hk.
  apply list_elem_of_filter in Hin as [Hkept Hin]. cbn in Hkept. apply Hkept.
  assert (v = t) as ->; [|now apply list_elem_of_In].
  eapply pooled_object_unique; [exact Hkeyed|exact Hpooled| |symmetry; exact Hk].
  now apply list_elem_of_In.
Qed.

Lemma removeBySenderAddress_run (senderAddress : Address) (w : World) :
  poolConsistent w ->
  exists w',
    removeBySenderAddress senderAddress w = Normal (rev (bySender w senderAddress), w')
    /\ poolConsistent w'
    /\ without (rev (bySender w senderAddress)) w w'
    /\ undoUnconfirmedCalls (trace w')
       = undoUnconfirmedCalls (trace w) ++ rev (bySender w senderAddress).
Proof.
  intros Hcons. destruct (bySender_objects w senderAddress Hcons) as [Hnodup Hfiled].
  destruct (removedEach_spec REMOVED_BY_SENDER_ADDRESS (rev (bySender w senderAddress)) w Hcons)
    as (Hrun & Hcons' & Hwithout & _ & _ & Hcalls).
  { now apply NoDup_rev_2. }
  { intros t Hin. apply in_rev in Hin. now apply Hfiled. }
  exists (removedEach REMOVED_BY_SENDER_ADDRESS (rev (bySender w senderAddress)) w).
  split; [|auto].
  unfold removeBySenderAddress, getBySenderAddress. unfold bind at 1. unfold gets at 1.
  fold (bySender w senderAddress). unfold bind at 1. rewrite Hrun. reflexivity.
Qed.

Lemma removeByRecipientAddress_run (address : Address) (w : World) :
  poolConsistent w ->
  exists w',
    removeByRecipientAddress address w = Normal (rev (byRecipient w address), w')
    /\ poolConsistent w'
    /\ without (rev (byRecipient w address)) w w'
    /\ undoUnconfirmedCalls (trace w')
       = undoUnconfirmedCalls (trace w) ++ rev (byRecipient w address).
Proof.
  intros Hcons. destruct (byRecipient_objects w address Hcons) as [Hnodup Hfiled].
  destruct (removedEach_spec REMOVED_BY_RECIPIENT_ADDRESS (rev (byRecipient w address)) w Hcons)
    as (Hrun & Hcons' & Hwithout & _ & _ & Hcalls).
  { now apply NoDup_rev_2. }
  { intros t Hin. apply in_rev in Hin. now apply Hfiled. }
  exists (removedEach REMOVED_BY_RECIPIENT_ADDRESS (rev (byRecipient w address)) w).
  split; [|auto].
  unfold removeByRecipientAddress, getByRecipientAddress. unfold bind at 1.
  unfold gets at 1. fold (byRecipient w address). unfold bind at 1. rewrite Hrun.
  reflexivity.
Qed.

(** X21.  On a consistent pool [removeBySenderAddress] removes the
    transactions filed under the address as sender, the one pushed last
    first, and returns them in that order: none of them is pooled any
    more, [undoUnconfirmed] was called on each in that order, nothing is
    left under the address, what is filed under another sender address
    stays, and the pool is consistent. *)
Theorem removeBySenderAddress_removes_all (senderAddress : Address) (w : World) :
  poolConsistent w ->
  exists w',
    removeBySenderAddress senderAddress w = Normal (rev (bySender w senderAddress), w')
    /\ poolConsistent w'
    /\ bySender w' senderAddress = []
    /\ (forall t, In t (bySender w senderAddress) ->
                  Map_has (Transaction.id t) (pool w') = false)
    /\ pool w' = filter (fun kv => kv.2 ∉ bySender w senderAddress) (pool w)
    /\ (forall a, a <> senderAddress -> bySender w' a = bySender w a)
    /\ undoUnconfirmedCalls (trace w')
       = undoUnconfirmedCalls (trace w) ++ rev (bySender w senderAddress).
Proof.
  intros Hcons. destruct (bySender_objects w senderAddress Hcons) as [Hnodup Hfiled].
  destruct (removeBySenderAddress_run senderAddress w Hcons)
    as (w' & Hrun & Hcons' & Hwithout & Hcalls).
  exists w'. split; [exact Hrun|].
  split; [exact Hcons'|]. pose proof Hwithout as (Hp & Hs & _). split.
  { rewrite Hs. apply filter_none. intros t Hin Hnot. apply Hnot.
    apply elem_of_rev. now apply list_elem_of_In. }
  split.
  { intros t Hin. eapply without_not_pooled; [apply Hcons|exact Hwithout| |].
    - now apply list_elem_of_In, elem_of_rev, list_elem_of_In.
    - now apply Hfiled. }
  split.
  { rewrite Hp. apply list_filter_iff. intros kv. now rewrite elem_of_rev. }
  split; [|exact Hcalls].
  intros a Hne. rewrite Hs. apply filter_all. intros t Hin Hgone.
  rewrite elem_of_rev in Hgone. apply list_elem_of_In in Hgone.
  destruct (bySender_objects w a Hcons) as [_ Hfiled'].
  destruct (Hfiled' t Hin) as [Ha _]. destruct (Hfiled t Hgone) as [Ha' _]. congruence.
Qed.

(** X22.  On a consistent pool [removeByRecipientAddress] removes the
    transactions filed under the address as recipient, the one pushed
    last first, and returns them in that order: none of them is pooled
    any more, [undoUnconfirmed] was called on each in that order, nothing
    is left under the address, and the pool is consistent. *)
Theorem removeByRecipientAddress_removes_all (address : Address) (w : World) :
  poolConsistent w ->
  exists w',
    removeByRecipientAddress address w = Normal (rev (byRecipient w address), w')
    /\ poolConsistent w'
    /\ byRecipient w' address = []
    /\ (forall t, In t (byRecipient w address) ->
                  Map_has (Transaction.id t) (pool w') = false)
    /\ pool w' = filter (fun kv => kv.2 ∉ byRecipient w address) (pool w)
    /\ undoUnconfirmedCalls (trace w')
       = undoUnconfirmedCalls (trace w) ++ rev (byRecipient w address).
Proof.
  intros Hcons. destruct (byRecipient_objects w address Hcons) as [Hnodup Hfiled].
  destruct (removeByRecipientAddress_run address w Hcons)
    as (w' & Hrun & Hcons' & Hwithout & Hcalls).
  exists w'. split; [exact Hrun|].
  split; [exact Hcons'|]. pose proof Hwithout as (Hp & _ & Hr). split.
  { rewrite Hr. apply filter_none. intros t Hin Hnot. apply Hnot.
    apply elem_of_rev. now apply list_elem_of_In. }
  split.
  { intros t Hin. eapply without_not_pooled; [apply Hcons|exact Hwithout| |].
    - now apply list_elem_of_In, elem_of_rev, list_elem_of_In.
    - now apply Hfiled. }
  split; [|exact Hcalls].
  rewrite Hp. apply list_filter_iff. intros kv. now rewrite elem_of_rev.
Qed.

Lemma without_pooled gone (w w' : World) x :
  without gone w w' -> In (Transaction.id x, x) (pool w') ->
  In (Transaction.id x, x) (pool w) /\ ~ In x gone.
Proof.
  intros (Hp & _) Hin. rewrite Hp in Hin.
  apply list_elem_of_In, list_elem_of_filter in Hin as [Hkept Hin]. cbn in Hkept.
  split; [now apply list_elem_of_In|]. intros Hgone. now apply Hkept, list_elem_of_In.
Qed.

Lemma without_bySender gone (w w' : World) a x :
  without gone w w' -> (In x (bySender w' a) <-> In x (bySender w a) /\ ~ In x gone).
Proof.
  intros (_ & Hs & _). rewrite Hs, <- !list_elem_of_In, list_elem_of_filter. tauto.
Qed.

Lemma without_byRecipient gone (w w' : World) a x :
  without gone w w' -> (In x (byRecipient w' a) <-> In x (byRecipient w a) /\ ~ In x gone).
Proof.
  intros (_ & _ & Hr). rewrite Hr, <- !list_elem_of_In, list_elem_of_filter. tauto.
Qed.

(** The loop of [batchRemove] on a consistent pool. *)
Lemma batchRemoveLoop_spec reversed : forall (w : World) acc,
  poolConsistent w ->
  exists more w',
    batchRemoveLoop reversed acc w = Normal (acc ++ more, w')
    /\ poolConsistent w'
    /\ NoDup more
    /\ (forall r, In r more -> In (Transaction.id r, r) (pool w))
    /\ without more w w'
    /\ (forall r, In r more
                  <-> exists t, In t reversed
                                /\ (In r (bySender w (Transaction.senderAddress t))
                                    \/ In r (byRecipient w (Transaction.senderAddress t))))
    /\ undoUnconfirmedCalls (trace w') = undoUnconfirmedCalls (trace w) ++ more.
Proof.
  induction reversed as [|t rest IH]; intros w acc Hcons; cbn [batchRemoveLoop].
  - exists [], w. rewrite !app_nil_r. split; [reflexivity|]. split; [exact Hcons|].
    split; [constructor|]. split; [intros r []|]. split; [now apply without_refl|].
    split; [|reflexivity]. split; [intros []|intros (t & [] & _)].
  - set (a := Transaction.senderAddress t).
    destruct (removeBySenderAddress_run a w Hcons) as (w1 & Hrun1 & Hcons1 & Hw1 & Hcalls1).
    destruct (removeByRecipientAddress_run a w1 Hcons1)
      as (w2 & Hrun2 & Hcons2 & Hw2 & Hcalls2).
    set (l1 := rev (bySender w a)) in *. set (l2 := rev (byRecipient w1 a)) in *.
    destruct (IH w2 ((acc ++ l1) ++ l2) Hcons2)
      as (more & w' & Hrun & Hcons' & Hnodup & Hpooled & Hw' & Hiff & Hcalls).
    destruct (bySender_objects w a Hcons) as [Hnd1 Hobj1].
    destruct (byRecipient_objects w1 a Hcons1) as [Hnd2 Hobj2].
    assert (Hin1 : forall r, In r l1 <-> In r (bySender w a))
      by (intros r; unfold l1; symmetry; apply in_rev).
    assert (Hin2 : forall r, In r l2 <-> In r (byRecipient w a) /\ ~ In r l1).
    { intros r. unfold l2. rewrite <- in_rev. now apply without_byRecipient. }
    assert (Hw12 : without (l1 ++ l2) w w2) by (eapply without_trans; eassumption).
    exists (l1 ++ l2 ++ more), w'. split.
    { unfold bind at 1. rewrite Hrun1. unfold bind at 1. rewrite Hrun2.
      rewrite Hrun. now rewrite <- !app_assoc. }
    split; [exact Hcons'|].
    assert (Hpooled2 : forall r, In r l2 -> In (Transaction.id r, r) (pool w) /\ ~ In r l1).
    { intros r Hr. apply (without_pooled l1 w w1); [exact Hw1|].
      apply Hobj2. unfold l2 in Hr. now apply in_rev in Hr. }
    assert (Hpooled3 : forall r, In r more ->
                                 In (Transaction.id r, r) (pool w) /\ ~ In r (l1 ++ l2)).
    { intros r Hr. apply (without_pooled (l1 ++ l2) w w2); [exact Hw12|]. now apply Hpooled. }
    split.
    { apply NoDup_app. split; [now apply NoDup_rev_2|]. split.
      - intros x Hx Hx'. apply list_elem_of_In in Hx.
        apply list_elem_of_In, in_app_or in Hx' as [Hx'|Hx'].
        + now apply (Hpooled2 x Hx').
        + apply (Hpooled3 x Hx'). apply in_or_app. now left.
      - apply NoDup_app. split; [now apply NoDup_rev_2|]. split; [|exact Hnodup].
        intros x Hx Hx'. apply list_elem_of_In in Hx, Hx'.
        apply (Hpooled3 x Hx'). apply in_or_app. now right. }
    split.
    { intros r Hr. apply in_app_or in Hr as [Hr|Hr]; [now apply Hobj1, Hin1|].
      apply in_app_or in Hr as [Hr|Hr]; [now apply Hpooled2|now apply Hpooled3]. }
    split.
    { rewrite app_assoc. eapply without_trans; eassumption. }
    split.
    { intros r. rewrite !in_app_iff, Hin1, Hin2, Hiff. split.
      - intros [Hr|[[Hr _]|(t' & Ht' & Hr)]].
        + exists t. split; [now left|now left].
        + exists t. split; [now left|now right].
        + exists t'. split; [now right|].
          destruct Hr as [Hr|Hr]; [left|right].
          * now apply (without_bySender (l1 ++ l2) w w2) in Hr.
          * now apply (without_byRecipient (l1 ++ l2) w w2) in Hr.
      - intros (t' & [<-|Ht'] & Hr).
        + destruct Hr as [Hr|Hr]; [now left|].
          destruct (in_dec Transaction_eq_dec r l1) as [Hl1|Hl1].
          * left. now apply Hin1.
          * right. left. now split.
        + destruct (in_dec Transaction_eq_dec r (l1 ++ l2)) as [Hgone|Hkept].
          * apply in_app_or in Hgone as [Hg|Hg]; [left; now apply Hin1|].
            right. left. now apply Hin2.
          * right. right. exists t'. split; [exact Ht'|].
            destruct Hr as [Hr|Hr]; [left|right].
            -- now apply (without_bySender (l1 ++ l2) w w2).
            -- now apply (without_byRecipient (l1 ++ l2) w w2). }
    rewrite Hcalls, Hcalls2, Hcalls1, <- !app_assoc. reflexivity.
Qed.

(** X23.  On a consistent pool [batchRemove] removes, and returns without
    repetition, exactly the pooled transactions that are filed under the
    sender address of one of the given transactions, as sender or as
    recipient: none of them is pooled any more, [undoUnconfirmed] was
    called on each in the order of the result, nothing is left filed
    under these addresses, the other pooled transactions stay, and the
    pool is consistent. *)
Theorem batchRemove_removes_entangled (transactions : list Transaction) (w : World) :
  poolConsistent w ->
  exists removed w',
    batchRemove transactions w = Normal (removed, w')
    /\ poolConsistent w'
    /\ NoDup removed
    /\ (forall r, In r removed
                  <-> exists t, In t transactions
                                /\ (In r (bySender w (Transaction.senderAddress t))
                                    \/ In r (byRecipient w (Transaction.senderAddress t))))
    /\ (forall r, In r removed -> Map_has (Transaction.id r) (pool w') = false)
    /\ (forall t, In t transactions ->
                  bySender w' (Transaction.senderAddress t) = []
                  /\ byRecipient w' (Transaction.senderAddress t) = [])
    /\ pool w' = filter (fun kv => kv.2 ∉ removed) (pool w)
    /\ undoUnconfirmedCalls (trace w') = undoUnconfirmedCalls (trace w) ++ removed.
Proof.
  intros Hcons. unfold batchRemove. cbv zeta.
  destruct (batchRemoveLoop_spec (rev transactions) w [] Hcons)
    as (removed & w' & Hrun & Hcons' & Hnodup & Hpooled & Hwithout & Hiff & Hcalls).
  exists removed, w'. split; [exact Hrun|]. split; [exact Hcons'|]. split; [exact Hnodup|].
  assert (Hiff' : forall r, In r removed
                   <-> exists t, In t transactions
                                 /\ (In r (bySender w (Transaction.senderAddress t))
                                     \/ In r (byRecipient w (Transaction.senderAddress t)))).
  { intros r. rewrite Hiff. split; intros (t & Ht & Hr); exists t; (split; [|exact Hr]).
    - now apply in_rev.
    - now apply -> in_rev. }
  split; [exact Hiff'|]. split.
  { intros r Hr. eapply without_not_pooled; [apply Hcons|exact Hwithout|exact Hr|].
    now apply Hpooled. }
  split; [|split; [apply Hwithout|exact Hcalls]].
  intros t Ht. pose proof Hwithout as (_ & Hs & Hr). rewrite Hs, Hr. split.
  - apply filter_none. intros r Hin Hnot. apply Hnot, list_elem_of_In, Hiff'. eauto.
  - apply filter_none. intros r Hin Hnot. apply Hnot, list_elem_of_In, Hiff'. eauto.
Qed.
End RemovalFacts.

(** ** Returning transactions to the pool: [pushInPool] *)

Section PushInPoolFacts.
Context `{C : Crypto} `{E : Env} `{D : Dispatcher} `{!TransactionChecks}.
Open Scope node_scope.

Lemma Map_has_set_mono (k k' : TransactionId) (v : Transaction) m :
  Map_has k m = true -> Map_has k (Map_set k' v m) = true.
Proof.
  unfold Map_has. rewrite !bool_decide_eq_true.
  induction m as [|[k0 v0] m IH]; cbn [Map_set fmap list_fmap]; intros Hin.
  - now apply elem_of_nil in Hin.
  - destruct (decide (k0 = k')) as [->|Hne]; cbn [fmap list_fmap fst] in *; [exact Hin|].
    apply elem_of_cons in Hin as [->|Hin]; [now left|right; now apply IH].
Qed.

(** One round of [pushInPool]. *)
Lemma pushInPool_step trs (w : World) :
  exists w1,
    (sender <- getByAddress (Transaction.senderAddress trs) ;;
     verifyResult <- gets (fun w =>
       (failure (verifyUnconfirmedWith trs sender true (ledger w)) : ResponseEntity unit)) ;;
     if success verifyResult then push trs sender false
     else TransactionQueue_push trs) w = Normal (tt, w1)
    /\ (Map_has (Transaction.id trs) (pool w1) = true \/ In trs (queue w1))
    /\ (forall k, Map_has k (pool w) = true -> Map_has k (pool w1) = true)
    /\ (queue w1 = queue w \/ queue w1 = queue w ++ [trs])
    /\ (poolConsistent w -> poolConsistent w1).
Proof.
  run_node.
  set (sender := match accounts w !! Transaction.senderAddress trs with
                 | Some _ => Some (Transaction.senderAddress trs)
                 | None => None
                 end).
  destruct (verifyUnconfirmedWith trs sender true (ledger w)) as [|e es].
  - destruct (Map_has (Transaction.id trs) (pool w)) eqn:Hhas.
    + exists w. split.
      { unfold push. run_node. unfold has, gets. now rewrite Hhas. }
      auto.
    + eexists. split; [apply push_run, Hhas|].
      match goal with
      | |- context [pushedWorld trs ?s false w] =>
          destruct (pushedWorld_fields trs s false w) as (_ & _ & Hp & _ & _);
          set (w1 := pushedWorld trs s false w) in *
      end.
      split; [left; rewrite Hp; apply Map_has_set|].
      split; [intros k Hk; rewrite Hp; now apply Map_has_set_mono|].
      split; [left; reflexivity|].
      intros Hcons. now apply poolConsistent_pushedWorld.
  - eexists. split; [reflexivity|]. cbn [pool queue set_queue].
    split; [right; apply in_or_app; right; now left|]. auto.
Qed.

Lemma pushInPool_run (transactions : list Transaction) (w : World) :
  exists w',
    pushInPool transactions w = Normal (tt, w')
    /\ (forall t, In t transactions ->
                  Map_has (Transaction.id t) (pool w') = true \/ In t (queue w'))
    /\ (forall k, Map_has k (pool w) = true -> Map_has k (pool w') = true)
    /\ (exists returned, queue w' = queue w ++ returned
                         /\ forall t, In t returned -> In t transactions)
    /\ (poolConsistent w -> poolConsistent w').
Proof.
  unfold pushInPool. revert w.
  induction transactions as [|trs rest IH]; intros w; cbn [forEach].
  - exists w. split; [reflexivity|]. split; [intros t []|]. split; [auto|].
    split; [|auto]. exists []. split; [now rewrite app_nil_r|intros t []].
  - destruct (pushInPool_step trs w) as (w1 & Hstep & Hkept & Hmono & Hqueue & Hcons).
    destruct (IH w1) as (w' & Hrun & Hall & Hmono' & (returned & Hq & Hfrom) & Hcons').
    exists w'. split.
    { unfold bind at 1. rewrite Hstep. exact Hrun. }
    split.
    { intros t [<-|Hin]; [|now apply Hall].
      destruct Hkept as [Hp|Hq1]; [left; now apply Hmono'|].
      right. rewrite Hq. apply in_or_app. now left. }
    split; [auto|]. split; [|auto].
    destruct Hqueue as [Hsame|Hmore].
    + exists returned. rewrite Hq, Hsame. split; [reflexivity|]. intros t Ht. right. auto.
    + exists (trs :: returned). rewrite Hq, Hmore, <- app_assoc. split; [reflexivity|].
      intros t [<-|Ht]; [now left|right; auto].
Qed.

(** X24.  [pushInPool] always returns and loses no transaction: each of
    the transactions it was given is afterwards pooled, or it is in the
    queue, to whose end the refused transactions were added; the ids
    that were pooled stay pooled; and a consistent pool stays
    consistent. *)
Theorem pushInPool_loses_nothing (transactions : list Transaction) (w : World) :
  exists w',
    pushInPool transactions w = Normal (tt, w')
    /\ (forall t, In t transactions ->
                  Map_has (Transaction.id t) (pool w') = true \/ In t (queue w'))
    /\ (forall k, Map_has k (pool w) = true -> Map_has k (pool w') = true)
    /\ (exists returned, queue w' = queue w ++ returned
                         /\ forall t, In t returned -> In t transactions)
    /\ (poolConsistent w -> poolConsistent w').
Proof. apply pushInPool_run. Qed.
End PushInPoolFacts.

(** ** A refused block costs the pool nothing *)

Section ReceiveBlockFacts.
Context `{C : Crypto} `{E : Env} `{D : Dispatcher} `{!TransactionChecks} `{!ReceiveEnv}.
Open Scope node_scope.

Lemma poolConsistent_same (w w' : World) :
  pool w' = pool w -> poolBySender w' = poolBySender w ->
  poolByRecipient w' = poolByRecipient w -> poolConsistent w -> poolConsistent w'.
Proof.
  intros Hp Hs Hr. unfold poolConsistent, poolKeyed. now rewrite Hp, Hs, Hr.
Qed.

(** X25.  When [receiveBlock] answers with a failure, its errors are
    those of [process], and the pool has lost nothing by the block: every
    transaction that was pooled when the block arrived is pooled again,
    or it is in the queue; the pool, which was consistent, is
    consistent. *)
Theorem receiveBlock_refused_loses_nothing
        (now : Z) (block : Block) (w : World) (response : ResponseEntity unit) (w' : World) :
  poolConsistent w ->
  receiveBlock now block w = Normal (response, w') ->
  success response = false ->
  (exists w1 block' processed w2,
     process now block true None (isVerifyBlock (Block.id block)) w1
     = Normal ((block', processed), w2)
     /\ ResponseEntity.errors response = ResponseEntity.errors processed)
  /\ (forall t, In (Transaction.id t, t) (pool w) ->
                Map_has (Transaction.id t) (pool w') = true \/ In t (queue w'))
  /\ poolConsistent w'.
Proof.
  intros Hcons Hrun Hfailed. unfold receiveBlock in Hrun.
  unfold bind at 1 in Hrun. unfold emit, modify at 1 in Hrun.
  set (w0 := set_trace (fun t => t ++ [BlockHistory block RECEIVE]) w) in Hrun.
  assert (Hcons0 : poolConsistent w0) by exact Hcons.
  destruct (batchRemoveLoop_spec (rev (Block.transactions block)) w0 [] Hcons0)
    as (removed & w1 & Hremove & Hcons1 & _ & Hpooled & Hwithout & _ & _).
  unfold bind at 1 in Hrun. unfold batchRemove in Hrun. cbv zeta in Hrun.
  rewrite Hremove in Hrun. cbn [app] in Hrun.
  unfold bind at 1 in Hrun. unfold gets at 1 in Hrun.
  unfold bind at 1 in Hrun.
  set (w1' := match currentRound w1 with
              | Some _ => w1
              | None =>
                  set_rounds
                    (RoundRepository_add
                       (RoundService_generate
                          (getFirstSlotNumberInRound (Block.createdAt block)
                             getActiveDelegatesCount))) w1
              end).
  assert (Hround : match currentRound w1 with
                   | Some _ => ret tt
                   | None =>
                       modify (set_rounds
                                 (RoundRepository_add
                                    (RoundService_generate
                                       (getFirstSlotNumberInRound (Block.createdAt block)
                                          getActiveDelegatesCount))))
                   end w1 = Normal (tt, w1')).
  { unfold w1'. destruct (currentRound w1); reflexivity. }
  rewrite Hround in Hrun.
  assert (Hsame1 : pool w1' = pool w1 /\ poolBySender w1' = poolBySender w1
                   /\ poolByRecipient w1' = poolByRecipient w1 /\ queue w1' = queue w1).
  { unfold w1'. destruct (currentRound w1); repeat split; reflexivity. }
  destruct Hsame1 as (Hp1 & Hs1 & Hr1 & Hq1).
  assert (Hverify : (if negb (isVerifyBlock (Block.id block)) then false else true)
                    = isVerifyBlock (Block.id block))
    by (destruct (isVerifyBlock _); reflexivity).
  rewrite Hverify in Hrun. unfold bind at 1 in Hrun.
  destruct (process now block true None (isVerifyBlock (Block.id block)) w1')
    as [[[block' processed] w2]| |] eqn:Hprocess; try discriminate.
  destruct (keepsPool_process _ _ _ _ _ _ _ _ Hprocess)
    as (Hp2 & Hs2 & Hr2 & _ & returned & Hq2).
  destruct (success processed) eqn:Hok; cbn [negb app] in Hrun.
  { (* the block was accepted: the response is a success *)
    unfold bind at 1 in Hrun.
    match type of Hrun with
    | match ?x with _ => _ end = _ => destruct x as [[[] w3]| |]; try discriminate
    end.
    unfold ret in Hrun. injection Hrun as <- _. discriminate Hfailed. }
  assert (Herrors : negb (Z.of_nat (length (ResponseEntity.errors processed)) =? 0) = true).
  { unfold success in Hok. destruct (ResponseEntity.errors processed); [discriminate|].
    reflexivity. }
  rewrite Herrors in Hrun.
  destruct (pushInPool_run removed w2) as (w3 & Hpush & Hback & Hmono & _ & Hcons3).
  unfold bind in Hrun. rewrite Hpush in Hrun. unfold ret in Hrun.
  injection Hrun as <- <-.
  split; [exists w1', block', processed, w2; split; [exact Hprocess|reflexivity]|].
  split.
  - intros t Hin. destruct (in_dec Transaction_eq_dec t removed) as [Hgone|Hkept].
    + now apply Hback.
    + left. apply Hmono. rewrite Hp2, Hp1. destruct Hwithout as (Hp & _). rewrite Hp.
      apply Map_has_In with (v := t), list_elem_of_In, list_elem_of_filter.
      split; [|now apply list_elem_of_In]. cbn. intros Hx. now apply Hkept, list_elem_of_In.
  - apply Hcons3. apply (poolConsistent_same w1); [congruence..|exact Hcons1].
Qed.
End ReceiveBlockFacts.

(** ** The block ids kept by the system repository *)

Section JsMapFacts.
Context {K V : Type} `{EqDecision K}.

Lemma Map_get_set (k k' : K) (v : V) m :
  Map_get k (Map_set k' v m) = if decide (k = k') then Some v else Map_get k m.
Proof.
  induction m as [|[k0 v0] m IH]; cbn [Map_set Map_get].
  - destruct (decide (k' = k)) as [->|Hne]; [now rewrite decide_True|].
    now rewrite decide_False by congruence.
  - destruct (decide (k0 = k')) as [->|Hne]; cbn [Map_get].
    + destruct (decide (k' = k)) as [->|Hne']; [now rewrite decide_True|].
      now rewrite decide_False by congruence.
    + destruct (decide (k0 = k)) as [->|Hne']; [now rewrite decide_False|exact IH].
Qed.

Lemma Map_get_delete (k k' : K) (m : list (K * V)) :
  Map_get k (Map_delete k' m) = if decide (k = k') then None else Map_get k m.
Proof.
  unfold Map_delete. induction m as [|[k0 v0] m IH]; cbn [Map_get].
  - now destruct (decide (k = k')).
  - destruct (decide (k0 = k')) as [->|Hne].
    + rewrite filter_cons_False by (cbn; tauto). rewrite IH.
      destruct (decide (k = k')) as [->|Hne']; [reflexivity|].
      now rewrite decide_False by congruence.
    + rewrite filter_cons_True by exact Hne. cbn [Map_get]. rewrite IH.
      destruct (decide (k0 = k)) as [->|Hne']; [now rewrite decide_False|reflexivity].
Qed.

Lemma Map_get_delete_all (k : K) ks : forall m : list (K * V),
  Map_get k (foldl (fun m key => Map_delete key m) m ks)
  = if decide (k ∈ ks) then None else Map_get k m.
Proof.
  induction ks as [|k0 ks IH]; intros m; cbn [foldl].
  - now rewrite decide_False by apply not_elem_of_nil.
  - rewrite IH, Map_get_delete. destruct (decide (k ∈ ks)) as [Hin|Hnot].
    + now rewrite decide_True by (now right).
    + destruct (decide (k = k0)) as [->|Hne].
      * now rewrite decide_True by (now left).
      * rewrite decide_False; [reflexivity|]. rewrite elem_of_cons. tauto.
Qed.

Lemma Map_has_get (k : K) (m : list (K * V)) : Map_has k m = true <-> is_Some (Map_get k m).
Proof.
  unfold Map_has. rewrite bool_decide_eq_true.
  induction m as [|[k0 v0] m IH]; cbn [Map_get fmap list_fmap].
  - split; [intros Hin; now apply elem_of_nil in Hin|intros [? [=]]].
  - rewrite elem_of_cons, IH. cbn. destruct (decide (k0 = k)) as [->|Hne].
    + split; [eauto|now left].
    + split; [intros [?|?]; [congruence|assumption]|now right].
Qed.

Lemma Map_get_None (k : K) (m : list (K * V)) : Map_get k m = None <-> k ∉ m.*1.
Proof.
  pose proof (Map_has_get k m) as Hiff. unfold Map_has in Hiff.
  rewrite bool_decide_eq_true in Hiff. rewrite Hiff.
  destruct (Map_get k m); split; try congruence; try (intros Hn; exfalso; apply Hn; eauto).
  intros _ [? [=]].
Qed.

Lemma Map_set_keys (k : K) (v : V) m :
  (Map_set k v m).*1 = if decide (k ∈ m.*1) then m.*1 else m.*1 ++ [k].
Proof.
  induction m as [|[k0 v0] m IH]; cbn [Map_set fmap list_fmap].
  - now rewrite decide_False by apply not_elem_of_nil.
  - destruct (decide (k0 = k)) as [->|Hne]; cbn [fmap list_fmap fst].
    + now rewrite decide_True by (now left).
    + rewrite IH. destruct (decide (k ∈ m.*1)) as [Hin|Hnot].
      * now rewrite decide_True by (now right).
      * rewrite decide_False; [reflexivity|]. rewrite elem_of_cons. intros [?|?]; congruence.
Qed.

Lemma Map_delete_keys (k : K) (m : list (K * V)) :
  (Map_delete k m).*1 = filter (fun k' => k' <> k) m.*1.
Proof.
  unfold Map_delete. induction m as [|[k0 v0] m IH]; [reflexivity|].
  cbn [fmap list_fmap fst]. destruct (decide (k0 = k)) as [->|Hne].
  - rewrite !filter_cons_False by (cbn; tauto). exact IH.
  - rewrite !filter_cons_True by exact Hne. cbn [fmap list_fmap fst]. now rewrite IH.
Qed.
End JsMapFacts.

Lemma foldl_min_le (k : Z) ks : forall x, x = k \/ In x ks -> foldl Z.min k ks <= x.
Proof.
  revert k. induction ks as [|k0 ks IH]; intros k x; cbn [foldl].
  - intros [->|[]]. lia.
  - intros [->|[<-|Hin]].
    + transitivity (Z.min k k0); [apply IH; now left|lia].
    + transitivity (Z.min k k0); [apply IH; now left|lia].
    + apply IH. now right.
Qed.

Lemma foldl_min_in (k : Z) ks : foldl Z.min k ks = k \/ In (foldl Z.min k ks) ks.
Proof.
  revert k. induction ks as [|k0 ks IH]; intros k; cbn [foldl]; [now left|].
  destruct (IH (Z.min k k0)) as [Heq|Hin]; [|right; now right].
  rewrite Heq. destruct (Z.min_spec k k0) as [[_ ->]|[_ ->]]; [now left|right; now left].
Qed.

Section SystemRepositoryFacts.
Import SystemRepository.

Lemma NoDup_Map_set (k : Z) (v : string) (m : BlocksIds) :
  NoDup m.*1 -> NoDup (Map_set k v m).*1.
Proof.
  intros Hnodup. rewrite Map_set_keys. case_decide as Hin; [exact Hnodup|].
  apply NoDup_app. split; [exact Hnodup|]. split; [|apply NoDup_singleton].
  intros x Hx Hx'. apply list_elem_of_singleton in Hx' as ->. contradiction.
Qed.

Lemma NoDup_Map_delete (k : Z) (m : BlocksIds) : NoDup m.*1 -> NoDup (Map_delete k m).*1.
Proof. intros Hnodup. rewrite Map_delete_keys. now apply NoDup_filter. Qed.

Lemma NoDup_delete_all ks : forall m : BlocksIds,
  NoDup m.*1 -> NoDup (foldl (fun m key => Map_delete key m) m ks).*1.
Proof.
  induction ks as [|k ks IH]; intros m Hnodup; cbn [foldl]; [exact Hnodup|].
  apply IH. now apply NoDup_Map_delete.
Qed.

Lemma length_Map_delete_le (k : Z) (m : BlocksIds) :
  (length (Map_delete k m) <= length m)%nat.
Proof. unfold Map_delete. apply length_filter. Qed.

Lemma length_delete_all_le ks : forall m : BlocksIds,
  (length (foldl (fun m key => Map_delete key m) m ks) <= length m)%nat.
Proof.
  induction ks as [|k ks IH]; intros m; cbn [foldl]; [lia|].
  etransitivity; [apply IH|apply length_Map_delete_le].
Qed.

Lemma length_Map_delete_lt (k : Z) (m : BlocksIds) :
  k ∈ m.*1 -> (length (Map_delete k m) < length m)%nat.
Proof.
  unfold Map_delete. induction m as [|[k0 v0] m IH]; cbn [fmap list_fmap fst].
  - intros Hin. now apply elem_of_nil in Hin.
  - intros Hin. destruct (decide (k0 = k)) as [->|Hne].
    + rewrite filter_cons_False by (cbn; tauto). cbn [length].
      pose proof (length_filter (fun kv : Z * string => kv.1 <> k) m). lia.
    + rewrite filter_cons_True by exact Hne. cbn [length].
      apply elem_of_cons in Hin as [?|Hin]; [congruence|]. apply IH in Hin. lia.
Qed.

Lemma length_Map_set_le (k : Z) (v : string) (m : BlocksIds) :
  (length (Map_set k v m) <= S (length m))%nat.
Proof.
  rewrite <- (length_fmap fst (Map_set k v m)), Map_set_keys.
  case_decide; rewrite ?length_app, length_fmap; cbn; lia.
Qed.

Lemma length_deleteMin (m : BlocksIds) :
  m <> [] -> (length (deleteMin m) < length m)%nat.
Proof.
  intros Hne. unfold deleteMin. destruct m as [|[k v] m]; [congruence|].
  cbn [fmap list_fmap fst]. apply length_Map_delete_lt. cbn [fmap list_fmap fst].
  destruct (foldl_min_in k m.*1) as [->|Hin]; [now left|right; now apply list_elem_of_In].
Qed.

(** The entries of [blocksIds] after [clearPoolByHeight]: those below
    [height]. *)
Lemma Map_get_clearPoolByHeight (height k : Z) (m : BlocksIds) :
  Map_get k (clearPoolByHeight height m) = if k <? height then Map_get k m else None.
Proof.
  unfold clearPoolByHeight. rewrite Map_get_delete_all.
  destruct (Z.ltb_spec k height) as [Hlow|Hhigh].
  - rewrite decide_False; [reflexivity|]. rewrite list_elem_of_In, filter_In.
    intros [_ Hge]. apply Z.geb_le in Hge. lia.
  - case_decide as Hin; [reflexivity|]. apply Map_get_None. intros Hk.
    apply Hin. rewrite list_elem_of_In, filter_In. split; [now apply list_elem_of_In|].
    apply Z.geb_le. lia.
Qed.

(** X26.  [addBlockIdInPool] keeps the map of block ids within
    [MAX_BLOCK_IN_MEMORY] entries. *)
Theorem addBlockIdInPool_bounded (lastBlock : Block) (blocksIds : BlocksIds) :
  Z.of_nat (length blocksIds) <= MAX_BLOCK_IN_MEMORY ->
  Z.of_nat (length (addBlockIdInPool lastBlock blocksIds)) <= MAX_BLOCK_IN_MEMORY.
Proof.
  intros Hbound. unfold addBlockIdInPool. cbv zeta.
  set (cleared := if Map_has (Block.height lastBlock) blocksIds
                  then clearPoolByHeight (Block.height lastBlock) blocksIds
                  else blocksIds).
  assert (Hcleared : (length cleared <= length blocksIds)%nat).
  { unfold cleared. destruct (Map_has _ _); [apply length_delete_all_le|lia]. }
  pose proof (length_Map_set_le (Block.height lastBlock) (Block.id lastBlock) cleared) as Hset.
  destruct (Z.gtb_spec (Z.of_nat (length (Map_set (Block.height lastBlock)
                                            (Block.id lastBlock) cleared)))
              MAX_BLOCK_IN_MEMORY) as [Hfull|Hfits]; [|exact Hfits].
  assert (Hne : Map_set (Block.height lastBlock) (Block.id lastBlock) cleared <> []).
  { intros Hnil. rewrite Hnil in Hfull. cbn in Hfull. unfold MAX_BLOCK_IN_MEMORY in Hfull. lia. }
  pose proof (length_deleteMin _ Hne). lia.
Qed.

(** X27.  When the map already has an entry at the height of the block
    and is within its bound, [addBlockIdInPool] replaces the chain from
    that height on: afterwards the height maps to the id of the block,
    the entries below the height are as they were, and no entry above
    the height is left. *)
Theorem addBlockIdInPool_replaces_from_height
        (lastBlock : Block) (blocksIds : BlocksIds) (k : Z) :
  Map_has (Block.height lastBlock) blocksIds = true ->
  Z.of_nat (length blocksIds) <= MAX_BLOCK_IN_MEMORY ->
  Map_get k (addBlockIdInPool lastBlock blocksIds)
  = if decide (k = Block.height lastBlock) then Some (Block.id lastBlock)
    else if k <? Block.height lastBlock then Map_get k blocksIds
    else None.
Proof.
  intros Hhas Hbound. unfold addBlockIdInPool. cbv zeta. rewrite Hhas.
  set (h := Block.height lastBlock). set (cleared := clearPoolByHeight h blocksIds).
  assert (Hshrunk : (length cleared < length blocksIds)%nat).
  { unfold cleared, clearPoolByHeight.
    assert (Hin : In h (List.filter (fun key => key >=? h) blocksIds.*1)).
    { apply filter_In. split; [|apply Z.geb_le; lia].
      apply list_elem_of_In. unfold Map_has in Hhas. now apply bool_decide_eq_true in Hhas. }
    revert Hin. generalize (List.filter (fun key => key >=? h) blocksIds.*1).
    intros ks. revert blocksIds Hhas Hbound cleared.
    induction ks as [|k0 ks IH]; intros m Hhas Hbound cleared; [intros []|].
    cbn [foldl]. intros [->|Hin].
    - eapply Nat.le_lt_trans; [apply length_delete_all_le|].
      apply length_Map_delete_lt. unfold Map_has in Hhas.
      now apply bool_decide_eq_true in Hhas.
    - destruct (decide (k0 = h)) as [->|Hne].
      + eapply Nat.le_lt_trans; [apply length_delete_all_le|].
        apply length_Map_delete_lt. unfold Map_has in Hhas.
        now apply bool_decide_eq_true in Hhas.
      + eapply Nat.lt_le_trans; [|apply (length_Map_delete_le k0 m)].
        apply IH; [| |exact Hin].
        * apply Map_has_get.
          rewrite Map_get_delete, decide_False by (intros Heq; apply Hne; symmetry; exact Heq).
          now apply Map_has_get.
        * pose proof (length_Map_delete_le k0 m). lia. }
  pose proof (length_Map_set_le h (Block.id lastBlock) cleared) as Hset.
  destruct (Z.gtb_spec (Z.of_nat (length (Map_set h (Block.id lastBlock) cleared)))
              MAX_BLOCK_IN_MEMORY) as [Hfull|Hfits]; [lia|].
  rewrite Map_get_set. case_decide; [reflexivity|].
  apply Map_get_clearPoolByHeight.
Qed.

(** X28.  When the map is full and the height of the block is new,
    [addBlockIdInPool] evicts the entry of the lowest height, which is
    the new entry itself when the block is below every height of the
    map; the other entries are as they were, and the new height maps to
    the id of the block unless it was evicted. *)
Theorem addBlockIdInPool_evicts_lowest
        (lastBlock : Block) (blocksIds : BlocksIds) (k : Z) :
  Z.of_nat (length blocksIds) = MAX_BLOCK_IN_MEMORY ->
  Map_has (Block.height lastBlock) blocksIds = false ->
  exists lowest,
    (lowest = Block.height lastBlock \/ In lowest blocksIds.*1)
    /\ lowest <= Block.height lastBlock
    /\ (forall key, In key blocksIds.*1 -> lowest <= key)
    /\ Map_get k (addBlockIdInPool lastBlock blocksIds)
       = if decide (k = lowest) then None
         else if decide (k = Block.height lastBlock) then Some (Block.id lastBlock)
         else Map_get k blocksIds.
Proof.
  intros Hfull Hfresh. unfold addBlockIdInPool. cbv zeta. rewrite Hfresh.
  set (h := Block.height lastBlock) in *.
  assert (Hkeys : (Map_set h (Block.id lastBlock) blocksIds).*1 = blocksIds.*1 ++ [h]).
  { rewrite Map_set_keys. rewrite decide_False; [reflexivity|].
    unfold Map_has in Hfresh. now apply bool_decide_eq_false in Hfresh. }
  assert (Hlen : length (Map_set h (Block.id lastBlock) blocksIds) = S (length blocksIds)).
  { rewrite <- (length_fmap fst), Hkeys, length_app, length_fmap. cbn. lia. }
  rewrite Hlen.
  replace (Z.of_nat (S (length blocksIds)) >? MAX_BLOCK_IN_MEMORY) with true
    by (symmetry; apply Z.gtb_lt; lia).
  unfold deleteMin. rewrite Hkeys.
  destruct (blocksIds.*1) as [|k0 keys] eqn:Hk; cbn [app].
  - exists h. split; [now left|]. split; [lia|]. split; [intros key []|].
    cbn [foldl]. rewrite Map_get_delete, Map_get_set. reflexivity.
  - set (lowest := foldl Z.min k0 (keys ++ [h])).
    exists lowest.
    assert (Hle : forall x, x = k0 \/ In x (keys ++ [h]) -> lowest <= x)
      by apply foldl_min_le.
    assert (Hin : lowest = k0 \/ In lowest (keys ++ [h])) by apply foldl_min_in.
    split.
    { destruct Hin as [->|Hin]; [right; now left|].
      apply in_app_or in Hin as [Hin|[<-|[]]]; [right; now right|now left]. }
    split.
    { apply Hle. right. apply in_or_app. right. now left. }
    split.
    { intros key Hkey. apply Hle.
      destruct Hkey as [->|Hkey]; [now left|right; apply in_or_app; now left]. }
    rewrite Map_get_delete, Map_get_set. reflexivity.
Qed.
End SystemRepositoryFacts.

(** ** The properties on the sample node *)

Lemma Sample_dispatcher_laws : @DispatcherLaws Sample.dispatcher.
Proof.
  constructor. intros trs [a|] l; cbn; [|reflexivity].
  rewrite list_alter_alter_eq. apply list_alter_id. intros b. cbn. lia.
Qed.

(** Witness of C1: the third transaction of the block overdraws account 1. *)
Lemma checkTransactions_rollback_is_lifo_witness :
  firstFailure (D := Sample.dispatcher) [Sample.tx1; Sample.tx2; Sample.tx3] Sample.world
  = Some 2%nat
  /\ exists w',
       checkTransactionsAndApplyUnconfirmed (E := Sample.env []) (D := Sample.dispatcher)
         (Sample.block 2 [Sample.tx1; Sample.tx2; Sample.tx3]) true Sample.world
       = Normal ((Sample.block 2 [Sample.tx1; Sample.tx2; Sample.tx3],
                  failure ["Not enough balance"]), w')
       /\ undoUnconfirmedCalls (trace w') = [Sample.tx2; Sample.tx1]
       /\ ledger w' = ledger Sample.world.
Proof.
  split; [reflexivity|].
  destruct (checkTransactions_rollback_is_lifo (E := Sample.env []) (D := Sample.dispatcher)
              (Sample.block 2 [Sample.tx1; Sample.tx2; Sample.tx3]) Sample.world 2 eq_refl)
    as (w' & Hrun & _ & Htrace & Hledger).
  exists w'. split; [exact Hrun|]. split.
  - rewrite Htrace. reflexivity.
  - apply Hledger; [exact Sample_dispatcher_laws|].
    repeat constructor.
Defined.

(** Counterexample to C2 as the specification words it: the durable save
    of a block of two transactions fails after both were applied
    unconfirmed, and [process] calls [undoUnconfirmed] on both. *)
Lemma process_save_failure_counterexample :
  match process (C := Sample.crypto) (E := Sample.env ["db down"]) (D := Sample.dispatcher)
          25 (Sample.block 1 [Sample.tx1; Sample.tx2]) true None false Sample.world with
  | Normal ((_, response), w') =>
      ResponseEntity.errors response = ["db down"; "applyBlock"; "process"]
      /\ applyUnconfirmedCalls (trace w') = [Sample.tx1; Sample.tx2]
      /\ undoUnconfirmedCalls (trace w') = [Sample.tx2; Sample.tx1]
      /\ undoUnconfirmedCalls (trace w') <> []
  | _ => False
  end.
Proof. vm_compute. repeat split; discriminate. Qed.

(** Witness of the amended C2, on the same run. *)
Lemma process_undoes_unconfirmed_on_save_failure_witness :
  batchSave (Env := Sample.env ["db down"]) (Sample.block 1 [Sample.tx1; Sample.tx2]) <> []
  /\ exists w',
       process (C := Sample.crypto) (E := Sample.env ["db down"]) (D := Sample.dispatcher)
         25 (Sample.block 1 [Sample.tx1; Sample.tx2]) true None false Sample.world
       = Normal ((Sample.block 1 [Sample.tx1; Sample.tx2],
                  failure ["db down"; "applyBlock"; "process"]), w')
       /\ undoUnconfirmedCalls (trace w') = [Sample.tx2; Sample.tx1]
       /\ queue w' = [Sample.tx2; Sample.tx1].
Proof.
  split; [discriminate|].
  destruct (process_undoes_unconfirmed_on_save_failure
              (C := Sample.crypto) (E := Sample.env ["db down"]) (D := Sample.dispatcher)
              25 (Sample.block 1 [Sample.tx1; Sample.tx2]) true None false Sample.world
              (Sample.block 1 [Sample.tx1; Sample.tx2]) ok
              (checkedWorld (D := Sample.dispatcher) [Sample.tx1; Sample.tx2]
                 (processEntered (Sample.block 1 [Sample.tx1; Sample.tx2]) false Sample.world))
              (Sample.block 1 [Sample.tx1; Sample.tx2]) ok
              (checkedWorld (D := Sample.dispatcher) [Sample.tx1; Sample.tx2]
                 (processEntered (Sample.block 1 [Sample.tx1; Sample.tx2]) false Sample.world)))
    as (w' & Hrun & Hcalls & Hqueue).
  - discriminate.
  - reflexivity.
  - vm_compute. reflexivity.
  - reflexivity.
  - reflexivity.
  - discriminate.
  - exists w'. split; [exact Hrun|]. split; [rewrite Hcalls|rewrite Hqueue]; reflexivity.
Defined.


(** Witness of C5: no exception is caught for the sample block, whose
    slot 2 is not after slot 2 of the last block. *)
Lemma verifyBlock_reports_invalid_timestamp_witness :
  ~ In timestampError
      (caughtTexts (C := Sample.crypto) (D := Sample.dispatcher)
         (Sample.block 2 [Sample.tx1]) true)
  /\ In timestampError
       (ResponseEntity.errors
          (verifyBlock (C := Sample.crypto) (E := Sample.env []) (D := Sample.dispatcher)
             25 (Sample.block 1 []) (Sample.block 2 [Sample.tx1]) true)).
Proof.
  assert (Hcaught : ~ In timestampError
                      (caughtTexts (C := Sample.crypto) (D := Sample.dispatcher)
                         (Sample.block 2 [Sample.tx1]) true))
    by (cbn; tauto).
  split; [exact Hcaught|].
  apply (verifyBlock_reports_invalid_timestamp
           (C := Sample.crypto) (E := Sample.env []) (D := Sample.dispatcher)
           25 (Sample.block 1 []) (Sample.block 2 [Sample.tx1]) true Hcaught).
  cbn. lia.
Defined.

(** The pool of the sample node is consistent. *)
Lemma Sample_pooled_consistent : poolConsistent Sample.pooled.
Proof.
  assert (Hpooled : Sample.pooled
            = pushedWorld (D := Sample.dispatcher) Sample.tx1 (Some 1) false
                (pushedWorld (D := Sample.dispatcher) Sample.tx2 (Some 2) false Sample.world))
    by (vm_compute; reflexivity).
  rewrite Hpooled.
  apply poolConsistent_pushedWorld; [vm_compute; reflexivity|].
  apply poolConsistent_pushedWorld; [vm_compute; reflexivity|].
  apply poolConsistent_empty; reflexivity.
Qed.

(** Witness of C6: the pool holds [tx2] and [tx1]; one transaction is
    popped, the one that sorts first. *)
Lemma popSortedUnconfirmedTransactions_spec_witness :
  poolConsistent Sample.pooled
  /\ 0 <= 1
  /\ exists w',
       popSortedUnconfirmedTransactions (E := Sample.env []) (D := Sample.dispatcher)
         1 Sample.pooled = Normal ([Sample.tx1], w')
       /\ undoUnconfirmedCalls (trace w') = [Sample.tx1].
Proof.
  split; [exact Sample_pooled_consistent|]. split; [lia|].
  destruct (popSortedUnconfirmedTransactions_spec (E := Sample.env []) (D := Sample.dispatcher)
              1 Sample.pooled Sample_pooled_consistent ltac:(lia))
    as (w' & Hrun & _ & _ & _ & _ & _ & _ & Hcalls).
  exists w'. split; [exact Hrun|]. rewrite Hcalls. reflexivity.
Defined.

(** Witness of C7: [tx3] is pushed into the pool that holds [tx1] and
    [tx2], then removed. *)
Lemma push_then_remove_restores_witness :
  poolConsistent Sample.pooled
  /\ Map_has (Transaction.id Sample.tx3) (pool Sample.pooled) = false
  /\ exists w1 w2,
       push (D := Sample.dispatcher) Sample.tx3 None true Sample.pooled = Normal (tt, w1)
       /\ remove (E := Sample.env []) (D := Sample.dispatcher) Sample.tx3 w1
          = Normal (true, w2)
       /\ ledger w2 = ledger Sample.pooled
       /\ ~ staged Sample.tx3 w2.
Proof.
  split; [exact Sample_pooled_consistent|]. split; [reflexivity|].
  destruct (push_then_remove_restores (E := Sample.env []) (D := Sample.dispatcher)
              (H := Sample_dispatcher_laws) Sample.tx3 None true Sample.pooled
              Sample_pooled_consistent eq_refl)
    as (w1 & w2 & Hpush & Hremove & Hledger & _ & _ & Hgone).
  - vm_compute. eauto.
  - reflexivity.
  - now left.
  - exists w1, w2. repeat split; assumption.
Defined.

(** Witness of C9. *)
Lemma deleteLastBlock_rejects_genesis_witness :
  last (lastNBlocks Sample.atGenesis) = Some (Sample.block 1 [])
  /\ deleteLastBlock (E := Sample.env []) (D := Sample.dispatcher) Sample.atGenesis
     = Normal (failure ["Cannot delete genesis block"], Sample.atGenesis).
Proof.
  split; [reflexivity|].
  apply (deleteLastBlock_rejects_genesis (E := Sample.env []) (D := Sample.dispatcher)
           Sample.atGenesis (Sample.block 1 [])); reflexivity.
Defined.

(** Witness of C10: [tx1] is already in the pool. *)
Lemma push_duplicate_is_noop_witness :
  Map_has (Transaction.id Sample.tx1) (pool Sample.pooled) = true
  /\ push (D := Sample.dispatcher) Sample.tx1 None true Sample.pooled
     = Normal (tt, Sample.pooled).
Proof.
  split; [reflexivity|].
  apply (push_duplicate_is_noop (D := Sample.dispatcher) Sample.tx1 None true Sample.pooled).
  reflexivity.
Defined.

(** Scenario 3 of section 8: with a SEND of account 1 in the pool, a
    SIGNATURE of account 1 is a potential conflict; a later SEND of
    account 1, which sorts after every dependent, is not. *)
Example isPotentialConflict_scenario :
  match isPotentialConflict (D := Sample.dispatcher) Sample.tx4 Sample.pooled,
        isPotentialConflict (D := Sample.dispatcher) Sample.tx5 Sample.pooled with
  | Normal (signature, _), Normal (send, _) => signature = true /\ send = false
  | _, _ => False
  end.
Proof. vm_compute. split; reflexivity. Qed.

(** ** The further properties on the sample nodes *)

(** Witness of X3. *)
Lemma verifyBlock_reports_timestamp_first_witness :
  ~ slotInRange (E := Sample.env []) 25 (Sample.block 1 []) (Sample.block 2 [Sample.tx1])
  /\ exists earlier,
       ResponseEntity.errors
         (verifyBlock (C := Sample.crypto) (E := Sample.env []) (D := Sample.dispatcher)
            25 (Sample.block 1 []) (Sample.block 2 [Sample.tx1]) true)
       = timestampError :: earlier.
Proof.
  assert (Hout : ~ slotInRange (E := Sample.env []) 25 (Sample.block 1 [])
                     (Sample.block 2 [Sample.tx1]))
    by (unfold slotInRange; cbn; lia).
  split; [exact Hout|].
  exact (verifyBlock_reports_timestamp_first (C := Sample.crypto) (E := Sample.env [])
           (D := Sample.dispatcher) 25 (Sample.block 1 []) (Sample.block 2 [Sample.tx1])
           true Hout).
Defined.

(** Witness of X4: the slot validation is off for every slot of the
    sample node. *)
Lemma verifyBlockSlot_accepts_iff_witness :
  currentRound Scenario.inRound = Some Scenario.round
  /\ exists response,
       verifyBlockSlot (E := Sample.env []) (D := Sample.dispatcher)
         (Scenario.next []) Scenario.inRound = Normal (response, Scenario.inRound)
       /\ success response = true.
Proof.
  split; [reflexivity|].
  destruct (verifyBlockSlot_accepts_iff (E := Sample.env []) (D := Sample.dispatcher)
              (Scenario.next []) Scenario.inRound Scenario.round eq_refl)
    as (response & Hrun & Hiff).
  exists response. split; [exact Hrun|]. apply Hiff. right. left. reflexivity.
Defined.

(** Witness of X5. *)
Lemma checkTransactions_applies_all_witness :
  firstFailure (D := Sample.dispatcher) [Sample.tx1; Sample.tx2] Sample.world = None
  /\ exists w',
       checkTransactionsAndApplyUnconfirmed (E := Sample.env []) (D := Sample.dispatcher)
         (Sample.block 2 [Sample.tx1; Sample.tx2]) true Sample.world
       = Normal ((Sample.block 2 [Sample.tx1; Sample.tx2], ok), w')
       /\ ledger w' = [0; 69; 29].
Proof.
  split; [reflexivity|].
  destruct (checkTransactions_applies_all (E := Sample.env []) (D := Sample.dispatcher)
              (Sample.block 2 [Sample.tx1; Sample.tx2]) Sample.world eq_refl)
    as (w' & Hrun & _ & Hledger).
  exists w'. split; [exact Hrun|]. rewrite Hledger. reflexivity.
Defined.


(** Witness of X9: the sample signatures verify and the sample bytes of a
    transaction are those of its id. *)
Lemma sealed_block_passes_verification_witness :
  exists sealed response w',
    addPayloadHash (C := Sample.crypto) (D := Sample.dispatcher)
      (Scenario.next [Sample.tx1; Sample.tx2]) Scenario.keyPair Sample.world
    = Normal ((sealed, response), w')
    /\ sealedCorrectly (C := Sample.crypto) (E := Sample.env []) (D := Sample.dispatcher)
         sealed
    /\ verifyBlock (C := Sample.crypto) (E := Sample.env []) (D := Sample.dispatcher)
         35 (Sample.block 1 []) sealed true
       = verifyBlock (C := Sample.crypto) (E := Sample.env []) (D := Sample.dispatcher)
           35 (Sample.block 1 []) sealed false.
Proof.
  destruct (addPayloadHash (C := Sample.crypto) (D := Sample.dispatcher)
              (Scenario.next [Sample.tx1; Sample.tx2]) Scenario.keyPair Sample.world)
    as [[[sealed response] w']| |] eqn:Hrun.
  - exists sealed, response, w'. split; [reflexivity|].
    apply (sealed_block_passes_verification (C := Sample.crypto) (E := Sample.env [])
             (D := Sample.dispatcher) 35 (Sample.block 1 [])
             (Scenario.next [Sample.tx1; Sample.tx2]) Scenario.keyPair Sample.world
             sealed response w' Hrun).
    + intros trs b. reflexivity.
    + intros message. reflexivity.
    + vm_compute. reflexivity.
    + reflexivity.
    + reflexivity.
    + reflexivity.
    + vm_compute. discriminate.
    + apply NoDup_ListNoDup. repeat constructor; cbn; intuition discriminate.
    + repeat constructor; unfold notInherited; intros Hin;
        apply list_elem_of_In in Hin; cbn in Hin; intuition discriminate.
    + split; [repeat constructor; cbn; lia|split; vm_compute; discriminate].
  - exfalso.
    assert (Hnormal : match addPayloadHash (C := Sample.crypto) (D := Sample.dispatcher)
                              (Scenario.next [Sample.tx1; Sample.tx2]) Scenario.keyPair
                              Sample.world with
                      | Normal _ => True | _ => False end)
      by (vm_compute; exact I).
    rewrite Hrun in Hnormal. exact Hnormal.
  - exfalso.
    assert (Hnormal : match addPayloadHash (C := Sample.crypto) (D := Sample.dispatcher)
                              (Scenario.next [Sample.tx1; Sample.tx2]) Scenario.keyPair
                              Sample.world with
                      | Normal _ => True | _ => False end)
      by (vm_compute; exact I).
    rewrite Hrun in Hnormal. exact Hnormal.
Defined.

(** Witness of X10: the block of [Scenario.next] is applied in the round
    of its generator. *)
Lemma applyBlock_stores_and_applies_witness :
  batchSave (Env := Sample.env []) (Scenario.next [Sample.tx1]) = []
  /\ exists w',
       applyBlock (C := Sample.crypto) (E := Sample.env []) (D := Sample.dispatcher)
         (Scenario.next [Sample.tx1]) true None Scenario.inRound
       = Normal ((Scenario.next [Sample.tx1], ok), w')
       /\ lastNBlocks w' = [Sample.block 1 []; Scenario.next [Sample.tx1]]
       /\ currentRound w'
          = Some (marked "aa" {| slot := 3; isForged := false |} true Scenario.round).
Proof.
  split; [reflexivity|].
  destruct (applyBlock_stores_and_applies (C := Sample.crypto) (E := Sample.env [])
              (D := Sample.dispatcher) (Scenario.next [Sample.tx1]) true Scenario.inRound
              eq_refl)
    as (w' & Hrun & Hblocks & _ & _ & _ & Hround & _).
  - intros _. exists Scenario.round, {| slot := 3; isForged := false |}.
    split; [reflexivity|]. vm_compute. reflexivity.
  - exists w'. split; [exact Hrun|]. split; [rewrite Hblocks; reflexivity|].
    apply Hround; [vm_compute; discriminate|reflexivity|vm_compute; reflexivity].
Defined.


(** Witness of X12: a block with the id of the genesis block is received
    with a key pair, so that it is verified without its signature. *)
Lemma process_rejects_stored_block_witness :
  existsb (fun b => String.eqb (Block.id b) (Block.id (Scenario.next [])))
    (lastNBlocks Scenario.inRound) = true
  /\ process (C := Sample.crypto) (E := Sample.env []) (D := Sample.dispatcher)
       35 (Scenario.next []) true (Some Scenario.keyPair) true Scenario.inRound
     = Normal ((Scenario.next [], failure ["Block f00d already exists"]),
               processEntered (Scenario.next []) true Scenario.inRound).
Proof.
  split; [reflexivity|].
  apply (process_rejects_stored_block (C := Sample.crypto) (E := Sample.env [])
           (D := Sample.dispatcher) 35 (Scenario.next []) true (Some Scenario.keyPair) true
           Scenario.inRound).
  - intros _. exists (Sample.block 1 []), ok.
    split; [reflexivity|]. split; [vm_compute; reflexivity|].
    split; [vm_compute; reflexivity|reflexivity].
  - reflexivity.
Defined.

(** Witness of X13: a block is processed while [tx2] and [tx1] are
    pooled. *)
Lemma process_leaves_the_pool_alone_witness :
  exists result w',
    process (C := Sample.crypto) (E := Sample.env ["db down"]) (D := Sample.dispatcher)
      25 (Sample.block 1 [Sample.tx3]) true None false Sample.pooled
    = Normal (result, w')
    /\ pool w' = pool Sample.pooled
    /\ poolBySender w' = poolBySender Sample.pooled
    /\ poolByRecipient w' = poolByRecipient Sample.pooled.
Proof.
  destruct (process (C := Sample.crypto) (E := Sample.env ["db down"])
              (D := Sample.dispatcher)
              25 (Sample.block 1 [Sample.tx3]) true None false Sample.pooled)
    as [[result w']| |] eqn:Hrun.
  - exists result, w'. split; [reflexivity|].
    destruct (process_leaves_the_pool_alone (C := Sample.crypto)
                (E := Sample.env ["db down"]) (D := Sample.dispatcher)
                25 (Sample.block 1 [Sample.tx3]) true None false Sample.pooled result w' Hrun)
      as (Hpool & Hsender & Hrecipient & _).
    repeat split; assumption.
  - exfalso.
    assert (Hnormal : match process (C := Sample.crypto) (E := Sample.env ["db down"])
                              (D := Sample.dispatcher)
                              25 (Sample.block 1 [Sample.tx3]) true None false Sample.pooled with
                      | Normal _ => True | _ => False end)
      by (vm_compute; exact I).
    rewrite Hrun in Hnormal. exact Hnormal.
  - exfalso.
    assert (Hnormal : match process (C := Sample.crypto) (E := Sample.env ["db down"])
                              (D := Sample.dispatcher)
                              25 (Sample.block 1 [Sample.tx3]) true None false Sample.pooled with
                      | Normal _ => True | _ => False end)
      by (vm_compute; exact I).
    rewrite Hrun in Hnormal. exact Hnormal.
Defined.

(** Witness of X14: the durable save of a block of two transactions
    fails after both were applied unconfirmed. *)
Lemma process_refusal_restores_ledger_witness :
  exists block' response w',
    process (C := Sample.crypto) (E := Sample.env ["db down"]) (D := Sample.dispatcher)
      25 (Sample.block 1 [Sample.tx1; Sample.tx2]) true None false Sample.world
    = Normal ((block', response), w')
    /\ success response = false
    /\ ledger w' = ledger Sample.world
    /\ lastNBlocks w' = lastNBlocks Sample.world.
Proof.
  destruct (process (C := Sample.crypto) (E := Sample.env ["db down"])
              (D := Sample.dispatcher)
              25 (Sample.block 1 [Sample.tx1; Sample.tx2]) true None false Sample.world)
    as [[[block' response] w']| |] eqn:Hrun.
  - assert (Hrefused : success response = false).
    { assert (Hcomputed :
                match process (C := Sample.crypto) (E := Sample.env ["db down"])
                        (D := Sample.dispatcher)
                        25 (Sample.block 1 [Sample.tx1; Sample.tx2]) true None false
                        Sample.world with
                | Normal ((_, r), _) => success r = false
                | _ => False
                end)
        by (vm_compute; reflexivity).
      rewrite Hrun in Hcomputed. exact Hcomputed. }
    exists block', response, w'. split; [reflexivity|]. split; [exact Hrefused|].
    destruct (process_refusal_restores_ledger (C := Sample.crypto)
                (E := Sample.env ["db down"]) (D := Sample.dispatcher)
                (H := Sample_dispatcher_laws)
                25 (Sample.block 1 [Sample.tx1; Sample.tx2]) true false Sample.world
                block' response w')
      as (Hledger & _ & Hblocks & _).
    + repeat constructor.
    + exact Hrun.
    + exact Hrefused.
    + split; assumption.
  - exfalso.
    assert (Hnormal : match process (C := Sample.crypto) (E := Sample.env ["db down"])
                              (D := Sample.dispatcher)
                              25 (Sample.block 1 [Sample.tx1; Sample.tx2]) true None false
                              Sample.world with
                      | Normal _ => True | _ => False end)
      by (vm_compute; exact I).
    rewrite Hrun in Hnormal. exact Hnormal.
  - exfalso.
    assert (Hnormal : match process (C := Sample.crypto) (E := Sample.env ["db down"])
                              (D := Sample.dispatcher)
                              25 (Sample.block 1 [Sample.tx1; Sample.tx2]) true None false
                              Sample.world with
                      | Normal _ => True | _ => False end)
      by (vm_compute; exact I).
    rewrite Hrun in Hnormal. exact Hnormal.
Defined.

(** Witness of X16: the last block of [Scenario.chained] holds [tx1]. *)
Lemma deleteLastBlock_undoes_last_block_witness :
  last (lastNBlocks Scenario.chained) = Some (Scenario.next [Sample.tx1])
  /\ exists w',
       deleteLastBlock (E := Sample.env []) (D := Sample.dispatcher) Scenario.chained
       = Normal (mkResponse (Some (Sample.block 1 [])) [], w')
       /\ lastNBlocks w' = [Sample.block 1 []]
       /\ undoUnconfirmedCalls (trace w') = [Sample.tx1].
Proof.
  split; [reflexivity|].
  destruct (deleteLastBlock_undoes_last_block (E := Sample.env []) (D := Sample.dispatcher)
              Scenario.chained (Scenario.next [Sample.tx1]) Scenario.round
              {| slot := 3; isForged := false |})
    as (w' & Hrun & Hblocks & _ & _ & Htrace & _).
  - reflexivity.
  - vm_compute. discriminate.
  - reflexivity.
  - reflexivity.
  - vm_compute. reflexivity.
  - exists w'. split; [exact Hrun|]. split; [rewrite Hblocks; reflexivity|].
    rewrite Htrace. reflexivity.
Defined.

(** Witness of X17: [tx3] is pushed into the pool that holds [tx2] and
    [tx1]. *)
Lemma push_inserts_witness :
  Map_has (Transaction.id Sample.tx3) (pool Sample.pooled) = false
  /\ exists w',
       push (D := Sample.dispatcher) Sample.tx3 None true Sample.pooled = Normal (tt, w')
       /\ get (D := Sample.dispatcher) "c3" w' = Normal (Some Sample.tx3, w')
       /\ getTransactions (D := Sample.dispatcher) w'
          = Normal ([Sample.tx2; Sample.tx1; Sample.tx3], w')
       /\ getBySenderAddress (D := Sample.dispatcher) 1 w'
          = Normal ([Sample.tx1; Sample.tx3], w').
Proof.
  split; [reflexivity|].
  destruct (push_inserts (D := Sample.dispatcher) Sample.tx3 None true Sample.pooled eq_refl)
    as (w' & Hrun & _ & Hget & Hall & _ & Hsender & _).
  exists w'. split; [exact Hrun|]. split; [exact Hget|]. split; [exact Hall|exact Hsender].
Defined.

(** The pool of the sample node is indexed. *)
Lemma Sample_pooled_indexed : poolIndexed Sample.pooled.
Proof.
  intros id t Hin.
  assert (Hpool : pool Sample.pooled = [("b2"%string, Sample.tx2); ("a1"%string, Sample.tx1)])
    by (vm_compute; reflexivity).
  rewrite Hpool in Hin. destruct Hin as [[= <- <-]|[[= <- <-]|[]]].
  - split; [vm_compute; auto|]. intros a [<-|[]]. vm_compute. auto.
  - split; [vm_compute; auto|]. intros a [<-|[]]. vm_compute. auto.
Qed.

(** Witness of X18. *)
Lemma push_keeps_pool_consistent_witness :
  poolConsistent Sample.pooled
  /\ poolIndexed Sample.pooled
  /\ exists w',
       push (D := Sample.dispatcher) Sample.tx3 None true Sample.pooled = Normal (tt, w')
       /\ poolConsistent w'
       /\ poolIndexed w'.
Proof.
  split; [exact Sample_pooled_consistent|]. split; [exact Sample_pooled_indexed|].
  exact (push_keeps_pool_consistent (D := Sample.dispatcher) Sample.tx3 None true
           Sample.pooled Sample_pooled_consistent Sample_pooled_indexed).
Defined.

(** Witness of X19: [tx1] is the object that is pooled under its id. *)
Lemma remove_keeps_pool_consistent_witness :
  poolConsistent Sample.pooled
  /\ In (Transaction.id Sample.tx1, Sample.tx1) (pool Sample.pooled)
  /\ exists removed w',
       remove (E := Sample.env []) (D := Sample.dispatcher) Sample.tx1 Sample.pooled
       = Normal (removed, w')
       /\ poolConsistent w'.
Proof.
  assert (Hpooled : In (Transaction.id Sample.tx1, Sample.tx1) (pool Sample.pooled))
    by (vm_compute; auto).
  split; [exact Sample_pooled_consistent|]. split; [exact Hpooled|].
  exact (remove_keeps_pool_consistent (E := Sample.env []) (D := Sample.dispatcher)
           Sample.tx1 Sample.pooled Sample_pooled_consistent (fun _ => Hpooled)).
Defined.

(** Witness of X20: [Scenario.copy] carries the id of the pooled [tx1]. *)
Lemma remove_of_a_copy_leaves_index_entry_witness :
  poolConsistent Sample.pooled
  /\ Transaction.id Scenario.copy = Transaction.id Sample.tx1
  /\ Scenario.copy <> Sample.tx1
  /\ exists w',
       remove (E := Sample.env []) (D := Sample.dispatcher) Scenario.copy Sample.pooled
       = Normal (true, w')
       /\ poolBySender w' !! 1 = Some [Sample.tx1]
       /\ ~ poolConsistent w'.
Proof.
  split; [exact Sample_pooled_consistent|]. split; [reflexivity|]. split; [discriminate|].
  destruct (remove_of_a_copy_leaves_index_entry (E := Sample.env []) (D := Sample.dispatcher)
              Scenario.copy Sample.tx1 Sample.pooled [Sample.tx1] Sample_pooled_consistent)
    as (w' & Hrun & _ & Hsender & _ & Hbroken).
  - vm_compute. reflexivity.
  - now left.
  - reflexivity.
  - discriminate.
  - exists w'. split; [exact Hrun|]. split; [exact Hsender|exact Hbroken].
Defined.

(** Witness of X21: [tx1] is filed under the sender address 1. *)
Lemma removeBySenderAddress_removes_all_witness :
  poolConsistent Sample.pooled
  /\ exists w',
       removeBySenderAddress (E := Sample.env []) (D := Sample.dispatcher) 1 Sample.pooled
       = Normal ([Sample.tx1], w')
       /\ poolConsistent w'
       /\ Map_has "a1" (pool w') = false.
Proof.
  split; [exact Sample_pooled_consistent|].
  destruct (removeBySenderAddress_removes_all (E := Sample.env []) (D := Sample.dispatcher)
              1 Sample.pooled Sample_pooled_consistent)
    as (w' & Hrun & Hcons & _ & Hgone & _).
  exists w'. split; [exact Hrun|]. split; [exact Hcons|].
  apply (Hgone Sample.tx1). vm_compute. auto.
Defined.

(** Witness of X22: [tx2] is filed under the recipient address 1. *)
Lemma removeByRecipientAddress_removes_all_witness :
  poolConsistent Sample.pooled
  /\ exists w',
       removeByRecipientAddress (E := Sample.env []) (D := Sample.dispatcher) 1 Sample.pooled
       = Normal ([Sample.tx2], w')
       /\ poolConsistent w'
       /\ Map_has "b2" (pool w') = false.
Proof.
  split; [exact Sample_pooled_consistent|].
  destruct (removeByRecipientAddress_removes_all (E := Sample.env [])
              (D := Sample.dispatcher) 1 Sample.pooled Sample_pooled_consistent)
    as (w' & Hrun & Hcons & _ & Hgone & _).
  exists w'. split; [exact Hrun|]. split; [exact Hcons|].
  apply (Hgone Sample.tx2). vm_compute. auto.
Defined.

(** Witness of X23: a block with a transaction of account 1 arrives when
    [tx1], sent by account 1, and [tx2], sent to it, are pooled. *)
Lemma batchRemove_removes_entangled_witness :
  poolConsistent Sample.pooled
  /\ exists removed w',
       batchRemove (E := Sample.env []) (D := Sample.dispatcher) [Sample.tx3] Sample.pooled
       = Normal (removed, w')
       /\ poolConsistent w'
       /\ In Sample.tx1 removed
       /\ In Sample.tx2 removed.
Proof.
  split; [exact Sample_pooled_consistent|].
  destruct (batchRemove_removes_entangled (E := Sample.env []) (D := Sample.dispatcher)
              [Sample.tx3] Sample.pooled Sample_pooled_consistent)
    as (removed & w' & Hrun & Hcons & _ & Hiff & _).
  exists removed, w'. split; [exact Hrun|]. split; [exact Hcons|].
  split; apply Hiff; exists Sample.tx3; (split; [now left|]); vm_compute; auto.
Defined.

(** Witness of X25: a block is received while [tx2] and [tx1] are pooled,
    and its durable save fails. *)
Lemma receiveBlock_refused_loses_nothing_witness :
  poolConsistent Sample.pooled
  /\ exists response w',
       receiveBlock (C := Sample.crypto) (E := Sample.env ["db down"])
         (D := Sample.dispatcher) (H := Scenario.checks) (H0 := Scenario.receiveEnv)
         25 (Sample.block 1 [Sample.tx3]) Sample.pooled
       = Normal (response, w')
       /\ success response = false
       /\ (Map_has "a1" (pool w') = true \/ In Sample.tx1 (queue w'))
       /\ poolConsistent w'.
Proof.
  split; [exact Sample_pooled_consistent|].
  destruct (receiveBlock (C := Sample.crypto) (E := Sample.env ["db down"])
              (D := Sample.dispatcher) (H := Scenario.checks) (H0 := Scenario.receiveEnv)
              25 (Sample.block 1 [Sample.tx3]) Sample.pooled)
    as [[response w']| |] eqn:Hrun.
  - assert (Hrefused : success response = false).
    { assert (Hcomputed :
                match receiveBlock (C := Sample.crypto) (E := Sample.env ["db down"])
                        (D := Sample.dispatcher) (H := Scenario.checks)
                        (H0 := Scenario.receiveEnv)
                        25 (Sample.block 1 [Sample.tx3]) Sample.pooled with
                | Normal (r, _) => success r = false
                | _ => False
                end)
        by (vm_compute; reflexivity).
      rewrite Hrun in Hcomputed. exact Hcomputed. }
    exists response, w'. split; [reflexivity|]. split; [exact Hrefused|].
    destruct (receiveBlock_refused_loses_nothing (C := Sample.crypto)
                (E := Sample.env ["db down"]) (D := Sample.dispatcher)
                (H := Scenario.checks) (H0 := Scenario.receiveEnv)
                25 (Sample.block 1 [Sample.tx3]) Sample.pooled response w'
                Sample_pooled_consistent Hrun Hrefused)
      as (_ & Hkept & Hcons).
    split; [|exact Hcons]. apply (Hkept Sample.tx1). vm_compute. auto.
  - exfalso.
    assert (Hnormal : match receiveBlock (C := Sample.crypto) (E := Sample.env ["db down"])
                              (D := Sample.dispatcher) (H := Scenario.checks)
                              (H0 := Scenario.receiveEnv)
                              25 (Sample.block 1 [Sample.tx3]) Sample.pooled with
                      | Normal _ => True | _ => False end)
      by (vm_compute; exact I).
    rewrite Hrun in Hnormal. exact Hnormal.
  - exfalso.
    assert (Hnormal : match receiveBlock (C := Sample.crypto) (E := Sample.env ["db down"])
                              (D := Sample.dispatcher) (H := Scenario.checks)
                              (H0 := Scenario.receiveEnv)
                              25 (Sample.block 1 [Sample.tx3]) Sample.pooled with
                      | Normal _ => True | _ => False end)
      by (vm_compute; exact I).
    rewrite Hrun in Hnormal. exact Hnormal.
Defined.

(** Witness of X26. *)
Lemma addBlockIdInPool_bounded_witness :
  Z.of_nat (length Scenario.full) <= MAX_BLOCK_IN_MEMORY
  /\ Z.of_nat (length (SystemRepository.addBlockIdInPool (Scenario.next []) Scenario.full))
     <= MAX_BLOCK_IN_MEMORY.
Proof.
  assert (Hfull : Z.of_nat (length Scenario.full) <= MAX_BLOCK_IN_MEMORY)
    by (vm_compute; discriminate).
  split; [exact Hfull|].
  exact (addBlockIdInPool_bounded (Scenario.next []) Scenario.full Hfull).
Defined.

(** Witness of X27: a block of height 2 arrives when the heights 1, 2 and
    3 are known; the entry of height 3 is dropped. *)
Lemma addBlockIdInPool_replaces_from_height_witness :
  Map_has (Block.height (Scenario.next [])) Scenario.short = true
  /\ Map_get 1 (SystemRepository.addBlockIdInPool (Scenario.next []) Scenario.short)
     = Some "b1"%string
  /\ Map_get 2 (SystemRepository.addBlockIdInPool (Scenario.next []) Scenario.short)
     = Some "f00d"%string
  /\ Map_get 3 (SystemRepository.addBlockIdInPool (Scenario.next []) Scenario.short) = None.
Proof.
  assert (Hshort : Z.of_nat (length Scenario.short) <= MAX_BLOCK_IN_MEMORY)
    by (vm_compute; discriminate).
  split; [reflexivity|].
  rewrite !(addBlockIdInPool_replaces_from_height (Scenario.next []) Scenario.short _
              eq_refl Hshort).
  repeat split; reflexivity.
Defined.

(** Witness of X28: a block of height 101 arrives when the heights 1 to
    100 are known. *)
Lemma addBlockIdInPool_evicts_lowest_witness :
  Z.of_nat (length Scenario.full) = MAX_BLOCK_IN_MEMORY
  /\ Map_has 101 Scenario.full = false
  /\ exists lowest,
       lowest <= 101
       /\ Map_get 101 (SystemRepository.addBlockIdInPool (Sample.block 101 []) Scenario.full)
          = if decide (101 = lowest) then None else Some "f00d"%string.
Proof.
  split; [reflexivity|]. split; [vm_compute; reflexivity|].
  destruct (addBlockIdInPool_evicts_lowest (Sample.block 101 []) Scenario.full 101)
    as (lowest & _ & Hle & _ & Hget).
  - reflexivity.
  - vm_compute. reflexivity.
  - exists lowest. split; [exact Hle|]. rewrite Hget.
    destruct (decide (101 = lowest)); reflexivity.
Defined.

(** Witness of X15: the sealed block is received in the round of its
    generator, after the genesis block. *)
Lemma process_accepts_only_verified_blocks_witness :
  exists block' response w',
    process (C := Sample.crypto) (E := Sample.env []) (D := Sample.dispatcher)
      35 Scenario.sealed true None true Scenario.inRound
    = Normal ((block', response), w')
    /\ success response = true
    /\ sealedCorrectly (C := Sample.crypto) (E := Sample.env []) (D := Sample.dispatcher)
         Scenario.sealed
    /\ last (lastNBlocks w') = Some Scenario.sealed.
Proof.
  destruct (process (C := Sample.crypto) (E := Sample.env []) (D := Sample.dispatcher)
              35 Scenario.sealed true None true Scenario.inRound)
    as [[[block' response] w']| |] eqn:Hrun.
  - assert (Haccepted : success response = true).
    { assert (Hcomputed :
                match process (C := Sample.crypto) (E := Sample.env [])
                        (D := Sample.dispatcher)
                        35 Scenario.sealed true None true Scenario.inRound with
                | Normal ((_, r), _) => success r = true
                | _ => False
                end)
        by (vm_compute; reflexivity).
      rewrite Hrun in Hcomputed. exact Hcomputed. }
    exists block', response, w'. split; [reflexivity|]. split; [exact Haccepted|].
    destruct (process_accepts_only_verified_blocks (C := Sample.crypto) (E := Sample.env [])
                (D := Sample.dispatcher) 35 Scenario.sealed true Scenario.inRound
                block' response w' Hrun Haccepted)
      as (_ & _ & Hsealed & _ & _ & _ & _ & Hlast).
    split; [exact Hsealed|exact Hlast].
  - exfalso.
    assert (Hnormal : match process (C := Sample.crypto) (E := Sample.env [])
                              (D := Sample.dispatcher)
                              35 Scenario.sealed true None true Scenario.inRound with
                      | Normal _ => True | _ => False end)
      by (vm_compute; exact I).
    rewrite Hrun in Hnormal. exact Hnormal.
  - exfalso.
    assert (Hnormal : match process (C := Sample.crypto) (E := Sample.env [])
                              (D := Sample.dispatcher)
                              35 Scenario.sealed true None true Scenario.inRound with
                      | Normal _ => True | _ => False end)
      by (vm_compute; exact I).
    rewrite Hrun in Hnormal. exact Hnormal.
Defined.
